(** * The Diophantine equality solver (dioph_eq::imp)

    A shallow embedding of the solver of linear integer equalities that
    follows Griggio's "A Practical Approach to SMT(LIA)", and the proofs of
    the properties its specification states.

    Conventions of the embedding:
    - [mpq] is [Qc], the canonical rationals: an [mpq] is always kept in
      lowest terms, so two equal rationals are the same value;
    - a local variable id and a row index are a [nat]; a column id of the
      host solver is an [N], where [UINT_MAX] is the id the variable register
      gives a fresh variable;
    - where the source uses [unsigned(-1)] as "no row" ([m_k2s],
      [m_conflict_index], [fresh_definition]) the embedding uses [option nat];
    - a [lar_term] (a hash map from columns to coefficients) is a [gmap];
    - a row of a [static_matrix] is the list of its cells in storage order;
      the column-wise index of the matrix is derived from the rows. *)

From Stdlib Require Import QArith Qcanon Qround Qabs Qcabs ZArith Lia.
From stdpp Require Import numbers list fin_maps gmap.

Abbreviation mpq := Qc.

Definition UINT_MAX : N := 4294967295%N.

(** ** Rational arithmetic *)

Module Rational.

Definition is_zero (q : mpq) : bool := bool_decide (q = 0%Qc).
Definition is_one (q : mpq) : bool := bool_decide (q = 1%Qc).
Definition is_minus_one (q : mpq) : bool := bool_decide (q = (-1)%Qc).
Definition is_pos (q : mpq) : bool := bool_decide (0 < q)%Qc.
Definition is_int (q : mpq) : bool := bool_decide (Qden q = 1%positive).
Definition abs (q : mpq) : mpq := Qcabs q.
Definition of_Z (z : Z) : mpq := Qc_of_Z z.
Definition of_nat (n : nat) : mpq := Qc_of_Z (Z.of_nat n).
Definition floor (q : mpq) : mpq := Qc_of_Z (Qfloor q).
Definition ceil (q : mpq) : mpq := Qc_of_Z (Qceiling q).

(** Modelled from the spec: rational arithmetic is a collaborator the
    solver assumes. [gcd] is the gcd of two integral rationals, taken on
    their numerators; it is never negative. *)
Definition gcd (a b : mpq) : mpq := Qc_of_Z (Z.gcd (Qnum a) (Qnum b)).

(** Modelled from the spec: "machine division [b = q*a + r]", truncated
    toward zero, on integral rationals.  Returns [(q, r)]. *)
Definition machine_div (a b : mpq) : mpq :=
  Qc_of_Z (Z.quot (Qnum a) (Qnum b)).
Definition machine_rem (a b : mpq) : mpq :=
  Qc_of_Z (Z.rem (Qnum a) (Qnum b)).
Definition machine_div_rem (a b : mpq) : mpq * mpq :=
  (machine_div a b, machine_rem a b).

(** Modelled from the spec: the denominator of a rational and the least
    common multiple of two positive integral rationals. *)
Definition denominator (q : mpq) : mpq := Qc_of_Z (Zpos (Qden q)).
Definition lcm (a b : mpq) : mpq := Qc_of_Z (Z.lcm (Qnum a) (Qnum b)).

End Rational.
Import Rational.

(** ** Terms: [lar_term] and [term_o] *)

Section lar_term.
Context `{Countable K}.

(** Modelled from the spec: [lar_term::add_monomial] adds [c] to the
    coefficient of [j] and drops the monomial when the sum is zero, so that
    a term never stores a zero coefficient. *)
Definition add_monomial (c : mpq) (j : K) (t : gmap K mpq) : gmap K mpq :=
  if is_zero c then t
  else match t !! j with
       | None => <[j := c]> t
       | Some v => if is_zero (v + c) then delete j t else <[j := (v + c)%Qc]> t
       end.

Definition sub_monomial (c : mpq) (j : K) (t : gmap K mpq) : gmap K mpq :=
  add_monomial (- c) j t.

Definition get_coeff (t : gmap K mpq) (j : K) : mpq := default 0%Qc (t !! j).

Definition erase_var (j : K) (t : gmap K mpq) : gmap K mpq := delete j t.

Definition contains (t : gmap K mpq) (j : K) : bool :=
  bool_decide (is_Some (t !! j)).

(** [for (const auto& p : t)]: the monomials of a term, in the order the
    map enumerates them. *)
Definition monomials (t : gmap K mpq) : list (K * mpq) := map_to_list t.

(** [add_operator(t, k, l)]: [t += k * l] on [lar_term]s. *)
Definition add_operator (t : gmap K mpq) (k : mpq) (l : gmap K mpq) :
  gmap K mpq :=
  map_fold (λ j a acc, add_monomial (k * a) j acc) t l.

(** [for (const auto& p : l) t.add_monomial(p.coeff(), p.j())] *)
Definition add_monomials (t l : gmap K mpq) : gmap K mpq :=
  map_fold (λ j a acc, add_monomial a j acc) t l.

(** The term [1 * j] ([lar_term(j)]). *)
Definition lar_term_of_var (j : K) : gmap K mpq := add_monomial 1 j ∅.

(** A term with a constant: [sum a_i * x_i + c]. *)
Record term_o := { t_coeffs : gmap K mpq; t_c : mpq }.

Definition term_o_zero : term_o := {| t_coeffs := ∅; t_c := 0 |}.

(** [term_o(const lar_term&)] *)
Definition term_o_of (t : gmap K mpq) : term_o :=
  {| t_coeffs := t; t_c := 0 |}.

(** [clone] *)
Definition term_o_clone (t : term_o) : term_o :=
  {| t_coeffs := add_monomials ∅ (t_coeffs t); t_c := t_c t |}.

(** [operator*(k, term)] *)
Definition term_o_scale (k : mpq) (t : term_o) : term_o :=
  {| t_coeffs := map_fold (λ j a acc, add_monomial (a * k) j acc) ∅ (t_coeffs t);
     t_c := k * t_c t |}.

(** [operator+=] *)
Definition term_o_add (a t : term_o) : term_o :=
  {| t_coeffs := add_monomials (t_coeffs a) (t_coeffs t);
     t_c := t_c a + t_c t |}.

(** [operator-] *)
Definition term_o_sub (a b : term_o) : term_o :=
  {| t_coeffs := map_fold (λ j v acc, sub_monomial v j acc)
                   (t_coeffs (term_o_clone a)) (t_coeffs b);
     t_c := t_c a - t_c b |}.

(** [operator==]: the difference has no monomial and a zero constant. *)
Definition term_o_eq (a b : term_o) : bool :=
  let t := term_o_add (term_o_clone a) (term_o_scale (-1) b) in
  is_zero (t_c t) && bool_decide (size (t_coeffs t) = 0).

End lar_term.

Arguments term_o K {_ _}.

(** ** The row store ([static_matrix])

    Modelled from the spec: the sparse matrix primitives are collaborators of
    the solver (spec 4.2).  A row is the list of its non-zero cells
    [(column, coefficient)] in storage order, [add_new_element] appends a
    cell, and a row operation updates the cells the target already has in
    place, appends the new ones and drops the cells that became zero. *)

Section static_matrix.
Context {V : Type} `{EqDecision V}.

Definition row_at (m : list (list (V * mpq))) (i : nat) : list (V * mpq) :=
  default [] (m !! i).

Definition row_count (m : list (list (V * mpq))) : nat := length m.

Definition add_row (m : list (list (V * mpq))) : list (list (V * mpq)) :=
  m ++ [[]].

Definition add_new_element (i : nat) (j : V) (v : mpq)
    (m : list (list (V * mpq))) : list (list (V * mpq)) :=
  alter (λ r, r ++ [(j, v)]) i m.

Definition divide_row (i : nat) (alpha : mpq)
    (m : list (list (V * mpq))) : list (list (V * mpq)) :=
  alter (map (λ p, (p.1, (p.2 / alpha)%Qc))) i m.

Definition multiply_row (i : nat) (alpha : mpq)
    (m : list (list (V * mpq))) : list (list (V * mpq)) :=
  alter (map (λ p, (p.1, (p.2 * alpha)%Qc))) i m.

Definition clear_row (i : nat)
    (m : list (list (V * mpq))) : list (list (V * mpq)) :=
  alter (λ _, []) i m.

(** The cell of column [j] in a row, if the row has one. *)
Definition find_cell (j : V) (r : list (V * mpq)) : option (V * mpq) :=
  snd <$> list_find (λ p, p.1 = j) r.

(** [get_val] of the cell of column [j]. *)
Definition row_coeff (j : V) (r : list (V * mpq)) : mpq :=
  from_option snd 0%Qc (find_cell j r).

Definition row_has (j : V) (r : list (V * mpq)) : bool :=
  bool_decide (is_Some (find_cell j r)).

(** Adds [w] to the cell of column [j], or appends the cell. *)
Fixpoint row_add_value (j : V) (w : mpq) (r : list (V * mpq)) :
  list (V * mpq) :=
  match r with
  | [] => [(j, w)]
  | p :: r' => if decide (p.1 = j) then (p.1, (p.2 + w)%Qc) :: r'
               else p :: row_add_value j w r'
  end.

Definition drop_zeros (r : list (V * mpq)) : list (V * mpq) :=
  filter (λ p, p.2 ≠ 0%Qc) r.

(** [dst += alpha * src] on rows. *)
Definition row_add_scaled (alpha : mpq) (src dst : list (V * mpq)) :
  list (V * mpq) :=
  drop_zeros
    (fold_left (λ r p, row_add_value p.1 (alpha * p.2)%Qc r) src dst).

(** [add_rows(alpha, i, k)]: [row k += alpha * row i]. *)
Definition add_rows (alpha : mpq) (i k : nat)
    (m : list (list (V * mpq))) : list (list (V * mpq)) :=
  alter (row_add_scaled alpha (row_at m i)) k m.

(** [pivot_row_to_row_given_cell_with_sign(piv, c, j, sign)]: the row [ii]
    of the cell [c] loses its cell of column [j], and gets
    [alpha * row piv] added on the other columns, where
    [alpha = - get_val(c) * sign]. *)
Definition pivot_row_to_row_given_cell_with_sign
    (piv ii : nat) (j : V) (sign : mpq)
    (m : list (list (V * mpq))) : list (list (V * mpq)) :=
  let alpha := (- row_coeff j (row_at m ii) * sign)%Qc in
  let src := filter (λ p, p.1 ≠ j) (row_at m piv) in
  alter (λ r, row_add_scaled alpha src (filter (λ p, p.1 ≠ j) r)) ii m.

(** The rows that hold a cell of column [j]: column [j] of the matrix. *)
Definition column (j : V) (m : list (list (V * mpq))) : list nat :=
  filter (λ i, row_has j (row_at m i) = true) (seq 0 (length m)).

End static_matrix.

(** Modelled from the spec: the class [indexed_vector<mpq>] of the work
    vector (spec 4.5, "an indexed work vector") is declared outside the
    sources.  It holds the dense data, here a map with default zero together
    with the size of the data, and the list of the indices that hold a
    value.  [clear] empties the vector and keeps the size of the data;
    [resize] clears the vector and then gives the data its new size, so a
    value that was added before a [resize] is lost. *)
Record indexed_vector :=
  { m_data : gmap nat mpq; m_index : list nat; m_data_size : nat }.

Module IndexedVector.
Definition data_size (v : indexed_vector) : nat := m_data_size v.
Definition clear (v : indexed_vector) : indexed_vector :=
  {| m_data := ∅; m_index := []; m_data_size := m_data_size v |}.
Definition resize (data_size : nat) (v : indexed_vector) : indexed_vector :=
  {| m_data := ∅; m_index := []; m_data_size := data_size |}.
Definition get (v : indexed_vector) (j : nat) : mpq :=
  default 0%Qc (m_data v !! j).
Definition set_value (val : mpq) (j : nat) (v : indexed_vector) :
  indexed_vector :=
  {| m_data := <[j := val]> (m_data v); m_index := m_index v ++ [j];
     m_data_size := m_data_size v |}.
Definition erase (j : nat) (v : indexed_vector) : indexed_vector :=
  {| m_data := delete j (m_data v);
     m_index := filter (λ i, i ≠ j) (m_index v);
     m_data_size := m_data_size v |}.
Definition add_value_at_index (j : nat) (val : mpq) (v : indexed_vector) :
  indexed_vector :=
  let old := get v j in
  let new := (old + val)%Qc in
  if is_zero new then
    if is_zero old then v else erase j v
  else
    {| m_data := <[j := new]> (m_data v);
       m_index := if is_zero old then m_index v ++ [j] else m_index v;
       m_data_size := m_data_size v |}.
(** [for (const auto& p : v)]: the indices with their values. *)
Definition cells (v : indexed_vector) : list (nat * mpq) :=
  map (λ j, (j, get v j)) (m_index v).
End IndexedVector.

(** ** The variable register ([var_register_dio])

    Modelled from the spec (4.1): [add(external)] returns the existing or a
    newly allocated local id, [add(UINT_MAX)] allocates a fresh local, and a
    local is fresh when its external id is [UINT_MAX]. *)
Module VarRegister.
Definition local_to_external (r : list N) (j : nat) : N :=
  default UINT_MAX (r !! j).
Definition external_is_used (r : list N) (j : N) : option nat :=
  fst <$> list_find (λ e, e = j) r.
Definition external_to_local (r : list N) (j : N) : nat :=
  default 0 (external_is_used r j).
Definition add_var (j : N) (r : list N) : nat * list N :=
  if decide (j = UINT_MAX) then (length r, r ++ [j])
  else match external_is_used r j with
       | Some l => (l, r)
       | None => (length r, r ++ [j])
       end.
Definition shrink (n : nat) (r : list N) : list N := take n r.
End VarRegister.

(** ** Entries, fresh definitions, branches *)

Module entry_status.
Inductive t := F | S | NO_S_NO_F.
Global Instance eq_dec : EqDecision t.
Proof. solve_decision. Defined.
End entry_status.

Record entry := { m_c : mpq; m_entry_status : entry_status.t }.

Record fresh_definition := { m_ei : option nat; m_origin : option nat }.

Module lia_move.
Inductive t := sat | branch | conflict | undef.
Global Instance eq_dec : EqDecision t.
Proof. solve_decision. Defined.
End lia_move.

Module lconstraint_kind.
Inductive t := LE | GE.
Global Instance eq_dec : EqDecision t.
Proof. solve_decision. Defined.
End lconstraint_kind.

(** Modelled from the spec: the status [find_feasible_solution] returns.  The
    declaration of the enumeration is not part of the sources; the solver
    compares it with [(int)st >= (int)lp_status::FEASIBLE] and then with
    [CANCELLED], so [FEASIBLE] and [OPTIMAL] come last. *)
Module lp_status.
Inductive t :=
  UNKNOWN | INFEASIBLE | UNBOUNDED | TENTATIVE_DUAL_UNBOUNDED
| DUAL_UNBOUNDED | TIME_EXHAUSTED | EMPTY | UNSTABLE | CANCELLED
| FEASIBLE | OPTIMAL.
Global Instance eq_dec : EqDecision t.
Proof. solve_decision. Defined.
Definition to_int (st : t) : Z :=
  match st with
  | UNKNOWN => 0 | INFEASIBLE => 1 | UNBOUNDED => 2
  | TENTATIVE_DUAL_UNBOUNDED => 3 | DUAL_UNBOUNDED => 4
  | TIME_EXHAUSTED => 5 | EMPTY => 6 | UNSTABLE => 7 | CANCELLED => 8
  | FEASIBLE => 9 | OPTIMAL => 10
  end.
End lp_status.

Abbreviation constraint_index := N.

(** [u_dependency*]: a join tree over constraint indices; [nullptr] is
    [dep_null]. *)
Inductive u_dependency :=
  | dep_null
  | dep_leaf (ci : constraint_index)
  | dep_join (a b : u_dependency).

(** Modelled from the spec: [mk_join(dep, dep)] and
    [flatten(dep) -> list<constraint_index>]. *)
Definition mk_join (a b : u_dependency) : u_dependency :=
  match a, b with
  | dep_null, _ => b
  | _, dep_null => a
  | _, _ => dep_join a b
  end.

Fixpoint flatten (d : u_dependency) : list constraint_index :=
  match d with
  | dep_null => []
  | dep_leaf ci => [ci]
  | dep_join a b => flatten a ++ flatten b
  end.

Record branch := {
  m_j : N;
  m_rs : mpq;
  (** if [m_left] is true the branch is [x[j] <= m_rs] *)
  m_left : bool;
  m_fully_explored : bool
}.

Definition flip (b : branch) : branch :=
  {| m_j := m_j b; m_rs := m_rs b; m_left := negb (m_left b);
     m_fully_explored := true |}.

Record variable_branch_stats := {
  m_ii_after_left : list nat;
  m_ii_after_right : list nat
}.

(** [lia.get_term()], [lia.offset()] and [lia.is_upper()]: the pending cut
    of the integer solver. *)
Record int_solver := {
  lia_term : gmap N mpq;
  lia_offset : mpq;
  lia_is_upper : bool
}.

(** [lra.stats()]: the counters of the solver. *)
Record statistics := {
  m_dio_calls : nat;
  m_dio_cut_from_proofs : nat;
  m_dio_normalize_conflicts : nat;
  m_dio_rewrite_conflicts : nat;
  m_dio_tighten_conflicts : nat;
  m_dio_branch_iterations : nat;
  m_dio_branching_sats : nat;
  m_dio_branching_infeasibles : nat;
  m_dio_branching_depth : nat
}.

(** ** The state of the solver

    The fields of [dioph_eq::imp].  [m_e_columns] and [m_l_columns] hold the
    [column_count()] of the two matrices; [lia] is the pending cut of the
    integer solver and [stats] the counters of [lra.stats()]; a term of the
    host is named by its column. *)

Record imp := {
  m_var_register : list N;
  m_entries : list entry;
  m_e_matrix : list (list (nat * mpq));
  m_e_columns : nat;
  m_l_matrix : list (list (N * mpq));
  m_l_columns : nat;
  lia : int_solver;
  stats : statistics;
  m_infeas_explanation : list constraint_index;
  m_indexed_work_vector : indexed_vector;
  m_report_branch : bool;
  m_f : list nat;
  m_s : list nat;
  imp_m_c : mpq;
  m_tmp_l : gmap N mpq;
  m_k2s : list (option nat);
  m_fresh_definitions : list fresh_definition;
  m_conflict_index : option nat;
  m_max_number_of_iterations : nat;
  m_number_of_iterations : nat;
  m_branch_stats : list variable_branch_stats;
  m_branch_stack : list branch;
  m_explanation_of_branches : list constraint_index;
  m_lra_level : N;
  m_changed_columns : gset N;
  m_columns_to_terms : gmap N (gset N);
  m_added_terms : list N;
  m_active_terms : gset N
}.

Definition set_m_var_register (v : list N) (s : imp) : imp :=
  {| m_var_register := v; m_entries := m_entries s;
     m_e_matrix := m_e_matrix s; m_e_columns := m_e_columns s;
     m_l_matrix := m_l_matrix s; m_l_columns := m_l_columns s; lia := lia s;
     stats := stats s; m_infeas_explanation := m_infeas_explanation s;
     m_indexed_work_vector := m_indexed_work_vector s;
     m_report_branch := m_report_branch s; m_f := m_f s; m_s := m_s s;
     imp_m_c := imp_m_c s; m_tmp_l := m_tmp_l s; m_k2s := m_k2s s;
     m_fresh_definitions := m_fresh_definitions s;
     m_conflict_index := m_conflict_index s;
     m_max_number_of_iterations := m_max_number_of_iterations s;
     m_number_of_iterations := m_number_of_iterations s;
     m_branch_stats := m_branch_stats s; m_branch_stack := m_branch_stack s;
     m_explanation_of_branches := m_explanation_of_branches s;
     m_lra_level := m_lra_level s; m_changed_columns := m_changed_columns s;
     m_columns_to_terms := m_columns_to_terms s;
     m_added_terms := m_added_terms s; m_active_terms := m_active_terms s |}.
Definition set_m_entries (v : list entry) (s : imp) : imp :=
  {| m_var_register := m_var_register s; m_entries := v;
     m_e_matrix := m_e_matrix s; m_e_columns := m_e_columns s;
     m_l_matrix := m_l_matrix s; m_l_columns := m_l_columns s; lia := lia s;
     stats := stats s; m_infeas_explanation := m_infeas_explanation s;
     m_indexed_work_vector := m_indexed_work_vector s;
     m_report_branch := m_report_branch s; m_f := m_f s; m_s := m_s s;
     imp_m_c := imp_m_c s; m_tmp_l := m_tmp_l s; m_k2s := m_k2s s;
     m_fresh_definitions := m_fresh_definitions s;
     m_conflict_index := m_conflict_index s;
     m_max_number_of_iterations := m_max_number_of_iterations s;
     m_number_of_iterations := m_number_of_iterations s;
     m_branch_stats := m_branch_stats s; m_branch_stack := m_branch_stack s;
     m_explanation_of_branches := m_explanation_of_branches s;
     m_lra_level := m_lra_level s; m_changed_columns := m_changed_columns s;
     m_columns_to_terms := m_columns_to_terms s;
     m_added_terms := m_added_terms s; m_active_terms := m_active_terms s |}.
Definition set_m_e_matrix (v : list (list (nat * mpq))) (s : imp) : imp :=
  {| m_var_register := m_var_register s; m_entries := m_entries s;
     m_e_matrix := v; m_e_columns := m_e_columns s;
     m_l_matrix := m_l_matrix s; m_l_columns := m_l_columns s; lia := lia s;
     stats := stats s; m_infeas_explanation := m_infeas_explanation s;
     m_indexed_work_vector := m_indexed_work_vector s;
     m_report_branch := m_report_branch s; m_f := m_f s; m_s := m_s s;
     imp_m_c := imp_m_c s; m_tmp_l := m_tmp_l s; m_k2s := m_k2s s;
     m_fresh_definitions := m_fresh_definitions s;
     m_conflict_index := m_conflict_index s;
     m_max_number_of_iterations := m_max_number_of_iterations s;
     m_number_of_iterations := m_number_of_iterations s;
     m_branch_stats := m_branch_stats s; m_branch_stack := m_branch_stack s;
     m_explanation_of_branches := m_explanation_of_branches s;
     m_lra_level := m_lra_level s; m_changed_columns := m_changed_columns s;
     m_columns_to_terms := m_columns_to_terms s;
     m_added_terms := m_added_terms s; m_active_terms := m_active_terms s |}.
Definition set_m_e_columns (v : nat) (s : imp) : imp :=
  {| m_var_register := m_var_register s; m_entries := m_entries s;
     m_e_matrix := m_e_matrix s; m_e_columns := v;
     m_l_matrix := m_l_matrix s; m_l_columns := m_l_columns s; lia := lia s;
     stats := stats s; m_infeas_explanation := m_infeas_explanation s;
     m_indexed_work_vector := m_indexed_work_vector s;
     m_report_branch := m_report_branch s; m_f := m_f s; m_s := m_s s;
     imp_m_c := imp_m_c s; m_tmp_l := m_tmp_l s; m_k2s := m_k2s s;
     m_fresh_definitions := m_fresh_definitions s;
     m_conflict_index := m_conflict_index s;
     m_max_number_of_iterations := m_max_number_of_iterations s;
     m_number_of_iterations := m_number_of_iterations s;
     m_branch_stats := m_branch_stats s; m_branch_stack := m_branch_stack s;
     m_explanation_of_branches := m_explanation_of_branches s;
     m_lra_level := m_lra_level s; m_changed_columns := m_changed_columns s;
     m_columns_to_terms := m_columns_to_terms s;
     m_added_terms := m_added_terms s; m_active_terms := m_active_terms s |}.
Definition set_m_l_matrix (v : list (list (N * mpq))) (s : imp) : imp :=
  {| m_var_register := m_var_register s; m_entries := m_entries s;
     m_e_matrix := m_e_matrix s; m_e_columns := m_e_columns s;
     m_l_matrix := v; m_l_columns := m_l_columns s; lia := lia s;
     stats := stats s; m_infeas_explanation := m_infeas_explanation s;
     m_indexed_work_vector := m_indexed_work_vector s;
     m_report_branch := m_report_branch s; m_f := m_f s; m_s := m_s s;
     imp_m_c := imp_m_c s; m_tmp_l := m_tmp_l s; m_k2s := m_k2s s;
     m_fresh_definitions := m_fresh_definitions s;
     m_conflict_index := m_conflict_index s;
     m_max_number_of_iterations := m_max_number_of_iterations s;
     m_number_of_iterations := m_number_of_iterations s;
     m_branch_stats := m_branch_stats s; m_branch_stack := m_branch_stack s;
     m_explanation_of_branches := m_explanation_of_branches s;
     m_lra_level := m_lra_level s; m_changed_columns := m_changed_columns s;
     m_columns_to_terms := m_columns_to_terms s;
     m_added_terms := m_added_terms s; m_active_terms := m_active_terms s |}.
Definition set_m_l_columns (v : nat) (s : imp) : imp :=
  {| m_var_register := m_var_register s; m_entries := m_entries s;
     m_e_matrix := m_e_matrix s; m_e_columns := m_e_columns s;
     m_l_matrix := m_l_matrix s; m_l_columns := v; lia := lia s;
     stats := stats s; m_infeas_explanation := m_infeas_explanation s;
     m_indexed_work_vector := m_indexed_work_vector s;
     m_report_branch := m_report_branch s; m_f := m_f s; m_s := m_s s;
     imp_m_c := imp_m_c s; m_tmp_l := m_tmp_l s; m_k2s := m_k2s s;
     m_fresh_definitions := m_fresh_definitions s;
     m_conflict_index := m_conflict_index s;
     m_max_number_of_iterations := m_max_number_of_iterations s;
     m_number_of_iterations := m_number_of_iterations s;
     m_branch_stats := m_branch_stats s; m_branch_stack := m_branch_stack s;
     m_explanation_of_branches := m_explanation_of_branches s;
     m_lra_level := m_lra_level s; m_changed_columns := m_changed_columns s;
     m_columns_to_terms := m_columns_to_terms s;
     m_added_terms := m_added_terms s; m_active_terms := m_active_terms s |}.
Definition set_lia (v : int_solver) (s : imp) : imp :=
  {| m_var_register := m_var_register s; m_entries := m_entries s;
     m_e_matrix := m_e_matrix s; m_e_columns := m_e_columns s;
     m_l_matrix := m_l_matrix s; m_l_columns := m_l_columns s; lia := v;
     stats := stats s; m_infeas_explanation := m_infeas_explanation s;
     m_indexed_work_vector := m_indexed_work_vector s;
     m_report_branch := m_report_branch s; m_f := m_f s; m_s := m_s s;
     imp_m_c := imp_m_c s; m_tmp_l := m_tmp_l s; m_k2s := m_k2s s;
     m_fresh_definitions := m_fresh_definitions s;
     m_conflict_index := m_conflict_index s;
     m_max_number_of_iterations := m_max_number_of_iterations s;
     m_number_of_iterations := m_number_of_iterations s;
     m_branch_stats := m_branch_stats s; m_branch_stack := m_branch_stack s;
     m_explanation_of_branches := m_explanation_of_branches s;
     m_lra_level := m_lra_level s; m_changed_columns := m_changed_columns s;
     m_columns_to_terms := m_columns_to_terms s;
     m_added_terms := m_added_terms s; m_active_terms := m_active_terms s |}.
Definition set_stats (v : statistics) (s : imp) : imp :=
  {| m_var_register := m_var_register s; m_entries := m_entries s;
     m_e_matrix := m_e_matrix s; m_e_columns := m_e_columns s;
     m_l_matrix := m_l_matrix s; m_l_columns := m_l_columns s; lia := lia s;
     stats := v; m_infeas_explanation := m_infeas_explanation s;
     m_indexed_work_vector := m_indexed_work_vector s;
     m_report_branch := m_report_branch s; m_f := m_f s; m_s := m_s s;
     imp_m_c := imp_m_c s; m_tmp_l := m_tmp_l s; m_k2s := m_k2s s;
     m_fresh_definitions := m_fresh_definitions s;
     m_conflict_index := m_conflict_index s;
     m_max_number_of_iterations := m_max_number_of_iterations s;
     m_number_of_iterations := m_number_of_iterations s;
     m_branch_stats := m_branch_stats s; m_branch_stack := m_branch_stack s;
     m_explanation_of_branches := m_explanation_of_branches s;
     m_lra_level := m_lra_level s; m_changed_columns := m_changed_columns s;
     m_columns_to_terms := m_columns_to_terms s;
     m_added_terms := m_added_terms s; m_active_terms := m_active_terms s |}.
Definition set_m_infeas_explanation (v : list constraint_index) (s : imp) : imp :=
  {| m_var_register := m_var_register s; m_entries := m_entries s;
     m_e_matrix := m_e_matrix s; m_e_columns := m_e_columns s;
     m_l_matrix := m_l_matrix s; m_l_columns := m_l_columns s; lia := lia s;
     stats := stats s; m_infeas_explanation := v;
     m_indexed_work_vector := m_indexed_work_vector s;
     m_report_branch := m_report_branch s; m_f := m_f s; m_s := m_s s;
     imp_m_c := imp_m_c s; m_tmp_l := m_tmp_l s; m_k2s := m_k2s s;
     m_fresh_definitions := m_fresh_definitions s;
     m_conflict_index := m_conflict_index s;
     m_max_number_of_iterations := m_max_number_of_iterations s;
     m_number_of_iterations := m_number_of_iterations s;
     m_branch_stats := m_branch_stats s; m_branch_stack := m_branch_stack s;
     m_explanation_of_branches := m_explanation_of_branches s;
     m_lra_level := m_lra_level s; m_changed_columns := m_changed_columns s;
     m_columns_to_terms := m_columns_to_terms s;
     m_added_terms := m_added_terms s; m_active_terms := m_active_terms s |}.
Definition set_m_indexed_work_vector (v : indexed_vector) (s : imp) : imp :=
  {| m_var_register := m_var_register s; m_entries := m_entries s;
     m_e_matrix := m_e_matrix s; m_e_columns := m_e_columns s;
     m_l_matrix := m_l_matrix s; m_l_columns := m_l_columns s; lia := lia s;
     stats := stats s; m_infeas_explanation := m_infeas_explanation s;
     m_indexed_work_vector := v; m_report_branch := m_report_branch s;
     m_f := m_f s; m_s := m_s s; imp_m_c := imp_m_c s; m_tmp_l := m_tmp_l s;
     m_k2s := m_k2s s; m_fresh_definitions := m_fresh_definitions s;
     m_conflict_index := m_conflict_index s;
     m_max_number_of_iterations := m_max_number_of_iterations s;
     m_number_of_iterations := m_number_of_iterations s;
     m_branch_stats := m_branch_stats s; m_branch_stack := m_branch_stack s;
     m_explanation_of_branches := m_explanation_of_branches s;
     m_lra_level := m_lra_level s; m_changed_columns := m_changed_columns s;
     m_columns_to_terms := m_columns_to_terms s;
     m_added_terms := m_added_terms s; m_active_terms := m_active_terms s |}.
Definition set_m_report_branch (v : bool) (s : imp) : imp :=
  {| m_var_register := m_var_register s; m_entries := m_entries s;
     m_e_matrix := m_e_matrix s; m_e_columns := m_e_columns s;
     m_l_matrix := m_l_matrix s; m_l_columns := m_l_columns s; lia := lia s;
     stats := stats s; m_infeas_explanation := m_infeas_explanation s;
     m_indexed_work_vector := m_indexed_work_vector s; m_report_branch := v;
     m_f := m_f s; m_s := m_s s; imp_m_c := imp_m_c s; m_tmp_l := m_tmp_l s;
     m_k2s := m_k2s s; m_fresh_definitions := m_fresh_definitions s;
     m_conflict_index := m_conflict_index s;
     m_max_number_of_iterations := m_max_number_of_iterations s;
     m_number_of_iterations := m_number_of_iterations s;
     m_branch_stats := m_branch_stats s; m_branch_stack := m_branch_stack s;
     m_explanation_of_branches := m_explanation_of_branches s;
     m_lra_level := m_lra_level s; m_changed_columns := m_changed_columns s;
     m_columns_to_terms := m_columns_to_terms s;
     m_added_terms := m_added_terms s; m_active_terms := m_active_terms s |}.
Definition set_m_f (v : list nat) (s : imp) : imp :=
  {| m_var_register := m_var_register s; m_entries := m_entries s;
     m_e_matrix := m_e_matrix s; m_e_columns := m_e_columns s;
     m_l_matrix := m_l_matrix s; m_l_columns := m_l_columns s; lia := lia s;
     stats := stats s; m_infeas_explanation := m_infeas_explanation s;
     m_indexed_work_vector := m_indexed_work_vector s;
     m_report_branch := m_report_branch s; m_f := v; m_s := m_s s;
     imp_m_c := imp_m_c s; m_tmp_l := m_tmp_l s; m_k2s := m_k2s s;
     m_fresh_definitions := m_fresh_definitions s;
     m_conflict_index := m_conflict_index s;
     m_max_number_of_iterations := m_max_number_of_iterations s;
     m_number_of_iterations := m_number_of_iterations s;
     m_branch_stats := m_branch_stats s; m_branch_stack := m_branch_stack s;
     m_explanation_of_branches := m_explanation_of_branches s;
     m_lra_level := m_lra_level s; m_changed_columns := m_changed_columns s;
     m_columns_to_terms := m_columns_to_terms s;
     m_added_terms := m_added_terms s; m_active_terms := m_active_terms s |}.
Definition set_m_s (v : list nat) (s : imp) : imp :=
  {| m_var_register := m_var_register s; m_entries := m_entries s;
     m_e_matrix := m_e_matrix s; m_e_columns := m_e_columns s;
     m_l_matrix := m_l_matrix s; m_l_columns := m_l_columns s; lia := lia s;
     stats := stats s; m_infeas_explanation := m_infeas_explanation s;
     m_indexed_work_vector := m_indexed_work_vector s;
     m_report_branch := m_report_branch s; m_f := m_f s; m_s := v;
     imp_m_c := imp_m_c s; m_tmp_l := m_tmp_l s; m_k2s := m_k2s s;
     m_fresh_definitions := m_fresh_definitions s;
     m_conflict_index := m_conflict_index s;
     m_max_number_of_iterations := m_max_number_of_iterations s;
     m_number_of_iterations := m_number_of_iterations s;
     m_branch_stats := m_branch_stats s; m_branch_stack := m_branch_stack s;
     m_explanation_of_branches := m_explanation_of_branches s;
     m_lra_level := m_lra_level s; m_changed_columns := m_changed_columns s;
     m_columns_to_terms := m_columns_to_terms s;
     m_added_terms := m_added_terms s; m_active_terms := m_active_terms s |}.
Definition set_imp_m_c (v : mpq) (s : imp) : imp :=
  {| m_var_register := m_var_register s; m_entries := m_entries s;
     m_e_matrix := m_e_matrix s; m_e_columns := m_e_columns s;
     m_l_matrix := m_l_matrix s; m_l_columns := m_l_columns s; lia := lia s;
     stats := stats s; m_infeas_explanation := m_infeas_explanation s;
     m_indexed_work_vector := m_indexed_work_vector s;
     m_report_branch := m_report_branch s; m_f := m_f s; m_s := m_s s;
     imp_m_c := v; m_tmp_l := m_tmp_l s; m_k2s := m_k2s s;
     m_fresh_definitions := m_fresh_definitions s;
     m_conflict_index := m_conflict_index s;
     m_max_number_of_iterations := m_max_number_of_iterations s;
     m_number_of_iterations := m_number_of_iterations s;
     m_branch_stats := m_branch_stats s; m_branch_stack := m_branch_stack s;
     m_explanation_of_branches := m_explanation_of_branches s;
     m_lra_level := m_lra_level s; m_changed_columns := m_changed_columns s;
     m_columns_to_terms := m_columns_to_terms s;
     m_added_terms := m_added_terms s; m_active_terms := m_active_terms s |}.
Definition set_m_tmp_l (v : gmap N mpq) (s : imp) : imp :=
  {| m_var_register := m_var_register s; m_entries := m_entries s;
     m_e_matrix := m_e_matrix s; m_e_columns := m_e_columns s;
     m_l_matrix := m_l_matrix s; m_l_columns := m_l_columns s; lia := lia s;
     stats := stats s; m_infeas_explanation := m_infeas_explanation s;
     m_indexed_work_vector := m_indexed_work_vector s;
     m_report_branch := m_report_branch s; m_f := m_f s; m_s := m_s s;
     imp_m_c := imp_m_c s; m_tmp_l := v; m_k2s := m_k2s s;
     m_fresh_definitions := m_fresh_definitions s;
     m_conflict_index := m_conflict_index s;
     m_max_number_of_iterations := m_max_number_of_iterations s;
     m_number_of_iterations := m_number_of_iterations s;
     m_branch_stats := m_branch_stats s; m_branch_stack := m_branch_stack s;
     m_explanation_of_branches := m_explanation_of_branches s;
     m_lra_level := m_lra_level s; m_changed_columns := m_changed_columns s;
     m_columns_to_terms := m_columns_to_terms s;
     m_added_terms := m_added_terms s; m_active_terms := m_active_terms s |}.
Definition set_m_k2s (v : list (option nat)) (s : imp) : imp :=
  {| m_var_register := m_var_register s; m_entries := m_entries s;
     m_e_matrix := m_e_matrix s; m_e_columns := m_e_columns s;
     m_l_matrix := m_l_matrix s; m_l_columns := m_l_columns s; lia := lia s;
     stats := stats s; m_infeas_explanation := m_infeas_explanation s;
     m_indexed_work_vector := m_indexed_work_vector s;
     m_report_branch := m_report_branch s; m_f := m_f s; m_s := m_s s;
     imp_m_c := imp_m_c s; m_tmp_l := m_tmp_l s; m_k2s := v;
     m_fresh_definitions := m_fresh_definitions s;
     m_conflict_index := m_conflict_index s;
     m_max_number_of_iterations := m_max_number_of_iterations s;
     m_number_of_iterations := m_number_of_iterations s;
     m_branch_stats := m_branch_stats s; m_branch_stack := m_branch_stack s;
     m_explanation_of_branches := m_explanation_of_branches s;
     m_lra_level := m_lra_level s; m_changed_columns := m_changed_columns s;
     m_columns_to_terms := m_columns_to_terms s;
     m_added_terms := m_added_terms s; m_active_terms := m_active_terms s |}.
Definition set_m_fresh_definitions (v : list fresh_definition) (s : imp) : imp :=
  {| m_var_register := m_var_register s; m_entries := m_entries s;
     m_e_matrix := m_e_matrix s; m_e_columns := m_e_columns s;
     m_l_matrix := m_l_matrix s; m_l_columns := m_l_columns s; lia := lia s;
     stats := stats s; m_infeas_explanation := m_infeas_explanation s;
     m_indexed_work_vector := m_indexed_work_vector s;
     m_report_branch := m_report_branch s; m_f := m_f s; m_s := m_s s;
     imp_m_c := imp_m_c s; m_tmp_l := m_tmp_l s; m_k2s := m_k2s s;
     m_fresh_definitions := v; m_conflict_index := m_conflict_index s;
     m_max_number_of_iterations := m_max_number_of_iterations s;
     m_number_of_iterations := m_number_of_iterations s;
     m_branch_stats := m_branch_stats s; m_branch_stack := m_branch_stack s;
     m_explanation_of_branches := m_explanation_of_branches s;
     m_lra_level := m_lra_level s; m_changed_columns := m_changed_columns s;
     m_columns_to_terms := m_columns_to_terms s;
     m_added_terms := m_added_terms s; m_active_terms := m_active_terms s |}.
Definition set_m_conflict_index (v : option nat) (s : imp) : imp :=
  {| m_var_register := m_var_register s; m_entries := m_entries s;
     m_e_matrix := m_e_matrix s; m_e_columns := m_e_columns s;
     m_l_matrix := m_l_matrix s; m_l_columns := m_l_columns s; lia := lia s;
     stats := stats s; m_infeas_explanation := m_infeas_explanation s;
     m_indexed_work_vector := m_indexed_work_vector s;
     m_report_branch := m_report_branch s; m_f := m_f s; m_s := m_s s;
     imp_m_c := imp_m_c s; m_tmp_l := m_tmp_l s; m_k2s := m_k2s s;
     m_fresh_definitions := m_fresh_definitions s; m_conflict_index := v;
     m_max_number_of_iterations := m_max_number_of_iterations s;
     m_number_of_iterations := m_number_of_iterations s;
     m_branch_stats := m_branch_stats s; m_branch_stack := m_branch_stack s;
     m_explanation_of_branches := m_explanation_of_branches s;
     m_lra_level := m_lra_level s; m_changed_columns := m_changed_columns s;
     m_columns_to_terms := m_columns_to_terms s;
     m_added_terms := m_added_terms s; m_active_terms := m_active_terms s |}.
Definition set_m_max_number_of_iterations (v : nat) (s : imp) : imp :=
  {| m_var_register := m_var_register s; m_entries := m_entries s;
     m_e_matrix := m_e_matrix s; m_e_columns := m_e_columns s;
     m_l_matrix := m_l_matrix s; m_l_columns := m_l_columns s; lia := lia s;
     stats := stats s; m_infeas_explanation := m_infeas_explanation s;
     m_indexed_work_vector := m_indexed_work_vector s;
     m_report_branch := m_report_branch s; m_f := m_f s; m_s := m_s s;
     imp_m_c := imp_m_c s; m_tmp_l := m_tmp_l s; m_k2s := m_k2s s;
     m_fresh_definitions := m_fresh_definitions s;
     m_conflict_index := m_conflict_index s; m_max_number_of_iterations := v;
     m_number_of_iterations := m_number_of_iterations s;
     m_branch_stats := m_branch_stats s; m_branch_stack := m_branch_stack s;
     m_explanation_of_branches := m_explanation_of_branches s;
     m_lra_level := m_lra_level s; m_changed_columns := m_changed_columns s;
     m_columns_to_terms := m_columns_to_terms s;
     m_added_terms := m_added_terms s; m_active_terms := m_active_terms s |}.
Definition set_m_number_of_iterations (v : nat) (s : imp) : imp :=
  {| m_var_register := m_var_register s; m_entries := m_entries s;
     m_e_matrix := m_e_matrix s; m_e_columns := m_e_columns s;
     m_l_matrix := m_l_matrix s; m_l_columns := m_l_columns s; lia := lia s;
     stats := stats s; m_infeas_explanation := m_infeas_explanation s;
     m_indexed_work_vector := m_indexed_work_vector s;
     m_report_branch := m_report_branch s; m_f := m_f s; m_s := m_s s;
     imp_m_c := imp_m_c s; m_tmp_l := m_tmp_l s; m_k2s := m_k2s s;
     m_fresh_definitions := m_fresh_definitions s;
     m_conflict_index := m_conflict_index s;
     m_max_number_of_iterations := m_max_number_of_iterations s;
     m_number_of_iterations := v; m_branch_stats := m_branch_stats s;
     m_branch_stack := m_branch_stack s;
     m_explanation_of_branches := m_explanation_of_branches s;
     m_lra_level := m_lra_level s; m_changed_columns := m_changed_columns s;
     m_columns_to_terms := m_columns_to_terms s;
     m_added_terms := m_added_terms s; m_active_terms := m_active_terms s |}.
Definition set_m_branch_stats (v : list variable_branch_stats) (s : imp) : imp :=
  {| m_var_register := m_var_register s; m_entries := m_entries s;
     m_e_matrix := m_e_matrix s; m_e_columns := m_e_columns s;
     m_l_matrix := m_l_matrix s; m_l_columns := m_l_columns s; lia := lia s;
     stats := stats s; m_infeas_explanation := m_infeas_explanation s;
     m_indexed_work_vector := m_indexed_work_vector s;
     m_report_branch := m_report_branch s; m_f := m_f s; m_s := m_s s;
     imp_m_c := imp_m_c s; m_tmp_l := m_tmp_l s; m_k2s := m_k2s s;
     m_fresh_definitions := m_fresh_definitions s;
     m_conflict_index := m_conflict_index s;
     m_max_number_of_iterations := m_max_number_of_iterations s;
     m_number_of_iterations := m_number_of_iterations s; m_branch_stats := v;
     m_branch_stack := m_branch_stack s;
     m_explanation_of_branches := m_explanation_of_branches s;
     m_lra_level := m_lra_level s; m_changed_columns := m_changed_columns s;
     m_columns_to_terms := m_columns_to_terms s;
     m_added_terms := m_added_terms s; m_active_terms := m_active_terms s |}.
Definition set_m_branch_stack (v : list branch) (s : imp) : imp :=
  {| m_var_register := m_var_register s; m_entries := m_entries s;
     m_e_matrix := m_e_matrix s; m_e_columns := m_e_columns s;
     m_l_matrix := m_l_matrix s; m_l_columns := m_l_columns s; lia := lia s;
     stats := stats s; m_infeas_explanation := m_infeas_explanation s;
     m_indexed_work_vector := m_indexed_work_vector s;
     m_report_branch := m_report_branch s; m_f := m_f s; m_s := m_s s;
     imp_m_c := imp_m_c s; m_tmp_l := m_tmp_l s; m_k2s := m_k2s s;
     m_fresh_definitions := m_fresh_definitions s;
     m_conflict_index := m_conflict_index s;
     m_max_number_of_iterations := m_max_number_of_iterations s;
     m_number_of_iterations := m_number_of_iterations s;
     m_branch_stats := m_branch_stats s; m_branch_stack := v;
     m_explanation_of_branches := m_explanation_of_branches s;
     m_lra_level := m_lra_level s; m_changed_columns := m_changed_columns s;
     m_columns_to_terms := m_columns_to_terms s;
     m_added_terms := m_added_terms s; m_active_terms := m_active_terms s |}.
Definition set_m_explanation_of_branches (v : list constraint_index) (s : imp) : imp :=
  {| m_var_register := m_var_register s; m_entries := m_entries s;
     m_e_matrix := m_e_matrix s; m_e_columns := m_e_columns s;
     m_l_matrix := m_l_matrix s; m_l_columns := m_l_columns s; lia := lia s;
     stats := stats s; m_infeas_explanation := m_infeas_explanation s;
     m_indexed_work_vector := m_indexed_work_vector s;
     m_report_branch := m_report_branch s; m_f := m_f s; m_s := m_s s;
     imp_m_c := imp_m_c s; m_tmp_l := m_tmp_l s; m_k2s := m_k2s s;
     m_fresh_definitions := m_fresh_definitions s;
     m_conflict_index := m_conflict_index s;
     m_max_number_of_iterations := m_max_number_of_iterations s;
     m_number_of_iterations := m_number_of_iterations s;
     m_branch_stats := m_branch_stats s; m_branch_stack := m_branch_stack s;
     m_explanation_of_branches := v; m_lra_level := m_lra_level s;
     m_changed_columns := m_changed_columns s;
     m_columns_to_terms := m_columns_to_terms s;
     m_added_terms := m_added_terms s; m_active_terms := m_active_terms s |}.
Definition set_m_lra_level (v : N) (s : imp) : imp :=
  {| m_var_register := m_var_register s; m_entries := m_entries s;
     m_e_matrix := m_e_matrix s; m_e_columns := m_e_columns s;
     m_l_matrix := m_l_matrix s; m_l_columns := m_l_columns s; lia := lia s;
     stats := stats s; m_infeas_explanation := m_infeas_explanation s;
     m_indexed_work_vector := m_indexed_work_vector s;
     m_report_branch := m_report_branch s; m_f := m_f s; m_s := m_s s;
     imp_m_c := imp_m_c s; m_tmp_l := m_tmp_l s; m_k2s := m_k2s s;
     m_fresh_definitions := m_fresh_definitions s;
     m_conflict_index := m_conflict_index s;
     m_max_number_of_iterations := m_max_number_of_iterations s;
     m_number_of_iterations := m_number_of_iterations s;
     m_branch_stats := m_branch_stats s; m_branch_stack := m_branch_stack s;
     m_explanation_of_branches := m_explanation_of_branches s;
     m_lra_level := v; m_changed_columns := m_changed_columns s;
     m_columns_to_terms := m_columns_to_terms s;
     m_added_terms := m_added_terms s; m_active_terms := m_active_terms s |}.
Definition set_m_changed_columns (v : gset N) (s : imp) : imp :=
  {| m_var_register := m_var_register s; m_entries := m_entries s;
     m_e_matrix := m_e_matrix s; m_e_columns := m_e_columns s;
     m_l_matrix := m_l_matrix s; m_l_columns := m_l_columns s; lia := lia s;
     stats := stats s; m_infeas_explanation := m_infeas_explanation s;
     m_indexed_work_vector := m_indexed_work_vector s;
     m_report_branch := m_report_branch s; m_f := m_f s; m_s := m_s s;
     imp_m_c := imp_m_c s; m_tmp_l := m_tmp_l s; m_k2s := m_k2s s;
     m_fresh_definitions := m_fresh_definitions s;
     m_conflict_index := m_conflict_index s;
     m_max_number_of_iterations := m_max_number_of_iterations s;
     m_number_of_iterations := m_number_of_iterations s;
     m_branch_stats := m_branch_stats s; m_branch_stack := m_branch_stack s;
     m_explanation_of_branches := m_explanation_of_branches s;
     m_lra_level := m_lra_level s; m_changed_columns := v;
     m_columns_to_terms := m_columns_to_terms s;
     m_added_terms := m_added_terms s; m_active_terms := m_active_terms s |}.
Definition set_m_columns_to_terms (v : gmap N (gset N)) (s : imp) : imp :=
  {| m_var_register := m_var_register s; m_entries := m_entries s;
     m_e_matrix := m_e_matrix s; m_e_columns := m_e_columns s;
     m_l_matrix := m_l_matrix s; m_l_columns := m_l_columns s; lia := lia s;
     stats := stats s; m_infeas_explanation := m_infeas_explanation s;
     m_indexed_work_vector := m_indexed_work_vector s;
     m_report_branch := m_report_branch s; m_f := m_f s; m_s := m_s s;
     imp_m_c := imp_m_c s; m_tmp_l := m_tmp_l s; m_k2s := m_k2s s;
     m_fresh_definitions := m_fresh_definitions s;
     m_conflict_index := m_conflict_index s;
     m_max_number_of_iterations := m_max_number_of_iterations s;
     m_number_of_iterations := m_number_of_iterations s;
     m_branch_stats := m_branch_stats s; m_branch_stack := m_branch_stack s;
     m_explanation_of_branches := m_explanation_of_branches s;
     m_lra_level := m_lra_level s; m_changed_columns := m_changed_columns s;
     m_columns_to_terms := v; m_added_terms := m_added_terms s;
     m_active_terms := m_active_terms s |}.
Definition set_m_added_terms (v : list N) (s : imp) : imp :=
  {| m_var_register := m_var_register s; m_entries := m_entries s;
     m_e_matrix := m_e_matrix s; m_e_columns := m_e_columns s;
     m_l_matrix := m_l_matrix s; m_l_columns := m_l_columns s; lia := lia s;
     stats := stats s; m_infeas_explanation := m_infeas_explanation s;
     m_indexed_work_vector := m_indexed_work_vector s;
     m_report_branch := m_report_branch s; m_f := m_f s; m_s := m_s s;
     imp_m_c := imp_m_c s; m_tmp_l := m_tmp_l s; m_k2s := m_k2s s;
     m_fresh_definitions := m_fresh_definitions s;
     m_conflict_index := m_conflict_index s;
     m_max_number_of_iterations := m_max_number_of_iterations s;
     m_number_of_iterations := m_number_of_iterations s;
     m_branch_stats := m_branch_stats s; m_branch_stack := m_branch_stack s;
     m_explanation_of_branches := m_explanation_of_branches s;
     m_lra_level := m_lra_level s; m_changed_columns := m_changed_columns s;
     m_columns_to_terms := m_columns_to_terms s; m_added_terms := v;
     m_active_terms := m_active_terms s |}.
Definition set_m_active_terms (v : gset N) (s : imp) : imp :=
  {| m_var_register := m_var_register s; m_entries := m_entries s;
     m_e_matrix := m_e_matrix s; m_e_columns := m_e_columns s;
     m_l_matrix := m_l_matrix s; m_l_columns := m_l_columns s; lia := lia s;
     stats := stats s; m_infeas_explanation := m_infeas_explanation s;
     m_indexed_work_vector := m_indexed_work_vector s;
     m_report_branch := m_report_branch s; m_f := m_f s; m_s := m_s s;
     imp_m_c := imp_m_c s; m_tmp_l := m_tmp_l s; m_k2s := m_k2s s;
     m_fresh_definitions := m_fresh_definitions s;
     m_conflict_index := m_conflict_index s;
     m_max_number_of_iterations := m_max_number_of_iterations s;
     m_number_of_iterations := m_number_of_iterations s;
     m_branch_stats := m_branch_stats s; m_branch_stack := m_branch_stack s;
     m_explanation_of_branches := m_explanation_of_branches s;
     m_lra_level := m_lra_level s; m_changed_columns := m_changed_columns s;
     m_columns_to_terms := m_columns_to_terms s;
     m_added_terms := m_added_terms s; m_active_terms := v |}.

Definition set_lia_term (v : gmap N mpq) (l : int_solver) : int_solver :=
  {| lia_term := v; lia_offset := lia_offset l; lia_is_upper := lia_is_upper l |}.
Definition set_lia_offset (v : mpq) (l : int_solver) : int_solver :=
  {| lia_term := lia_term l; lia_offset := v; lia_is_upper := lia_is_upper l |}.
Definition set_lia_is_upper (v : bool) (l : int_solver) : int_solver :=
  {| lia_term := lia_term l; lia_offset := lia_offset l; lia_is_upper := v |}.

Definition incr_dio_calls (st : statistics) : statistics :=
  {| m_dio_calls := Datatypes.S (m_dio_calls st);
     m_dio_cut_from_proofs := m_dio_cut_from_proofs st;
     m_dio_normalize_conflicts := m_dio_normalize_conflicts st;
     m_dio_rewrite_conflicts := m_dio_rewrite_conflicts st;
     m_dio_tighten_conflicts := m_dio_tighten_conflicts st;
     m_dio_branch_iterations := m_dio_branch_iterations st;
     m_dio_branching_sats := m_dio_branching_sats st;
     m_dio_branching_infeasibles := m_dio_branching_infeasibles st;
     m_dio_branching_depth := m_dio_branching_depth st |}.
Definition incr_dio_cut_from_proofs (st : statistics) : statistics :=
  {| m_dio_calls := m_dio_calls st;
     m_dio_cut_from_proofs := Datatypes.S (m_dio_cut_from_proofs st);
     m_dio_normalize_conflicts := m_dio_normalize_conflicts st;
     m_dio_rewrite_conflicts := m_dio_rewrite_conflicts st;
     m_dio_tighten_conflicts := m_dio_tighten_conflicts st;
     m_dio_branch_iterations := m_dio_branch_iterations st;
     m_dio_branching_sats := m_dio_branching_sats st;
     m_dio_branching_infeasibles := m_dio_branching_infeasibles st;
     m_dio_branching_depth := m_dio_branching_depth st |}.
Definition incr_dio_normalize_conflicts (st : statistics) : statistics :=
  {| m_dio_calls := m_dio_calls st;
     m_dio_cut_from_proofs := m_dio_cut_from_proofs st;
     m_dio_normalize_conflicts := Datatypes.S (m_dio_normalize_conflicts st);
     m_dio_rewrite_conflicts := m_dio_rewrite_conflicts st;
     m_dio_tighten_conflicts := m_dio_tighten_conflicts st;
     m_dio_branch_iterations := m_dio_branch_iterations st;
     m_dio_branching_sats := m_dio_branching_sats st;
     m_dio_branching_infeasibles := m_dio_branching_infeasibles st;
     m_dio_branching_depth := m_dio_branching_depth st |}.
Definition incr_dio_rewrite_conflicts (st : statistics) : statistics :=
  {| m_dio_calls := m_dio_calls st;
     m_dio_cut_from_proofs := m_dio_cut_from_proofs st;
     m_dio_normalize_conflicts := m_dio_normalize_conflicts st;
     m_dio_rewrite_conflicts := Datatypes.S (m_dio_rewrite_conflicts st);
     m_dio_tighten_conflicts := m_dio_tighten_conflicts st;
     m_dio_branch_iterations := m_dio_branch_iterations st;
     m_dio_branching_sats := m_dio_branching_sats st;
     m_dio_branching_infeasibles := m_dio_branching_infeasibles st;
     m_dio_branching_depth := m_dio_branching_depth st |}.
Definition incr_dio_tighten_conflicts (st : statistics) : statistics :=
  {| m_dio_calls := m_dio_calls st;
     m_dio_cut_from_proofs := m_dio_cut_from_proofs st;
     m_dio_normalize_conflicts := m_dio_normalize_conflicts st;
     m_dio_rewrite_conflicts := m_dio_rewrite_conflicts st;
     m_dio_tighten_conflicts := Datatypes.S (m_dio_tighten_conflicts st);
     m_dio_branch_iterations := m_dio_branch_iterations st;
     m_dio_branching_sats := m_dio_branching_sats st;
     m_dio_branching_infeasibles := m_dio_branching_infeasibles st;
     m_dio_branching_depth := m_dio_branching_depth st |}.
Definition incr_dio_branch_iterations (st : statistics) : statistics :=
  {| m_dio_calls := m_dio_calls st;
     m_dio_cut_from_proofs := m_dio_cut_from_proofs st;
     m_dio_normalize_conflicts := m_dio_normalize_conflicts st;
     m_dio_rewrite_conflicts := m_dio_rewrite_conflicts st;
     m_dio_tighten_conflicts := m_dio_tighten_conflicts st;
     m_dio_branch_iterations := Datatypes.S (m_dio_branch_iterations st);
     m_dio_branching_sats := m_dio_branching_sats st;
     m_dio_branching_infeasibles := m_dio_branching_infeasibles st;
     m_dio_branching_depth := m_dio_branching_depth st |}.
Definition incr_dio_branching_sats (st : statistics) : statistics :=
  {| m_dio_calls := m_dio_calls st;
     m_dio_cut_from_proofs := m_dio_cut_from_proofs st;
     m_dio_normalize_conflicts := m_dio_normalize_conflicts st;
     m_dio_rewrite_conflicts := m_dio_rewrite_conflicts st;
     m_dio_tighten_conflicts := m_dio_tighten_conflicts st;
     m_dio_branch_iterations := m_dio_branch_iterations st;
     m_dio_branching_sats := Datatypes.S (m_dio_branching_sats st);
     m_dio_branching_infeasibles := m_dio_branching_infeasibles st;
     m_dio_branching_depth := m_dio_branching_depth st |}.
Definition incr_dio_branching_infeasibles (st : statistics) : statistics :=
  {| m_dio_calls := m_dio_calls st;
     m_dio_cut_from_proofs := m_dio_cut_from_proofs st;
     m_dio_normalize_conflicts := m_dio_normalize_conflicts st;
     m_dio_rewrite_conflicts := m_dio_rewrite_conflicts st;
     m_dio_tighten_conflicts := m_dio_tighten_conflicts st;
     m_dio_branch_iterations := m_dio_branch_iterations st;
     m_dio_branching_sats := m_dio_branching_sats st;
     m_dio_branching_infeasibles := Datatypes.S (m_dio_branching_infeasibles st);
     m_dio_branching_depth := m_dio_branching_depth st |}.
Definition set_dio_branching_depth (v : nat) (st : statistics) : statistics :=
  {| m_dio_calls := m_dio_calls st;
     m_dio_cut_from_proofs := m_dio_cut_from_proofs st;
     m_dio_normalize_conflicts := m_dio_normalize_conflicts st;
     m_dio_rewrite_conflicts := m_dio_rewrite_conflicts st;
     m_dio_tighten_conflicts := m_dio_tighten_conflicts st;
     m_dio_branch_iterations := m_dio_branch_iterations st;
     m_dio_branching_sats := m_dio_branching_sats st;
     m_dio_branching_infeasibles := m_dio_branching_infeasibles st;
     m_dio_branching_depth := v |}.

(** ** The host: [lar_solver] and [int_solver]

    The linear-arithmetic solver is a collaborator.  Its state is a type [H]
    and the solver reads and mutates it through the operations below
    (spec 6); a mutator returns the new state of the host.  [get_term lra j]
    holds the monomials of the term of column [j];
    [get_lower_bound lra j] is [lra.get_lower_bound(j).x], the value of a
    fixed column. *)
Class LarSolver (H : Type) := {
  column_count : H → N;
  get_term : H → N → gmap N mpq;
  column_has_term : H → N → bool;
  column_is_int : H → N → bool;
  column_is_fixed : H → N → bool;
  column_is_free : H → N → bool;
  column_is_int_inf : H → N → bool;
  get_lower_bound : H → N → mpq;
  get_upper_bound : H → N → mpq;
  get_column_value : H → N → mpq;
  (** [has_bound_of_type(j, dep, rs, is_strict, is_upper)] *)
  has_bound_of_type : H → N → bool → option (u_dependency * mpq * bool);
  get_column_upper_bound_witness : H → N → u_dependency;
  get_column_lower_bound_witness : H → N → u_dependency;
  get_bound_constraint_witnesses_for_column : H → N → u_dependency;
  update_column_type_and_bound :
    N → lconstraint_kind.t → mpq → u_dependency → H → H;
  add_var_bound : N → lconstraint_kind.t → mpq → H → H;
  push : H → H;
  pop : H → H;
  find_feasible_solution : H → lp_status.t * H;
  (** [get_infeasibility_explanation(ex)] fills the buffer it is given *)
  get_infeasibility_explanation :
    H → list constraint_index → list constraint_index;
  r_basis : H → list N;
  (** [settings().random_next()] *)
  random_next : H → nat * H;
  dio_cut_from_proof_period : H → nat;
  (** [constraints().valid_index(ci)] *)
  valid_index : H → constraint_index → bool
}.

(** ** Rows, entries and terms of the solver *)

Definition default_entry : entry :=
  {| m_c := 0%Qc; m_entry_status := entry_status.NO_S_NO_F |}.

Definition entry_at (s : imp) (i : nat) : entry :=
  default default_entry (m_entries s !! i).

Definition set_entry_c (c : mpq) (e : entry) : entry :=
  {| m_c := c; m_entry_status := m_entry_status e |}.

Definition set_entry_status (st : entry_status.t) (e : entry) : entry :=
  {| m_c := m_c e; m_entry_status := st |}.

Definition no_fresh_definition : fresh_definition :=
  {| m_ei := None; m_origin := None |}.

(** [std_vector::resize(n, v)]: truncates or pads with [v]. *)
Definition resize {A} (n : nat) (v : A) (l : list A) : list A :=
  take n l ++ replicate (n - length l) v.

(** The term of the cells of a row. *)
Definition term_of_row `{Countable V} (r : list (V * mpq)) : gmap V mpq :=
  fold_left (λ t p, add_monomial p.2 p.1 t) r ∅.

Definition get_term_from_entry (s : imp) (i : nat) : term_o nat :=
  {| t_coeffs := term_of_row (row_at (m_e_matrix s) i);
     t_c := m_c (entry_at s i) |}.

Definition l_term_from_row (s : imp) (k : nat) : gmap N mpq :=
  term_of_row (row_at (m_l_matrix s) k).

Definition local_to_lar_solver (s : imp) (j : nat) : N :=
  VarRegister.local_to_external (m_var_register s) j.

Definition lar_solver_to_local (s : imp) (j : N) : nat :=
  VarRegister.external_to_local (m_var_register s) j.

Definition is_fresh_var (s : imp) (j : nat) : bool :=
  bool_decide (local_to_lar_solver s j = UINT_MAX).

Definition can_substitute (s : imp) (k : nat) : bool :=
  bool_decide (k < length (m_k2s s)) &&
  bool_decide (is_Some (mjoin (m_k2s s !! k))).

Definition has_fresh_var (s : imp) (row_index : nat) : bool :=
  existsb (λ p, is_fresh_var s p.1) (row_at (m_e_matrix s) row_index).

(** [gcd_of_coeffs]: the loop leaves as soon as the gcd is one. *)
Fixpoint gcd_of_coeffs_from {V} (g : mpq) (k : list (V * mpq)) : mpq :=
  match k with
  | [] => g
  | p :: k' =>
      let g' := if is_zero g then abs p.2 else gcd g p.2 in
      if is_one g' then g' else gcd_of_coeffs_from g' k'
  end.

Definition gcd_of_coeffs {V} (k : list (V * mpq)) : mpq :=
  gcd_of_coeffs_from 0%Qc k.

(** ** Normalization by the gcd *)

Definition prepare_lia_branch_report (ei : nat) (g new_c : mpq) (s : imp) :
  imp :=
  let t := fold_left
             (λ t p, add_monomial (p.2 / g)%Qc (local_to_lar_solver s p.1) t)
             (row_at (m_e_matrix s) ei) (lia_term (lia s)) in
  set_m_report_branch true
    (set_lia
       (set_lia_is_upper true
          (set_lia_offset (floor (- new_c)) (set_lia_term t (lia s)))) s).

(** Returns [true] if and only if there is no conflict.  On a conflict the
    source takes [m_dio_calls % dio_cut_from_proof_period()], which is not
    defined when the period is 0 (the program stops there); [mod] on [nat]
    is total, so what is stated about a conflict assumes a period other than
    0. *)
Definition normalize_e_by_gcd `{LarSolver H} (lra : H) (ei : nat) (s : imp) :
  bool * imp :=
  let e := entry_at s ei in
  let g := gcd_of_coeffs (row_at (m_e_matrix s) ei) in
  if is_zero g || is_one g then (true, s)
  else
    let c_g := (m_c e / g)%Qc in
    if is_int c_g then
      let s := set_m_e_matrix (divide_row ei g (m_e_matrix s)) s in
      let s := set_m_entries (alter (set_entry_c c_g) ei (m_entries s)) s in
      let s := set_m_l_matrix (divide_row ei g (m_l_matrix s)) s in
      (true, s)
    else if bool_decide
              (m_dio_calls (stats s) mod dio_cut_from_proof_period lra = 0)
            && negb (has_fresh_var s ei)
    then (false, prepare_lia_branch_report ei g c_g s)
    else (false, s).

Fixpoint normalize_by_gcd_loop `{LarSolver H} (lra : H) (f : list nat)
    (s : imp) : bool * imp :=
  match f with
  | [] => (true, s)
  | l :: f' =>
      let (ok, s') := normalize_e_by_gcd lra l s in
      if ok then normalize_by_gcd_loop lra f' s'
      else (false, set_m_conflict_index (Some l) s')
  end.

(** Returns [true] if no conflict is found. *)
Definition normalize_by_gcd `{LarSolver H} (lra : H) (s : imp) : bool * imp :=
  normalize_by_gcd_loop lra (m_f s) s.

(** ** The rewrite step *)

(** [find_minimal_abs_coeff]: [first] tells that no cell was seen yet; the
    source leaves [k] and [k_sign] uninitialised on an empty row, the
    embedding returns zeros there. *)
Fixpoint find_minimal_abs_coeff_loop (row : list (nat * mpq)) (first : bool)
    (ahk : mpq) (k : nat) (k_sign : Z) : mpq * nat * Z :=
  match row with
  | [] => (ahk, k, k_sign)
  | p :: row' =>
      let t := abs p.2 in
      if first || bool_decide (t < ahk)%Qc
         || (bool_decide (t = ahk) && bool_decide (p.1 < k))
      then
        let k_sign := if is_pos p.2 then 1%Z else (-1)%Z in
        if is_one t then (t, p.1, k_sign)
        else find_minimal_abs_coeff_loop row' false t p.1 k_sign
      else find_minimal_abs_coeff_loop row' first ahk k k_sign
  end.

Definition find_minimal_abs_coeff (s : imp) (ei : nat) : mpq * nat * Z :=
  find_minimal_abs_coeff_loop (row_at (m_e_matrix s) ei) true 0%Qc 0 0%Z.

Definition j_sign_is_correct (s : imp) (ei j : nat) (j_sign : Z) : bool :=
  match find_cell j (row_at (m_e_matrix s) ei) with
  | None => false
  | Some p => (bool_decide (p.2 = 1%Qc) && bool_decide (j_sign = 1%Z))
              || (bool_decide (p.2 = (-1)%Qc) && bool_decide (j_sign = (-1)%Z))
  end.

(** One turn of the loop of [eliminate_var_in_f], on the row [i] of a cell of
    column [j]: rows that are not in F are skipped. *)
Definition eliminate_var_in_row (ei j : nat) (j_sign : Z) (i : nat) (s : imp) :
  imp :=
  if decide (m_entry_status (entry_at s i) = entry_status.F) then
    let coeff := row_coeff j (row_at (m_e_matrix s) i) in
    let e := entry_at s ei in
    let s := set_m_entries
               (alter (λ x, set_entry_c (m_c x - of_Z j_sign * coeff * m_c e)%Qc x)
                  i (m_entries s)) s in
    let s := set_m_e_matrix
               (pivot_row_to_row_given_cell_with_sign ei i j (of_Z j_sign)
                  (m_e_matrix s)) s in
    set_m_l_matrix (add_rows (- of_Z j_sign * coeff)%Qc ei i (m_l_matrix s)) s
  else s.

(** [eliminate_var_in_f(ei, j, j_sign)]: [j] has the coefficient [j_sign] in
    the row [ei]; the cell of the row [ei] is moved to the head of the column
    and the other cells of the column are visited from the last one. *)
Definition eliminate_var_in_f (ei j : nat) (j_sign : Z) (s : imp) : imp :=
  fold_left (λ s i, eliminate_var_in_row ei j j_sign i s)
    (reverse (filter (λ i, i ≠ ei) (column j (m_e_matrix s)))) s.

(** [move_row_to_work_vector]: clears the row and puts its term in the work
    vector, which is cleared and resized to the columns of E first. *)
Definition move_row_to_work_vector (ei : nat) (s : imp) : imp :=
  let v := fold_left (λ v cell, IndexedVector.set_value cell.2 cell.1 v)
             (row_at (m_e_matrix s) ei)
             (IndexedVector.resize (m_e_columns s)
                (IndexedVector.clear (m_indexed_work_vector s))) in
  set_m_e_matrix (clear_row ei (m_e_matrix s)) (set_m_indexed_work_vector v s).

(** The loop of [fresh_var_step] over the indices of the work vector. *)
Definition fresh_var_step_cell (h k fresh_row : nat) (ahk : mpq)
    (v : indexed_vector) (m : list (list (nat * mpq))) (i : nat) :
  list (list (nat * mpq)) :=
  let ai := IndexedVector.get v i in
  if decide (i = k) then m
  else
    let (q, r) := machine_div_rem ai ahk in
    let m := if is_zero r then m else add_new_element h i r m in
    if is_zero q then m else add_new_element fresh_row i q m.

(** The body of [fresh_var_step(h, k, ahk)] up to its call of
    [eliminate_var_in_f]: step 7 of the paper; [k] is the variable to
    substitute and [ahk] its coefficient in the row [h].  Returns the row of
    the definition of the fresh variable and the state. *)
Definition fresh_var_step_define (h k : nat) (ahk : mpq) (s : imp) :
  nat * imp :=
  let s := move_row_to_work_vector h s in
  let (xt, reg) := VarRegister.add_var UINT_MAX (m_var_register s) in
  let s := set_m_var_register reg s in
  let fresh_row := row_count (m_e_matrix s) in
  let s := set_m_e_matrix (add_row (m_e_matrix s)) s in
  let s := set_m_e_columns (m_e_columns s `max` (xt + 1)) s in
  let (q, r) := machine_div_rem (m_c (entry_at s h)) ahk in
  let s := set_m_entries (alter (set_entry_c r) h (m_entries s)) s in
  let s := set_m_e_matrix (add_new_element h xt ahk (m_e_matrix s)) s in
  let s := set_m_entries
             (m_entries s ++
                [{| m_c := q; m_entry_status := entry_status.NO_S_NO_F |}]) s in
  let s := set_m_e_matrix
             (add_new_element fresh_row xt (-1)%Qc (m_e_matrix s)) s in
  let s := set_m_e_matrix
             (add_new_element fresh_row k 1%Qc (m_e_matrix s)) s in
  let s := set_m_e_matrix
             (fold_left (fresh_var_step_cell h k fresh_row ahk
                           (m_indexed_work_vector s))
                (m_index (m_indexed_work_vector s)) (m_e_matrix s)) s in
  let s := set_m_l_matrix (add_row (m_l_matrix s)) s in
  let s := set_m_k2s (<[k := Some fresh_row]> (resize (k + 1) None (m_k2s s))) s in
  let s := set_m_fresh_definitions
             (<[xt := {| m_ei := Some fresh_row; m_origin := Some h |}]>
                (resize (xt + 1) no_fresh_definition (m_fresh_definitions s))) s in
  (fresh_row, s).

Definition fresh_var_step (h k : nat) (ahk : mpq) (s : imp) : imp :=
  let (fresh_row, s) := fresh_var_step_define h k ahk s in
  eliminate_var_in_f fresh_row k 1 s.

(** [std::list::remove] *)
Definition list_remove (ei : nat) (l : list nat) : list nat :=
  filter (λ i, i ≠ ei) l.

Definition move_entry_from_f_to_s (k h : nat) (s : imp) : imp :=
  let s := set_m_entries
             (alter (set_entry_status entry_status.S) h (m_entries s)) s in
  let s := if decide (length (m_k2s s) ≤ k)
           then set_m_k2s (resize (k + 1) None (m_k2s s)) s else s in
  let s := set_m_s (m_s s ++ [h]) s in
  let s := set_m_k2s (<[k := Some h]> (m_k2s s)) s in
  set_m_f (list_remove h (m_f s)) s.

(** The scan of [rewrite_eqs] over F: the empty rows with a zero constant are
    erased from the list; an empty row with a non-zero constant is a conflict.
    Returns the list that is left and the conflict or the row [h]. *)
Fixpoint rewrite_eqs_scan (s : imp) (f : list nat) :
  list nat * (option nat * option nat) :=
  match f with
  | [] => ([], (None, None))
  | i :: f' =>
      if bool_decide (length (row_at (m_e_matrix s) i) = 0) then
        if is_zero (m_c (entry_at s i)) then rewrite_eqs_scan s f'
        else (f, (Some i, None))
      else (f, (None, Some i))
  end.

(** Step 6 or 7 of the algorithm. *)
Definition rewrite_eqs (s : imp) : imp :=
  let '(f, (conflict, h)) := rewrite_eqs_scan s (m_f s) in
  let s := set_m_f f s in
  match conflict with
  | Some i => set_m_conflict_index (Some i) s
  | None =>
      match h with
      | None => s
      | Some h =>
          let '(ahk, k, k_sign) := find_minimal_abs_coeff s h in
          if is_one ahk then
            eliminate_var_in_f h k k_sign (move_entry_from_f_to_s k h s)
          else fresh_var_step h k (ahk * of_Z k_sign)%Qc s
      end
  end.

(** [process_f]: the loop runs while F is not empty; [fuel] bounds the
    number of turns and [None] tells that it ran out. *)
Fixpoint process_f `{LarSolver H} (fuel : nat) (lra : H) (s : imp) :
  option (lia_move.t * imp) :=
  match m_f s with
  | [] => Some (lia_move.undef, s)
  | _ :: _ =>
      match fuel with
      | 0 => None
      | Datatypes.S fuel =>
          let (ok, s) := normalize_by_gcd lra s in
          if negb ok then
            if m_report_branch s then
              Some (lia_move.branch,
                    set_m_report_branch false
                      (set_stats (incr_dio_cut_from_proofs (stats s)) s))
            else
              Some (lia_move.conflict,
                    set_stats (incr_dio_normalize_conflicts (stats s)) s)
          else
            let s := rewrite_eqs s in
            match m_conflict_index s with
            | Some _ =>
                Some (lia_move.conflict,
                      set_stats (incr_dio_rewrite_conflicts (stats s)) s)
            | None => process_f fuel lra s
            end
      end
  end.

(** ** Terms of the host and the entry invariant *)

Definition is_fixed `{LarSolver H} (lra : H) (j : N) : bool :=
  column_is_fixed lra j.

(** Modelled from the spec: [t.ext_coeffs()] enumerates the monomials of the
    term of column [j] and then the column itself with the coefficient [-1]:
    "the term has form sum(a_i*x_i) - t.j() = 0". *)
Definition ext_coeffs `{LarSolver H} (lra : H) (j : N) : list (N * mpq) :=
  monomials (get_term lra j) ++ [(j, (-1)%Qc)].

(** [term_to_lar_solver]: the term over the columns of the host. *)
Definition term_to_lar_solver (s : imp) (eterm : term_o nat) : term_o N :=
  {| t_coeffs := map_fold (λ j a acc, add_monomial a (local_to_lar_solver s j) acc)
                   ∅ (t_coeffs eterm);
     t_c := t_c eterm |}.

(** [lra.get_term(j) - lar_term(j)] *)
Definition term_minus_column `{LarSolver H} (lra : H) (j : N) : gmap N mpq :=
  map_fold (λ k v acc, sub_monomial v k acc) (get_term lra j)
    (lar_term_of_var j).

(** [open_ml]: [sum p.coeff() * (lra.get_term(p.var()) - lar_term(p.var()))]
    over the cells of a row of L, or over the monomials of a term. *)
Definition open_ml `{LarSolver H} (lra : H) (ml : list (N * mpq)) : term_o N :=
  fold_left
    (λ r p, term_o_add r (term_o_scale p.2 (term_o_of (term_minus_column lra p.1))))
    ml term_o_zero.

(** [fix_vars]: the fixed variables are replaced by their values. *)
Definition fix_vars `{LarSolver H} (lra : H) (t : term_o N) : term_o N :=
  map_fold
    (λ j a (ret : term_o N),
       if is_fixed lra j
       then {| t_coeffs := t_coeffs ret;
               t_c := (t_c ret + a * get_lower_bound lra j)%Qc |}
       else {| t_coeffs := add_monomial a j (t_coeffs ret); t_c := t_c ret |})
    term_o_zero (t_coeffs t).

Definition fresh_definition_at (s : imp) (xt : nat) : fresh_definition :=
  default no_fresh_definition (m_fresh_definitions s !! xt).

(** The term of the row that defines the fresh variable [xt], without [xt]:
    [get_term_from_entry(m_fresh_definitions[xt].m_ei)] and
    [erase_var(xt)].  A fresh variable without a definition yields the zero
    term (the source reads out of the bounds there). *)
Definition fresh_term (s : imp) (xt : nat) : term_o nat :=
  match m_ei (fresh_definition_at s xt) with
  | Some ei =>
      let t := get_term_from_entry s ei in
      {| t_coeffs := erase_var xt (t_coeffs t); t_c := t_c t |}
  | None => term_o_zero
  end.

Definition fresh_vars_of (s : imp) (t : term_o nat) : list nat :=
  filter (λ j, is_fresh_var s j = true) (monomials (t_coeffs t)).*1.

(** The loop of [remove_fresh_vars] over its queue; [fuel] bounds the number
    of turns and [None] tells that it ran out. *)
Fixpoint remove_fresh_vars_loop (fuel : nat) (s : imp) (q : list nat)
    (t : term_o nat) : option (term_o nat) :=
  match q with
  | [] => Some t
  | xt :: q =>
      match fuel with
      | 0 => None
      | Datatypes.S fuel =>
          let fresh_t := fresh_term s xt in
          if negb (contains (t_coeffs t) xt) then
            remove_fresh_vars_loop fuel s q t
          else
            let xt_coeff := get_coeff (t_coeffs t) xt in
            let t := {| t_coeffs := erase_var xt (t_coeffs t); t_c := t_c t |} in
            let t := term_o_add t (term_o_scale xt_coeff fresh_t) in
            remove_fresh_vars_loop fuel s (q ++ fresh_vars_of s t) t
      end
  end.

Definition remove_fresh_vars (fuel : nat) (s : imp) (tt : term_o nat) :
  option (term_o nat) :=
  remove_fresh_vars_loop fuel s (fresh_vars_of s tt) tt.

(** [entry_invariant(ei)]: the coefficients of the row are integers, and the
    row, with its fresh variables expanded and over the columns of the host,
    is the opened row of L with the fixed variables replaced. *)
Definition entry_invariant `{LarSolver H} (fuel : nat) (lra : H) (s : imp)
    (ei : nat) : bool :=
  forallb (λ p : nat * mpq, is_int p.2) (row_at (m_e_matrix s) ei)
  && match remove_fresh_vars fuel s (get_term_from_entry s ei) with
     | Some t =>
         term_o_eq (term_to_lar_solver s t)
           (fix_vars lra (open_ml lra (row_at (m_l_matrix s) ei)))
     | None => false
     end.

Definition entries_are_ok `{LarSolver H} (fuel : nat) (lra : H) (s : imp) :
  bool :=
  forallb (entry_invariant fuel lra s) (seq 0 (length (m_entries s))).

(** ** Row creation and recalculation *)

(** [add_var(j)]: adds the column [j] of the host to the register. *)
Definition add_var (j : N) (s : imp) : nat * imp :=
  let (l, reg) := VarRegister.add_var j (m_var_register s) in
  (l, set_m_var_register reg s).

(** [add_columns_up_to(j)] *)
Definition add_columns_up_to (j : nat) (columns : nat) : nat :=
  columns `max` (j + 1).

Definition fill_entry_cell `{LarSolver H} (lra : H) (entry_index : nat)
    (s : imp) (p : N * mpq) : imp :=
  if is_fixed lra p.1 then
    set_m_entries
      (alter (λ e, set_entry_c (m_c e + p.2 * get_lower_bound lra p.1)%Qc e)
         entry_index (m_entries s)) s
  else
    let (lj, s) := add_var p.1 s in
    let s := set_m_e_columns (add_columns_up_to lj (m_e_columns s)) s in
    set_m_e_matrix (add_new_element entry_index lj p.2 (m_e_matrix s)) s.

(** [fill_entry(t)] for the term [t] of column [tj]: the term has the form
    [sum(a_i*x_i) - t.j() = 0]. *)
Definition fill_entry `{LarSolver H} (lra : H) (tj : N) (s : imp) : imp :=
  let entry_index := length (m_entries s) in
  let s := set_m_f (m_f s ++ [entry_index]) s in
  let s := set_m_entries
             (m_entries s ++
                [{| m_c := 0%Qc; m_entry_status := entry_status.F |}]) s in
  let s := set_m_l_matrix (add_row (m_l_matrix s)) s in
  let s := set_m_l_columns (add_columns_up_to (N.to_nat tj) (m_l_columns s)) s in
  let s := set_m_l_matrix (add_new_element entry_index tj 1%Qc (m_l_matrix s)) s in
  let s := set_m_e_matrix (add_row (m_e_matrix s)) s in
  fold_left (fill_entry_cell lra entry_index) (ext_coeffs lra tj) s.

Definition register_columns_to_term `{LarSolver H} (lra : H) (tj : N)
    (s : imp) : imp :=
  set_m_columns_to_terms
    (fold_left
       (λ m p, <[p.1 := {[tj]} ∪ default ∅ (m !! p.1)]> m)
       (ext_coeffs lra tj) (m_columns_to_terms s)) s.

(** [make_space_in_work_vector(j)]: the work vector is resized, and so
    cleared, when [j] is not below the size of its data. *)
Definition make_space_in_work_vector (j : nat) (v : indexed_vector) :
  indexed_vector :=
  if decide (IndexedVector.data_size v ≤ j) then IndexedVector.resize (j + 1) v
  else v.

(** [open_l_term_to_work_vector(ei, c)]: the work vector is indexed by the
    columns of the host here. *)
Definition open_l_term_to_work_vector `{LarSolver H} (lra : H) (ei : nat)
    (c : mpq) (s : imp) : mpq * indexed_vector :=
  fold_left
    (λ cv p,
       fold_left
         (λ (cv : mpq * indexed_vector) (q : N * mpq),
            if is_fixed lra q.1
            then ((cv.1 + p.2 * q.2 * get_lower_bound lra q.1)%Qc, cv.2)
            else (cv.1,
                  IndexedVector.add_value_at_index (N.to_nat q.1)
                    (p.2 * q.2)%Qc
                    (make_space_in_work_vector (N.to_nat q.1) cv.2)))
         (ext_coeffs lra p.1) cv)
    (row_at (m_l_matrix s) ei)
    (c, IndexedVector.clear (m_indexed_work_vector s)).

Definition recalculate_entry_cell (ei : nat) (sd : imp * mpq)
    (p : nat * mpq) : imp * mpq :=
  let (s, denom) := sd in
  let (lj, s) := add_var (N.of_nat p.1) s in
  let s := set_m_e_columns (add_columns_up_to lj (m_e_columns s)) s in
  let s := set_m_e_matrix (add_new_element ei lj p.2 (m_e_matrix s)) s in
  (s, if is_one (denominator p.2) then denom
      else lcm denom (denominator p.2)).

Definition recalculate_entry `{LarSolver H} (lra : H) (ei : nat) (s : imp) :
  imp :=
  let (c, v) := open_l_term_to_work_vector lra ei 0%Qc s in
  let s := set_m_indexed_work_vector v s in
  let s := set_m_entries (alter (set_entry_c c) ei (m_entries s)) s in
  let s := set_m_e_matrix (clear_row ei (m_e_matrix s)) s in
  let (s, denom) :=
    fold_left (recalculate_entry_cell ei) (IndexedVector.cells v) (s, 1%Qc) in
  if is_one denom then s
  else
    let s := set_m_entries
               (alter (λ e, set_entry_c (m_c e * denom)%Qc e) ei (m_entries s)) s in
    let s := set_m_l_matrix (multiply_row ei denom (m_l_matrix s)) s in
    set_m_e_matrix (multiply_row ei denom (m_e_matrix s)) s.

(** ** Change tracking: [process_changed_columns] *)

(** [remove_entry_index]: erases the first occurrence. *)
Fixpoint remove_entry_index (l : list nat) (ei : nat) : list nat :=
  match l with
  | [] => []
  | x :: l' => if decide (x = ei) then l' else x :: remove_entry_index l' ei
  end.

Definition remove_entry_from_lists (ei : nat) (s : imp) : imp :=
  if decide (m_entry_status (entry_at s ei) = entry_status.F)
  then set_m_f (list_remove ei (m_f s)) s
  else set_m_s (list_remove ei (m_s s)) s.

Definition add_entry_to_lists (ei : nat) (s : imp) : imp :=
  if decide (m_entry_status (entry_at s ei) = entry_status.F)
  then set_m_f (m_f s ++ [ei]) s
  else set_m_s (m_s s ++ [ei]) s.

(** [transpose_rows(i, k)] and [std::swap] of two elements. *)
Definition swap_at {A} (i k : nat) (l : list A) : list A :=
  match l !! i, l !! k with
  | Some x, Some y => <[k := x]> (<[i := y]> l)
  | _, _ => l
  end.

Definition transpose_index (i k : nat) (t : option nat) : option nat :=
  if decide (t = Some i) then Some k
  else if decide (t = Some k) then Some i else t.

Definition transpose_entries (i k : nat) (s : imp) : imp :=
  let s := set_m_l_matrix (swap_at i k (m_l_matrix s)) s in
  let s := set_m_e_matrix (swap_at i k (m_e_matrix s)) s in
  let s := remove_entry_from_lists i s in
  let s := remove_entry_from_lists k s in
  let s := set_m_entries (swap_at i k (m_entries s)) s in
  let s := add_entry_to_lists i s in
  let s := add_entry_to_lists k s in
  let s := set_m_fresh_definitions
             (map (λ fd, {| m_ei := transpose_index i k (m_ei fd);
                            m_origin := m_origin fd |})
                (m_fresh_definitions s)) s in
  set_m_k2s (map (transpose_index i k) (m_k2s s)) s.

Definition remove_last {A} (l : list A) : list A := take (length l - 1) l.

Definition remove_last_entry (s : imp) : imp :=
  let ei := length (m_entries s) - 1 in
  let s := if decide (m_entry_status (entry_at s ei) = entry_status.F)
           then set_m_f (remove_entry_index (m_f s) ei) s
           else set_m_s (remove_entry_index (m_s s) ei) s in
  set_m_entries (remove_last (m_entries s)) s.

Definition move_entry_from_s_to_f (ei : nat) (s : imp) : imp :=
  if decide (m_entry_status (entry_at s ei) = entry_status.F) then s
  else
    let s := set_m_entries
               (alter (set_entry_status entry_status.F) ei (m_entries s)) s in
    let s := set_m_k2s
               (map (λ t, if decide (t = Some ei) then None else t) (m_k2s s)) s in
    let s := set_m_s (list_remove ei (m_s s)) s in
    set_m_f (m_f s ++ [ei]) s.

(** The removal of the definition of the fresh variable [xt]: the row of the
    definition is moved to the last place and dropped.  The source holds the
    definition by reference, so after the transposition its [m_ei] is the
    last row. *)
Definition remove_fresh_definition (xt : nat)
    (sr : imp * gset nat) : imp * gset nat :=
  let (s, entries_to_recalculate) := sr in
  let last_ei := length (m_entries s) - 1 in
  let fd_ei := m_ei (fresh_definition_at s xt) in
  let (s, entries_to_recalculate) :=
    if decide (fd_ei = Some last_ei) then (s, entries_to_recalculate)
    else
      let s := transpose_entries (default 0 fd_ei) last_ei s in
      let fd_ei' := default 0 (m_ei (fresh_definition_at s xt)) in
      (s, if decide (last_ei ∈ entries_to_recalculate)
          then {[fd_ei']} ∪ (entries_to_recalculate ∖ {[last_ei]})
          else entries_to_recalculate) in
  let entries_to_recalculate :=
    list_to_set (column xt (m_e_matrix s)) ∪ entries_to_recalculate in
  let s := set_m_fresh_definitions
             (<[xt := no_fresh_definition]> (m_fresh_definitions s)) s in
  let s := remove_last_entry s in
  let s := set_m_l_matrix (remove_last (m_l_matrix s)) s in
  let s := set_m_e_matrix (remove_last (m_e_matrix s)) s in
  (s, entries_to_recalculate).

(** The last column of a matrix is dropped when no row has a cell in it. *)
Definition last_column_is_empty {V} `{EqDecision V} (of_nat : nat → V)
    (columns : nat) (m : list (list (V * mpq))) : bool :=
  bool_decide (0 < columns) &&
  bool_decide (column (of_nat (columns - 1)) m = []).

Definition recalculate_and_move `{LarSolver H} (lra : H) (s : imp) (k : nat) :
  imp :=
  if decide (length (m_entries s) ≤ k) then s
  else
    let s := recalculate_entry lra k s in
    let s := move_entry_from_s_to_f k s in
    let s :=
      if last_column_is_empty id (m_e_columns s) (m_e_matrix s) then
        let s := set_m_e_columns (m_e_columns s - 1) s in
        set_m_var_register
          (VarRegister.shrink (m_e_columns s) (m_var_register s)) s
      else s in
    if last_column_is_empty N.of_nat (m_l_columns s) (m_l_matrix s)
    then set_m_l_columns (m_l_columns s - 1) s
    else s.

(** [process_changed_columns]: the sets of the source are enumerated in the
    order of [elements].  [delete_column] is not implemented in the source:
    the changed columns are taken to be columns of the host. *)
Definition process_changed_columns `{LarSolver H} (lra : H) (s : imp) : imp :=
  let changed := elements (m_changed_columns s) in
  let changed_terms : gset N :=
    ⋃ (map (λ j, default ∅ (m_columns_to_terms s !! j)) changed) in
  let from_e : gset nat :=
    ⋃ (map (λ j, match VarRegister.external_is_used (m_var_register s) j with
                 | Some lj => list_to_set (column lj (m_e_matrix s))
                 | None => ∅
                 end) changed) in
  let from_l : gset nat :=
    ⋃ (map (λ j, list_to_set (column j (m_l_matrix s))) (elements changed_terms)) in
  let entries_to_recalculate := from_e ∪ from_l in
  let fresh_entries_to_remove :=
    filter (λ j, match m_ei (fresh_definition_at s j),
                       m_origin (fresh_definition_at s j) with
                 | Some _, Some o => bool_decide (o ∈ entries_to_recalculate)
                 | _, _ => false
                 end = true)
      (seq 0 (length (m_fresh_definitions s))) in
  let (s, entries_to_recalculate) :=
    fold_left (λ sr xt, remove_fresh_definition xt sr)
      (reverse fresh_entries_to_remove) (s, entries_to_recalculate) in
  let s := fold_left (recalculate_and_move lra) (elements entries_to_recalculate) s in
  set_m_changed_columns ∅ s.

(** [init]: the start of a [check]. *)
Definition init `{LarSolver H} (lra : H) (s : imp) : imp :=
  let s := set_m_report_branch false s in
  let s := set_m_conflict_index None s in
  let s := set_m_infeas_explanation [] s in
  let s := set_lia (set_lia_term ∅ (lia s)) s in
  let s := set_m_number_of_iterations 0 s in
  let s := set_m_branch_stack [] s in
  let s := set_m_lra_level 0%N s in
  let s := process_changed_columns lra s in
  let s := fold_left
             (λ s t, register_columns_to_term lra t
                       (fill_entry lra t
                          (set_m_active_terms ({[t]} ∪ m_active_terms s) s)))
             (m_added_terms s) s in
  set_m_added_terms [] s.

(** ** Explanations *)

Definition explain_fixed `{LarSolver H} (lra : H) (t : gmap N mpq) :
  u_dependency :=
  fold_left
    (λ dep p,
       if is_fixed lra p.1
       then mk_join dep (get_bound_constraint_witnesses_for_column lra p.1)
       else dep)
    (monomials t) dep_null.

Definition explain_fixed_in_meta_term `{LarSolver H} (lra : H)
    (t : list (N * mpq)) : u_dependency :=
  explain_fixed lra (t_coeffs (open_ml lra t)).

(** [explain(ex)]: fills the buffer [ex]. *)
Definition explain `{LarSolver H} (lra : H) (s : imp)
    (ex : list constraint_index) : list constraint_index :=
  match m_conflict_index s with
  | None => ex ++ m_infeas_explanation s
  | Some i =>
      ex ++ flatten (explain_fixed_in_meta_term lra (row_at (m_l_matrix s) i))
  end.

(** ** The tightener *)

Definition all_vars_are_int `{LarSolver H} (lra : H) (t : gmap N mpq) : bool :=
  forallb (λ p, column_is_int lra p.1) (monomials t).

Definition fill_indexed_work_vector_from_term `{LarSolver H} (lra : H)
    (lar_t : gmap N mpq) (s : imp) : imp :=
  let s := set_m_indexed_work_vector
             (IndexedVector.resize (m_e_columns s)
                (IndexedVector.clear (m_indexed_work_vector s))) s in
  let s := set_imp_m_c 0%Qc s in
  let s := set_m_tmp_l ∅ s in
  fold_left
    (λ s p,
       if is_fixed lra p.1
       then set_imp_m_c (imp_m_c s + p.2 * get_lower_bound lra p.1)%Qc s
       else set_m_indexed_work_vector
              (IndexedVector.set_value p.2 (lar_solver_to_local s p.1)
                 (m_indexed_work_vector s)) s)
    (monomials lar_t) s.

(** The row that substitutes [k]: [m_k2s[k]]; the source reads out of the
    bounds when there is none, the embedding takes the row 0 there. *)
Definition sub_index (s : imp) (k : nat) : nat :=
  default 0 (mjoin (m_k2s s !! k)).

(** [subs_front_in_indexed_vector] for the variable [k] at the front of the
    queue; returns the new state and the variables pushed on the queue. *)
Definition subs_front_in_indexed_vector (k : nat) (s : imp) : imp * list nat :=
  if is_zero (IndexedVector.get (m_indexed_work_vector s) k) then (s, [])
  else
    let e := entry_at s (sub_index s k) in
    let coeff := IndexedVector.get (m_indexed_work_vector s) k in
    let s := set_m_indexed_work_vector
               (IndexedVector.erase k (m_indexed_work_vector s)) s in
    let e_row := row_at (m_e_matrix s) (sub_index s k) in
    let k_coeff_in_e := row_coeff k e_row in
    let coeff := if is_one k_coeff_in_e then (- coeff)%Qc else coeff in
    let '(s, pushed) :=
      fold_left
        (λ (sq : imp * list nat) (p : nat * mpq),
           let (s, pushed) := sq in
           let j := p.1 in
           if decide (j = k) then (s, pushed)
           else
             let s := set_m_indexed_work_vector
                        (IndexedVector.add_value_at_index j (p.2 * coeff)%Qc
                           (m_indexed_work_vector s)) s in
             if negb (is_fresh_var s j)
                && negb (is_zero (IndexedVector.get (m_indexed_work_vector s) j))
                && can_substitute s j
             then (s, pushed ++ [j]) else (s, pushed))
        e_row (s, []) in
    let s := set_imp_m_c (imp_m_c s + coeff * m_c e)%Qc s in
    let s := set_m_tmp_l
               (add_monomials (m_tmp_l s)
                  (map_fold (λ j a acc, add_monomial (a * coeff)%Qc j acc) ∅
                     (l_term_from_row s (sub_index s k)))) s in
    (s, pushed).

(** [subs_indexed_vector_with_S]: runs while the queue is not empty. *)
Fixpoint subs_indexed_vector_with_S (fuel : nat) (q : list nat) (s : imp) :
  option imp :=
  match q with
  | [] => Some s
  | k :: q =>
      match fuel with
      | 0 => None
      | Datatypes.S fuel =>
          let (s, pushed) := subs_front_in_indexed_vector k s in
          subs_indexed_vector_with_S fuel (q ++ pushed) s
      end
  end.

Definition push_explanation (dep : u_dependency) (s : imp) : imp :=
  set_m_infeas_explanation (m_infeas_explanation s ++ flatten dep) s.

Definition handle_constant_term `{LarSolver H} (lra : H) (j : N) (s : imp) :
  imp :=
  if is_zero (imp_m_c s) then s
  else
    let dep :=
      mk_join
        (mk_join (explain_fixed lra (get_term lra j))
           (explain_fixed_in_meta_term lra (monomials (m_tmp_l s))))
        (get_bound_constraint_witnesses_for_column lra j) in
    let upper_fails :=
      match has_bound_of_type lra j true with
      | Some (_, rs, is_strict) =>
          bool_decide (rs < imp_m_c s)%Qc
          || (is_strict && bool_decide (imp_m_c s = rs))
      | None => false
      end in
    if upper_fails then push_explanation dep s
    else
      match has_bound_of_type lra j false with
      | Some (_, rs, is_strict) =>
          if bool_decide (imp_m_c s < rs)%Qc
             || (is_strict && bool_decide (imp_m_c s = rs))
          then push_explanation dep s else s
      | None => s
      end.

(** [tighten_bound_kind(g, j, ub, upper, prev_dep)]: returns [true] only on a
    conflict.  [ub] is [(bound(j) - m_c) / g]. *)
Definition tighten_bound_kind `{LarSolver H} (g : mpq) (j : N) (ub : mpq)
    (upper : bool) (prev_dep : u_dependency) (lra : H) (s : imp) :
  bool * H * imp :=
  let bound := (g * (if upper then floor ub else ceil ub) + imp_m_c s)%Qc in
  let kind := if upper then lconstraint_kind.LE else lconstraint_kind.GE in
  let dep := prev_dep in
  let dep := mk_join dep
               (explain_fixed_in_meta_term lra (monomials (m_tmp_l s))) in
  let j_bound_dep := if upper then get_column_upper_bound_witness lra j
                     else get_column_lower_bound_witness lra j in
  let dep := mk_join dep j_bound_dep in
  let dep := mk_join dep (explain_fixed lra (get_term lra j)) in
  let dep := mk_join dep (get_bound_constraint_witnesses_for_column lra j) in
  let lra := update_column_type_and_bound j kind bound dep lra in
  let (st, lra) := find_feasible_solution lra in
  if bool_decide (lp_status.to_int lp_status.FEASIBLE ≤ lp_status.to_int st)%Z
  then (false, lra, s)
  else if decide (st = lp_status.CANCELLED) then (false, lra, s)
  else
    (true, lra,
     set_m_infeas_explanation
       (get_infeasibility_explanation lra (m_infeas_explanation s)) s).

(** [tighten_bounds_for_non_trivial_gcd(g, j, is_upper)]: returns [true] iff
    a conflict is found. *)
Definition tighten_bounds_for_non_trivial_gcd `{LarSolver H} (g : mpq) (j : N)
    (is_upper : bool) (lra : H) (s : imp) : bool * H * imp :=
  match has_bound_of_type lra j is_upper with
  | Some (b_dep, rs, is_strict) =>
      let rs := ((rs - imp_m_c s) / g)%Qc in
      if negb (is_int rs) then tighten_bound_kind g j rs is_upper b_dep lra s
      else (false, lra, s)
  | None => (false, lra, s)
  end.

(** [tighten_bounds_for_term_column(j)]: returns [true] if a conflict was
    found. *)
Definition tighten_bounds_for_term_column `{LarSolver H} (fuel : nat) (j : N)
    (lra : H) (s : imp) : option (bool * H * imp) :=
  let term_to_tighten := get_term lra j in
  if negb (all_vars_are_int lra term_to_tighten) then Some (false, lra, s)
  else
    let q :=
      (filter (λ p : N * mpq,
                 negb (column_is_fixed lra p.1)
                 && can_substitute s (lar_solver_to_local s p.1) = true)
         (monomials term_to_tighten)).*1 in
    let q := map (lar_solver_to_local s) q in
    match q with
    | [] => Some (false, lra, s)
    | _ :: _ =>
        let s := fill_indexed_work_vector_from_term lra term_to_tighten s in
        match subs_indexed_vector_with_S fuel q s with
        | None => None
        | Some s =>
            let g := gcd_of_coeffs
                       (IndexedVector.cells (m_indexed_work_vector s)) in
            if is_one g then Some (false, lra, s)
            else if is_zero g then
              let s := handle_constant_term lra j s in
              Some (negb (bool_decide (m_infeas_explanation s = [])), lra, s)
            else
              let '(r, lra, s) :=
                tighten_bounds_for_non_trivial_gcd g j true lra s in
              if r then Some (true, lra, s)
              else Some (tighten_bounds_for_non_trivial_gcd g j false lra s)
        end
    end.

Fixpoint tighten_terms_loop `{LarSolver H} (fuel : nat) (js : list N)
    (lra : H) (s : imp) : option (lia_move.t * H * imp) :=
  match js with
  | [] => Some (lia_move.undef, lra, s)
  | j :: js =>
      if negb (column_has_term lra j) || column_is_free lra j
         || is_fixed lra j || negb (column_is_int lra j)
      then tighten_terms_loop fuel js lra s
      else
        match tighten_bounds_for_term_column fuel j lra s with
        | None => None
        | Some (true, lra, s) => Some (lia_move.conflict, lra, s)
        | Some (false, lra, s) => tighten_terms_loop fuel js lra s
        end
  end.

Definition tighten_terms_with_S `{LarSolver H} (fuel : nat) (lra : H)
    (s : imp) : option (lia_move.t * H * imp) :=
  tighten_terms_loop fuel
    (map N.of_nat (seq 0 (N.to_nat (column_count lra)))) lra s.

Definition process_f_and_tighten_terms `{LarSolver H} (fuel : nat) (lra : H)
    (s : imp) : option (lia_move.t * H * imp) :=
  match process_f fuel lra s with
  | None => None
  | Some (ret, s) =>
      if decide (ret = lia_move.undef) then
        match tighten_terms_with_S fuel lra s with
        | None => None
        | Some (lia_move.conflict, lra, s) =>
            Some (lia_move.conflict, lra,
                  set_stats (incr_dio_tighten_conflicts (stats s)) s)
        | Some (_, lra, s) => Some (lia_move.undef, lra, s)
        end
      else Some (ret, lra, s)
  end.

(** ** The brancher *)

Definition default_branch_stats : variable_branch_stats :=
  {| m_ii_after_left := []; m_ii_after_right := [] |}.

(** [score()]: the smaller of the two averages; [None] is the infinity of an
    empty list.  The source computes the averages in floating point, the
    embedding in the rationals. *)
Definition average (l : list nat) : option mpq :=
  match l with
  | [] => None
  | _ :: _ => Some (of_nat (list_sum l) / of_nat (length l))%Qc
  end.

Definition score_min (a b : option mpq) : option mpq :=
  match a, b with
  | None, _ => b
  | _, None => a
  | Some x, Some y => Some (if bool_decide (y < x)%Qc then y else x)
  end.

Definition score (st : variable_branch_stats) : option mpq :=
  score_min (average (m_ii_after_left st)) (average (m_ii_after_right st)).

Definition score_lt (a b : option mpq) : bool :=
  match a, b with
  | Some x, Some y => bool_decide (x < y)%Qc
  | Some _, None => true
  | None, _ => false
  end.

Definition get_branch_score (j : N) (s : imp) : option mpq * imp :=
  let s := if decide (length (m_branch_stats s) ≤ N.to_nat j)
           then set_m_branch_stats
                  (resize (N.to_nat j + 1) default_branch_stats
                     (m_branch_stats s)) s
           else s in
  (score (default default_branch_stats (m_branch_stats s !! N.to_nat j)), s).

Definition update_branch_stats (b : branch) (n_of_ii : nat) (s : imp) : imp :=
  let s := if decide (length (m_branch_stats s) ≤ N.to_nat (m_j b))
           then set_m_branch_stats
                  (resize (N.to_nat (m_j b) + 1) default_branch_stats
                     (m_branch_stats s)) s
           else s in
  set_m_branch_stats
    (alter
       (λ st,
          if m_left b
          then {| m_ii_after_left := m_ii_after_left st ++ [n_of_ii];
                  m_ii_after_right := m_ii_after_right st |}
          else {| m_ii_after_left := m_ii_after_left st;
                  m_ii_after_right := m_ii_after_right st ++ [n_of_ii] |})
       (N.to_nat (m_j b)) (m_branch_stats s)) s.

Definition get_number_of_int_inf `{LarSolver H} (lra : H) : nat :=
  length (filter (λ j, column_is_int_inf lra j = true) (r_basis lra)).

(** The loop of [create_branch] over the basis: the column of minimal score,
    ties broken at random. *)
Fixpoint create_branch_loop `{LarSolver H} (basis : list N) (bj : N)
    (sc_min : option mpq) (n : nat) (lra : H) (s : imp) : N * H * imp :=
  match basis with
  | [] => (bj, lra, s)
  | j :: basis =>
      if negb (column_is_int_inf lra j)
      then create_branch_loop basis bj sc_min n lra s
      else
        let (sc, s) := get_branch_score j s in
        if score_lt sc sc_min
        then create_branch_loop basis j sc n lra s
        else if bool_decide (sc = sc_min) then
          let (r, lra) := random_next lra in
          let n := Datatypes.S n in
          if bool_decide (r mod n = 0)
          then create_branch_loop basis j sc n lra s
          else create_branch_loop basis bj sc_min n lra s
        else create_branch_loop basis bj sc_min n lra s
  end.

(** [create_branch]: [m_j] is [UINT_MAX] when there is no variable to branch
    on; the source leaves [m_left] uninitialised in that case. *)
Definition create_branch `{LarSolver H} (lra : H) (s : imp) :
  branch * H * imp :=
  let '(bj, lra, s) := create_branch_loop (r_basis lra) UINT_MAX None 0 lra s in
  if decide (bj = UINT_MAX) then
    ({| m_j := UINT_MAX; m_rs := 0%Qc; m_left := false;
        m_fully_explored := false |}, lra, s)
  else
    let (r, lra) := random_next lra in
    ({| m_j := bj; m_rs := floor (get_column_value lra bj);
        m_left := bool_decide (r mod 2 = 0); m_fully_explored := false |},
     lra, s).

(** Returns [true] if a branch is created. *)
Definition push_branch `{LarSolver H} (lra : H) (s : imp) : bool * H * imp :=
  let '(br, lra, s) := create_branch lra s in
  if decide (m_j br = UINT_MAX) then (false, lra, s)
  else
    let s := set_m_branch_stack (m_branch_stack s ++ [br]) s in
    let s := set_stats
               (set_dio_branching_depth
                  (m_dio_branching_depth (stats s)
                     `max` length (m_branch_stack s)) (stats s)) s in
    (true, lra, s).

(** [check_fixing(j)]: the entry is not changed here. *)
Fixpoint check_fixing_loop (j : nat) (val : mpq) (row : list (nat * mpq))
    (g c : mpq) : lia_move.t :=
  match row with
  | [] => if negb (is_int (c / g)%Qc) then lia_move.conflict else lia_move.undef
  | p :: row =>
      if decide (p.1 = j) then check_fixing_loop j val row g (c + p.2 * val)%Qc
      else
        let g := if is_zero g then abs p.2 else gcd g p.2 in
        if is_one g then lia_move.undef else check_fixing_loop j val row g c
  end.

Definition check_fixing `{LarSolver H} (lra : H) (s : imp) (j : nat) :
  lia_move.t :=
  let ei := sub_index s j in
  check_fixing_loop j (get_lower_bound lra (local_to_lar_solver s j))
    (row_at (m_e_matrix s) ei) 0%Qc (m_c (entry_at s ei)).

(** [fix_var(j)]: [j] is a local variable. *)
Definition fix_var `{LarSolver H} (lra : H) (j : nat) (s : imp) :
  lia_move.t * imp :=
  if can_substitute s j then
    if decide (check_fixing lra s j = lia_move.conflict) then
      (lia_move.conflict,
       set_m_explanation_of_branches
         (m_explanation_of_branches s ++
            flatten (explain_fixed_in_meta_term lra
                       (row_at (m_l_matrix s) (sub_index s j)))) s)
    else (lia_move.undef, s)
  else (lia_move.undef, s).

Definition add_var_bound_for_branch `{LarSolver H} (b : branch) (lra : H)
    (s : imp) : lia_move.t * H * imp :=
  let lra :=
    if m_left b
    then add_var_bound (m_j b) lconstraint_kind.LE (m_rs b) lra
    else add_var_bound (m_j b) lconstraint_kind.GE (m_rs b + 1)%Qc lra in
  if column_is_fixed lra (m_j b) then
    match VarRegister.external_is_used (m_var_register s) (m_j b) with
    | None => (lia_move.undef, lra, s)
    | Some local_bj =>
        let (r, s) := fix_var lra local_bj s in
        if decide (r = lia_move.conflict) then (lia_move.conflict, lra, s)
        else (lia_move.undef, lra, s)
    end
  else (lia_move.undef, lra, s).

Definition lra_push `{LarSolver H} (lra : H) (s : imp) : H * imp :=
  (push lra, set_m_lra_level (m_lra_level s + 1)%N s).

Definition lra_pop `{LarSolver H} (lra : H) (s : imp) : H * imp :=
  let s := set_m_lra_level (N.pred (m_lra_level s)) s in
  ((find_feasible_solution (pop lra)).2, s).

(** [undo_branching]: [while (m_lra_level--) lra.pop()] leaves the counter
    at [UINT_MAX]. *)
Definition undo_branching `{LarSolver H} (lra : H) (s : imp) : H * imp :=
  let lra := Nat.iter (N.to_nat (m_lra_level s)) pop lra in
  ((find_feasible_solution lra).2, set_m_lra_level UINT_MAX s).

(** [undo_explored_branches]: the fully explored branches at the top of the
    stack are dropped. *)
Fixpoint undo_explored_loop `{LarSolver H} (rstack : list branch) (lra : H)
    (s : imp) : list branch * H * imp :=
  match rstack with
  | [] => ([], lra, s)
  | b :: rstack' =>
      if m_fully_explored b then
        let (lra, s) := lra_pop lra s in
        undo_explored_loop rstack' lra s
      else (rstack, lra, s)
  end.

Definition undo_explored_branches `{LarSolver H} (lra : H) (s : imp) :
  H * imp :=
  let '(rstack, lra, s) :=
    undo_explored_loop (reverse (m_branch_stack s)) lra s in
  (lra, set_m_branch_stack (reverse rstack) s).

Definition collect_evidence `{LarSolver H} (lra : H) (s : imp) : imp :=
  let s := set_m_infeas_explanation
             (get_infeasibility_explanation lra (m_infeas_explanation s)) s in
  set_m_explanation_of_branches
    (m_explanation_of_branches s ++ m_infeas_explanation s) s.

Definition transfer_explanations_from_closed_branches `{LarSolver H}
    (lra : H) (s : imp) : imp :=
  set_m_infeas_explanation
    (filter (λ ci, valid_index lra ci = true) (m_explanation_of_branches s)) s.

Definition flip_top (s : imp) : imp :=
  set_m_branch_stack
    (alter flip (length (m_branch_stack s) - 1) (m_branch_stack s)) s.

Definition top_branch (s : imp) : branch :=
  default {| m_j := UINT_MAX; m_rs := 0%Qc; m_left := false;
             m_fully_explored := false |}
    (m_branch_stack s !! (length (m_branch_stack s) - 1)).

(** The loop of [branching_on_undef]:
    [while (++m_number_of_iterations < m_max_number_of_iterations)].
    [fuel] bounds the number of turns; [None] tells that it ran out. *)
Fixpoint branching_loop `{LarSolver H} (fuel : nat) (need_create_branch : bool)
    (lra : H) (s : imp) : option (lia_move.t * H * imp) :=
  let s := set_m_number_of_iterations (Datatypes.S (m_number_of_iterations s)) s in
  if bool_decide (m_number_of_iterations s < m_max_number_of_iterations s) then
    match fuel with
    | 0 => None
    | Datatypes.S fuel =>
        let s := set_stats (incr_dio_branch_iterations (stats s)) s in
        let '(created, lra, s) :=
          if need_create_branch then push_branch lra s else (true, lra, s) in
        if negb created then
          let (lra, s) := undo_branching lra s in
          Some (lia_move.sat, lra,
                set_stats (incr_dio_branching_sats (stats s)) s)
        else
          let (lra, s) := lra_push lra s in
          let '(r, lra, s) := add_var_bound_for_branch (top_branch s) lra s in
          if decide (r = lia_move.conflict) then
            let (lra, s) := undo_explored_branches lra s in
            if bool_decide (length (m_branch_stack s) = 0) then
              let s := set_stats (incr_dio_branching_infeasibles (stats s)) s in
              Some (lia_move.conflict, lra,
                    transfer_explanations_from_closed_branches lra s)
            else
              let s := flip_top s in
              let (lra, s) := lra_pop lra s in
              branching_loop fuel false lra s
          else
            let (st, lra) := find_feasible_solution lra in
            if bool_decide
                 (lp_status.to_int lp_status.FEASIBLE ≤ lp_status.to_int st)%Z
            then
              let n_of_ii := get_number_of_int_inf lra in
              if bool_decide (n_of_ii = 0) then
                let (lra, s) := undo_branching lra s in
                Some (lia_move.sat, lra,
                      set_stats (incr_dio_branching_sats (stats s)) s)
              else
                branching_loop fuel true lra
                  (update_branch_stats (top_branch s) n_of_ii s)
            else if decide (st = lp_status.CANCELLED)
            then Some (lia_move.undef, lra, s)
            else
              let s := collect_evidence lra s in
              let (lra, s) := undo_explored_branches lra s in
              if bool_decide (length (m_branch_stack s) = 0) then
                let s := set_stats (incr_dio_branching_infeasibles (stats s)) s in
                Some (lia_move.conflict, lra,
                      transfer_explanations_from_closed_branches lra s)
              else
                let (lra, s) := lra_pop lra s in
                branching_loop fuel false lra (flip_top s)
    end
  else
    let (lra, s) := undo_branching lra s in
    Some (lia_move.undef, lra, s).

(** [branching_on_undef]: the loop runs less than
    [m_max_number_of_iterations] turns, which is the fuel it is given. *)
Definition branching_on_undef `{LarSolver H} (lra : H) (s : imp) :
  option (lia_move.t * H * imp) :=
  let s := set_m_explanation_of_branches [] s in
  let s := set_m_number_of_iterations 0 s in
  branching_loop (m_max_number_of_iterations s) true lra s.

(** ** [check] *)

Definition check `{LarSolver H} (fuel : nat) (lra : H) (s : imp) :
  option (lia_move.t * H * imp) :=
  let s := set_stats (incr_dio_calls (stats s)) s in
  let s := init lra s in
  match process_f_and_tighten_terms fuel lra s with
  | None => None
  | Some (ret, lra, s) =>
      if decide (ret = lia_move.branch ∨ ret = lia_move.conflict)
      then Some (ret, lra, s)
      else
        match branching_on_undef lra s with
        | None => None
        | Some (ret, lra, s) =>
            if decide (ret = lia_move.sat ∨ ret = lia_move.conflict)
            then Some (ret, lra, s)
            else
              Some (lia_move.undef, lra,
                    set_m_max_number_of_iterations
                      (5 `max` (m_max_number_of_iterations s / 2)) s)
        end
  end.

(** The solver as its constructor leaves it. *)
Definition new_imp : imp :=
  {| m_var_register := []; m_entries := []; m_e_matrix := []; m_e_columns := 0;
     m_l_matrix := []; m_l_columns := 0;
     lia := {| lia_term := ∅; lia_offset := 0%Qc; lia_is_upper := false |};
     stats := {| m_dio_calls := 0; m_dio_cut_from_proofs := 0;
                 m_dio_normalize_conflicts := 0; m_dio_rewrite_conflicts := 0;
                 m_dio_tighten_conflicts := 0; m_dio_branch_iterations := 0;
                 m_dio_branching_sats := 0; m_dio_branching_infeasibles := 0;
                 m_dio_branching_depth := 0 |};
     m_infeas_explanation := []; m_indexed_work_vector :=
       {| m_data := ∅; m_index := []; m_data_size := 0 |};
     m_report_branch := false; m_f := []; m_s := []; imp_m_c := 0%Qc;
     m_tmp_l := ∅; m_k2s := []; m_fresh_definitions := [];
     m_conflict_index := None; m_max_number_of_iterations := 100;
     m_number_of_iterations := 0; m_branch_stats := []; m_branch_stack := [];
     m_explanation_of_branches := []; m_lra_level := 0%N;
     m_changed_columns := ∅; m_columns_to_terms := ∅; m_added_terms := [];
     m_active_terms := ∅ |}.

(** * Notions used to state the properties *)

(** The gcd of the numerators of the coefficients of a row: the gcd of their
    absolute values. *)
Definition row_gcd {V} (r : list (V * mpq)) : Z :=
  foldr (λ (p : V * mpq) g, Z.gcd (Qnum p.2) g) 0%Z r.


(** The sign the solver keeps for a pivot coefficient. *)
Definition sign_of (a : mpq) : Z := if is_pos a then 1%Z else (-1)%Z.

(** The pivot the specification asks for: a cell of the least absolute
    coefficient of the row and, among the cells of that absolute coefficient,
    the one of the least variable. *)
Definition least_abs_then_least_var (row : list (nat * mpq))
    (r : mpq * nat * Z) : Prop :=
  (∃ a, (r.1.2, a) ∈ row ∧ abs a = r.1.1 ∧ r.2 = sign_of a) ∧
  (∀ p, p ∈ row → (r.1.1 ≤ abs p.2)%Qc) ∧
  (∀ p, p ∈ row → abs p.2 = r.1.1 → r.1.2 ≤ p.1).

(** The pivot the solver takes: a cell of the least absolute coefficient;
    when that coefficient is one it is the first such cell of the row, and
    otherwise the cell of the least variable among them. *)
Definition least_abs_first_unit (row : list (nat * mpq))
    (r : mpq * nat * Z) : Prop :=
  (∃ a, (r.1.2, a) ∈ row ∧ abs a = r.1.1 ∧ r.2 = sign_of a) ∧
  (∀ p, p ∈ row → (r.1.1 ≤ abs p.2)%Qc) ∧
  (r.1.1 ≠ 1%Qc → ∀ p, p ∈ row → abs p.2 = r.1.1 → r.1.2 ≤ p.1) ∧
  (r.1.1 = 1%Qc →
   ∃ pre a post, row = pre ++ (r.1.2, a) :: post ∧
                 Forall (λ p : nat * mpq, abs p.2 ≠ 1%Qc) pre).


(** The row [r] after the variable [j] was eliminated from it with the pivot
    row [piv], where [j] has the coefficient [sign]:
    [r - sign * coeff_j(r) * piv], without the cell of [j]. *)
Definition eliminated_row (piv : list (nat * mpq)) (j : nat) (sign : mpq)
    (r : list (nat * mpq)) : list (nat * mpq) :=
  row_add_scaled (- row_coeff j r * sign)%Qc
    (filter (λ p, p.1 ≠ j) piv) (filter (λ p, p.1 ≠ j) r).

(** The three parallel arrays have the same rows. *)
Definition rows_aligned (s : imp) : Prop :=
  length (m_e_matrix s) = length (m_entries s) ∧
  length (m_l_matrix s) = length (m_entries s).

Definition status_at (s : imp) (i : nat) : entry_status.t :=
  m_entry_status (entry_at s i).

(** The fields that the operations on rows leave alone. *)
Definition same_registers (s s' : imp) : Prop :=
  m_var_register s' = m_var_register s ∧
  m_k2s s' = m_k2s s ∧
  m_fresh_definitions s' = m_fresh_definitions s ∧
  m_f s' = m_f s ∧ m_s s' = m_s s ∧
  m_conflict_index s' = m_conflict_index s ∧
  lia s' = lia s ∧ m_report_branch s' = m_report_branch s ∧
  stats s' = stats s.

(** The parts of a row [sum b_i x_i] split by the machine division by [a],
    [b_i = q_i * a + r_i], without the variable [k]: the cells [r_i x_i] and
    the cells [q_i x_i], a zero part having no cell. *)
Definition residual_cells (k : nat) (a : mpq) (row : list (nat * mpq)) :
  list (nat * mpq) :=
  omap (λ p : nat * mpq,
          if decide (p.1 = k) then None
          else let r := (machine_div_rem p.2 a).2 in
               if is_zero r then None else Some (p.1, r)) row.

Definition quotient_cells (k : nat) (a : mpq) (row : list (nat * mpq)) :
  list (nat * mpq) :=
  omap (λ p : nat * mpq,
          if decide (p.1 = k) then None
          else let q := (machine_div_rem p.2 a).1 in
               if is_zero q then None else Some (p.1, q)) row.

(** The state [s1] right after the fresh variable [xt] and the row [fr] of
    its definition were added for the row [h] of [s], whose variable [k] has
    the coefficient [a]: before [k] is eliminated from the rows of F.  [res]
    and [quo] are the cells of the residuals and of the quotients. *)
Definition fresh_defined (h k : nat) (a : mpq) (s : imp) (fr : nat)
    (s1 : imp) (res quo : list (nat * mpq)) : Prop :=
  let xt := length (m_var_register s) in
  let row := row_at (m_e_matrix s) h in
  fr = length (m_e_matrix s) ∧
  m_var_register s1 = m_var_register s ++ [UINT_MAX] ∧
  rows_aligned s1 ∧
  length (m_entries s1) = Datatypes.S (length (m_entries s)) ∧
  (NoDup row.*1 →
   res = residual_cells k a row ∧ quo = quotient_cells k a row) ∧
  (∀ p, p ∈ res → p.1 ≠ k) ∧
  row_at (m_e_matrix s1) h = (xt, a) :: res ∧
  row_at (m_e_matrix s1) fr = (xt, (-1)%Qc) :: (k, 1%Qc) :: quo ∧
  (∀ i, i ≠ h → i ≠ fr →
        row_at (m_e_matrix s1) i = row_at (m_e_matrix s) i) ∧
  (∀ i, i ≠ fr → row_at (m_l_matrix s1) i = row_at (m_l_matrix s) i) ∧
  row_at (m_l_matrix s1) fr = [] ∧
  entry_at s1 h = {| m_c := machine_rem (m_c (entry_at s h)) a;
                     m_entry_status := status_at s h |} ∧
  entry_at s1 fr = {| m_c := machine_div (m_c (entry_at s h)) a;
                      m_entry_status := entry_status.NO_S_NO_F |} ∧
  (∀ i, i ≠ h → i ≠ fr → entry_at s1 i = entry_at s i) ∧
  m_k2s s1 = <[k := Some fr]> (resize (k + 1) None (m_k2s s)) ∧
  m_fresh_definitions s1
  = <[xt := {| m_ei := Some fr; m_origin := Some h |}]>
      (resize (xt + 1) no_fresh_definition (m_fresh_definitions s)) ∧
  m_f s1 = m_f s ∧ m_s s1 = m_s s ∧
  m_conflict_index s1 = m_conflict_index s ∧
  lia s1 = lia s ∧ m_report_branch s1 = m_report_branch s ∧
  stats s1 = stats s.

(** The row holds the variable [k] with the coefficient 1 or -1. *)
Definition unit_cell_of (k : nat) (row : list (nat * mpq)) : Prop :=
  ∃ a, (k, a) ∈ row ∧ (a = 1%Qc ∨ a = (-1)%Qc).

(** Substitution uniqueness as the specification states it. *)
Definition substitution_uniqueness (s : imp) : Prop :=
  ∀ k i, m_k2s s !! k = Some (Some i) →
    unit_cell_of k (row_at (m_e_matrix s) i) ∧
    status_at s i = entry_status.S ∧
    ∀ i', i' ≠ i → status_at s i' = entry_status.S →
          row_has k (row_at (m_e_matrix s) i') = false.

(** What the solver keeps for the substitutions: the row of [subst[k]] holds
    [k] with the coefficient 1 or -1 and is not a row of F. *)
Definition substitution_rows (s : imp) : Prop :=
  ∀ k i, m_k2s s !! k = Some (Some i) →
    unit_cell_of k (row_at (m_e_matrix s) i) ∧
    (status_at s i = entry_status.S ∨ status_at s i = entry_status.NO_S_NO_F).

(** The list F holds rows of the status F. *)
Definition f_list_ok (s : imp) : Prop :=
  ∀ i, i ∈ m_f s → i < length (m_entries s) ∧ status_at s i = entry_status.F.

(** The dependency the tightener gives the host with a tightened bound of the
    column [j]: the previous bound, the fixed variables of the meta term, the
    witness of the bound of [j], the fixed variables of the term of [j] and
    the witnesses of the bounds of [j]. *)
Definition tightening_dependency `{LarSolver H} (lra : H) (s : imp) (j : N)
    (is_upper : bool) (b_dep : u_dependency) : u_dependency :=
  mk_join
    (mk_join
       (mk_join
          (mk_join b_dep
             (explain_fixed_in_meta_term lra (monomials (m_tmp_l s))))
          (if is_upper then get_column_upper_bound_witness lra j
           else get_column_lower_bound_witness lra j))
       (explain_fixed lra (get_term lra j)))
    (get_bound_constraint_witnesses_for_column lra j).

(** The side of a branch as the specification states it: the right side
    imposes [x_j >= rs]. *)
Definition right_side_as_stated `{LarSolver H} (b : branch) (lra : H)
    (s : imp) : Prop :=
  m_left b = false →
  (add_var_bound_for_branch b lra s).1.2
  = add_var_bound (m_j b) lconstraint_kind.GE (m_rs b) lra.

(** The fields a rewrite of the rows never writes: the budget of the
    brancher and the count of its turns, the statistics, the pending cut, the
    flag of the branch report and the index of the conflict. *)
Definition report_of (s : imp) :
  nat * nat * statistics * int_solver * bool * option nat :=
  (m_max_number_of_iterations s, m_number_of_iterations s, stats s, lia s,
   m_report_branch s, m_conflict_index s).

(** The budget of the brancher, the count of the turns of its loop and the
    counter of its iterations. *)
Definition iterations_of (s : imp) : nat * nat * nat :=
  (m_max_number_of_iterations s, m_number_of_iterations s,
   m_dio_branch_iterations (stats s)).

(** The pending cut, the flag of the branch report and the statistics. *)
Definition cut_of (s : imp) : int_solver * bool * statistics :=
  (lia s, m_report_branch s, stats s).

(** [process_f_turns lra n s t]: from the state [s] at the head of the loop
    of [process_f], [n] turns without a conflict lead to the state [t] at the
    head of the loop. *)
Inductive process_f_turns `{LarSolver H} (lra : H) : nat → imp → imp → Prop :=
  | process_f_turns_0 (s : imp) : process_f_turns lra 0 s s
  | process_f_turns_S (n : nat) (s s1 t : imp) :
      m_f s ≠ [] →
      normalize_by_gcd lra s = (true, s1) →
      m_conflict_index (rewrite_eqs s1) = None →
      process_f_turns lra n (rewrite_eqs s1) t →
      process_f_turns lra (Datatypes.S n) s t.

(** The term of the cut of the row [i], whose gcd is [g]: the coefficients
    of the row divided by [g], over the columns of the host. *)
Definition cut_term (s : imp) (i : nat) (g : mpq) : gmap N mpq :=
  term_of_row
    ((λ p : nat * mpq, (local_to_lar_solver s p.1, (p.2 / g)%Qc))
       <$> row_at (m_e_matrix s) i).

(** The cut is reported when the period of the cuts divides the number of
    the calls and the row has no fresh variable. *)
Definition cut_is_due `{LarSolver H} (lra : H) (s : imp) (i : nat) : bool :=
  bool_decide (m_dio_calls (stats s) mod dio_cut_from_proof_period lra = 0)
  && negb (has_fresh_var s i).

(** The fields the entry invariant reads. *)
Definition rows_of (s : imp) :
  list (list (nat * mpq)) * list (list (N * mpq)) * list entry * list N
  * list fresh_definition :=
  (m_e_matrix s, m_l_matrix s, m_entries s, m_var_register s,
   m_fresh_definitions s).

(** ** A small host for the examples

    A host with scripted answers: the terms, the fixed columns with their
    values, the bounds, the values of the columns, the basis, the statuses
    [find_feasible_solution] returns in turn, the numbers [random_next]
    returns in turn, and the log of the bounds it was given. *)

Inductive toy_call :=
  | call_update_bound (j : N) (k : lconstraint_kind.t) (b : mpq)
      (dep : u_dependency)
  | call_add_var_bound (j : N) (k : lconstraint_kind.t) (b : mpq)
  | call_push
  | call_pop.

Record toy_host := {
  th_columns : N;
  th_terms : gmap N (gmap N mpq);
  th_fixed : gmap N mpq;
  th_upper : gmap N mpq;
  th_lower : gmap N mpq;
  th_values : gmap N mpq;
  th_int_inf : list N;
  th_basis : list N;
  th_statuses : list lp_status.t;
  th_randoms : list nat;
  th_period : nat;
  th_log : list toy_call
}.

Definition th_set_log (l : list toy_call) (h : toy_host) : toy_host :=
  {| th_columns := th_columns h; th_terms := th_terms h;
     th_fixed := th_fixed h; th_upper := th_upper h; th_lower := th_lower h;
     th_values := th_values h; th_int_inf := th_int_inf h;
     th_basis := th_basis h; th_statuses := th_statuses h;
     th_randoms := th_randoms h; th_period := th_period h; th_log := l |}.

Definition th_set_statuses (l : list lp_status.t) (h : toy_host) : toy_host :=
  {| th_columns := th_columns h; th_terms := th_terms h;
     th_fixed := th_fixed h; th_upper := th_upper h; th_lower := th_lower h;
     th_values := th_values h; th_int_inf := th_int_inf h;
     th_basis := th_basis h; th_statuses := l;
     th_randoms := th_randoms h; th_period := th_period h;
     th_log := th_log h |}.

Definition th_set_randoms (l : list nat) (h : toy_host) : toy_host :=
  {| th_columns := th_columns h; th_terms := th_terms h;
     th_fixed := th_fixed h; th_upper := th_upper h; th_lower := th_lower h;
     th_values := th_values h; th_int_inf := th_int_inf h;
     th_basis := th_basis h; th_statuses := th_statuses h;
     th_randoms := l; th_period := th_period h; th_log := th_log h |}.

Global Instance toy_lar_solver : LarSolver toy_host := {|
  column_count := th_columns;
  get_term h j := default ∅ (th_terms h !! j);
  column_has_term h j := bool_decide (is_Some (th_terms h !! j));
  column_is_int h j := true;
  column_is_fixed h j := bool_decide (is_Some (th_fixed h !! j));
  column_is_free h j :=
    bool_decide (th_upper h !! j = None ∧ th_lower h !! j = None
                 ∧ th_fixed h !! j = None);
  column_is_int_inf h j := bool_decide (j ∈ th_int_inf h);
  get_lower_bound h j :=
    default (default 0%Qc (th_lower h !! j)) (th_fixed h !! j);
  get_upper_bound h j :=
    default (default 0%Qc (th_upper h !! j)) (th_fixed h !! j);
  get_column_value h j := default 0%Qc (th_values h !! j);
  has_bound_of_type h j is_upper :=
    (λ b, (dep_leaf j, b, false)) <$>
      (if is_upper then th_upper h !! j else th_lower h !! j);
  get_column_upper_bound_witness h j := dep_leaf j;
  get_column_lower_bound_witness h j := dep_leaf j;
  get_bound_constraint_witnesses_for_column h j := dep_leaf j;
  update_column_type_and_bound j k b dep h :=
    th_set_log (th_log h ++ [call_update_bound j k b dep]) h;
  add_var_bound j k b h := th_set_log (th_log h ++ [call_add_var_bound j k b]) h;
  push h := th_set_log (th_log h ++ [call_push]) h;
  pop h := th_set_log (th_log h ++ [call_pop]) h;
  find_feasible_solution h :=
    (default lp_status.FEASIBLE (head (th_statuses h)),
     th_set_statuses (tail (th_statuses h)) h);
  get_infeasibility_explanation h ex := [0%N];
  r_basis := th_basis;
  random_next h := (default 0 (head (th_randoms h)),
                    th_set_randoms (tail (th_randoms h)) h);
  dio_cut_from_proof_period := th_period;
  valid_index h ci := true
|}.

Definition toy (terms : list (N * list (N * mpq))) (fixed : list (N * mpq)) :
  toy_host :=
  {| th_columns := 0; th_terms := list_to_map (prod_map id list_to_map <$> terms);
     th_fixed := list_to_map fixed; th_upper := ∅; th_lower := ∅;
     th_values := ∅; th_int_inf := []; th_basis := []; th_statuses := [];
     th_randoms := []; th_period := 1; th_log := [] |}.

Definition z (n : Z) : mpq := Qc_of_Z n.

(** ** States of the examples *)

(** A state whose only row is [x3 + x0 - x4 = 0]. *)
Definition pivot_example : imp :=
  set_m_e_matrix [[(3, z 1); (0, z 1); (4, z (-1))]]
    (set_m_entries [{| m_c := 0%Qc; m_entry_status := entry_status.F |}]
       (set_m_f [0] new_imp)).

(** The equation [2x - 4y + 6z = 8]: the term of the column 3 is fixed. *)
Definition normalize_host : toy_host :=
  toy [(3%N, [(0%N, z 2); (1%N, z (-4)); (2%N, z 6)])] [(3%N, z 8)].
Definition normalize_example : imp := fill_entry normalize_host 3%N new_imp.

(** The equation [3x + 5y + 7 = 0]: no coefficient is 1 or -1. *)
Definition fresh_host : toy_host :=
  toy [(2%N, [(0%N, z 3); (1%N, z 5)])] [(2%N, z (-7))].
Definition fresh_example : imp := fill_entry fresh_host 2%N new_imp.

(** The equations [x + y + w = 0] and [y + w = 0] (the terms of the columns
    10 and 11 are fixed at 0), after no, one and two rewrite steps. *)
Definition uniqueness_host : toy_host :=
  toy [(10%N, [(0%N, z 1); (1%N, z 1); (2%N, z 1)]);
       (11%N, [(1%N, z 1); (2%N, z 1)])]
      [(10%N, z 0); (11%N, z 0)].
Definition uniqueness_start : imp :=
  fill_entry uniqueness_host 11%N (fill_entry uniqueness_host 10%N new_imp).
Definition uniqueness_step1 : imp := rewrite_eqs uniqueness_start.
Definition uniqueness_step2 : imp := rewrite_eqs uniqueness_step1.

(** A host whose column 4 is the term [5x] in the local variables, with the
    bounds [0 <= x4 <= 9]; the next answer of [find_feasible_solution] is
    [INFEASIBLE]. *)
Definition tighten_host : toy_host :=
  {| th_columns := 5; th_terms := {[ 4%N := {[ 0%N := z 5 ]} ]};
     th_fixed := ∅; th_upper := {[ 4%N := z 9 ]}; th_lower := {[ 4%N := z 0 ]};
     th_values := ∅; th_int_inf := []; th_basis := [];
     th_statuses := [lp_status.INFEASIBLE]; th_randoms := []; th_period := 1;
     th_log := [] |}.

(** A branch on the column 0 at [rs = 1], right side. *)
Definition right_branch : branch :=
  {| m_j := 0%N; m_rs := z 1; m_left := false; m_fully_explored := false |}.

(** A host whose basic column 0, of value 1/2, stays integer-infeasible and
    whose [find_feasible_solution] always answers [FEASIBLE]: the brancher
    goes on until its budget is used up. *)
Definition budget_host : toy_host :=
  {| th_columns := 1; th_terms := ∅; th_fixed := ∅; th_upper := ∅;
     th_lower := ∅; th_values := {[ 0%N := (z 1 / z 2)%Qc ]};
     th_int_inf := [0%N]; th_basis := [0%N]; th_statuses := [];
     th_randoms := []; th_period := 1; th_log := [] |}.

(** The equation [2x + 4y = 3]: the term of the column 2 is fixed at 3, and
    the term was added since the last [check]. *)
Definition cut_host : toy_host :=
  toy [(2%N, [(0%N, z 2); (1%N, z 4)])] [(2%N, z 3)].
Definition cut_example : imp := set_m_added_terms [2%N] new_imp.
Definition cut_start : imp :=
  init cut_host (set_stats (incr_dio_calls (stats cut_example)) cut_example).

(** The row [x0 + 2 x1 = 0] substitutes [x0], whose column the host fixes at
    the value 1. *)
Definition fixing_host : toy_host := toy [] [(0%N, z 1)].
Definition fixing_example : imp :=
  set_m_k2s [Some 0]
    (set_m_s [0]
       (set_m_e_matrix [[(0, z 1); (1, z 2)]]
          (set_m_l_matrix [[]]
             (set_m_entries [{| m_c := z 0; m_entry_status := entry_status.S |}]
                (set_m_var_register [0%N; 1%N] new_imp))))).

(** A stack of three branches, the two at the top fully explored, with the
    host pushed three times. *)
Definition explored_example : imp :=
  set_m_lra_level 3%N
    (set_m_branch_stack
       [right_branch; flip right_branch; flip (flip right_branch)] new_imp).

(** A host whose basic column 0 is integer-infeasible and that answers
    [INFEASIBLE] to both sides of a branch on it. *)
Definition closing_host : toy_host :=
  {| th_columns := 1; th_terms := ∅; th_fixed := ∅; th_upper := ∅;
     th_lower := ∅; th_values := {[ 0%N := (z 1 / z 2)%Qc ]};
     th_int_inf := [0%N]; th_basis := [0%N];
     th_statuses := [lp_status.INFEASIBLE; lp_status.FEASIBLE;
                     lp_status.INFEASIBLE];
     th_randoms := []; th_period := 1; th_log := [] |}.

(** The equation [3x + 5y + 7 = 0] after a rewrite step, which introduces a
    fresh variable. *)
Definition fresh_step_example : imp := rewrite_eqs fresh_example.

(** The column 3 is the term [2 x0 + 3 x1], and the host fixes the column 1
    at the value 5. *)
Definition fill_host : toy_host :=
  toy [(3%N, [(0%N, z 2); (1%N, z 3)])] [(1%N, z 5)].
Definition fill_example : imp := set_m_added_terms [3%N] new_imp.

(** A solution of the row [x0 + 2 x1 = 0] of [fixing_example]. *)
Definition fixing_solution (j : nat) : mpq :=
  match j with 0 => z (-2) | 1 => z 1 | _ => z 0 end.
Definition fill_state : imp := fill_entry fill_host 3%N new_imp.

(** The same state with a work vector that has room for the columns 0 to
    3, as a call of the tightener with four columns in E leaves it. *)
Definition roomy_state : imp :=
  set_m_indexed_work_vector
    (IndexedVector.resize 4 (m_indexed_work_vector fill_state)) fill_state.

(** A host with the three columns 0, 1 and 2, the last one the term
    [3 x0 + 5 x1] fixed at -7 (the equation [3x + 5y + 7 = 0]); the solver
    with that term added, the state a [check] leaves it in, and that state
    after the column 1 of the host has changed and the [init] of the next
    [check] has run. *)
Definition changing_host : toy_host :=
  {| th_columns := 3;
     th_terms := {[ 2%N := {[ 0%N := z 3; 1%N := z 5 ]} ]};
     th_fixed := {[ 2%N := z (-7) ]}; th_upper := ∅; th_lower := ∅;
     th_values := ∅; th_int_inf := []; th_basis := []; th_statuses := [];
     th_randoms := []; th_period := 1; th_log := [] |}.
Definition fresh_added : imp := set_m_added_terms [2%N] new_imp.
Definition fresh_checked : imp :=
  default new_imp (snd <$> check 10 changing_host fresh_added).
Definition fresh_rechecked : imp :=
  init changing_host (set_m_changed_columns {[1%N]} fresh_checked).



(** ** The equations the rows stand for *)

(** The value of the cells of a row under an assignment of the variables. *)
Definition row_value {V} (x : V → mpq) (r : list (V * mpq)) : mpq :=
  foldr (λ (p : V * mpq) acc, (p.2 * x p.1 + acc)%Qc) 0%Qc r.

(** The assignment [x] satisfies the equation of the row [i] of E:
    [sum E[i][j] * x_j + c_i = 0]. *)
Definition row_holds (x : nat → mpq) (s : imp) (i : nat) : Prop :=
  (row_value x (row_at (m_e_matrix s) i) + m_c (entry_at s i) = 0)%Qc.

(** An assignment of integers. *)
Definition integral {V} (x : V → mpq) : Prop := ∀ j, is_int (x j) = true.

(** ** The stack of the brancher *)

(** [lra.pop()] and [lra.find_feasible_solution()], as [lra_pop] calls
    them. *)
Definition pop_and_solve `{LarSolver H} (lra : H) : H :=
  (find_feasible_solution (pop lra)).2.

(** The level of the host agrees with the stack of the branches: at the head
    of the loop of the brancher the host was pushed once a branch, but for
    the branch at the top when it is still to be asserted again. *)
Definition level_agrees (need_create_branch : bool) (s : imp) : Prop :=
  if need_create_branch
  then m_lra_level s = N.of_nat (length (m_branch_stack s))
  else (m_lra_level s + 1)%N = N.of_nat (length (m_branch_stack s)).

(** The host [h] answers [column_is_int_inf] as the host [lra0] does. *)
Definition same_int_inf `{LarSolver H} (lra0 h : H) : Prop :=
  ∀ j, column_is_int_inf h j = column_is_int_inf lra0 j.

(** The row [i] is recorded as the row of the conflict, and no assignment of
    integers satisfies its equation if its coefficients are integers. *)
Definition conflict_row_unsat (s : imp) (i : nat) : Prop :=
  m_conflict_index s = Some i ∧
  (Forall (λ p : nat * mpq, is_int p.2 = true) (row_at (m_e_matrix s) i) →
   ∀ x, integral x → ¬ row_holds x s i).

(** What the loop of [fill_entry] has established for the new row [ei] after
    the monomials [pre] of the term: the cells of the row, read through the
    register, are the monomials of the columns that are not fixed, and the
    constant is the value of the monomials of the fixed columns. *)
Definition fill_entry_inv `{LarSolver H} (lra : H) (s0 : imp) (ei : nat)
    (pre : list (N * mpq)) (st : imp) : Prop :=
  length (m_entries st) = length (m_entries s0) ∧
  length (m_e_matrix st) = length (m_e_matrix s0) ∧
  m_l_matrix st = m_l_matrix s0 ∧ m_f st = m_f s0 ∧
  (∃ ext, m_var_register st = m_var_register s0 ++ ext) ∧
  (λ p : nat * mpq, (local_to_lar_solver st p.1, p.2))
    <$> row_at (m_e_matrix st) ei
  = filter (λ p : N * mpq, is_fixed lra p.1 = false) pre ∧
  (m_c (entry_at st ei)
   = m_c (entry_at s0 ei)
     + row_value (get_lower_bound lra)
         (filter (λ p : N * mpq, is_fixed lra p.1 = true) pre))%Qc ∧
  m_entry_status (entry_at st ei) = m_entry_status (entry_at s0 ei) ∧
  (∀ i, i ≠ ei →
        row_at (m_e_matrix st) i = row_at (m_e_matrix s0) i ∧
        entry_at st i = entry_at s0 i).

(** A term stores no zero coefficient. *)
Definition no_zero `{Countable K} (t : gmap K mpq) : Prop :=
  ∀ j v, t !! j = Some v → v ≠ 0%Qc.

(** The row [i] is the row of the term of the column [t], as [fill_entry]
    builds it: the row of L is the single cell [(t, 1)], the row is on F, the
    cells of the row of E are, through the register, the monomials of the
    extended term whose columns are not fixed, and the constant is the value
    of the monomials of the fixed columns. *)
Definition row_of_term `{LarSolver H} (lra : H) (s : imp) (i : nat)
    (t : N) : Prop :=
  row_at (m_l_matrix s) i = [(t, 1%Qc)] ∧
  status_at s i = entry_status.F ∧
  (λ p : nat * mpq, (local_to_lar_solver s p.1, p.2))
    <$> row_at (m_e_matrix s) i
  = filter (λ p : N * mpq, is_fixed lra p.1 = false) (ext_coeffs lra t) ∧
  m_c (entry_at s i)
  = row_value (get_lower_bound lra)
      (filter (λ p : N * mpq, is_fixed lra p.1 = true) (ext_coeffs lra t)).

(** The fields of a check that the creation of rows leaves alone. *)
Definition lifecycle_of (s : imp) :
  list branch * N * list constraint_index * list N * list nat :=
  (m_branch_stack s, m_lra_level s, m_infeas_explanation s, m_added_terms s,
   m_s s).

(** The value of the work vector, a dense vector over the columns below [n],
    under the assignment [x]. *)
Definition dense_value (n : nat) (x : nat → mpq) (v : indexed_vector) : mpq :=
  foldr (λ j acc, (IndexedVector.get v j * x j + acc)%Qc) 0%Qc (seq 0 n).

(** The assignment of the columns of the host that [x] gives through the
    register, the fixed columns having their values. *)
Definition host_assignment `{LarSolver H} (lra : H) (s : imp)
    (x : nat → mpq) (j : N) : mpq :=
  if is_fixed lra j then get_lower_bound lra j
  else x (lar_solver_to_local s j).

(** The row that substitutes [k] is in order for the assignment [x]: it has
    one cell a column, all below [n], the coefficient of [k] is 1 or -1, and
    [x] satisfies its equation. *)
Definition substitution_ready (n : nat) (x : nat → mpq) (s : imp)
    (k : nat) : Prop :=
  let r := row_at (m_e_matrix s) (sub_index s k) in
  NoDup r.*1 ∧ (row_coeff k r = 1%Qc ∨ row_coeff k r = (-1)%Qc) ∧
  (∀ p : nat * mpq, p ∈ r → p.1 < n) ∧ k < n ∧
  row_holds x s (sub_index s k).

(** The fields that the substitution of the tightener reads and leaves
    alone. *)
Definition subst_frame (s : imp) :
  list (list (nat * mpq)) * list entry * list (option nat) * list N :=
  (m_e_matrix s, m_entries s, m_k2s s, m_var_register s).

(** The queue that [tighten_bounds_for_term_column] starts with: the local
    variables of the columns of the term that are not fixed and that a row
    substitutes. *)
Definition substitution_queue `{LarSolver H} (lra : H) (s : imp)
    (t : gmap N mpq) : list nat :=
  map (lar_solver_to_local s)
    (filter (λ p : N * mpq,
               negb (column_is_fixed lra p.1)
               && can_substitute s (lar_solver_to_local s p.1) = true)
       (monomials t)).*1.

(** The work vector with its constant. *)
Definition work_of (s : imp) : indexed_vector * mpq :=
  (m_indexed_work_vector s, imp_m_c s).

(** The work vector lists every index that holds a value, and holds
    integers. *)
Definition vector_ok (v : indexed_vector) : Prop :=
  (∀ j, IndexedVector.get v j ≠ 0%Qc → j ∈ m_index v) ∧
  (∀ j, is_int (IndexedVector.get v j) = true).

(** The row that substitutes [k] has integer coefficients. *)
Definition substitution_int (s : imp) (k : nat) : Prop :=
  Forall (λ p : nat * mpq, is_int p.2 = true)
    (row_at (m_e_matrix s) (sub_index s k)).

(** The value of a term with a constant under an assignment. *)
Definition term_value `{Countable K} (y : K → mpq) (t : term_o K) : mpq :=
  (row_value y (monomials (t_coeffs t)) + t_c t)%Qc.

(** The assignment that is 1 at [c] and 0 elsewhere. *)
Definition indicator `{EqDecision K} (c : K) (j : K) : mpq :=
  if decide (j = c) then 1%Qc else 0%Qc.

(** The assignment [y] with the fixed columns at their values. *)
Definition fixed_at_bounds `{LarSolver H} (lra : H) (y : N → mpq)
    (j : N) : mpq :=
  if is_fixed lra j then get_lower_bound lra j else y j.

(** The index of the work vector lists, once each, the indices that hold a
    value other than zero. *)
Definition index_exact (v : indexed_vector) : Prop :=
  NoDup (m_index v) ∧
  ∀ j, j ∈ m_index v ↔ IndexedVector.get v j ≠ 0%Qc.

(** The sum of the terms of a row of L: each cell stands for the equation of
    the term of its column, [sum a_i * x_i - x_t]. *)
Definition l_row_value `{LarSolver H} (lra : H) (y : N → mpq)
    (r : list (N * mpq)) : mpq :=
  row_value (λ t, row_value y (ext_coeffs lra t)) r.

(** The indices of the work vector are columns of the host below [n],
    other than UINT_MAX, that are not fixed. *)
Definition index_columns `{LarSolver H} (lra : H) (n : nat)
    (v : indexed_vector) : Prop :=
  ∀ j, j ∈ m_index v →
       j < n ∧ N.of_nat j ≠ UINT_MAX ∧ is_fixed lra (N.of_nat j) = false.

(** What the loop of [recalculate_entry] has established for the row [ei]
    after the cells [pre] of the work vector. *)
Definition recalculate_inv (s0 : imp) (ei : nat) (pre : list (nat * mpq))
    (st : imp) : Prop :=
  m_entries st = m_entries s0 ∧ m_l_matrix st = m_l_matrix s0 ∧
  length (m_e_matrix st) = length (m_e_matrix s0) ∧
  (∃ ext, m_var_register st = m_var_register s0 ++ ext) ∧
  (λ p : nat * mpq, (local_to_lar_solver st p.1, p.2))
    <$> row_at (m_e_matrix st) ei
  = (λ p : nat * mpq, (N.of_nat p.1, p.2)) <$> pre ∧
  (∀ i, i ≠ ei → row_at (m_e_matrix st) i = row_at (m_e_matrix s0) i).

(** ** The measure of the loop of [process_f] *)

(** The least absolute value of the numerators of the coefficients of a
    row. *)
Fixpoint row_min_abs {V} (r : list (V * mpq)) : Z :=
  match r with
  | [] => 0
  | p :: r' =>
      match r' with
      | [] => Z.abs (Qnum p.2)
      | _ :: _ => Z.min (Z.abs (Qnum p.2)) (row_min_abs r')
      end
  end.

(** The least absolute coefficient of the row divided by its gcd. *)
Definition normalized_min {V} (r : list (V * mpq)) : nat :=
  Z.to_nat (row_min_abs r / row_gcd r).

(** A cell of a row of F: an integer other than zero on a registered
    variable; a row of F has one cell a column. *)
Definition cell_wf (s : imp) (p : nat * mpq) : Prop :=
  is_int p.2 = true ∧ p.2 ≠ 0%Qc ∧ p.1 < length (m_var_register s).

Definition row_wf (s : imp) (r : list (nat * mpq)) : Prop :=
  NoDup r.*1 ∧ Forall (cell_wf s) r.

Definition f_rows_wf (s : imp) : Prop :=
  rows_aligned s ∧
  ∀ i, i ∈ m_f s →
       i < length (m_entries s) ∧ row_wf s (row_at (m_e_matrix s) i).

(** The measure of the first row of F. *)
Definition f_head_measure (s : imp) : nat :=
  normalized_min (row_at (m_e_matrix s) (hd 0 (m_f s))).

(** ** The tightening of the bounds of a term column *)





(** The answers the tightener takes for an infeasibility: the ones below
    [FEASIBLE] other than [CANCELLED]. *)
Definition reports_infeasibility (st : lp_status.t) : bool :=
  negb (bool_decide
          (lp_status.to_int lp_status.FEASIBLE ≤ lp_status.to_int st)%Z)
  && negb (bool_decide (st = lp_status.CANCELLED)).






(** * Properties *)

#[global] Arguments machine_div : simpl never.
#[global] Arguments machine_rem : simpl never.
#[global] Arguments gcd : simpl never.
#[global] Arguments floor : simpl never.
#[global] Arguments ceil : simpl never.
#[global] Arguments abs : simpl never.
#[global] Arguments is_int : simpl never.
#[global] Arguments is_zero : simpl never.
#[global] Arguments is_one : simpl never.
#[global] Arguments is_pos : simpl never.
#[global] Arguments of_Z : simpl never.
#[global] Arguments Qc_of_Z : simpl never.
#[global] Arguments Qcplus : simpl never.
#[global] Arguments Qcmult : simpl never.
#[global] Arguments Qcopp : simpl never.
#[global] Arguments Qcminus : simpl never.
#[global] Arguments Qcdiv : simpl never.
#[global] Arguments Qcinv : simpl never.
#[global] Arguments Q2Qc : simpl never.

(** ** Rationals *)

Section rational_facts.
Local Open Scope Qc_scope.

Lemma Qc_of_Z_inj (a b : Z) : Qc_of_Z a = Qc_of_Z b → a = b.
Proof. intros E. apply (f_equal (λ q : Qc, Qnum q)) in E. exact E. Qed.

Lemma Qc_of_Z_0 : Qc_of_Z 0 = 0.
Proof. apply Qc_is_canon. reflexivity. Qed.

Lemma Qc_of_Z_1 : Qc_of_Z 1 = 1.
Proof. apply Qc_is_canon. reflexivity. Qed.

Lemma Qc_of_Z_eq_0 (a : Z) : Qc_of_Z a = 0 ↔ a = 0%Z.
Proof.
  split; [|intros ->; apply Qc_of_Z_0].
  rewrite <- Qc_of_Z_0. apply Qc_of_Z_inj.
Qed.

Lemma Qc_of_Z_eq_1 (a : Z) : Qc_of_Z a = 1 ↔ a = 1%Z.
Proof.
  split; [|intros ->; apply Qc_of_Z_1].
  rewrite <- Qc_of_Z_1. apply Qc_of_Z_inj.
Qed.

Lemma is_int_Qc_of_Z (a : Z) : is_int (Qc_of_Z a) = true.
Proof. reflexivity. Qed.

Lemma is_int_spec (q : mpq) : is_int q = true ↔ q = Qc_of_Z (Qnum q).
Proof.
  unfold is_int. rewrite bool_decide_eq_true. split.
  - intros Hd. apply Qc_is_canon. destruct q as [[n d] Hc]. simpl in *.
    subst d. reflexivity.
  - intros ->. reflexivity.
Qed.

Lemma abs_of_int (q : mpq) :
  is_int q = true → abs q = Qc_of_Z (Z.abs (Qnum q)).
Proof.
  unfold is_int. rewrite bool_decide_eq_true. intros Hd.
  apply Qc_is_canon. destruct q as [[n d] Hc]. simpl in *.
  subst d. reflexivity.
Qed.

Lemma is_zero_true (q : mpq) : is_zero q = true ↔ q = 0.
Proof. apply bool_decide_eq_true. Qed.

Lemma is_zero_false (q : mpq) : is_zero q = false ↔ q ≠ 0.
Proof. apply bool_decide_eq_false. Qed.

Lemma is_one_true (q : mpq) : is_one q = true ↔ q = 1.
Proof. apply bool_decide_eq_true. Qed.

Lemma is_one_false (q : mpq) : is_one q = false ↔ q ≠ 1.
Proof. apply bool_decide_eq_false. Qed.

Lemma Qc_of_Z_plus (a b : Z) : Qc_of_Z (a + b) = Qc_of_Z a + Qc_of_Z b.
Proof.
  apply Qc_is_canon. simpl. rewrite Qred_correct.
  unfold Qeq, Qplus. simpl. lia.
Qed.

Lemma Qc_of_Z_mult (a b : Z) : Qc_of_Z (a * b) = Qc_of_Z a * Qc_of_Z b.
Proof.
  apply Qc_is_canon. simpl. rewrite Qred_correct.
  unfold Qeq, Qmult. simpl. lia.
Qed.

Lemma Qc_of_Z_opp (a : Z) : Qc_of_Z (- a) = - Qc_of_Z a.
Proof.
  apply Qc_is_canon. simpl. rewrite Qred_correct. reflexivity.
Qed.

(** The machine division splits [a] as [q * b + r]. *)
Lemma machine_div_rem_split (a b : mpq) :
  is_int a = true → is_int b = true → b ≠ 0 →
  a = (machine_div_rem a b).1 * b + (machine_div_rem a b).2.
Proof.
  intros Ha Hb Hnz. apply is_int_spec in Ha, Hb.
  rewrite Ha at 1. rewrite Hb at 2.
  unfold machine_div_rem, machine_div, machine_rem. cbn [fst snd].
  rewrite <- Qc_of_Z_mult, <- Qc_of_Z_plus. f_equal.
  rewrite Z.mul_comm. apply Z.quot_rem'.
Qed.

End rational_facts.

(** ** The gcd of the coefficients of a row *)

Lemma gcd_of_coeffs_from_correct {V} (r : list (V * mpq)) (G : Z) :
  (0 ≤ G)%Z →
  Forall (λ p : V * mpq, is_int p.2 = true) r →
  gcd_of_coeffs_from (Qc_of_Z G) r = Qc_of_Z (Z.gcd G (row_gcd r)).
Proof.
  intros HG Hr. revert G HG. induction Hr as [|p r Hp Hr IH]; intros G HG.
  - simpl. rewrite Z.gcd_0_r, Z.abs_eq; done.
  - simpl.
    assert (Hstep : (if is_zero (Qc_of_Z G) then abs p.2 else gcd (Qc_of_Z G) p.2)
                    = Qc_of_Z (Z.gcd G (Qnum p.2))).
    { destruct (is_zero (Qc_of_Z G)) eqn:Hz.
      - apply is_zero_true in Hz. apply (proj1 (Qc_of_Z_eq_0 _)) in Hz. subst G.
        rewrite abs_of_int by done. reflexivity.
      - reflexivity. }
    rewrite Hstep. rewrite Z.gcd_assoc.
    destruct (is_one (Qc_of_Z (Z.gcd G (Qnum p.2)))) eqn:H1.
    + apply is_one_true in H1. apply (proj1 (Qc_of_Z_eq_1 _)) in H1. rewrite H1.
      by rewrite Z.gcd_1_l.
    + apply IH. apply Z.gcd_nonneg.
Qed.

Lemma gcd_of_coeffs_correct {V} (r : list (V * mpq)) :
  Forall (λ p : V * mpq, is_int p.2 = true) r →
  gcd_of_coeffs r = Qc_of_Z (row_gcd r).
Proof.
  intros Hr. unfold gcd_of_coeffs. rewrite <- Qc_of_Z_0.
  rewrite gcd_of_coeffs_from_correct by done. by rewrite Z.gcd_0_l_nonneg; [|
    unfold row_gcd; destruct r; simpl; [done|apply Z.gcd_nonneg]].
Qed.

Lemma row_gcd_nonneg {V} (r : list (V * mpq)) : (0 ≤ row_gcd r)%Z.
Proof. destruct r; simpl; [done|apply Z.gcd_nonneg]. Qed.

Lemma row_gcd_divides {V} (r : list (V * mpq)) (p : V * mpq) :
  p ∈ r → (row_gcd r | Qnum p.2)%Z.
Proof.
  induction r as [|x r IH]; [by intros ?%elem_of_nil|].
  intros [->|Hin]%elem_of_cons; simpl.
  - apply Z.gcd_divide_l.
  - etransitivity; [apply Z.gcd_divide_r|by apply IH].
Qed.

(** ** The choice of the pivot *)

Section pivot.
Local Open Scope Qc_scope.

Lemma Qc_of_Z_le (a b : Z) : (a ≤ b)%Z → Qc_of_Z a ≤ Qc_of_Z b.
Proof. intros Hab. unfold Qcle, Qle. simpl. lia. Qed.

Lemma abs_int_ge_1 (q : mpq) : is_int q = true → q ≠ 0 → 1 ≤ abs q.
Proof.
  intros Hi Hnz. rewrite abs_of_int by done. rewrite <- Qc_of_Z_1.
  apply Qc_of_Z_le.
  assert (Qnum q ≠ 0%Z); [|lia].
  intros Hq. apply Hnz. apply is_int_spec in Hi. rewrite Hi, Hq.
  apply Qc_of_Z_0.
Qed.

(** What the loop has established after the cells [pre]. *)
Definition pivot_inv (pre : list (nat * mpq)) (first : bool) (ahk : mpq)
    (k : nat) (k_sign : Z) : Prop :=
  if first then pre = []
  else (∃ a, (k, a) ∈ pre ∧ abs a = ahk ∧ k_sign = sign_of a) ∧
       (∀ p, p ∈ pre → ahk ≤ abs p.2) ∧
       (∀ p, p ∈ pre → abs p.2 = ahk → (k ≤ p.1)%nat) ∧
       ahk ≠ 1 ∧ 1 ≤ ahk ∧
       Forall (λ p : nat * mpq, abs p.2 ≠ 1) pre.

Lemma find_minimal_abs_coeff_loop_spec (row pre : list (nat * mpq))
    (first : bool) (ahk : mpq) (k : nat) (k_sign : Z) :
  Forall (λ p : nat * mpq, is_int p.2 = true ∧ p.2 ≠ 0) row →
  pivot_inv pre first ahk k k_sign →
  (first = true → row ≠ []) →
  least_abs_first_unit (pre ++ row)
    (find_minimal_abs_coeff_loop row first ahk k k_sign).
Proof.
  intros Hrow. revert pre first ahk k k_sign.
  induction Hrow as [|p row [Hint Hnz] Hrow IH];
    intros pre first ahk k k_sign Hinv Hne.
  - destruct first; [by destruct Hne|].
    destruct Hinv as (Hex & Hmin & Htie & Hn1 & Hge & Hpre).
    rewrite app_nil_r. simpl. repeat split; try done.
  - simpl.
    assert (Hge1 : 1 ≤ abs p.2) by by apply abs_int_ge_1.
    destruct (first || bool_decide (abs p.2 < ahk)
              || bool_decide (abs p.2 = ahk) && bool_decide (p.1 < k)%nat)
      eqn:Hcond.
    + (* the cell becomes the candidate *)
      assert (Hnew_min : ∀ x, x ∈ pre → abs p.2 ≤ abs x.2).
      { destruct first;
          [unfold pivot_inv in Hinv; subst pre; by intros x ?%elem_of_nil|].
        destruct Hinv as (_ & Hmin & _).
        intros x Hx. specialize (Hmin x Hx). simpl in Hcond.
        apply orb_true_iff in Hcond as [Hlt|Heq].
        - apply bool_decide_eq_true in Hlt.
          apply Qclt_le_weak. eapply Qclt_le_trans; eauto.
        - apply andb_true_iff in Heq as [Heq _].
          apply bool_decide_eq_true in Heq. by rewrite Heq. }
      assert (Hnew_tie : ∀ x, x ∈ pre → abs x.2 = abs p.2 → (p.1 ≤ x.1)%nat).
      { destruct first;
          [unfold pivot_inv in Hinv; subst pre; by intros x ?%elem_of_nil|].
        destruct Hinv as (_ & Hmin & Htie & _).
        intros x Hx Hax. simpl in Hcond.
        apply orb_true_iff in Hcond as [Hlt|Heq].
        - apply bool_decide_eq_true in Hlt. specialize (Hmin x Hx).
          rewrite Hax in Hmin. exfalso. by eapply Qclt_not_le.
        - apply andb_true_iff in Heq as [Heq Hlt].
          apply bool_decide_eq_true in Heq, Hlt.
          assert (k ≤ x.1)%nat by (apply Htie; [done|congruence]). lia. }
      assert (Hpre1 : Forall (λ x : nat * mpq, abs x.2 ≠ 1) pre).
      { destruct first; [unfold pivot_inv in Hinv; subst pre; by constructor|].
        by destruct Hinv as (_ & _ & _ & _ & _ & ?). }
      destruct (is_one (abs p.2)) eqn:H1.
      * (* an absolute coefficient one: the loop leaves *)
        apply is_one_true in H1. simpl.
        split; [|split; [|split]]; simpl.
        -- exists p.2. split; [|done].
           apply elem_of_app. right. apply elem_of_cons. left.
           by destruct p.
        -- intros x [Hx|Hx]%elem_of_app; [by apply Hnew_min|].
           rewrite H1.
           apply elem_of_cons in Hx as [->|Hx]; [by rewrite H1|].
           rewrite Forall_forall in Hrow. destruct (Hrow x Hx).
           by apply abs_int_ge_1.
        -- by intros [].
        -- intros _. exists pre, p.2, row. split; [|done].
           by destruct p.
      * apply is_one_false in H1.
        replace (pre ++ p :: row) with ((pre ++ [p]) ++ row)
          by by rewrite <- app_assoc.
        apply IH; [|done].
        split; [|split; [|split; [|split; [|split]]]].
        -- exists p.2. split; [|done].
           apply elem_of_app. right. apply list_elem_of_singleton.
           by destruct p.
        -- intros x [Hx|Hx%list_elem_of_singleton]%elem_of_app; [|subst x];
             [by apply Hnew_min|done].
        -- intros x [Hx|Hx%list_elem_of_singleton]%elem_of_app; [|subst x];
             [by apply Hnew_tie|done].
        -- done.
        -- done.
        -- apply Forall_app. split; [done|]. by constructor.
    + (* the candidate stays *)
      destruct first; [done|]. simpl in Hcond.
      apply orb_false_iff in Hcond as [Hlt Heq].
      apply bool_decide_eq_false in Hlt.
      destruct Hinv as (Hex & Hmin & Htie & Hn1 & Hge & Hpre).
      replace (pre ++ p :: row) with ((pre ++ [p]) ++ row)
        by by rewrite <- app_assoc.
      assert (Hle : ahk ≤ abs p.2) by by apply Qcnot_lt_le.
      apply IH; [|done].
      split; [|split; [|split; [|split; [|split]]]].
      * destruct Hex as (a & Ha & ?). exists a. split; [|done].
        apply elem_of_app. by left.
      * intros x [Hx|Hx%list_elem_of_singleton]%elem_of_app; [|subst x];
          [by apply Hmin|done].
      * intros x [Hx|Hx%list_elem_of_singleton]%elem_of_app; [|subst x];
          [by apply Htie|].
        intros Hax. apply andb_false_iff in Heq as [Hne'|Hnlt].
        -- by apply bool_decide_eq_false in Hne'.
        -- apply bool_decide_eq_false in Hnlt. lia.
      * done.
      * done.
      * apply Forall_app. split; [done|]. constructor; [|done].
        intros H1. apply Hn1. apply Qcle_antisym; [by rewrite <- H1|done].
Qed.

End pivot.

(** A closed decidable fact is settled by evaluation. *)
Ltac by_compute :=
  apply (bool_decide_eq_true_1 _); vm_compute; reflexivity.

(** C7 (amended).  In a rewrite step on the row [h], whose coefficients are
    non-zero integers, the pivot [find_minimal_abs_coeff] returns is a cell
    of the least absolute coefficient of the row, with its sign.  When that
    least absolute coefficient is not one, the pivot is the cell of the least
    variable among the cells that have it; when it is one, the scan stops at
    the first cell of absolute coefficient one and takes that cell. *)
Theorem find_minimal_abs_coeff_pivot (s : imp) (h : nat) :
  row_at (m_e_matrix s) h ≠ [] →
  Forall (λ p : nat * mpq, is_int p.2 = true ∧ p.2 ≠ 0%Qc)
    (row_at (m_e_matrix s) h) →
  least_abs_first_unit (row_at (m_e_matrix s) h) (find_minimal_abs_coeff s h).
Proof.
  intros Hne Hrow. unfold find_minimal_abs_coeff.
  apply (find_minimal_abs_coeff_loop_spec _ [] true); done.
Qed.

Lemma find_minimal_abs_coeff_pivot_witness :
  row_at (m_e_matrix pivot_example) 0 ≠ [] ∧
  least_abs_first_unit (row_at (m_e_matrix pivot_example) 0)
    (find_minimal_abs_coeff pivot_example 0).
Proof.
  split; [done|].
  apply (find_minimal_abs_coeff_pivot pivot_example 0); [done|].
  by_compute.
Defined.

(** C7 as the specification states it fails: in the row [x3 + x0 - x4] the
    scan stops at the first cell, the one of [x3], while [x0] has the same
    absolute coefficient and a smaller id. *)
Lemma find_minimal_abs_coeff_not_least_var :
  ¬ least_abs_then_least_var (row_at (m_e_matrix pivot_example) 0)
      (find_minimal_abs_coeff pivot_example 0).
Proof.
  intros (_ & _ & Htie).
  specialize (Htie (0, z 1)).
  assert (Hk : (find_minimal_abs_coeff pivot_example 0).1.2 = 3) by reflexivity.
  rewrite Hk in Htie. simpl in Htie.
  assert (3 ≤ 0); [|lia].
  apply Htie.
  - apply elem_of_cons. right. apply elem_of_cons. by left.
  - apply Qc_is_canon. reflexivity.
Qed.

(** ** Normalization by the gcd *)

Lemma alter_as_insert {A} (f : A → A) (l : list A) (i : nat) (x : A) :
  l !! i = Some x → alter f i l = <[i := f x]> l.
Proof.
  intros Hi. apply list_eq. intros j.
  destruct (decide (i = j)) as [->|Hne].
  - rewrite list_lookup_alter_eq, Hi.
    by rewrite list_lookup_insert_eq by by eapply lookup_lt_Some.
  - by rewrite list_lookup_alter_ne, list_lookup_insert_ne.
Qed.

Lemma row_at_lookup {V} (m : list (list (V * mpq))) (i : nat) :
  i < length m → m !! i = Some (row_at m i).
Proof.
  intros Hi. unfold row_at.
  destruct (lookup_lt_is_Some_2 m i Hi) as [r Hr]. by rewrite Hr.
Qed.

Lemma normalize_by_gcd_loop_app `{LarSolver H} (lra : H) (pre post : list nat)
    (s s1 : imp) :
  normalize_by_gcd_loop lra pre s = (true, s1) →
  normalize_by_gcd_loop lra (pre ++ post) s = normalize_by_gcd_loop lra post s1.
Proof.
  revert s. induction pre as [|l pre IH]; intros s Hpre; simpl in *.
  - by injection Hpre as ->.
  - destruct (normalize_e_by_gcd lra l s) as [[] s']; [by apply IH|done].
Qed.

(** Row [i] after a division by [g]. *)
Definition divided_by {V} (g : mpq) (r : list (V * mpq)) : list (V * mpq) :=
  map (λ p, (p.1, (p.2 / g)%Qc)) r.

Lemma Qc_of_Z_cases (g : Z) :
  (0 ≤ g)%Z → (g = 0 ∨ g = 1 ∨ 1 < g)%Z.
Proof. lia. Qed.

(** C2.  Let [i] be a row of F whose coefficients are integers, [g] the gcd
    of their absolute values and [q = c_i / g].  [gcd_of_coeffs] computes
    [g].  If [g] is 0 or 1, normalize-by-GCD succeeds and changes nothing.
    If [g > 1] and [q] is an integer, it succeeds, the rows [i] of E and of L
    are divided by [g] cell by cell and [c_i] becomes [q]; nothing else of
    the matrices and of the entries changes.  If [g > 1] and [q] is not an
    integer, and the period of the cuts is not 0 (the source takes
    [m_dio_calls] modulo the period there), it fails, and
    [normalize_by_gcd], which reaches the row [i] after the rows that come
    before it in F were normalized, records [i] in [m_conflict_index]. *)
Theorem normalize_e_by_gcd_spec `{LarSolver H} (lra : H) (s : imp) (i : nat)
    (e : entry) :
  m_entries s !! i = Some e →
  m_entry_status e = entry_status.F →
  i < length (m_e_matrix s) →
  i < length (m_l_matrix s) →
  Forall (λ p : nat * mpq, is_int p.2 = true) (row_at (m_e_matrix s) i) →
  let g := row_gcd (row_at (m_e_matrix s) i) in
  let q := (m_c e / Qc_of_Z g)%Qc in
  let r := normalize_e_by_gcd lra i s in
  gcd_of_coeffs (row_at (m_e_matrix s) i) = Qc_of_Z g ∧
  ((g = 0 ∨ g = 1)%Z → r = (true, s)) ∧
  ((1 < g)%Z → is_int q = true →
   r.1 = true ∧
   m_e_matrix r.2
   = <[i := divided_by (Qc_of_Z g) (row_at (m_e_matrix s) i)]> (m_e_matrix s) ∧
   m_l_matrix r.2
   = <[i := divided_by (Qc_of_Z g) (row_at (m_l_matrix s) i)]> (m_l_matrix s) ∧
   m_entries r.2
   = <[i := {| m_c := q; m_entry_status := entry_status.F |}]> (m_entries s)) ∧
  ((1 < g)%Z → is_int q = false → dio_cut_from_proof_period lra ≠ 0 →
   r.1 = false ∧
   ∀ s0 pre post,
     m_f s0 = pre ++ i :: post →
     normalize_by_gcd_loop lra pre s0 = (true, s) →
     (normalize_by_gcd lra s0).1 = false ∧
     m_conflict_index (normalize_by_gcd lra s0).2 = Some i).
Proof.
  intros He HF HiE HiL Hint g q r.
  assert (Hg : gcd_of_coeffs (row_at (m_e_matrix s) i) = Qc_of_Z g)
    by by apply gcd_of_coeffs_correct.
  assert (Hentry : entry_at s i = e) by (unfold entry_at; by rewrite He).
  split; [done|]. subst r. unfold normalize_e_by_gcd.
  rewrite Hg, Hentry. fold q.
  split; [|split].
  - intros [-> | ->]; [by rewrite Qc_of_Z_0|by rewrite Qc_of_Z_1].
  - intros Hg1 Hq.
    assert (Hz : is_zero (Qc_of_Z g) = false).
    { apply is_zero_false. intros ?%Qc_of_Z_eq_0. lia. }
    assert (Ho : is_one (Qc_of_Z g) = false).
    { apply is_one_false. intros ?%Qc_of_Z_eq_1. lia. }
    rewrite Hz, Ho, Hq. simpl.
    split; [done|]. unfold divide_row.
    rewrite (alter_as_insert _ _ _ _ (row_at_lookup _ _ HiE)).
    rewrite (alter_as_insert _ _ _ _ (row_at_lookup _ _ HiL)).
    rewrite (alter_as_insert _ _ _ _ He).
    repeat split; try done.
    unfold set_entry_c. by rewrite HF.
  - intros Hg1 Hq _.
    assert (Hz : is_zero (Qc_of_Z g) = false).
    { apply is_zero_false. intros ?%Qc_of_Z_eq_0. lia. }
    assert (Ho : is_one (Qc_of_Z g) = false).
    { apply is_one_false. intros ?%Qc_of_Z_eq_1. lia. }
    rewrite Hz, Ho, Hq. simpl.
    assert (Hfail :
      ∃ s', normalize_e_by_gcd lra i s = (false, s')).
    { unfold normalize_e_by_gcd. rewrite Hg, Hentry. fold q.
      rewrite Hz, Ho, Hq. simpl.
      destruct (bool_decide _ && negb _); eauto. }
    split; [by destruct (bool_decide _ && negb _)|].
    intros s0 pre post Hf Hpre. unfold normalize_by_gcd. rewrite Hf.
    rewrite (normalize_by_gcd_loop_app _ _ _ _ _ Hpre). simpl.
    destruct Hfail as [s' ->]. done.
Qed.

Lemma normalize_e_by_gcd_spec_witness :
  let s := normalize_example in
  let i := 0 in
  let g := row_gcd (row_at (m_e_matrix s) i) in
  let q := (m_c (entry_at s i) / Qc_of_Z g)%Qc in
  let r := normalize_e_by_gcd normalize_host i s in
  gcd_of_coeffs (row_at (m_e_matrix s) i) = Qc_of_Z g ∧
  ((g = 0 ∨ g = 1)%Z → r = (true, s)) ∧
  ((1 < g)%Z → is_int q = true →
   r.1 = true ∧
   m_e_matrix r.2
   = <[i := divided_by (Qc_of_Z g) (row_at (m_e_matrix s) i)]> (m_e_matrix s) ∧
   m_l_matrix r.2
   = <[i := divided_by (Qc_of_Z g) (row_at (m_l_matrix s) i)]> (m_l_matrix s) ∧
   m_entries r.2
   = <[i := {| m_c := q; m_entry_status := entry_status.F |}]> (m_entries s)) ∧
  ((1 < g)%Z → is_int q = false →
   dio_cut_from_proof_period normalize_host ≠ 0 →
   r.1 = false ∧
   ∀ s0 pre post,
     m_f s0 = pre ++ i :: post →
     normalize_by_gcd_loop normalize_host pre s0 = (true, s) →
     (normalize_by_gcd normalize_host s0).1 = false ∧
     m_conflict_index (normalize_by_gcd normalize_host s0).2 = Some i).
Proof.
  apply (normalize_e_by_gcd_spec normalize_host normalize_example 0
           (entry_at normalize_example 0)).
  - vm_compute. reflexivity.
  - vm_compute. reflexivity.
  - vm_compute. lia.
  - vm_compute. lia.
  - by_compute.
Defined.

(** ** Elimination of a variable from the rows of F *)

Section rows.
Context {V : Type} `{EqDecision V}.
Implicit Types (r src dst : list (V * mpq)) (m : list (list (V * mpq))).

Lemma row_at_alter_eq m i (f : list (V * mpq) → list (V * mpq)) :
  i < length m → row_at (alter f i m) i = f (row_at m i).
Proof.
  intros Hi. unfold row_at. rewrite list_lookup_alter_eq.
  destruct (lookup_lt_is_Some_2 m i Hi) as [r Hr]. by rewrite Hr.
Qed.

Lemma row_at_alter_ne m i k (f : list (V * mpq) → list (V * mpq)) :
  i ≠ k → row_at (alter f i m) k = row_at m k.
Proof. intros Hne. unfold row_at. by rewrite list_lookup_alter_ne. Qed.

Lemma row_at_ge m i : length m ≤ i → row_at m i = [].
Proof. intros Hi. unfold row_at. by rewrite lookup_ge_None_2. Qed.

Lemma row_at_app_l m m' i : i < length m → row_at (m ++ m') i = row_at m i.
Proof. intros Hi. unfold row_at. by rewrite lookup_app_l. Qed.

Lemma row_at_add_row_new m : row_at (add_row m) (length m) = [].
Proof.
  unfold row_at, add_row. rewrite lookup_app_r by lia.
  by rewrite Nat.sub_diag.
Qed.

Lemma find_cell_Some j r p : find_cell j r = Some p → p ∈ r ∧ p.1 = j.
Proof.
  unfold find_cell. destruct (list_find _ r) as [[i x]|] eqn:Hf; [|done].
  simpl. intros [= <-]. apply list_find_Some in Hf as (Hi & Hx & _).
  split; [|done]. by eapply list_elem_of_lookup_2.
Qed.

Lemma find_cell_None j r : find_cell j r = None ↔ ∀ p, p ∈ r → p.1 ≠ j.
Proof.
  unfold find_cell. split.
  - destruct (list_find _ r) as [[i x]|] eqn:Hf; [done|]. intros _.
    apply list_find_None in Hf. by rewrite Forall_forall in Hf.
  - intros Hr. rewrite (proj2 (list_find_None _ _)); [done|].
    by rewrite Forall_forall.
Qed.

Lemma row_has_false j r : row_has j r = false ↔ ∀ p, p ∈ r → p.1 ≠ j.
Proof.
  unfold row_has. rewrite bool_decide_eq_false, <- find_cell_None.
  rewrite <- eq_None_not_Some. done.
Qed.

Lemma row_has_true j r : row_has j r = true ↔ ∃ a, (j, a) ∈ r.
Proof.
  unfold row_has. rewrite bool_decide_eq_true. split.
  - intros [p Hp]. apply find_cell_Some in Hp as [Hp <-].
    exists p.2. by destruct p.
  - intros [a Ha]. destruct (find_cell j r) eqn:Hf; [done|].
    exfalso. rewrite find_cell_None in Hf. by apply (Hf _ Ha).
Qed.

Lemma row_add_value_vars j w r p :
  p ∈ row_add_value j w r → p.1 = j ∨ ∃ p', p' ∈ r ∧ p'.1 = p.1.
Proof.
  induction r as [|x r IH]; simpl.
  - intros ->%list_elem_of_singleton. by left.
  - destruct (decide (x.1 = j)) as [Hx|Hx].
    + intros [->|Hp]%elem_of_cons; [by left|].
      right. exists p. split; [by right|done].
    + intros [->|Hp]%elem_of_cons.
      * right. exists x. split; [by left|done].
      * destruct (IH Hp) as [?|(p' & ? & ?)]; [by left|].
        right. exists p'. split; [by right|done].
Qed.

Lemma fold_row_add_value_vars (f : V * mpq → mpq) src dst p :
  p ∈ fold_left (λ r x, row_add_value x.1 (f x) r) src dst →
  (∃ p', p' ∈ src ∧ p'.1 = p.1) ∨ (∃ p', p' ∈ dst ∧ p'.1 = p.1).
Proof.
  revert dst. induction src as [|x src IH]; intros dst; simpl.
  - intros Hp. right. by exists p.
  - intros Hp. destruct (IH _ Hp) as [(p' & ? & ?)|(p' & Hp' & Heq)].
    + left. exists p'. split; [by right|done].
    + destruct (row_add_value_vars _ _ _ _ Hp') as [Hj|(p'' & ? & ?)].
      * left. exists x. split; [by left|congruence].
      * right. exists p''. split; [done|congruence].
Qed.

Lemma row_add_scaled_vars alpha src dst p :
  p ∈ row_add_scaled alpha src dst →
  (∃ p', p' ∈ src ∧ p'.1 = p.1) ∨ (∃ p', p' ∈ dst ∧ p'.1 = p.1).
Proof.
  unfold row_add_scaled, drop_zeros. intros [_ Hp]%list_elem_of_filter.
  by apply (fold_row_add_value_vars (λ x, (alpha * x.2)%Qc)) in Hp.
Qed.

Lemma row_add_scaled_nonzero alpha src dst p :
  p ∈ row_add_scaled alpha src dst → p.2 ≠ 0%Qc.
Proof.
  unfold row_add_scaled, drop_zeros. by intros [? _]%list_elem_of_filter.
Qed.

End rows.

Lemma eliminated_row_no_var (piv r : list (nat * mpq)) (j : nat) (sign : mpq) :
  row_has j (eliminated_row piv j sign r) = false.
Proof.
  apply row_has_false. intros p Hp.
  destruct (row_add_scaled_vars _ _ _ _ Hp) as [(p' & Hp' & <-)|(p' & Hp' & <-)];
    by apply list_elem_of_filter in Hp' as [? _].
Qed.

Lemma entry_at_alter_eq (s : imp) (f : entry → entry) (i : nat) :
  i < length (m_entries s) →
  default default_entry (alter f i (m_entries s) !! i) = f (entry_at s i).
Proof.
  intros Hi. unfold entry_at. rewrite list_lookup_alter_eq.
  destruct (lookup_lt_is_Some_2 _ i Hi) as [e He]. by rewrite He.
Qed.

Lemma entry_at_alter_ne (s : imp) (f : entry → entry) (i k : nat) :
  i ≠ k →
  default default_entry (alter f i (m_entries s) !! k) = entry_at s k.
Proof. intros Hne. unfold entry_at. by rewrite list_lookup_alter_ne. Qed.

(** One turn of the loop, on a row of F. *)
Lemma eliminate_var_in_row_F (ei j : nat) (sign : Z) (i : nat) (s : imp) :
  let s' := eliminate_var_in_row ei j sign i s in
  i ≠ ei → status_at s i = entry_status.F →
  i < length (m_entries s) → rows_aligned s →
  same_registers s s' ∧ rows_aligned s' ∧
  length (m_entries s') = length (m_entries s) ∧
  (∀ k, status_at s' k = status_at s k) ∧
  (∀ k, k ≠ i → row_at (m_e_matrix s') k = row_at (m_e_matrix s) k ∧
               row_at (m_l_matrix s') k = row_at (m_l_matrix s) k ∧
               entry_at s' k = entry_at s k) ∧
  row_at (m_e_matrix s') i
  = eliminated_row (row_at (m_e_matrix s) ei) j (of_Z sign)
      (row_at (m_e_matrix s) i) ∧
  row_at (m_l_matrix s') i
  = row_add_scaled (- of_Z sign * row_coeff j (row_at (m_e_matrix s) i))%Qc
      (row_at (m_l_matrix s) ei) (row_at (m_l_matrix s) i) ∧
  m_c (entry_at s' i)
  = (m_c (entry_at s i)
     - of_Z sign * row_coeff j (row_at (m_e_matrix s) i) * m_c (entry_at s ei))%Qc.
Proof.
  intros s' Hne HF Hi [HaE HaL]. subst s'. unfold eliminate_var_in_row.
  unfold status_at in HF. rewrite decide_True by done. simpl.
  unfold rows_aligned, pivot_row_to_row_given_cell_with_sign, add_rows,
    status_at, entry_at. simpl.
  rewrite !length_alter.
  split; [done|]. split; [done|]. split; [done|]. split; [|split; [|split; [|split]]].
  - intros k. destruct (decide (i = k)) as [<-|Hk].
    + rewrite list_lookup_alter_eq.
      destruct (m_entries s !! i); [done|done].
    + by rewrite list_lookup_alter_ne.
  - intros k Hk. rewrite !row_at_alter_ne by done.
    by rewrite list_lookup_alter_ne.
  - rewrite row_at_alter_eq by lia. done.
  - rewrite row_at_alter_eq by lia. done.
  - rewrite list_lookup_alter_eq.
    destruct (lookup_lt_is_Some_2 _ i Hi) as [e He]. rewrite He. done.
Qed.

Lemma eliminate_var_in_row_not_F (ei j : nat) (sign : Z) (i : nat) (s : imp) :
  status_at s i ≠ entry_status.F → eliminate_var_in_row ei j sign i s = s.
Proof.
  intros HF. unfold eliminate_var_in_row, status_at in *.
  by rewrite decide_False.
Qed.

Lemma same_registers_refl (s : imp) : same_registers s s.
Proof. by repeat split. Qed.

Lemma same_registers_trans (s1 s2 s3 : imp) :
  same_registers s1 s2 → same_registers s2 s3 → same_registers s1 s3.
Proof.
  unfold same_registers. intros H12 H23.
  destruct H12 as (?&?&?&?&?&?&?&?&?), H23 as (?&?&?&?&?&?&?&?&?).
  repeat split; congruence.
Qed.

(** The rows after a run of the loop over the rows [l] of a column. *)
Definition eliminated_in (ei j : nat) (sign : Z) (l : list nat)
    (s s' : imp) : Prop :=
  same_registers s s' ∧ rows_aligned s' ∧
  length (m_entries s') = length (m_entries s) ∧
  (∀ k, status_at s' k = status_at s k) ∧
  (∀ k, k ∉ l ∨ status_at s k ≠ entry_status.F →
        row_at (m_e_matrix s') k = row_at (m_e_matrix s) k ∧
        row_at (m_l_matrix s') k = row_at (m_l_matrix s) k ∧
        entry_at s' k = entry_at s k) ∧
  (∀ k, k ∈ l → status_at s k = entry_status.F →
        row_at (m_e_matrix s') k
        = eliminated_row (row_at (m_e_matrix s) ei) j (of_Z sign)
            (row_at (m_e_matrix s) k) ∧
        row_at (m_l_matrix s') k
        = row_add_scaled
            (- of_Z sign * row_coeff j (row_at (m_e_matrix s) k))%Qc
            (row_at (m_l_matrix s) ei) (row_at (m_l_matrix s) k) ∧
        m_c (entry_at s' k)
        = (m_c (entry_at s k)
           - of_Z sign * row_coeff j (row_at (m_e_matrix s) k)
             * m_c (entry_at s ei))%Qc).

Lemma eliminate_fold (ei j : nat) (sign : Z) (l : list nat) (s : imp) :
  NoDup l → ei ∉ l → (∀ i, i ∈ l → i < length (m_entries s)) →
  rows_aligned s →
  eliminated_in ei j sign l s
    (fold_left (λ s i, eliminate_var_in_row ei j sign i s) l s).
Proof.
  revert s. induction l as [|i l IH]; intros s Hnd Hei Hlt Hal; simpl.
  - unfold eliminated_in. split; [apply same_registers_refl|].
    split; [done|]. split; [done|]. split; [done|]. split; [done|].
    intros k Hk. by apply elem_of_nil in Hk.
  - apply NoDup_cons in Hnd as [Hil Hnd].
    apply not_elem_of_cons in Hei as [Hne Hei].
    destruct (decide (status_at s i = entry_status.F)) as [HF|HF].
    + pose proof (eliminate_var_in_row_F ei j sign i s (not_eq_sym Hne) HF
                    (Hlt i ltac:(by left)) Hal)
        as (Hreg & Hal1 & Hlen1 & Hst1 & Hoth1 & HE1 & HL1 & Hc1).
      set (s1 := eliminate_var_in_row ei j sign i s) in *.
      assert (Hlt1 : ∀ k, k ∈ l → k < length (m_entries s1)).
      { intros k Hk. rewrite Hlen1. apply Hlt. by right. }
      destruct (IH s1 Hnd Hei Hlt1 Hal1) as (Hreg2 & Hal2 & Hlen2 & Hst2 & Hoth2 & Hin2).
      split; [by eapply same_registers_trans|].
      split; [done|]. split; [congruence|].
      split; [intros k; by rewrite Hst2, Hst1|]. split.
      * intros k Hk.
        assert (Hk1 : k ∉ l ∨ status_at s1 k ≠ entry_status.F).
        { rewrite Hst1. destruct Hk as [Hk|Hk]; [left|by right].
          intros ?. apply Hk. by right. }
        destruct (Hoth2 k Hk1) as (-> & -> & ->).
        apply Hoth1. intros ->. destruct Hk as [Hk|Hk]; [|done].
        apply Hk. by left.
      * intros k Hk HkF. apply elem_of_cons in Hk as [->|Hk].
        -- destruct (Hoth2 i (or_introl Hil)) as (-> & -> & ->). done.
        -- assert (Hki : k ≠ i) by (intros ->; done).
           rewrite <- Hst1 in HkF.
           destruct (Hin2 k Hk HkF) as (-> & -> & ->).
           destruct (Hoth1 k Hki) as (-> & -> & ->).
           destruct (Hoth1 ei Hne) as (-> & -> & ->). done.
    + rewrite eliminate_var_in_row_not_F by done.
      destruct (IH s Hnd Hei ltac:(intros k ?; apply Hlt; by right) Hal)
        as (Hreg2 & Hal2 & Hlen2 & Hst2 & Hoth2 & Hin2).
      split; [done|]. split; [done|]. split; [done|]. split; [done|]. split.
      * intros k Hk. apply Hoth2. destruct Hk as [Hk|Hk]; [|by right].
        left. intros ?. apply Hk. by right.
      * intros k Hk HkF. apply elem_of_cons in Hk as [->|Hk]; [done|].
        by apply Hin2.
Qed.

Lemma column_spec {V} `{EqDecision V} (j : V) (m : list (list (V * mpq)))
    (i : nat) :
  i ∈ column j m ↔ i < length m ∧ row_has j (row_at m i) = true.
Proof.
  unfold column. rewrite list_elem_of_filter, elem_of_seq. split.
  - intros [? ?]. split; [lia|done].
  - intros [? ?]. split; [done|lia].
Qed.

Lemma column_NoDup {V} `{EqDecision V} (j : V) (m : list (list (V * mpq))) :
  NoDup (column j m).
Proof. unfold column. apply NoDup_filter, NoDup_seq. Qed.

(** After [eliminate_var_in_f(ei, j, sign)] a row of F other than [ei] that
    had a cell of [j] is the eliminated row; the other rows are left as they
    were; no row of F other than [ei] has a cell of [j]. *)
Lemma eliminate_var_in_f_spec (ei j : nat) (sign : Z) (s : imp) :
  rows_aligned s →
  let l := filter (λ i, i ≠ ei) (column j (m_e_matrix s)) in
  eliminated_in ei j sign l s (eliminate_var_in_f ei j sign s).
Proof.
  intros Hal l. unfold eliminate_var_in_f. fold l.
  assert (Hl : ∀ i, i ∈ l → i < length (m_entries s)).
  { intros i [_ [Hi _]%column_spec]%list_elem_of_filter.
    destruct Hal as [<- _]. done. }
  assert (Hnd : NoDup l) by apply NoDup_filter, column_NoDup.
  assert (Hei : ei ∉ l) by (by intros [? _]%list_elem_of_filter).
  pose proof (eliminate_fold ei j sign (reverse l) s) as Hf.
  destruct Hf as (Hreg & Hal' & Hlen & Hst & Hoth & Hin).
  - by rewrite reverse_Permutation.
  - by rewrite elem_of_reverse.
  - intros i. rewrite elem_of_reverse. apply Hl.
  - done.
  - split; [done|]. split; [done|]. split; [done|]. split; [done|]. split.
    + intros k Hk. apply Hoth. by rewrite elem_of_reverse.
    + intros k Hk. apply Hin. by rewrite elem_of_reverse.
Qed.

Lemma eliminate_var_in_f_no_var (ei j : nat) (sign : Z) (s : imp) (k : nat) :
  rows_aligned s →
  k ≠ ei →
  status_at (eliminate_var_in_f ei j sign s) k = entry_status.F →
  row_has j (row_at (m_e_matrix (eliminate_var_in_f ei j sign s)) k) = false.
Proof.
  intros Hal Hk HF.
  destruct (eliminate_var_in_f_spec ei j sign s Hal)
    as (Hreg & Hal' & Hlen & Hst & Hoth & Hin).
  rewrite Hst in HF.
  destruct (decide (k ∈ filter (λ i, i ≠ ei) (column j (m_e_matrix s))))
    as [Hin'|Hnin].
  - destruct (Hin k Hin' HF) as (-> & _). apply eliminated_row_no_var.
  - destruct (Hoth k (or_introl Hnin)) as (-> & _).
    destruct (row_has j (row_at (m_e_matrix s) k)) eqn:Hhas; [|done].
    exfalso. apply Hnin. apply list_elem_of_filter. split; [done|].
    apply column_spec. split; [|done].
    destruct (decide (k < length (m_e_matrix s))); [done|].
    rewrite row_at_ge in Hhas by lia. done.
Qed.

(** ** The fresh-variable step *)

Section work_vector.

Lemma set_value_fold_index (row : list (nat * mpq)) (v0 : indexed_vector) :
  m_index (fold_left (λ v cell, IndexedVector.set_value cell.2 cell.1 v) row v0)
  = m_index v0 ++ row.*1.
Proof.
  revert v0. induction row as [|p row IH]; intros v0; simpl.
  - by rewrite app_nil_r.
  - rewrite IH. simpl. by rewrite <- app_assoc.
Qed.

Lemma set_value_fold_get_other (row : list (nat * mpq)) (v0 : indexed_vector)
    (i : nat) :
  i ∉ row.*1 →
  IndexedVector.get
    (fold_left (λ v cell, IndexedVector.set_value cell.2 cell.1 v) row v0) i
  = IndexedVector.get v0 i.
Proof.
  revert v0. induction row as [|p row IH]; intros v0 Hi; simpl; [done|].
  simpl in Hi. apply not_elem_of_cons in Hi as [Hne Hi].
  rewrite IH by done. unfold IndexedVector.get, IndexedVector.set_value.
  simpl. by rewrite lookup_insert_ne.
Qed.

Lemma set_value_fold_get (row : list (nat * mpq)) (v0 : indexed_vector)
    (p : nat * mpq) :
  NoDup row.*1 → p ∈ row →
  IndexedVector.get
    (fold_left (λ v cell, IndexedVector.set_value cell.2 cell.1 v) row v0) p.1
  = p.2.
Proof.
  revert v0. induction row as [|x row IH]; intros v0 Hnd Hp; simpl.
  - by apply elem_of_nil in Hp.
  - simpl in Hnd. apply NoDup_cons in Hnd as [Hx Hnd].
    apply elem_of_cons in Hp as [->|Hp].
    + rewrite set_value_fold_get_other by done.
      unfold IndexedVector.get, IndexedVector.set_value. simpl.
      by rewrite lookup_insert_eq.
    + by apply IH.
Qed.

End work_vector.

(** The cells the loop of the step adds for the indices [idx]. *)
Definition residual_of (k : nat) (a : mpq) (v : indexed_vector)
    (idx : list nat) : list (nat * mpq) :=
  omap (λ i, if decide (i = k) then None
             else let r := (machine_div_rem (IndexedVector.get v i) a).2 in
                  if is_zero r then None else Some (i, r)) idx.

Definition quotient_of (k : nat) (a : mpq) (v : indexed_vector)
    (idx : list nat) : list (nat * mpq) :=
  omap (λ i, if decide (i = k) then None
             else let q := (machine_div_rem (IndexedVector.get v i) a).1 in
                  if is_zero q then None else Some (i, q)) idx.

Lemma fresh_var_step_cell_spec (h k fr : nat) (a : mpq) (v : indexed_vector)
    (i : nat) (m : list (list (nat * mpq))) :
  h ≠ fr → h < length m → fr < length m →
  let m' := fresh_var_step_cell h k fr a v m i in
  length m' = length m ∧
  row_at m' h = row_at m h ++ residual_of k a v [i] ∧
  row_at m' fr = row_at m fr ++ quotient_of k a v [i] ∧
  ∀ i', i' ≠ h → i' ≠ fr → row_at m' i' = row_at m i'.
Proof.
  intros Hne Hh Hfr. unfold fresh_var_step_cell, residual_of, quotient_of.
  unfold omap, list_omap. destruct (decide (i = k)) as [->|Hik].
  { rewrite !app_nil_r. done. }
  simpl. unfold add_new_element.
  set (q := machine_div (IndexedVector.get v i) a).
  set (r := machine_rem (IndexedVector.get v i) a).
  destruct (is_zero r) eqn:Hr, (is_zero q) eqn:Hq; simpl.
  - rewrite !app_nil_r. done.
  - rewrite length_alter, app_nil_r.
    rewrite row_at_alter_ne by done. rewrite row_at_alter_eq by done.
    repeat split; try done.
    intros i' ? ?. by rewrite row_at_alter_ne.
  - rewrite length_alter, app_nil_r.
    rewrite row_at_alter_eq by done. rewrite row_at_alter_ne by done.
    repeat split; try done.
    intros i' ? ?. by rewrite row_at_alter_ne.
  - rewrite !length_alter.
    rewrite row_at_alter_ne by done. rewrite row_at_alter_eq by done.
    rewrite row_at_alter_eq by (by rewrite length_alter).
    rewrite row_at_alter_ne by done.
    repeat split; try done.
    intros i' ? ?. by rewrite !row_at_alter_ne.
Qed.

Lemma fresh_var_step_cells_fold (h k fr : nat) (a : mpq) (v : indexed_vector)
    (idx : list nat) (m : list (list (nat * mpq))) :
  h ≠ fr → h < length m → fr < length m →
  let m' := fold_left (fresh_var_step_cell h k fr a v) idx m in
  length m' = length m ∧
  row_at m' h = row_at m h ++ residual_of k a v idx ∧
  row_at m' fr = row_at m fr ++ quotient_of k a v idx ∧
  ∀ i, i ≠ h → i ≠ fr → row_at m' i = row_at m i.
Proof.
  intros Hne. revert m. induction idx as [|i idx IH]; intros m Hh Hfr.
  - simpl. rewrite !app_nil_r. done.
  - destruct (fresh_var_step_cell_spec h k fr a v i m Hne Hh Hfr)
      as (Hl1 & Hh1 & Hfr1 & Ho1).
    simpl fold_left.
    destruct (IH (fresh_var_step_cell h k fr a v m i) ltac:(lia) ltac:(lia))
      as (Hl2 & Hh2 & Hfr2 & Ho2).
    split; [lia|]. split; [|split].
    + rewrite Hh2, Hh1, <- app_assoc. f_equal. unfold residual_of. simpl.
      destruct (decide _); [done|]. by destruct (is_zero _).
    + rewrite Hfr2, Hfr1, <- app_assoc. f_equal. unfold quotient_of. simpl.
      destruct (decide _); [done|]. by destruct (is_zero _).
    + intros i' ? ?. rewrite Ho2, Ho1; done.
Qed.

Lemma residual_of_row (k : nat) (a : mpq) (v : indexed_vector)
    (row : list (nat * mpq)) :
  (∀ p, p ∈ row → IndexedVector.get v p.1 = p.2) →
  residual_of k a v row.*1 = residual_cells k a row.
Proof.
  unfold residual_of, residual_cells.
  induction row as [|p row IH]; intros Hv; csimpl in *; [done|].
  rewrite (Hv p) by by left.
  rewrite IH by (intros; apply Hv; by right). done.
Qed.

Lemma quotient_of_row (k : nat) (a : mpq) (v : indexed_vector)
    (row : list (nat * mpq)) :
  (∀ p, p ∈ row → IndexedVector.get v p.1 = p.2) →
  quotient_of k a v row.*1 = quotient_cells k a row.
Proof.
  unfold quotient_of, quotient_cells.
  induction row as [|p row IH]; intros Hv; csimpl in *; [done|].
  rewrite (Hv p) by by left.
  rewrite IH by (intros; apply Hv; by right). done.
Qed.

Lemma add_var_fresh (r : list N) :
  VarRegister.add_var UINT_MAX r = (length r, r ++ [UINT_MAX]).
Proof. unfold VarRegister.add_var. by rewrite decide_True. Qed.

Lemma residual_of_no_var (k : nat) (a : mpq) (v : indexed_vector)
    (idx : list nat) (p : nat * mpq) :
  p ∈ residual_of k a v idx → p.1 ≠ k.
Proof.
  unfold residual_of. intros (i & _ & Hp)%list_elem_of_omap.
  destruct (decide (i = k)); [done|].
  destruct (is_zero _); [done|]. by injection Hp as <-.
Qed.

Lemma fresh_var_step_define_spec (h k : nat) (a : mpq) (s : imp) :
  rows_aligned s → h < length (m_entries s) →
  ∃ res quo,
    fresh_defined h k a s (fresh_var_step_define h k a s).1
      (fresh_var_step_define h k a s).2 res quo.
Proof.
  intros [HaE HaL] Hh.
  unfold fresh_var_step_define, move_row_to_work_vector.
  cbn [m_var_register set_m_e_matrix set_m_indexed_work_vector].
  rewrite add_var_fresh. cbn.
  unfold fresh_defined, rows_aligned, entry_at, status_at. cbn.
  set (row := row_at (m_e_matrix s) h).
  set (v := fold_left
              (λ (v : indexed_vector) (cell : nat * mpq),
                 IndexedVector.set_value cell.2 cell.1 v) row
              (IndexedVector.resize (m_e_columns s)
                 (IndexedVector.clear (m_indexed_work_vector s)))).
  set (xt := length (m_var_register s)).
  assert (Hn : length (clear_row h (m_e_matrix s)) = length (m_e_matrix s))
    by (unfold clear_row; by rewrite length_alter).
  rewrite Hn. set (n := length (m_e_matrix s)) in *.
  set (E0 := alter (λ r : list (nat * mpq), r ++ [(k, 1%Qc)]) n
               (alter (λ r : list (nat * mpq), r ++ [(xt, (-1)%Qc)]) n
                  (add_new_element h xt a (clear_row h (m_e_matrix s) ++ [[]])))).
  assert (HhE : h < n) by (unfold n; lia).
  assert (HlE0 : length E0 = Datatypes.S n).
  { unfold E0, add_new_element. rewrite !length_alter, length_app, Hn.
    simpl. unfold n. lia. }
  assert (HE0h : row_at E0 h = [(xt, a)]).
  { unfold E0, add_new_element. rewrite !row_at_alter_ne by lia.
    rewrite row_at_alter_eq by (rewrite length_app, Hn; unfold n; lia).
    rewrite row_at_app_l by (rewrite Hn; done).
    unfold clear_row. rewrite row_at_alter_eq by done. done. }
  assert (HE0n : row_at E0 n = [(xt, (-1)%Qc); (k, 1%Qc)]).
  { unfold E0, add_new_element.
    rewrite row_at_alter_eq
      by (rewrite !length_alter, length_app, Hn; simpl; unfold n; lia).
    rewrite row_at_alter_eq
      by (rewrite !length_alter, length_app, Hn; simpl; unfold n; lia).
    rewrite row_at_alter_ne by lia.
    rewrite <- Hn. fold (add_row (clear_row h (m_e_matrix s))).
    rewrite row_at_add_row_new. done. }
  assert (HE0o : ∀ i, i ≠ h → i ≠ n → row_at E0 i = row_at (m_e_matrix s) i).
  { intros i Hih Hin. unfold E0, add_new_element.
    rewrite !row_at_alter_ne by lia.
    destruct (decide (i < n)) as [Hlt|Hge].
    - rewrite row_at_app_l by (rewrite Hn; done).
      unfold clear_row. by rewrite row_at_alter_ne.
    - rewrite !row_at_ge; [done|unfold n in *; lia|].
      unfold add_row. rewrite length_app, Hn. simpl. unfold n in *. lia. }
  destruct (fresh_var_step_cells_fold h k n a v (m_index v) E0
              ltac:(lia) ltac:(lia) ltac:(lia)) as (Hl & Hrh & Hrn & Hro).
  assert (Hidx : m_index v = row.*1).
  { unfold v. by rewrite set_value_fold_index. }
  rewrite Hidx in *.
  destruct (lookup_lt_is_Some_2 _ h Hh) as [eh Heh].
  exists (residual_of k a v row.*1), (quotient_of k a v row.*1).
  split; [done|]. split; [done|].
  split.
  { rewrite Hl, HlE0, !length_app, length_alter. simpl. unfold n. lia. }
  split.
  { rewrite length_app, length_alter. simpl. lia. }
  split.
  { intros Hnd.
    assert (Hget : ∀ p, p ∈ row → IndexedVector.get v p.1 = p.2).
    { intros p Hp. unfold v. by apply set_value_fold_get. }
    by rewrite residual_of_row, quotient_of_row. }
  split; [apply residual_of_no_var|].
  split; [by rewrite Hrh, HE0h|].
  split; [by rewrite Hrn, HE0n|].
  split.
  { intros i ? ?. rewrite Hro by done. by apply HE0o. }
  split.
  { intros i Hin. destruct (decide (i < n)) as [Hlt|Hge].
    - rewrite row_at_app_l; [done|unfold n in *; lia].
    - rewrite !row_at_ge; [done|unfold n in *; lia|].
      rewrite length_app. simpl. unfold n in *. lia. }
  split.
  { replace n with (length (m_l_matrix s)) by (unfold n; lia).
    apply row_at_add_row_new. }
  split.
  { rewrite lookup_app_l by (rewrite length_alter; done).
    rewrite list_lookup_alter_eq. unfold entry_at. rewrite Heh. done. }
  split.
  { rewrite lookup_app_r by (rewrite length_alter; unfold n; lia).
    rewrite length_alter. replace (n - length (m_entries s)) with 0
      by (unfold n; lia). done. }
  split.
  { intros i Hih Hin. destruct (decide (i < n)) as [Hlt|Hge].
    - rewrite lookup_app_l by (rewrite length_alter; unfold n in *; lia).
      by rewrite list_lookup_alter_ne.
    - rewrite !lookup_ge_None_2; [done|unfold n in *; lia|].
      rewrite length_app, length_alter. simpl. unfold n in *. lia. }
  done.
Qed.

Lemma length_resize {A} (n : nat) (v : A) (l : list A) :
  length (resize n v l) = n.
Proof.
  unfold resize. rewrite length_app, length_take, length_replicate. lia.
Qed.

Lemma abs_sign (q : mpq) : q = (abs q * of_Z (sign_of q))%Qc.
Proof.
  unfold abs, sign_of, is_pos, of_Z.
  destruct (Qclt_le_dec 0 q) as [Hpos|Hneg].
  - rewrite bool_decide_eq_true_2 by done.
    rewrite Qcabs_pos by by apply Qclt_le_weak.
    rewrite Qc_of_Z_1. ring.
  - rewrite bool_decide_eq_false_2 by by apply Qcle_not_lt.
    rewrite Qcabs_neg by done.
    replace (Qc_of_Z (-1)) with (- (1))%Qc
      by (rewrite <- Qc_of_Z_1, <- Qc_of_Z_opp; done).
    ring.
Qed.

(** C4.  Let [h] be a row of F with non-zero integer coefficients over
    registered variables, no variable twice, and an integer constant, and let
    [find_minimal_abs_coeff] return for it the least absolute coefficient
    [ahk > 1] at the variable [k] with the sign [k_sign]; [a = ahk * k_sign]
    is the coefficient of [k] in the row.  Every coefficient [b] of the row
    and the constant are split by the machine division, [b = q * a + r].
    [fresh_var_step] allocates the fresh local [xt] and the row [fr]; then
    [E[h]] is [a * xt] and the residuals [r_i * x_i], [E[fr]] is
    [-xt + k] and the quotients [q_i * x_i], the constants are [r_c] and
    [q_c], the row [fr] has the status [NO_S_NO_F] and an empty row in L,
    [subst[k]] is [fr] and the definition of [xt] is [(fr, h)].  Then [k] is
    eliminated from the rows of F: no row of F has a cell of [k] afterwards,
    and a row [i] of F that held [k] with the coefficient [c] became
    [row_i - c * E[fr]], with [c_i - c * q_c] and its row of L plus
    [-c * L[fr]]. *)
Theorem fresh_var_step_spec (s : imp) (h : nat) (ahk : mpq) (k : nat)
    (k_sign : Z) :
  rows_aligned s →
  h < length (m_entries s) →
  status_at s h = entry_status.F →
  row_at (m_e_matrix s) h ≠ [] →
  NoDup (row_at (m_e_matrix s) h).*1 →
  Forall (λ p : nat * mpq, is_int p.2 = true ∧ p.2 ≠ 0%Qc
                           ∧ p.1 < length (m_var_register s))
    (row_at (m_e_matrix s) h) →
  is_int (m_c (entry_at s h)) = true →
  find_minimal_abs_coeff s h = (ahk, k, k_sign) →
  (1 < ahk)%Qc →
  let a := (ahk * of_Z k_sign)%Qc in
  let xt := length (m_var_register s) in
  let fr := length (m_e_matrix s) in
  let row := row_at (m_e_matrix s) h in
  let c_h := m_c (entry_at s h) in
  let s' := fresh_var_step h k a s in
  (k, a) ∈ row ∧
  (∀ p, p ∈ row → p.2 = (machine_div p.2 a * a + machine_rem p.2 a)%Qc) ∧
  c_h = (machine_div c_h a * a + machine_rem c_h a)%Qc ∧
  m_var_register s' = m_var_register s ++ [UINT_MAX] ∧
  is_fresh_var s' xt = true ∧
  row_at (m_e_matrix s') h = (xt, a) :: residual_cells k a row ∧
  row_at (m_e_matrix s') fr
  = (xt, (-1)%Qc) :: (k, 1%Qc) :: quotient_cells k a row ∧
  entry_at s' h = {| m_c := machine_rem c_h a;
                     m_entry_status := entry_status.F |} ∧
  entry_at s' fr = {| m_c := machine_div c_h a;
                      m_entry_status := entry_status.NO_S_NO_F |} ∧
  row_at (m_l_matrix s') fr = [] ∧
  m_k2s s' !! k = Some (Some fr) ∧
  m_fresh_definitions s' !! xt
  = Some {| m_ei := Some fr; m_origin := Some h |} ∧
  (∀ i, i ≠ fr → status_at s' i = entry_status.F →
        row_has k (row_at (m_e_matrix s') i) = false) ∧
  (∀ i, i ≠ h → i < fr → status_at s i = entry_status.F →
        row_has k (row_at (m_e_matrix s) i) = true →
        let c := row_coeff k (row_at (m_e_matrix s) i) in
        row_at (m_e_matrix s') i
        = eliminated_row (row_at (m_e_matrix s') fr) k 1%Qc
            (row_at (m_e_matrix s) i) ∧
        m_c (entry_at s' i)
        = (m_c (entry_at s i) - 1 * c * machine_div c_h a)%Qc ∧
        row_at (m_l_matrix s') i
        = row_add_scaled (- (1) * c)%Qc (row_at (m_l_matrix s') fr)
            (row_at (m_l_matrix s) i)) ∧
  (∀ i, i ≠ h → i < fr →
        (status_at s i ≠ entry_status.F
         ∨ row_has k (row_at (m_e_matrix s) i) = false) →
        row_at (m_e_matrix s') i = row_at (m_e_matrix s) i ∧
        entry_at s' i = entry_at s i ∧
        row_at (m_l_matrix s') i = row_at (m_l_matrix s) i).
Proof.
  intros Hal Hh HF Hne Hnd Hrow Hc Hmin Hahk a xt fr row c_h s'.
  (* the pivot is a cell of the row *)
  assert (Hrow' : Forall (λ p : nat * mpq, is_int p.2 = true ∧ p.2 ≠ 0%Qc) row).
  { eapply Forall_impl; [exact Hrow|]. by intros p (? & ? & ?). }
  destruct (find_minimal_abs_coeff_pivot s h Hne Hrow') as ((b & Hb & Hab & Hsg) & _).
  rewrite Hmin in Hb, Hab, Hsg. simpl in Hb, Hab, Hsg.
  assert (Hba : b = a).
  { unfold a. rewrite <- Hab, Hsg. apply abs_sign. }
  subst b.
  assert (Ha_int : is_int a = true).
  { rewrite Forall_forall in Hrow. by destruct (Hrow _ Hb) as (? & _). }
  assert (Ha_nz : a ≠ 0%Qc).
  { rewrite Forall_forall in Hrow. by destruct (Hrow _ Hb) as (_ & ? & _). }
  assert (Hk_reg : k < xt).
  { rewrite Forall_forall in Hrow. by destruct (Hrow _ Hb) as (_ & _ & ?). }
  split; [done|]. split.
  { intros p Hp. rewrite Forall_forall in Hrow.
    destruct (Hrow _ Hp) as (? & _).
    by apply (machine_div_rem_split p.2 a). }
  split; [by apply (machine_div_rem_split c_h a)|].
  (* the state before the elimination *)
  destruct (fresh_var_step_define_spec h k a s Hal Hh) as (res & quo & Hdef).
  subst s'. unfold fresh_var_step.
  destruct (fresh_var_step_define h k a s) as [fr' s1]. simpl in Hdef.
  destruct Hdef as (Hfr' & Hreg & Hal1 & Hlen1 & Hcells & Hres & Hrh & Hrfr
                    & Hro & HLo & HLfr & Heh & Hefr & Heo & Hk2s & Hfd & _).
  destruct (Hcells Hnd) as [-> ->].
  change (fr' = fr) in Hfr'. subst fr'.
  fold xt row c_h in Hrh, Hrfr, Hro, HLo, HLfr, Heh, Hefr, Heo, Hk2s, Hfd.
  assert (HhE : h < fr) by (unfold fr; destruct Hal as [? _]; lia).
  (* the elimination *)
  destruct (eliminate_var_in_f_spec fr k 1 s1 Hal1)
    as (Hsame & Hal2 & Hlen2 & Hst2 & Hoth & Hin).
  set (l := filter (λ i, i ≠ fr) (column k (m_e_matrix s1))) in *.
  set (s2 := eliminate_var_in_f fr k 1 s1) in *.
  destruct Hsame as (HregS & Hk2sS & HfdS & _).
  assert (Hh_notin : h ∉ l).
  { intros [_ [_ Hhas]%column_spec]%list_elem_of_filter.
    rewrite Hrh in Hhas. apply row_has_true in Hhas as [x Hx].
    apply elem_of_cons in Hx as [[= Hx _]|Hx]; [lia|].
    by apply Hres in Hx. }
  assert (Hfr_notin : fr ∉ l) by (by intros [? _]%list_elem_of_filter).
  destruct (Hoth h (or_introl Hh_notin)) as (HEh2 & HLh2 & Hent_h2).
  destruct (Hoth fr (or_introl Hfr_notin)) as (HEfr2 & HLfr2 & Hent_fr2).
  split; [by rewrite HregS|]. split.
  { unfold is_fresh_var, local_to_lar_solver, VarRegister.local_to_external.
    rewrite HregS, Hreg. rewrite lookup_app_r by done.
    fold xt. rewrite Nat.sub_diag. by apply bool_decide_eq_true. }
  split; [by rewrite HEh2|]. split; [by rewrite HEfr2|].
  split; [by rewrite Hent_h2, Heh, HF|]. split; [by rewrite Hent_fr2|].
  split; [by rewrite HLfr2|]. split.
  { rewrite Hk2sS, Hk2s. apply list_lookup_insert_eq.
    rewrite length_resize. lia. }
  split.
  { rewrite HfdS, Hfd. apply list_lookup_insert_eq.
    rewrite length_resize. lia. }
  assert (Hst1 : ∀ i, i ≠ fr → status_at s1 i = status_at s i).
  { intros i Hi. unfold status_at. destruct (decide (i = h)) as [->|Hih].
    - by rewrite Heh.
    - by rewrite Heo. }
  split.
  { intros i Hi HiF. by apply eliminate_var_in_f_no_var. }
  split.
  - intros i Hih Hifr HiF Hhas.
    assert (Hil : i ∈ l).
    { apply list_elem_of_filter. split; [lia|]. apply column_spec.
      split; [destruct Hal1 as [? _], Hal as [? _]; unfold fr in *; lia|].
      rewrite (Hro i) by (done || lia). done. }
    assert (HiF1 : status_at s1 i = entry_status.F)
      by (rewrite Hst1 by lia; done).
    destruct (Hin i Hil HiF1) as (HE & HL & Hci).
    rewrite HE, HL, Hci, HEfr2, HLfr2.
    rewrite (Hro i), (HLo i), (Heo i), Hefr by (done || lia). simpl.
    replace (of_Z 1) with 1%Qc by (symmetry; apply Qc_of_Z_1).
    done.
  - intros i Hih Hifr Hcase.
    assert (Hcase' : i ∉ l ∨ status_at s1 i ≠ entry_status.F).
    { destruct Hcase as [HnF|Hno].
      - right. by rewrite Hst1 by lia.
      - left. intros [_ [_ Hhas]%column_spec]%list_elem_of_filter.
        rewrite (Hro i) in Hhas by (done || lia). congruence. }
    destruct (Hoth i Hcase') as (-> & -> & ->).
    rewrite (Hro i), (HLo i), (Heo i) by (done || lia). done.
Qed.

Lemma fresh_var_step_spec_witness :
  let r := find_minimal_abs_coeff fresh_example 0 in
  let a := (r.1.1 * of_Z r.2)%Qc in
  let s' := fresh_var_step 0 r.1.2 a fresh_example in
  (1 < r.1.1)%Qc ∧
  row_at (m_e_matrix s') 0
  = (2, a) :: residual_cells r.1.2 a (row_at (m_e_matrix fresh_example) 0) ∧
  row_at (m_e_matrix s') 1
  = (2, (-1)%Qc) :: (r.1.2, 1%Qc)
      :: quotient_cells r.1.2 a (row_at (m_e_matrix fresh_example) 0) ∧
  m_k2s s' !! r.1.2 = Some (Some 1) ∧
  m_fresh_definitions s' !! 2 = Some {| m_ei := Some 1; m_origin := Some 0 |}.
Proof.
  intros r a s'.
  assert (H1 : (1 < r.1.1)%Qc) by by_compute.
  split; [exact H1|].
  assert (Hal : rows_aligned fresh_example) by (split; reflexivity).
  assert (Hh : 0 < length (m_entries fresh_example)) by (vm_compute; lia).
  assert (HF : status_at fresh_example 0 = entry_status.F) by reflexivity.
  assert (Hne : row_at (m_e_matrix fresh_example) 0 ≠ []) by by_compute.
  assert (Hnd : NoDup (row_at (m_e_matrix fresh_example) 0).*1) by by_compute.
  assert (Hrow : Forall (λ p : nat * mpq,
                           is_int p.2 = true ∧ p.2 ≠ 0%Qc
                           ∧ p.1 < length (m_var_register fresh_example))
                   (row_at (m_e_matrix fresh_example) 0)) by by_compute.
  assert (Hc : is_int (m_c (entry_at fresh_example 0)) = true) by reflexivity.
  assert (Hmin : find_minimal_abs_coeff fresh_example 0 = (r.1.1, r.1.2, r.2))
    by (subst r; by destruct (find_minimal_abs_coeff _ _) as [[? ?] ?]).
  pose proof (fresh_var_step_spec fresh_example 0 r.1.1 r.1.2 r.2
                Hal Hh HF Hne Hnd Hrow Hc Hmin H1)
    as (_ & _ & _ & _ & _ & Hrh & Hrfr & _ & _ & _ & Hk2s & Hfd & _).
  repeat split; assumption.
Defined.

(** ** The substitution index *)

Lemma lookup_resize {A} (n : nat) (v : A) (l : list A) (j : nat) (x : A) :
  resize n v l !! j = Some x → x = v ∨ l !! j = Some x.
Proof.
  unfold resize. intros Hj. apply lookup_app_Some in Hj as [Hj|[_ Hj]].
  - right. apply lookup_take_Some in Hj as [? _]. done.
  - left. apply lookup_replicate in Hj as [? _]. done.
Qed.

Lemma lookup_insert_resize (k i : nat) (l : list (option nat)) (j : nat)
    (x : nat) :
  <[k := Some i]> (resize (k + 1) None l) !! j = Some (Some x) →
  (j = k ∧ x = i) ∨ (j ≠ k ∧ l !! j = Some (Some x)).
Proof.
  destruct (decide (j = k)) as [->|Hne].
  - rewrite list_lookup_insert_eq by (rewrite length_resize; lia).
    intros [= ->]. by left.
  - rewrite list_lookup_insert_ne by done.
    intros [?|?]%lookup_resize; [done|]. by right.
Qed.

Lemma find_minimal_abs_coeff_loop_cell (row pre : list (nat * mpq))
    (first : bool) (ahk : mpq) (k : nat) (k_sign : Z) :
  (first = false → ∃ a, (k, a) ∈ pre ∧ abs a = ahk ∧ k_sign = sign_of a) →
  (first = true → row ≠ []) →
  let r := find_minimal_abs_coeff_loop row first ahk k k_sign in
  ∃ a, (r.1.2, a) ∈ pre ++ row ∧ abs a = r.1.1 ∧ r.2 = sign_of a.
Proof.
  revert pre first ahk k k_sign.
  induction row as [|p row IH]; intros pre first ahk k k_sign Hinv Hne; simpl.
  - destruct first; [by destruct Hne|]. rewrite app_nil_r. by apply Hinv.
  - assert (Hp : ∃ a, (p.1, a) ∈ pre ++ [p] ∧ abs a = abs p.2
                      ∧ sign_of p.2 = sign_of a).
    { exists p.2. split; [|done]. apply elem_of_app. right.
      apply list_elem_of_singleton. by destruct p. }
    replace (pre ++ p :: row) with ((pre ++ [p]) ++ row)
      by by rewrite <- app_assoc.
    destruct (first || _ || _) eqn:Hcond.
    + destruct (is_one (abs p.2)).
      * simpl. destruct Hp as (a & Ha & ? & ?). exists a.
        split; [|done]. apply elem_of_app. by left.
      * apply IH; [|done]. intros _. exact Hp.
    + destruct first; [done|]. apply IH; [|done].
      intros _. destruct (Hinv eq_refl) as (a & Ha & ? & ?). exists a.
      split; [|done]. apply elem_of_app. by left.
Qed.

Lemma find_minimal_abs_coeff_cell (s : imp) (h : nat) :
  row_at (m_e_matrix s) h ≠ [] →
  let r := find_minimal_abs_coeff s h in
  ∃ a, (r.1.2, a) ∈ row_at (m_e_matrix s) h ∧ abs a = r.1.1
       ∧ r.2 = sign_of a.
Proof.
  intros Hne. unfold find_minimal_abs_coeff.
  by apply (find_minimal_abs_coeff_loop_cell _ [] true).
Qed.

Lemma abs_one_cases (a : mpq) : abs a = 1%Qc → a = 1%Qc ∨ a = (-1)%Qc.
Proof.
  unfold abs. intros Ha. destruct (Qclt_le_dec a 0) as [Hneg|Hpos].
  - right. rewrite Qcabs_neg in Ha by by apply Qclt_le_weak.
    rewrite <- Ha. ring.
  - left. by rewrite Qcabs_pos in Ha.
Qed.

(** The scan of F leaves a suffix of the list, and the row it returns is a
    row of that suffix that is not empty. *)
Lemma rewrite_eqs_scan_spec (s : imp) (f : list nat) :
  let r := rewrite_eqs_scan s f in
  (∀ i, i ∈ r.1 → i ∈ f) ∧
  (∀ h, r.2.2 = Some h → h ∈ r.1 ∧ row_at (m_e_matrix s) h ≠ []
                         ∧ r.2.1 = None) ∧
  (r.2.2 = None ∧ r.2.1 = None → r.1 = []).
Proof.
  induction f as [|i f IH]; simpl.
  - split; [done|]. split; [done|]. done.
  - destruct (bool_decide (length (row_at (m_e_matrix s) i) = 0)) eqn:Hlen.
    + destruct (is_zero (m_c (entry_at s i))).
      * destruct IH as (Hsub & Hh & Hn). split; [|split; [exact Hh|exact Hn]].
        intros x Hx. right. by apply Hsub.
      * simpl. split; [done|]. split; [done|]. by intros [? ?].
    + simpl. apply bool_decide_eq_false in Hlen.
      split; [done|]. split; [|by intros [? ?]].
      intros h [= <-]. split; [by left|]. split; [|done].
      intros Hr. by rewrite Hr in Hlen.
Qed.

Lemma move_entry_from_f_to_s_spec (k h : nat) (s : imp) :
  h < length (m_entries s) →
  let s1 := move_entry_from_f_to_s k h s in
  m_e_matrix s1 = m_e_matrix s ∧ m_l_matrix s1 = m_l_matrix s ∧
  length (m_entries s1) = length (m_entries s) ∧
  (∀ i, status_at s1 i
        = if decide (i = h) then entry_status.S else status_at s i) ∧
  m_f s1 = list_remove h (m_f s) ∧
  m_k2s s1 !! k = Some (Some h) ∧
  (∀ j x, m_k2s s1 !! j = Some (Some x) →
          (j = k ∧ x = h) ∨ (j ≠ k ∧ m_k2s s !! j = Some (Some x))).
Proof.
  intros Hh. unfold move_entry_from_f_to_s. cbn.
  split; [by destruct (decide _)|]. split; [by destruct (decide _)|].
  split; [destruct (decide _); cbn; by rewrite length_alter|].
  split.
  { intros i. unfold status_at, entry_at.
    destruct (decide (length (m_k2s s) ≤ k)); cbn.
    all: destruct (decide (i = h)) as [->|Hne];
      [rewrite list_lookup_alter_eq;
       destruct (lookup_lt_is_Some_2 _ h Hh) as [e ->]; done
      |by rewrite list_lookup_alter_ne]. }
  split; [by destruct (decide _)|].
  destruct (decide (length (m_k2s s) ≤ k)) as [Hle|Hgt]; cbn.
  - split.
    + apply list_lookup_insert_eq. rewrite length_resize. lia.
    + intros j x. apply lookup_insert_resize.
  - split.
    + apply list_lookup_insert_eq. lia.
    + intros j x. destruct (decide (j = k)) as [->|Hne].
      * rewrite list_lookup_insert_eq by lia. intros [= ->]. by left.
      * rewrite list_lookup_insert_ne by done. by right.
Qed.

Lemma unit_cell_in_range (s : imp) (k i : nat) :
  unit_cell_of k (row_at (m_e_matrix s) i) → i < length (m_e_matrix s).
Proof.
  intros (a & Ha & _). destruct (decide (i < length (m_e_matrix s))); [done|].
  rewrite row_at_ge in Ha by lia. by apply elem_of_nil in Ha.
Qed.

(** What a rewrite step keeps, from a state that has it, for every variable
    [k] whose [subst[k] = i] is defined: the row [i] of E holds [k] with the
    coefficient 1 or -1, and the row [i] is not a row of F: it has the status
    S, or the status NO_S_NO_F when it defines a fresh variable.  The step
    that takes the pivot [k] in the row [h] defines [subst[k]]: as [h], which
    becomes a row of S, when the least absolute coefficient is one, and as
    the new row of the fresh definition otherwise; and right after the step
    no row of F holds [k].  (The rows of S are not rewritten: another row of
    S may hold [k].) *)
Lemma substitution_rows_rewrite_eqs (s : imp) :
  rows_aligned s → f_list_ok s → substitution_rows s →
  let s' := rewrite_eqs s in
  rows_aligned s' ∧ f_list_ok s' ∧ substitution_rows s' ∧
  ∀ h ahk k k_sign,
    (rewrite_eqs_scan s (m_f s)).2 = (None, Some h) →
    find_minimal_abs_coeff s h = (ahk, k, k_sign) →
    ∃ i, m_k2s s' !! k = Some (Some i) ∧
         (if is_one ahk
          then i = h ∧ status_at s' i = entry_status.S
          else i = length (m_e_matrix s)
               ∧ status_at s' i = entry_status.NO_S_NO_F) ∧
         ∀ i', i' ≠ i → status_at s' i' = entry_status.F →
               row_has k (row_at (m_e_matrix s') i') = false.
Proof.
  intros Hal Hf Hsub s'. subst s'. unfold rewrite_eqs.
  pose proof (rewrite_eqs_scan_spec s (m_f s)) as (Hscan_sub & Hscan_h & _).
  destruct (rewrite_eqs_scan s (m_f s)) as [f [conflict oh]]. simpl in *.
  destruct conflict as [ci|].
  { (* a conflict: only the list and the conflict index change *)
    split; [done|]. split; [|split].
    - intros i Hi. cbn in Hi. by apply Hf, Hscan_sub.
    - done.
    - by intros h ahk k k_sign [=]. }
  destruct oh as [h|]; last first.
  { split; [done|]. split; [|split].
    - intros i Hi. cbn in Hi. by apply Hf, Hscan_sub.
    - done.
    - by intros h ahk k k_sign [=]. }
  destruct (Hscan_h h eq_refl) as (Hhf & Hrow_ne & _).
  destruct (Hf h (Hscan_sub h Hhf)) as [Hh HhF].
  set (s0 := set_m_f f s).
  assert (Hal0 : rows_aligned s0) by done.
  assert (Hmf0 : m_f s0 = f) by done.
  pose proof (find_minimal_abs_coeff_cell s h Hrow_ne) as (a & Ha & Habs & Hsg).
  change (find_minimal_abs_coeff s0 h) with (find_minimal_abs_coeff s h).
  destruct (find_minimal_abs_coeff s h) as [[ahk k] k_sign] eqn:Hmin.
  simpl in Ha, Habs, Hsg.
  destruct (is_one ahk) eqn:Hone.
  - (* the row is promoted to S *)
    apply is_one_true in Hone.
    pose proof (move_entry_from_f_to_s_spec k h s0 Hh)
      as (HE1 & HL1 & Hlen1 & Hst1 & Hf1 & Hk1 & Hk1').
    set (s1 := move_entry_from_f_to_s k h s0) in *.
    assert (Hal1 : rows_aligned s1).
    { unfold rows_aligned. rewrite HE1, HL1, Hlen1. done. }
    destruct (eliminate_var_in_f_spec h k k_sign s1 Hal1)
      as (Hsame & Hal2 & Hlen2 & Hst2 & Hoth & Hin).
    set (s2 := eliminate_var_in_f h k k_sign s1) in *.
    destruct Hsame as (_ & Hk2s2 & _ & Hf2 & _).
    assert (Hkeep : ∀ i, status_at s i ≠ entry_status.F ∨ i = h →
                         row_at (m_e_matrix s2) i = row_at (m_e_matrix s) i).
    { intros i Hi.
      assert (Hi1 : i ∉ filter (λ i, i ≠ h) (column k (m_e_matrix s1))
                    ∨ status_at s1 i ≠ entry_status.F).
      { destruct Hi as [Hi| ->].
        - right. rewrite Hst1. by destruct (decide _).
        - left. by intros [? _]%list_elem_of_filter. }
      destruct (Hoth i Hi1) as (-> & _). by rewrite HE1. }
    split; [done|]. split; [|split].
    + intros i Hi. rewrite Hf2, Hf1, Hmf0 in Hi.
      apply list_elem_of_filter in Hi as [Hih Hi].
      destruct (Hf i (Hscan_sub i Hi)) as [? ?].
      split; [by rewrite Hlen2, Hlen1|].
      rewrite Hst2, Hst1. by rewrite decide_False.
    + intros k' i Hk'. rewrite Hk2s2 in Hk'.
      apply Hk1' in Hk' as [[-> ->]|[Hne Hk']].
      * split.
        -- exists a. rewrite Hkeep by by right.
           split; [done|]. apply abs_one_cases. congruence.
        -- left. rewrite Hst2, Hst1. by rewrite decide_True.
      * destruct (Hsub k' i Hk') as [Hcell Hst]. split.
        -- rewrite Hkeep; [done|]. left. by destruct Hst as [-> | ->].
        -- rewrite Hst2, Hst1. destruct (decide (i = h)); [by left|done].
    + intros h' ahk' k' k_sign' [= <-] Hmin'.
      rewrite Hmin in Hmin'. injection Hmin' as <- <- <-.
      rewrite (proj2 (is_one_true _) Hone).
      exists h. split; [by rewrite Hk2s2|]. split.
      * split; [done|]. rewrite Hst2, Hst1. by rewrite decide_True.
      * intros i' Hi' HF'. by apply eliminate_var_in_f_no_var.
  - (* a fresh variable is introduced *)
    apply is_one_false in Hone.
    set (a' := (ahk * of_Z k_sign)%Qc).
    destruct (fresh_var_step_define_spec h k a' s0 Hal0 Hh)
      as (res & quo & Hdef).
    unfold fresh_var_step.
    destruct (fresh_var_step_define h k a' s0) as [fr s1]. simpl in Hdef.
    destruct Hdef as (-> & Hreg & Hal1 & Hlen1 & _ & Hres & Hrh & Hrfr
                      & Hro & HLo & HLfr & Heh & Hefr & Heo & Hk2s & Hfd
                      & Hf1 & _).
    change (m_e_matrix s0) with (m_e_matrix s) in *.
    change (m_entries s0) with (m_entries s) in *.
    change (m_k2s s0) with (m_k2s s) in *.
    set (fr := length (m_e_matrix s)) in *.
    assert (Hfr : fr = length (m_entries s)) by (unfold fr; by destruct Hal).
    destruct (eliminate_var_in_f_spec fr k 1 s1 Hal1)
      as (Hsame & Hal2 & Hlen2 & Hst2 & Hoth & Hin).
    set (s2 := eliminate_var_in_f fr k 1 s1) in *.
    destruct Hsame as (_ & Hk2s2 & _ & Hf2 & _).
    assert (Hst1 : ∀ i, i ≠ fr → status_at s1 i = status_at s i).
    { intros i Hi. unfold status_at. destruct (decide (i = h)) as [->|Hih].
      - by rewrite Heh.
      - by rewrite Heo. }
    assert (Hstfr : status_at s2 fr = entry_status.NO_S_NO_F).
    { rewrite Hst2. unfold status_at. by rewrite Hefr. }
    assert (Hkeepfr : row_at (m_e_matrix s2) fr = row_at (m_e_matrix s1) fr).
    { apply Hoth. left. by intros [? _]%list_elem_of_filter. }
    split; [done|]. split; [|split].
    + intros i Hi. rewrite Hf2, Hf1 in Hi. change (m_f s0) with f in Hi.
      destruct (Hf i (Hscan_sub i Hi)) as [? ?].
      split; [rewrite Hlen2, Hlen1; lia|].
      rewrite Hst2, Hst1 by lia. done.
    + intros k' i Hk'. rewrite Hk2s2, Hk2s in Hk'.
      apply lookup_insert_resize in Hk' as [[-> ->]|[Hne Hk']].
      * split; [|by right].
        exists 1%Qc. rewrite Hkeepfr, Hrfr. split; [|by left].
        apply elem_of_cons. right. apply elem_of_cons. by left.
      * destruct (Hsub k' i Hk') as [Hcell Hst].
        pose proof (unit_cell_in_range s k' i Hcell) as Hi.
        assert (HnF : status_at s i ≠ entry_status.F)
          by (by destruct Hst as [-> | ->]).
        assert (Hih : i ≠ h) by (intros ->; done).
        split.
        -- destruct (Hoth i) as (-> & _).
           { right. rewrite Hst1 by (unfold fr; lia). done. }
           rewrite Hro by (done || unfold fr; lia). done.
        -- rewrite Hst2, Hst1 by (unfold fr; lia). done.
    + intros h' ahk' k' k_sign' [= <-] Hmin'.
      rewrite Hmin in Hmin'. injection Hmin' as <- <- <-.
      rewrite (proj2 (is_one_false _) Hone).
      exists fr. split.
      * rewrite Hk2s2, Hk2s. apply list_lookup_insert_eq.
        rewrite length_resize. lia.
      * split; [done|]. intros i' Hi' HF'.
        by apply eliminate_var_in_f_no_var.
Qed.

Lemma substitution_rows_rewrite_eqs_witness :
  substitution_rows uniqueness_step1 ∧
  f_list_ok uniqueness_step2 ∧ substitution_rows uniqueness_step2.
Proof.
  assert (Hal : rows_aligned uniqueness_step1) by (split; reflexivity).
  assert (Hf : f_list_ok uniqueness_step1).
  { intros i Hi. change (m_f uniqueness_step1) with [1] in Hi.
    apply list_elem_of_singleton in Hi. subst i. split; [|reflexivity].
    vm_compute. lia. }
  assert (Hsub : substitution_rows uniqueness_step1).
  { intros k i Hk. change (m_k2s uniqueness_step1) with [Some 0] in Hk.
    destruct k as [|k]; [|by destruct k]. injection Hk as <-.
    split; [|left; reflexivity].
    exists (z 1). split; [by_compute|left; by_compute]. }
  split; [exact Hsub|].
  destruct (substitution_rows_rewrite_eqs uniqueness_step1 Hal Hf Hsub)
    as (_ & Hf' & Hsub' & _).
  split; assumption.
Defined.

(** After two rewrite steps on
    [x + y + w = 0] and [y + w = 0] the row 1 substitutes the variable 2,
    and the row 0, a row of S, still holds the variable 2: a variable is
    eliminated from the rows of F only. *)
Lemma substitution_uniqueness_fails :
  ¬ substitution_uniqueness uniqueness_step2.
Proof.
  intros Hu. destruct (Hu 2 1 eq_refl) as (_ & _ & Hno).
  specialize (Hno 0 ltac:(lia) eq_refl). vm_compute in Hno. discriminate.
Qed.

(** C5.  The code at the failing input: a host of three columns and a solver
    with the one added term [3 x0 + 5 x1] of the column 2, fixed at -7.  At
    the end of the first [check], which returns, [subst[0]], of the local
    variable 0, is the row 2, the row of the definition of a fresh variable:
    its status is NO_S_NO_F and not S, as [fresh_var_step] leaves it, though
    the tightener may substitute the variable 0 with it and
    [subs_front_in_indexed_vector] asserts there that the row is in S.  When
    the column 1 of the host changes, the [init] of the next [check] removes
    the rows of the fresh definitions and leaves [subst[0]] at the row 2 of a
    matrix that has one row: the row of the substitution is gone. *)
Theorem substitution_row_not_in_S :
  is_Some (check 10 changing_host fresh_added) ∧
  m_k2s fresh_checked !! 0 = Some (Some 2) ∧
  status_at fresh_checked 2 = entry_status.NO_S_NO_F ∧
  can_substitute fresh_checked 0 = true ∧
  m_k2s fresh_rechecked !! 0 = Some (Some 2) ∧
  can_substitute fresh_rechecked 0 = true ∧
  length (m_e_matrix fresh_rechecked) = 1 ∧
  row_at (m_e_matrix fresh_rechecked) 2 = [].
Proof.
  split; [by_compute|]. split; [vm_compute; reflexivity|].
  split; [vm_compute; reflexivity|]. split; [vm_compute; reflexivity|].
  split; [vm_compute; reflexivity|]. split; [vm_compute; reflexivity|].
  split; vm_compute; reflexivity.
Qed.

(** ** Tightening of a bound *)

(** One bound.  Let the host have a bound [rs] of the kind [is_upper] on the
    column [j], and let [rs' = (rs - m_c) / g] not be an integer.  Then
    the tightener gives the host the bound [g * floor(rs') + m_c] as an upper
    bound ([LE]), respectively [g * ceil(rs') + m_c] as a lower bound ([GE]),
    with the dependency of the tightening, and asks it for a feasible
    solution; the host is left in the state that answer leaves.  If the
    answer is below [FEASIBLE] and is not [CANCELLED], as [INFEASIBLE] is,
    the tightener returns the conflict and takes the explanation of the
    host; otherwise it returns no conflict and keeps its state. *)
Lemma tighten_bounds_for_non_trivial_gcd_spec `{LarSolver H} (g : mpq)
    (j : N) (is_upper : bool) (lra : H) (s : imp) (b_dep : u_dependency)
    (rs : mpq) (is_strict : bool) :
  has_bound_of_type lra j is_upper = Some (b_dep, rs, is_strict) →
  let rs' := ((rs - imp_m_c s) / g)%Qc in
  is_int rs' = false →
  let bound := (g * (if is_upper then floor rs' else ceil rs') + imp_m_c s)%Qc in
  let kind := if is_upper then lconstraint_kind.LE else lconstraint_kind.GE in
  let pushed :=
    update_column_type_and_bound j kind bound
      (tightening_dependency lra s j is_upper b_dep) lra in
  let st := (find_feasible_solution pushed).1 in
  let lra' := (find_feasible_solution pushed).2 in
  let r := tighten_bounds_for_non_trivial_gcd g j is_upper lra s in
  r.1.2 = lra' ∧
  ((lp_status.to_int st < lp_status.to_int lp_status.FEASIBLE)%Z →
   st ≠ lp_status.CANCELLED →
   r.1.1 = true ∧
   r.2 = set_m_infeas_explanation
           (get_infeasibility_explanation lra' (m_infeas_explanation s)) s) ∧
  (st = lp_status.INFEASIBLE → r.1.1 = true) ∧
  ((lp_status.to_int lp_status.FEASIBLE ≤ lp_status.to_int st)%Z
   ∨ st = lp_status.CANCELLED →
   r.1.1 = false ∧ r.2 = s).
Proof.
  intros Hb rs' Hint bound kind pushed st lra' r.
  subst r. unfold tighten_bounds_for_non_trivial_gcd. rewrite Hb.
  fold rs'. rewrite Hint. simpl negb. cbv iota.
  unfold tighten_bound_kind. fold bound kind.
  change (mk_join _ (get_bound_constraint_witnesses_for_column lra j))
    with (tightening_dependency lra s j is_upper b_dep).
  fold pushed. subst st lra'.
  destruct (find_feasible_solution pushed) as [st lra'] eqn:Hfs.
  cbn [fst snd].
  assert (Hmain :
    (lp_status.to_int st < lp_status.to_int lp_status.FEASIBLE)%Z →
    st ≠ lp_status.CANCELLED →
    (if bool_decide
          (lp_status.to_int lp_status.FEASIBLE ≤ lp_status.to_int st)%Z
     then (false, lra', s)
     else if decide (st = lp_status.CANCELLED) then (false, lra', s)
          else (true, lra',
                set_m_infeas_explanation
                  (get_infeasibility_explanation lra'
                     (m_infeas_explanation s)) s))
    = (true, lra',
       set_m_infeas_explanation
         (get_infeasibility_explanation lra' (m_infeas_explanation s)) s)).
  { intros Hlt Hnc. rewrite bool_decide_eq_false_2 by lia.
    by rewrite decide_False. }
  split; [|split; [|split]].
  - destruct (bool_decide _); [done|]. by destruct (decide _).
  - intros Hlt Hnc. by rewrite Hmain.
  - intros ->. rewrite Hmain; [done| |done]. simpl. lia.
  - intros [Hge| ->].
    + by rewrite bool_decide_eq_true_2.
    + destruct (bool_decide _); [done|]. by rewrite decide_True.
Qed.

Lemma tighten_bounds_for_non_trivial_gcd_spec_witness :
  let s := set_imp_m_c (z 0) new_imp in
  let r := tighten_bounds_for_non_trivial_gcd (z 5) 4%N true tighten_host s in
  is_int ((z 9 - imp_m_c s) / z 5)%Qc = false ∧
  th_log r.1.2
  = [call_update_bound 4%N lconstraint_kind.LE
       (z 5 * floor ((z 9 - imp_m_c s) / z 5) + imp_m_c s)%Qc
       (tightening_dependency tighten_host s 4%N true (dep_leaf 4%N))] ∧
  r.1.1 = true.
Proof.
  intros s r.
  assert (Hb : has_bound_of_type tighten_host 4%N true
               = Some (dep_leaf 4%N, z 9, false)) by reflexivity.
  assert (Hint : is_int ((z 9 - imp_m_c s) / z 5)%Qc = false) by reflexivity.
  split; [exact Hint|].
  destruct (tighten_bounds_for_non_trivial_gcd_spec (z 5) 4%N true
              tighten_host s (dep_leaf 4%N) (z 9) false Hb Hint)
    as (Hlra & _ & Hinf & _).
  split.
  - fold r in Hlra. rewrite Hlra. reflexivity.
  - apply Hinf. reflexivity.
Defined.

(** ** The tightener on a term column *)

Lemma reports_infeasibility_INFEASIBLE :
  reports_infeasibility lp_status.INFEASIBLE = true.
Proof. reflexivity. Qed.





(** ** The sides of a branch *)

Lemma create_branch_rs `{LarSolver H} (lra : H) (s : imp) :
  let r := create_branch lra s in
  m_j r.1.1 = UINT_MAX ∨
  m_rs r.1.1 = floor (get_column_value r.1.2 (m_j r.1.1)).
Proof.
  unfold create_branch.
  destruct (create_branch_loop _ _ _ _ _ _) as [[bj lra1] s1].
  destruct (decide (bj = UINT_MAX)); [by left|].
  destruct (random_next lra1) as [r lra2]. by right.
Qed.

(** What the code does with a branch.  A branch that [create_branch] makes
    on the column [j] of the host carries [rs = floor(value(j))].  Asserting
    a branch with the side Left gives the host the bound [x_j <= rs];
    asserting it with the side Right gives the host the bound
    [x_j >= rs + 1]. *)
Lemma branch_side_semantics `{LarSolver H} (lra : H) (s : imp) (b : branch) :
  (let r := create_branch lra s in
   m_j r.1.1 = UINT_MAX ∨
   m_rs r.1.1 = floor (get_column_value r.1.2 (m_j r.1.1))) ∧
  (add_var_bound_for_branch b lra s).1.2
  = if m_left b
    then add_var_bound (m_j b) lconstraint_kind.LE (m_rs b) lra
    else add_var_bound (m_j b) lconstraint_kind.GE (m_rs b + 1)%Qc lra.
Proof.
  split; [apply create_branch_rs|].
  unfold add_var_bound_for_branch.
  set (lra' := if m_left b then _ else _).
  destruct (column_is_fixed lra' (m_j b)); [|done].
  destruct (VarRegister.external_is_used _ _); [|done].
  destruct (fix_var lra' n s) as [r s']. by destruct (decide _).
Qed.

(** The right side as the specification and the comment of [struct branch]
    state it, [x_j >= rs], is not what the host is given. *)
Lemma right_side_not_rs :
  ¬ right_side_as_stated right_branch tighten_host new_imp.
Proof.
  intros Hr. specialize (Hr eq_refl).
  apply (f_equal th_log) in Hr. vm_compute in Hr. discriminate.
Qed.

(** C8.  The code at the failing input: asserting the branch on the column
    0 at [rs = 1] with the side Right, [add_var_bound_for_branch] gives the
    host the bound [x_0 >= rs + 1], that is [x_0 >= 2], and not the bound
    [x_0 >= rs] of the specification and of the comment of [struct branch]
    ("otherwise x[j] >= m_rs"). *)
Theorem right_side_adds_one :
  (add_var_bound_for_branch right_branch tighten_host new_imp).1.2
  = add_var_bound 0%N lconstraint_kind.GE (m_rs right_branch + 1)%Qc
      tighten_host ∧
  (m_rs right_branch + 1)%Qc = z 2 ∧
  (add_var_bound_for_branch right_branch tighten_host new_imp).1.2
  ≠ add_var_bound 0%N lconstraint_kind.GE (m_rs right_branch) tighten_host.
Proof.
  split; [reflexivity|]. split; [by_compute|].
  intros Hr. apply (f_equal th_log) in Hr. vm_compute in Hr. discriminate.
Qed.

(** ** The fields an operation leaves alone *)

Create Rewrite HintDb frame.

(** A setter of another field changes none of the observed fields. *)
Lemma report_of_set_m_var_register v (s : imp) : report_of (set_m_var_register v s) = report_of s.
Proof. reflexivity. Qed.
#[global] Hint Rewrite report_of_set_m_var_register : frame.
Lemma report_of_set_m_entries v (s : imp) : report_of (set_m_entries v s) = report_of s.
Proof. reflexivity. Qed.
#[global] Hint Rewrite report_of_set_m_entries : frame.
Lemma report_of_set_m_e_matrix v (s : imp) : report_of (set_m_e_matrix v s) = report_of s.
Proof. reflexivity. Qed.
#[global] Hint Rewrite report_of_set_m_e_matrix : frame.
Lemma report_of_set_m_e_columns v (s : imp) : report_of (set_m_e_columns v s) = report_of s.
Proof. reflexivity. Qed.
#[global] Hint Rewrite report_of_set_m_e_columns : frame.
Lemma report_of_set_m_l_matrix v (s : imp) : report_of (set_m_l_matrix v s) = report_of s.
Proof. reflexivity. Qed.
#[global] Hint Rewrite report_of_set_m_l_matrix : frame.
Lemma report_of_set_m_l_columns v (s : imp) : report_of (set_m_l_columns v s) = report_of s.
Proof. reflexivity. Qed.
#[global] Hint Rewrite report_of_set_m_l_columns : frame.
Lemma report_of_set_m_infeas_explanation v (s : imp) : report_of (set_m_infeas_explanation v s) = report_of s.
Proof. reflexivity. Qed.
#[global] Hint Rewrite report_of_set_m_infeas_explanation : frame.
Lemma report_of_set_m_indexed_work_vector v (s : imp) : report_of (set_m_indexed_work_vector v s) = report_of s.
Proof. reflexivity. Qed.
#[global] Hint Rewrite report_of_set_m_indexed_work_vector : frame.
Lemma report_of_set_m_f v (s : imp) : report_of (set_m_f v s) = report_of s.
Proof. reflexivity. Qed.
#[global] Hint Rewrite report_of_set_m_f : frame.
Lemma report_of_set_m_s v (s : imp) : report_of (set_m_s v s) = report_of s.
Proof. reflexivity. Qed.
#[global] Hint Rewrite report_of_set_m_s : frame.
Lemma report_of_set_imp_m_c v (s : imp) : report_of (set_imp_m_c v s) = report_of s.
Proof. reflexivity. Qed.
#[global] Hint Rewrite report_of_set_imp_m_c : frame.
Lemma report_of_set_m_tmp_l v (s : imp) : report_of (set_m_tmp_l v s) = report_of s.
Proof. reflexivity. Qed.
#[global] Hint Rewrite report_of_set_m_tmp_l : frame.
Lemma report_of_set_m_k2s v (s : imp) : report_of (set_m_k2s v s) = report_of s.
Proof. reflexivity. Qed.
#[global] Hint Rewrite report_of_set_m_k2s : frame.
Lemma report_of_set_m_fresh_definitions v (s : imp) : report_of (set_m_fresh_definitions v s) = report_of s.
Proof. reflexivity. Qed.
#[global] Hint Rewrite report_of_set_m_fresh_definitions : frame.
Lemma report_of_set_m_branch_stats v (s : imp) : report_of (set_m_branch_stats v s) = report_of s.
Proof. reflexivity. Qed.
#[global] Hint Rewrite report_of_set_m_branch_stats : frame.
Lemma report_of_set_m_branch_stack v (s : imp) : report_of (set_m_branch_stack v s) = report_of s.
Proof. reflexivity. Qed.
#[global] Hint Rewrite report_of_set_m_branch_stack : frame.
Lemma report_of_set_m_explanation_of_branches v (s : imp) : report_of (set_m_explanation_of_branches v s) = report_of s.
Proof. reflexivity. Qed.
#[global] Hint Rewrite report_of_set_m_explanation_of_branches : frame.
Lemma report_of_set_m_lra_level v (s : imp) : report_of (set_m_lra_level v s) = report_of s.
Proof. reflexivity. Qed.
#[global] Hint Rewrite report_of_set_m_lra_level : frame.
Lemma report_of_set_m_changed_columns v (s : imp) : report_of (set_m_changed_columns v s) = report_of s.
Proof. reflexivity. Qed.
#[global] Hint Rewrite report_of_set_m_changed_columns : frame.
Lemma report_of_set_m_columns_to_terms v (s : imp) : report_of (set_m_columns_to_terms v s) = report_of s.
Proof. reflexivity. Qed.
#[global] Hint Rewrite report_of_set_m_columns_to_terms : frame.
Lemma report_of_set_m_added_terms v (s : imp) : report_of (set_m_added_terms v s) = report_of s.
Proof. reflexivity. Qed.
#[global] Hint Rewrite report_of_set_m_added_terms : frame.
Lemma report_of_set_m_active_terms v (s : imp) : report_of (set_m_active_terms v s) = report_of s.
Proof. reflexivity. Qed.
#[global] Hint Rewrite report_of_set_m_active_terms : frame.
Lemma iterations_of_set_m_var_register v (s : imp) : iterations_of (set_m_var_register v s) = iterations_of s.
Proof. reflexivity. Qed.
#[global] Hint Rewrite iterations_of_set_m_var_register : frame.
Lemma iterations_of_set_m_entries v (s : imp) : iterations_of (set_m_entries v s) = iterations_of s.
Proof. reflexivity. Qed.
#[global] Hint Rewrite iterations_of_set_m_entries : frame.
Lemma iterations_of_set_m_e_matrix v (s : imp) : iterations_of (set_m_e_matrix v s) = iterations_of s.
Proof. reflexivity. Qed.
#[global] Hint Rewrite iterations_of_set_m_e_matrix : frame.
Lemma iterations_of_set_m_e_columns v (s : imp) : iterations_of (set_m_e_columns v s) = iterations_of s.
Proof. reflexivity. Qed.
#[global] Hint Rewrite iterations_of_set_m_e_columns : frame.
Lemma iterations_of_set_m_l_matrix v (s : imp) : iterations_of (set_m_l_matrix v s) = iterations_of s.
Proof. reflexivity. Qed.
#[global] Hint Rewrite iterations_of_set_m_l_matrix : frame.
Lemma iterations_of_set_m_l_columns v (s : imp) : iterations_of (set_m_l_columns v s) = iterations_of s.
Proof. reflexivity. Qed.
#[global] Hint Rewrite iterations_of_set_m_l_columns : frame.
Lemma iterations_of_set_lia v (s : imp) : iterations_of (set_lia v s) = iterations_of s.
Proof. reflexivity. Qed.
#[global] Hint Rewrite iterations_of_set_lia : frame.
Lemma iterations_of_set_m_infeas_explanation v (s : imp) : iterations_of (set_m_infeas_explanation v s) = iterations_of s.
Proof. reflexivity. Qed.
#[global] Hint Rewrite iterations_of_set_m_infeas_explanation : frame.
Lemma iterations_of_set_m_indexed_work_vector v (s : imp) : iterations_of (set_m_indexed_work_vector v s) = iterations_of s.
Proof. reflexivity. Qed.
#[global] Hint Rewrite iterations_of_set_m_indexed_work_vector : frame.
Lemma iterations_of_set_m_report_branch v (s : imp) : iterations_of (set_m_report_branch v s) = iterations_of s.
Proof. reflexivity. Qed.
#[global] Hint Rewrite iterations_of_set_m_report_branch : frame.
Lemma iterations_of_set_m_f v (s : imp) : iterations_of (set_m_f v s) = iterations_of s.
Proof. reflexivity. Qed.
#[global] Hint Rewrite iterations_of_set_m_f : frame.
Lemma iterations_of_set_m_s v (s : imp) : iterations_of (set_m_s v s) = iterations_of s.
Proof. reflexivity. Qed.
#[global] Hint Rewrite iterations_of_set_m_s : frame.
Lemma iterations_of_set_imp_m_c v (s : imp) : iterations_of (set_imp_m_c v s) = iterations_of s.
Proof. reflexivity. Qed.
#[global] Hint Rewrite iterations_of_set_imp_m_c : frame.
Lemma iterations_of_set_m_tmp_l v (s : imp) : iterations_of (set_m_tmp_l v s) = iterations_of s.
Proof. reflexivity. Qed.
#[global] Hint Rewrite iterations_of_set_m_tmp_l : frame.
Lemma iterations_of_set_m_k2s v (s : imp) : iterations_of (set_m_k2s v s) = iterations_of s.
Proof. reflexivity. Qed.
#[global] Hint Rewrite iterations_of_set_m_k2s : frame.
Lemma iterations_of_set_m_fresh_definitions v (s : imp) : iterations_of (set_m_fresh_definitions v s) = iterations_of s.
Proof. reflexivity. Qed.
#[global] Hint Rewrite iterations_of_set_m_fresh_definitions : frame.
Lemma iterations_of_set_m_conflict_index v (s : imp) : iterations_of (set_m_conflict_index v s) = iterations_of s.
Proof. reflexivity. Qed.
#[global] Hint Rewrite iterations_of_set_m_conflict_index : frame.
Lemma iterations_of_set_m_branch_stats v (s : imp) : iterations_of (set_m_branch_stats v s) = iterations_of s.
Proof. reflexivity. Qed.
#[global] Hint Rewrite iterations_of_set_m_branch_stats : frame.
Lemma iterations_of_set_m_branch_stack v (s : imp) : iterations_of (set_m_branch_stack v s) = iterations_of s.
Proof. reflexivity. Qed.
#[global] Hint Rewrite iterations_of_set_m_branch_stack : frame.
Lemma iterations_of_set_m_explanation_of_branches v (s : imp) : iterations_of (set_m_explanation_of_branches v s) = iterations_of s.
Proof. reflexivity. Qed.
#[global] Hint Rewrite iterations_of_set_m_explanation_of_branches : frame.
Lemma iterations_of_set_m_lra_level v (s : imp) : iterations_of (set_m_lra_level v s) = iterations_of s.
Proof. reflexivity. Qed.
#[global] Hint Rewrite iterations_of_set_m_lra_level : frame.
Lemma iterations_of_set_m_changed_columns v (s : imp) : iterations_of (set_m_changed_columns v s) = iterations_of s.
Proof. reflexivity. Qed.
#[global] Hint Rewrite iterations_of_set_m_changed_columns : frame.
Lemma iterations_of_set_m_columns_to_terms v (s : imp) : iterations_of (set_m_columns_to_terms v s) = iterations_of s.
Proof. reflexivity. Qed.
#[global] Hint Rewrite iterations_of_set_m_columns_to_terms : frame.
Lemma iterations_of_set_m_added_terms v (s : imp) : iterations_of (set_m_added_terms v s) = iterations_of s.
Proof. reflexivity. Qed.
#[global] Hint Rewrite iterations_of_set_m_added_terms : frame.
Lemma iterations_of_set_m_active_terms v (s : imp) : iterations_of (set_m_active_terms v s) = iterations_of s.
Proof. reflexivity. Qed.
#[global] Hint Rewrite iterations_of_set_m_active_terms : frame.

Lemma iterations_of_report (s s' : imp) :
  report_of s' = report_of s → iterations_of s' = iterations_of s.
Proof. unfold report_of, iterations_of. congruence. Qed.

Lemma fold_left_frame {A B} (obs : imp → B) (f : imp → A → imp) (l : list A)
    (s : imp) :
  (∀ s x, obs (f s x) = obs s) → obs (fold_left f l s) = obs s.
Proof.
  intros Hf. revert s. induction l as [|x l IH]; intros s; simpl; [done|].
  by rewrite IH.
Qed.

Lemma fold_left_frame_pair {A B C} (obs : imp → B) (f : imp * C → A → imp * C)
    (l : list A) (sc : imp * C) :
  (∀ sc x, obs (f sc x).1 = obs sc.1) → obs (fold_left f l sc).1 = obs sc.1.
Proof.
  intros Hf. revert sc. induction l as [|x l IH]; intros sc; simpl; [done|].
  by rewrite IH.
Qed.

(** A pair bound by a [let] is replaced by its two components. *)
Ltac unlet :=
  repeat match goal with
  | |- context [let (_, _) := ?t in _] =>
      let x := fresh "x" in
      let y := fresh "y" in
      let E := fresh "E" in
      destruct t as [x y] eqn:E;
      let Hx := fresh in
      let Hy := fresh in
      assert (x = t.1) as Hx by (rewrite E; reflexivity);
      assert (y = t.2) as Hy by (rewrite E; reflexivity);
      clear E; subst x y
  end.

(** The goal [obs (f ... s) = obs s], where [f] is made of setters and of
    operations whose lemma is in the rewrite database. *)
Ltac frame :=
  repeat first
    [ progress unlet
    | progress cbn [fst snd]
    | progress autorewrite with frame
    | reflexivity
    | match goal with
      | |- context [if ?b then _ else _] => destruct b
      | |- context [match ?x with _ => _ end] => destruct x
      end ].

Lemma report_of_add_var j s : report_of (add_var j s).2 = report_of s.
Proof. unfold add_var. frame. Qed.
#[global] Hint Rewrite report_of_add_var : frame.

Lemma report_of_fill_entry_cell `{LarSolver H} (lra : H) i s p :
  report_of (fill_entry_cell lra i s p) = report_of s.
Proof. unfold fill_entry_cell. frame. Qed.
#[global] Hint Rewrite @report_of_fill_entry_cell : frame.

Lemma report_of_fill_entry `{LarSolver H} (lra : H) tj s :
  report_of (fill_entry lra tj s) = report_of s.
Proof.
  unfold fill_entry. rewrite fold_left_frame; [frame|].
  intros. frame.
Qed.
#[global] Hint Rewrite @report_of_fill_entry : frame.

Lemma report_of_register_columns_to_term `{LarSolver H} (lra : H) tj s :
  report_of (register_columns_to_term lra tj s) = report_of s.
Proof. unfold register_columns_to_term. frame. Qed.
#[global] Hint Rewrite @report_of_register_columns_to_term : frame.

Lemma report_of_recalculate_entry_cell ei sd p :
  report_of (recalculate_entry_cell ei sd p).1 = report_of sd.1.
Proof. unfold recalculate_entry_cell. destruct sd as [s d]. frame. Qed.

Lemma report_of_recalculate_entry `{LarSolver H} (lra : H) ei s :
  report_of (recalculate_entry lra ei s) = report_of s.
Proof.
  unfold recalculate_entry.
  destruct (open_l_term_to_work_vector lra ei 0%Qc s) as [c v].
  match goal with
  | |- context [fold_left ?f ?l ?a] =>
      pose proof (fold_left_frame_pair report_of f l a
                    (report_of_recalculate_entry_cell ei)) as Hfold;
      destruct (fold_left f l a) as [s1 denom]
  end.
  simpl in Hfold. frame; rewrite Hfold; frame.
Qed.
#[global] Hint Rewrite @report_of_recalculate_entry : frame.

Lemma report_of_remove_entry_from_lists ei s :
  report_of (remove_entry_from_lists ei s) = report_of s.
Proof. unfold remove_entry_from_lists. frame. Qed.
#[global] Hint Rewrite report_of_remove_entry_from_lists : frame.

Lemma report_of_add_entry_to_lists ei s :
  report_of (add_entry_to_lists ei s) = report_of s.
Proof. unfold add_entry_to_lists. frame. Qed.
#[global] Hint Rewrite report_of_add_entry_to_lists : frame.

Lemma report_of_transpose_entries i k s :
  report_of (transpose_entries i k s) = report_of s.
Proof. unfold transpose_entries. frame. Qed.
#[global] Hint Rewrite report_of_transpose_entries : frame.

Lemma report_of_remove_last_entry s :
  report_of (remove_last_entry s) = report_of s.
Proof. unfold remove_last_entry. frame. Qed.
#[global] Hint Rewrite report_of_remove_last_entry : frame.

Lemma report_of_move_entry_from_s_to_f ei s :
  report_of (move_entry_from_s_to_f ei s) = report_of s.
Proof. unfold move_entry_from_s_to_f. frame. Qed.
#[global] Hint Rewrite report_of_move_entry_from_s_to_f : frame.

Lemma report_of_remove_fresh_definition xt sr :
  report_of (remove_fresh_definition xt sr).1 = report_of sr.1.
Proof. unfold remove_fresh_definition. destruct sr as [s r]. frame. Qed.

Lemma report_of_recalculate_and_move `{LarSolver H} (lra : H) s k :
  report_of (recalculate_and_move lra s k) = report_of s.
Proof. unfold recalculate_and_move. frame. Qed.
#[global] Hint Rewrite @report_of_recalculate_and_move : frame.

Lemma report_of_process_changed_columns `{LarSolver H} (lra : H) s :
  report_of (process_changed_columns lra s) = report_of s.
Proof.
  unfold process_changed_columns.
  match goal with
  | |- context [fold_left ?f ?l ?a] =>
      pose proof (fold_left_frame_pair report_of f l a
                    (λ sr xt, report_of_remove_fresh_definition xt sr)) as Hfold;
      destruct (fold_left f l a) as [s1 r1]
  end.
  simpl in Hfold. autorewrite with frame.
  rewrite fold_left_frame; [done|]. intros. frame.
Qed.
#[global] Hint Rewrite @report_of_process_changed_columns : frame.

Lemma report_of_eliminate_var_in_row ei j j_sign i s :
  report_of (eliminate_var_in_row ei j j_sign i s) = report_of s.
Proof. unfold eliminate_var_in_row. frame. Qed.
#[global] Hint Rewrite report_of_eliminate_var_in_row : frame.

Lemma report_of_eliminate_var_in_f ei j j_sign s :
  report_of (eliminate_var_in_f ei j j_sign s) = report_of s.
Proof. unfold eliminate_var_in_f. apply fold_left_frame. intros. frame. Qed.
#[global] Hint Rewrite report_of_eliminate_var_in_f : frame.

Lemma report_of_move_row_to_work_vector ei s :
  report_of (move_row_to_work_vector ei s) = report_of s.
Proof. unfold move_row_to_work_vector. frame. Qed.
#[global] Hint Rewrite report_of_move_row_to_work_vector : frame.

Lemma report_of_fresh_var_step_define h k ahk s :
  report_of (fresh_var_step_define h k ahk s).2 = report_of s.
Proof. unfold fresh_var_step_define. frame. Qed.
#[global] Hint Rewrite report_of_fresh_var_step_define : frame.

Lemma report_of_fresh_var_step h k ahk s :
  report_of (fresh_var_step h k ahk s) = report_of s.
Proof. unfold fresh_var_step. frame. Qed.
#[global] Hint Rewrite report_of_fresh_var_step : frame.

Lemma report_of_move_entry_from_f_to_s k h s :
  report_of (move_entry_from_f_to_s k h s) = report_of s.
Proof. unfold move_entry_from_f_to_s. frame. Qed.
#[global] Hint Rewrite report_of_move_entry_from_f_to_s : frame.

(** ** The counters through [init], the rewrite engine and the tightener *)

Lemma iterations_of_process_changed_columns `{LarSolver H} (lra : H) s :
  iterations_of (process_changed_columns lra s) = iterations_of s.
Proof. apply iterations_of_report. by autorewrite with frame. Qed.
#[global] Hint Rewrite @iterations_of_process_changed_columns : frame.

Lemma iterations_of_fill_entry `{LarSolver H} (lra : H) tj s :
  iterations_of (fill_entry lra tj s) = iterations_of s.
Proof. apply iterations_of_report. by autorewrite with frame. Qed.
#[global] Hint Rewrite @iterations_of_fill_entry : frame.

Lemma iterations_of_register_columns_to_term `{LarSolver H} (lra : H) tj s :
  iterations_of (register_columns_to_term lra tj s) = iterations_of s.
Proof. reflexivity. Qed.
#[global] Hint Rewrite @iterations_of_register_columns_to_term : frame.

Lemma iterations_of_eliminate_var_in_f ei j j_sign s :
  iterations_of (eliminate_var_in_f ei j j_sign s) = iterations_of s.
Proof. apply iterations_of_report. by autorewrite with frame. Qed.
#[global] Hint Rewrite iterations_of_eliminate_var_in_f : frame.

Lemma iterations_of_fresh_var_step h k ahk s :
  iterations_of (fresh_var_step h k ahk s) = iterations_of s.
Proof. apply iterations_of_report. by autorewrite with frame. Qed.
#[global] Hint Rewrite iterations_of_fresh_var_step : frame.

Lemma iterations_of_move_entry_from_f_to_s k h s :
  iterations_of (move_entry_from_f_to_s k h s) = iterations_of s.
Proof. apply iterations_of_report. by autorewrite with frame. Qed.
#[global] Hint Rewrite iterations_of_move_entry_from_f_to_s : frame.

Lemma iterations_of_init `{LarSolver H} (lra : H) s :
  iterations_of (init lra s)
  = (m_max_number_of_iterations s, 0, m_dio_branch_iterations (stats s)).
Proof.
  unfold init. autorewrite with frame.
  rewrite fold_left_frame; [by autorewrite with frame|].
  intros s0 t. by autorewrite with frame.
Qed.

Lemma iterations_of_prepare_lia_branch_report ei g c s :
  iterations_of (prepare_lia_branch_report ei g c s) = iterations_of s.
Proof. reflexivity. Qed.
#[global] Hint Rewrite iterations_of_prepare_lia_branch_report : frame.

Lemma iterations_of_normalize_e_by_gcd `{LarSolver H} (lra : H) ei s :
  iterations_of (normalize_e_by_gcd lra ei s).2 = iterations_of s.
Proof. unfold normalize_e_by_gcd. frame. Qed.
#[global] Hint Rewrite @iterations_of_normalize_e_by_gcd : frame.

Lemma iterations_of_normalize_by_gcd_loop `{LarSolver H} (lra : H) f s :
  iterations_of (normalize_by_gcd_loop lra f s).2 = iterations_of s.
Proof.
  revert s. induction f as [|l f IH]; intros s; simpl; [done|].
  pose proof (iterations_of_normalize_e_by_gcd lra l s) as Hn.
  destruct (normalize_e_by_gcd lra l s) as [[] s1]; simpl in *.
  - by rewrite IH.
  - done.
Qed.

Lemma iterations_of_normalize_by_gcd `{LarSolver H} (lra : H) s :
  iterations_of (normalize_by_gcd lra s).2 = iterations_of s.
Proof. apply iterations_of_normalize_by_gcd_loop. Qed.
#[global] Hint Rewrite @iterations_of_normalize_by_gcd : frame.

Lemma iterations_of_rewrite_eqs s : iterations_of (rewrite_eqs s) = iterations_of s.
Proof.
  unfold rewrite_eqs.
  destruct (rewrite_eqs_scan s (m_f s)) as [f [[i|] [h|]]]; try reflexivity.
  destruct (find_minimal_abs_coeff _ h) as [[ahk k] k_sign].
  destruct (is_one ahk); by autorewrite with frame.
Qed.
#[global] Hint Rewrite iterations_of_rewrite_eqs : frame.

Lemma iterations_of_process_f `{LarSolver H} (lra : H) fuel s ret s' :
  process_f fuel lra s = Some (ret, s') → iterations_of s' = iterations_of s.
Proof.
  revert s. induction fuel as [|fuel IH]; intros s; simpl.
  - destruct (m_f s); [|done]. by intros [= _ <-].
  - destruct (m_f s); [by intros [= _ <-]|].
    pose proof (iterations_of_normalize_by_gcd lra s) as Hn.
    destruct (normalize_by_gcd lra s) as [[] s1]; simpl in *.
    + pose proof (iterations_of_rewrite_eqs s1) as Hr.
      destruct (m_conflict_index (rewrite_eqs s1)).
      * intros [= _ <-]. unfold iterations_of in *. simpl. congruence.
      * intros Hp. apply IH in Hp. congruence.
    + destruct (m_report_branch s1); intros [= _ <-]; exact Hn.
Qed.

Lemma iterations_of_fill_indexed_work_vector_from_term `{LarSolver H} (lra : H) t s :
  iterations_of (fill_indexed_work_vector_from_term lra t s) = iterations_of s.
Proof.
  unfold fill_indexed_work_vector_from_term.
  rewrite fold_left_frame; [done|]. intros. frame.
Qed.
#[global] Hint Rewrite @iterations_of_fill_indexed_work_vector_from_term : frame.

Lemma iterations_of_subs_front_in_indexed_vector k s :
  iterations_of (subs_front_in_indexed_vector k s).1 = iterations_of s.
Proof.
  unfold subs_front_in_indexed_vector.
  destruct (is_zero _); [done|].
  match goal with
  | |- context [fold_left ?f ?l ?a] =>
      assert (iterations_of (fold_left f l a).1 = iterations_of a.1) as Hfold;
      [|destruct (fold_left f l a) as [s1 pushed]]
  end.
  { apply fold_left_frame_pair. intros [s0 q] p. frame. }
  simpl in *. by autorewrite with frame.
Qed.

Lemma iterations_of_subs_indexed_vector_with_S fuel q s s' :
  subs_indexed_vector_with_S fuel q s = Some s' → iterations_of s' = iterations_of s.
Proof.
  revert q s. induction fuel as [|fuel IH]; intros [|k q] s; simpl;
    try done; try by intros [= <-].
  pose proof (iterations_of_subs_front_in_indexed_vector k s) as Hf.
  destruct (subs_front_in_indexed_vector k s) as [s1 pushed].
  intros Hs%IH. simpl in Hf. congruence.
Qed.

Lemma iterations_of_handle_constant_term `{LarSolver H} (lra : H) j s :
  iterations_of (handle_constant_term lra j s) = iterations_of s.
Proof. unfold handle_constant_term, push_explanation. frame. Qed.
#[global] Hint Rewrite @iterations_of_handle_constant_term : frame.

Lemma iterations_of_tighten_bound_kind `{LarSolver H} g j ub upper dep (lra : H) s :
  iterations_of (tighten_bound_kind g j ub upper dep lra s).2 = iterations_of s.
Proof. unfold tighten_bound_kind. frame. Qed.
#[global] Hint Rewrite @iterations_of_tighten_bound_kind : frame.

Lemma iterations_of_tighten_bounds_for_non_trivial_gcd `{LarSolver H} g j is_upper
    (lra : H) s :
  iterations_of (tighten_bounds_for_non_trivial_gcd g j is_upper lra s).2 = iterations_of s.
Proof. unfold tighten_bounds_for_non_trivial_gcd. frame. Qed.
#[global] Hint Rewrite @iterations_of_tighten_bounds_for_non_trivial_gcd : frame.

Lemma iterations_of_tighten_bounds_for_term_column `{LarSolver H} fuel j (lra : H) s r :
  tighten_bounds_for_term_column fuel j lra s = Some r → iterations_of r.2 = iterations_of s.
Proof.
  unfold tighten_bounds_for_term_column.
  destruct (negb _); [by intros [= <-]|].
  destruct (map _ _) as [|k q]; [by intros [= <-]|].
  destruct (subs_indexed_vector_with_S _ _ _) as [s1|] eqn:Hs; [|done].
  apply iterations_of_subs_indexed_vector_with_S in Hs.
  rewrite iterations_of_fill_indexed_work_vector_from_term in Hs.
  destruct (is_one _); [by intros [= <-]|].
  destruct (is_zero _).
  - intros [= <-]. simpl. by rewrite iterations_of_handle_constant_term.
  - pose proof (iterations_of_tighten_bounds_for_non_trivial_gcd
                  (gcd_of_coeffs (IndexedVector.cells (m_indexed_work_vector s1)))
                  j true lra s1) as Hu.
    destruct (tighten_bounds_for_non_trivial_gcd _ j true lra s1)
      as [[[] lra1] s2]; simpl in Hu.
    + intros [= <-]. simpl. congruence.
    + intros [= <-]. rewrite iterations_of_tighten_bounds_for_non_trivial_gcd.
      congruence.
Qed.

Lemma iterations_of_tighten_terms_loop `{LarSolver H} fuel js (lra : H) s r :
  tighten_terms_loop fuel js lra s = Some r → iterations_of r.2 = iterations_of s.
Proof.
  revert lra s. induction js as [|j js IH]; intros lra s; simpl.
  - by intros [= <-].
  - destruct (_ || _); [apply IH|].
    destruct (tighten_bounds_for_term_column fuel j lra s)
      as [[[[] lra1] s1]|] eqn:Ht; [| |done];
      apply iterations_of_tighten_bounds_for_term_column in Ht; simpl in Ht.
    + by intros [= <-].
    + intros Hr%IH. congruence.
Qed.

Lemma iterations_of_process_f_and_tighten_terms `{LarSolver H} fuel (lra : H) s r :
  process_f_and_tighten_terms fuel lra s = Some r → iterations_of r.2 = iterations_of s.
Proof.
  unfold process_f_and_tighten_terms.
  destruct (process_f fuel lra s) as [[ret s1]|] eqn:Hp; [|done].
  apply iterations_of_process_f in Hp.
  destruct (decide (ret = lia_move.undef)); [|by intros [= <-]].
  unfold tighten_terms_with_S.
  destruct (tighten_terms_loop _ _ _ _) as [[[ret2 lra2] s2]|] eqn:Ht; [|done].
  apply iterations_of_tighten_terms_loop in Ht. simpl in Ht.
  destruct ret2; intros [= <-]; simpl; unfold iterations_of in *; simpl; congruence.
Qed.

(** ** The counters of the brancher *)

Lemma iterations_of_get_branch_score j s :
  iterations_of (get_branch_score j s).2 = iterations_of s.
Proof. unfold get_branch_score. frame. Qed.
#[global] Hint Rewrite iterations_of_get_branch_score : frame.

Lemma iterations_of_update_branch_stats b n s :
  iterations_of (update_branch_stats b n s) = iterations_of s.
Proof. unfold update_branch_stats. frame. Qed.
#[global] Hint Rewrite iterations_of_update_branch_stats : frame.

Lemma iterations_of_create_branch_loop `{LarSolver H} basis bj sc n (lra : H) s :
  iterations_of (create_branch_loop basis bj sc n lra s).2 = iterations_of s.
Proof.
  revert bj sc n lra s.
  induction basis as [|j basis IH]; intros bj sc n lra s;
    cbn [create_branch_loop]; [done|].
  destruct (negb _); [apply IH|].
  pose proof (iterations_of_get_branch_score j s) as Hg.
  destruct (get_branch_score j s) as [sc1 s1]. simpl in Hg.
  destruct (score_lt _ _); [by rewrite IH|].
  destruct (bool_decide _); [|by rewrite IH].
  destruct (random_next lra) as [r lra1].
  destruct (bool_decide _); by rewrite IH.
Qed.

Lemma iterations_of_create_branch `{LarSolver H} (lra : H) s :
  iterations_of (create_branch lra s).2 = iterations_of s.
Proof.
  unfold create_branch.
  pose proof (iterations_of_create_branch_loop (r_basis lra) UINT_MAX None 0
                lra s) as Hl.
  destruct (create_branch_loop _ _ _ _ _ _) as [[bj lra1] s1]. simpl in Hl.
  destruct (decide _); [done|]. by destruct (random_next lra1).
Qed.

Lemma iterations_of_lra_push `{LarSolver H} (lra : H) s :
  iterations_of (lra_push lra s).2 = iterations_of s.
Proof. reflexivity. Qed.

Lemma iterations_of_lra_pop `{LarSolver H} (lra : H) s :
  iterations_of (lra_pop lra s).2 = iterations_of s.
Proof. reflexivity. Qed.

Lemma iterations_of_undo_branching `{LarSolver H} (lra : H) s :
  iterations_of (undo_branching lra s).2 = iterations_of s.
Proof. reflexivity. Qed.

Lemma iterations_of_fix_var `{LarSolver H} (lra : H) j s :
  iterations_of (fix_var lra j s).2 = iterations_of s.
Proof. unfold fix_var. frame. Qed.

Lemma iterations_of_add_var_bound_for_branch `{LarSolver H} b (lra : H) s :
  iterations_of (add_var_bound_for_branch b lra s).2 = iterations_of s.
Proof.
  unfold add_var_bound_for_branch.
  destruct (column_is_fixed _ _); [|done].
  destruct (VarRegister.external_is_used _ _) as [j|]; [|done].
  match goal with
  | |- context [fix_var ?l j s] =>
      pose proof (iterations_of_fix_var l j s) as Hf;
      destruct (fix_var l j s) as [r s1]
  end.
  by destruct (decide _).
Qed.

Lemma iterations_of_undo_explored_loop `{LarSolver H} rstack (lra : H) s :
  iterations_of (undo_explored_loop rstack lra s).2 = iterations_of s.
Proof.
  revert lra s. induction rstack as [|b rstack IH]; intros lra s; simpl;
    [done|].
  destruct (m_fully_explored b); [|done]. by rewrite IH.
Qed.

Lemma iterations_of_undo_explored_branches `{LarSolver H} (lra : H) s :
  iterations_of (undo_explored_branches lra s).2 = iterations_of s.
Proof.
  unfold undo_explored_branches.
  pose proof (iterations_of_undo_explored_loop (reverse (m_branch_stack s))
                lra s) as Hl.
  by destruct (undo_explored_loop _ _ _) as [[rstack lra1] s1].
Qed.

Lemma iterations_of_collect_evidence `{LarSolver H} (lra : H) s :
  iterations_of (collect_evidence lra s) = iterations_of s.
Proof. reflexivity. Qed.

Lemma iterations_of_transfer_explanations `{LarSolver H} (lra : H) s :
  iterations_of (transfer_explanations_from_closed_branches lra s)
  = iterations_of s.
Proof. reflexivity. Qed.

Lemma iterations_of_flip_top s : iterations_of (flip_top s) = iterations_of s.
Proof. reflexivity. Qed.

Lemma iterations_of_push_branch `{LarSolver H} (lra : H) s :
  iterations_of (push_branch lra s).2 = iterations_of s.
Proof.
  unfold push_branch.
  pose proof (iterations_of_create_branch lra s) as Hc.
  destruct (create_branch lra s) as [[br lra1] s1].
  by destruct (decide _).
Qed.

(** ** The iteration budget of the brancher *)

(** The equalities of the counters, component by component. *)
Ltac split_counters :=
  unfold iterations_of in *; cbn [fst snd] in *;
  repeat match goal with
  | Hc : (_, _, _) = (_, _, _) |- _ =>
      injection Hc as ? ? ?
  end.

Ltac close_counters :=
  split_counters; cbn in *;
  repeat split; intros;
  first [ done | lia
        | match goal with Hx : _ → ?g |- ?g => apply Hx; lia end
        | exfalso; lia ].

(** The next call of the brancher in the goal is named, with what it leaves
    alone. *)
Ltac brancher_call :=
  match goal with
  | |- context [push_branch ?l ?s] =>
      let Hc := fresh "Hc" in
      pose proof (iterations_of_push_branch l s) as Hc;
      destruct (push_branch l s) as [[[] ?] ?]
  | |- context [undo_branching ?l ?s] =>
      let Hc := fresh "Hc" in
      pose proof (iterations_of_undo_branching l s) as Hc;
      destruct (undo_branching l s) as [? ?]
  | |- context [add_var_bound_for_branch ?b ?l ?s] =>
      let Hc := fresh "Hc" in
      pose proof (iterations_of_add_var_bound_for_branch b l s) as Hc;
      destruct (add_var_bound_for_branch b l s) as [[? ?] ?]
  | |- context [undo_explored_branches ?l ?s] =>
      let Hc := fresh "Hc" in
      pose proof (iterations_of_undo_explored_branches l s) as Hc;
      destruct (undo_explored_branches l s) as [? ?]
  | |- context [lra_pop ?l ?s] =>
      let Hc := fresh "Hc" in
      pose proof (iterations_of_lra_pop l s) as Hc;
      destruct (lra_pop l s) as [? ?]
  | |- context [lra_push ?l ?s] =>
      let Hc := fresh "Hc" in
      pose proof (iterations_of_lra_push l s) as Hc;
      destruct (lra_push l s) as [? ?]
  | |- context [update_branch_stats ?b ?n ?s] =>
      let Hc := fresh "Hc" in
      let u := fresh "u" in
      pose proof (iterations_of_update_branch_stats b n s) as Hc;
      set (u := update_branch_stats b n s) in *; clearbody u
  | |- context [find_feasible_solution ?l] =>
      destruct (find_feasible_solution l) as [? ?]
  | |- context [if bool_decide ?P then _ else _] =>
      destruct (bool_decide P)
  | |- context [if decide ?P then _ else _] =>
      destruct (decide P)
  end.

(** The loop of the brancher, given fuel for the turns that are left: it
    returns, keeps the budget, makes no more turns than the budget leaves, and
    a count that has reached the budget tells that it returned [undef]. *)
Lemma branching_loop_spec `{LarSolver H} (fuel : nat) (b : bool) (lra : H)
    (s : imp) :
  m_max_number_of_iterations s ≤ fuel + Datatypes.S (m_number_of_iterations s) →
  ∃ ret lra' s',
    branching_loop fuel b lra s = Some (ret, lra', s') ∧
    m_max_number_of_iterations s' = m_max_number_of_iterations s ∧
    m_dio_branch_iterations (stats s') + Datatypes.S (m_number_of_iterations s)
    ≤ m_dio_branch_iterations (stats s)
      + m_max_number_of_iterations s `max` Datatypes.S (m_number_of_iterations s) ∧
    m_number_of_iterations s < m_number_of_iterations s' ∧
    (m_max_number_of_iterations s ≤ m_number_of_iterations s' →
     ret = lia_move.undef).
Proof.
  revert b lra s. induction fuel as [|fuel IH]; intros b lra s Hfuel.
  - cbn [branching_loop].
    destruct (bool_decide _) eqn:Ht.
    { apply bool_decide_eq_true in Ht. cbn in Ht. lia. }
    brancher_call. eexists _, _, _. split; [reflexivity|].
    close_counters.
  - cbn [branching_loop].
    destruct (bool_decide _) eqn:Ht.
    2:{ brancher_call. eexists _, _, _. split; [reflexivity|].
        close_counters. }
    apply bool_decide_eq_true in Ht. cbn in Ht.
    destruct b; repeat (brancher_call; cbn [negb]).
    all: first
        [ eexists _, _, _; split; [reflexivity|]; close_counters
        | match goal with
          | |- context [branching_loop _ ?b ?l ?s0] =>
              let Hle := fresh "Hle" in
              assert (m_max_number_of_iterations s0
                      ≤ fuel + Datatypes.S (m_number_of_iterations s0)) as Hle
                by (split_counters; cbn in *; lia);
              destruct (IH b l s0 Hle)
                as (ret & lra' & s' & -> & Hm & Hd & Hn & Hx);
              eexists _, _, _; split; [reflexivity|]; close_counters
          end ].
Qed.

(** X1.  The budget of the brancher is 100 in a new solver.  The loop of
    [branching_on_undef] always returns; it makes at most
    [m_max_number_of_iterations] turns, which the counter
    [m_dio_branch_iterations] counts, and keeps the budget; when the count of
    the turns has reached the budget the loop has returned [undef].  A
    [check] that returns [undef] sets the budget to the larger of 5 and its
    half, any other [check] keeps it, so a budget of at least 5 stays at
    least 5; the loop makes at most as many turns in a [check] as the budget
    it started with, and a [check] whose count of turns has reached the
    budget returns [undef]. *)
Theorem iteration_budget `{LarSolver H} (fuel : nat) (lra : H) (s : imp) :
  m_max_number_of_iterations new_imp = 100 ∧
  (∃ ret lra' s',
     branching_on_undef lra s = Some (ret, lra', s') ∧
     m_max_number_of_iterations s' = m_max_number_of_iterations s ∧
     m_dio_branch_iterations (stats s')
     ≤ m_dio_branch_iterations (stats s) + m_max_number_of_iterations s ∧
     (m_max_number_of_iterations s ≤ m_number_of_iterations s' →
      ret = lia_move.undef)) ∧
  match check fuel lra s with
  | None => True
  | Some (ret, _, s') =>
      m_max_number_of_iterations s'
      = (if decide (ret = lia_move.undef)
         then 5 `max` (m_max_number_of_iterations s / 2)
         else m_max_number_of_iterations s) ∧
      (5 ≤ m_max_number_of_iterations s → 5 ≤ m_max_number_of_iterations s') ∧
      m_dio_branch_iterations (stats s')
      ≤ m_dio_branch_iterations (stats s) + m_max_number_of_iterations s ∧
      (0 < m_max_number_of_iterations s →
       m_max_number_of_iterations s ≤ m_number_of_iterations s' →
       ret = lia_move.undef)
  end.
Proof.
  assert (Hb : ∀ (lra : H) (s : imp), ∃ ret lra' s',
             branching_on_undef lra s = Some (ret, lra', s') ∧
             m_max_number_of_iterations s' = m_max_number_of_iterations s ∧
             m_dio_branch_iterations (stats s')
             ≤ m_dio_branch_iterations (stats s) + m_max_number_of_iterations s ∧
             (m_max_number_of_iterations s ≤ m_number_of_iterations s' →
              ret = lia_move.undef)).
  { intros lra0 s0. unfold branching_on_undef.
    match goal with
    | |- context [branching_loop ?f ?b ?l ?s1] =>
        destruct (branching_loop_spec f b l s1)
          as (ret & lra' & s' & Hl & Hm & Hd & _ & Hx); [cbn; lia|]
    end.
    exists ret, lra', s'. cbn in *. repeat split; [done|done|lia|done]. }
  split; [reflexivity|]. split; [apply Hb|].
  unfold check.
  set (s0 := init lra (set_stats (incr_dio_calls (stats s)) s)).
  assert (Hi : iterations_of s0
               = (m_max_number_of_iterations s, 0,
                  m_dio_branch_iterations (stats s)))
    by (unfold s0; by rewrite iterations_of_init).
  destruct (process_f_and_tighten_terms fuel lra s0)
    as [[[ret1 lra1] s1]|] eqn:Hp; [|done].
  apply iterations_of_process_f_and_tighten_terms in Hp. simpl in Hp.
  rewrite Hi in Hp. clear Hi. clearbody s0.
  destruct (decide (ret1 = lia_move.branch ∨ ret1 = lia_move.conflict))
    as [Hr|Hr].
  { split_counters.
    destruct (decide (ret1 = lia_move.undef)) as [->|_];
      [by destruct Hr|].
    repeat split; intros; lia. }
  destruct (Hb lra1 s1) as (ret & lra' & s' & -> & Hm & Hd & Hx).
  split_counters.
  destruct (decide (ret = lia_move.sat ∨ ret = lia_move.conflict)) as [Hr2|Hr2].
  - destruct (decide (ret = lia_move.undef)) as [->|_];
      [by destruct Hr2|].
    split; [lia|]. split; [lia|]. split; [lia|].
    intros _ Hge. apply Hx. lia.
  - unfold set_m_max_number_of_iterations.
    cbn [m_max_number_of_iterations m_number_of_iterations stats].
    replace (m_max_number_of_iterations s')
      with (m_max_number_of_iterations s) by lia.
    destruct (decide (lia_move.undef = lia_move.undef)); [|done].
    split; [lia|]. split; [lia|]. split; [lia|]. done.
Qed.

Lemma iteration_budget_witness :
  ∃ r, check 0 budget_host new_imp = Some r ∧
       r.1.1 = lia_move.undef ∧
       m_max_number_of_iterations r.2 = 50 ∧
       m_number_of_iterations r.2 = 100 ∧
       m_dio_branch_iterations (stats r.2) = 99.
Proof.
  pose proof (iteration_budget 0 budget_host new_imp) as (_ & _ & Hc).
  assert (Hr : (λ r : lia_move.t * toy_host * imp,
                  (r.1.1, m_number_of_iterations r.2,
                   m_dio_branch_iterations (stats r.2)))
               <$> check 0 budget_host new_imp
               = Some (lia_move.undef, 100, 99))
    by (vm_compute; reflexivity).
  destruct (check 0 budget_host new_imp) as [[[ret lra'] s']|]; [|done].
  injection Hr as -> Hn Hd.
  exists (lia_move.undef, lra', s'). split; [reflexivity|].
  destruct Hc as (Hm & _). 
  destruct (decide (lia_move.undef = lia_move.undef)); [|done].
  repeat split; assumption.
Defined.

(** ** The cut from the proof of a conflict of the normalization *)

Lemma cut_of_report (s s' : imp) :
  report_of s' = report_of s → cut_of s' = cut_of s.
Proof. unfold report_of, cut_of. congruence. Qed.

Lemma report_of_init `{LarSolver H} (lra : H) s :
  report_of (init lra s)
  = (m_max_number_of_iterations s, 0, stats s, set_lia_term ∅ (lia s), false,
     None).
Proof.
  unfold init. autorewrite with frame.
  rewrite fold_left_frame; [by autorewrite with frame|].
  intros s0 t. by autorewrite with frame.
Qed.

Lemma cut_of_init `{LarSolver H} (lra : H) s :
  cut_of (init lra s) = (set_lia_term ∅ (lia s), false, stats s).
Proof.
  pose proof (report_of_init lra s) as Hi.
  generalize dependent (init lra s). intros s0.
  unfold report_of, cut_of. intros [= _ _ -> -> -> _]. done.
Qed.

Lemma report_of_normalize_e_by_gcd `{LarSolver H} (lra : H) i s s' :
  normalize_e_by_gcd lra i s = (true, s') → report_of s' = report_of s.
Proof.
  unfold normalize_e_by_gcd.
  destruct (_ || _); [by intros [= <-]|].
  destruct (is_int _); [by intros [= <-]|].
  by destruct (_ && _).
Qed.

Lemma report_of_normalize_by_gcd_loop `{LarSolver H} (lra : H) f s s' :
  normalize_by_gcd_loop lra f s = (true, s') → report_of s' = report_of s.
Proof.
  revert s. induction f as [|l f IH]; intros s; simpl.
  - by intros [= <-].
  - destruct (normalize_e_by_gcd lra l s) as [[] s1] eqn:Hn; [|done].
    apply report_of_normalize_e_by_gcd in Hn. intros Hl%IH. congruence.
Qed.

Lemma cut_of_rewrite_eqs s : cut_of (rewrite_eqs s) = cut_of s.
Proof.
  unfold rewrite_eqs.
  destruct (rewrite_eqs_scan s (m_f s)) as [f [[i|] [h|]]]; try reflexivity.
  destruct (find_minimal_abs_coeff _ h) as [[ahk k] k_sign].
  destruct (is_one ahk); apply cut_of_report; by autorewrite with frame.
Qed.

Lemma cut_of_process_f_turns `{LarSolver H} (lra : H) n s t :
  process_f_turns lra n s t → cut_of t = cut_of s.
Proof.
  induction 1 as [|n s s1 t Hf Hn Hc Ht IH]; [done|].
  rewrite IH, cut_of_rewrite_eqs. apply cut_of_report.
  by eapply report_of_normalize_by_gcd_loop.
Qed.

(** The turns without a conflict use one unit of fuel each. *)
Lemma process_f_after_turns `{LarSolver H} (lra : H) n fuel s t :
  process_f_turns lra n s t →
  process_f (n + fuel) lra s = process_f fuel lra t.
Proof.
  induction 1 as [|n s s1 t Hf Hn Hc Ht IH]; [done|].
  cbn [Nat.add process_f].
  destruct (m_f s); [done|]. rewrite Hn. cbn [negb]. by rewrite Hc.
Qed.

Lemma term_of_row_fold `{Countable V} {A} (f : A → V * mpq) (r : list A)
    (t : gmap V mpq) :
  fold_left (λ t p, add_monomial (f p).2 (f p).1 t) r t
  = fold_left (λ t p, add_monomial p.2 p.1 t) (f <$> r) t.
Proof. revert t. induction r as [|x r IH]; intros t; simpl; [done|apply IH]. Qed.

(** What [normalize_e_by_gcd] does on a row whose gcd does not divide the
    constant. *)
Lemma normalize_e_by_gcd_conflict `{LarSolver H} (lra : H) (i : nat) (s : imp) :
  let g := gcd_of_coeffs (row_at (m_e_matrix s) i) in
  let q := (m_c (entry_at s i) / g)%Qc in
  is_zero g = false → is_one g = false → is_int q = false →
  normalize_e_by_gcd lra i s
  = (false,
     if cut_is_due lra s i then prepare_lia_branch_report i g q s else s).
Proof.
  intros g q Hz Ho Hq. unfold normalize_e_by_gcd.
  fold g. rewrite Hz, Ho. cbn [orb]. fold q. rewrite Hq.
  unfold cut_is_due. by destruct (_ && _).
Qed.

(** X2.  Let the period of the cuts be other than 0 and the counter of the
    calls of [check] be below UINT_MAX, so that the modulo is defined and
    the counter does not wrap.  Let a [check] reach, after [n] turns of the
    loop of [process_f]
    without a conflict, a state [t] in which the normalization passes the
    rows [pre] of F and then finds a conflict on the row [i]: the gcd [g] of
    the row is neither 0 nor 1 and [c_i / g] is not an integer.  If the row
    has no fresh variable and the period of the cuts divides the number of
    the calls of [check], the [check] returns [branch] and the pending cut is
    the term of the coefficients of the row divided by [g], over the columns
    of the host, with the offset [floor(-c_i/g)] and [is_upper = true];
    otherwise the [check] returns [conflict].  In both cases the row [i] is
    recorded as the row of the conflict. *)
Theorem cut_from_proof `{LarSolver H} (fuel n : nat) (lra : H) (s t ti : imp)
    (pre post : list nat) (i : nat) :
  let g := gcd_of_coeffs (row_at (m_e_matrix ti) i) in
  let q := (m_c (entry_at ti i) / g)%Qc in
  dio_cut_from_proof_period lra ≠ 0 →
  (N.of_nat (m_dio_calls (stats s)) < UINT_MAX)%N →
  process_f_turns lra n (init lra (set_stats (incr_dio_calls (stats s)) s)) t →
  n < fuel →
  m_f t = pre ++ i :: post →
  normalize_by_gcd_loop lra pre t = (true, ti) →
  is_zero g = false → is_one g = false → is_int q = false →
  ∃ s',
    check fuel lra s
    = Some (if cut_is_due lra ti i then lia_move.branch else lia_move.conflict,
            lra, s') ∧
    m_conflict_index s' = Some i ∧
    m_dio_calls (stats ti) = Datatypes.S (m_dio_calls (stats s)) ∧
    if cut_is_due lra ti i
    then lia s' = {| lia_term := cut_term ti i g;
                     lia_offset := floor (- q);
                     lia_is_upper := true |}
    else lia_term (lia s') = ∅.
Proof.
  intros g q _ _ Hturns Hfuel Hf Hpre Hz Ho Hq.
  pose proof (cut_of_init lra (set_stats (incr_dio_calls (stats s)) s))
    as Hinit.
  change (stats (set_stats (incr_dio_calls (stats s)) s))
    with (incr_dio_calls (stats s)) in Hinit.
  change (lia (set_stats (incr_dio_calls (stats s)) s)) with (lia s) in Hinit.
  unfold check.
  generalize dependent (init lra (set_stats (incr_dio_calls (stats s)) s)).
  intros s0 Hturns Hinit.
  pose proof (cut_of_process_f_turns lra n s0 t Hturns) as Ht.
  pose proof (report_of_normalize_by_gcd_loop lra pre t ti Hpre) as Hti.
  assert (Hcut : cut_of ti
                 = (set_lia_term ∅ (lia s), false,
                    incr_dio_calls (stats s))).
  { rewrite (cut_of_report _ _ Hti), Ht. exact Hinit. }
  unfold cut_of in Hcut. injection Hcut as Hlia Hrep Hstats.
  assert (Hnorm : normalize_by_gcd lra t
                  = (false,
                     set_m_conflict_index (Some i)
                       (if cut_is_due lra ti i
                        then prepare_lia_branch_report i g q ti else ti))).
  { unfold normalize_by_gcd. rewrite Hf.
    rewrite (normalize_by_gcd_loop_app lra pre (i :: post) t ti Hpre).
    cbn [normalize_by_gcd_loop].
    by rewrite (normalize_e_by_gcd_conflict lra i ti Hz Ho Hq). }
  assert (Hpf : process_f fuel lra s0
                = process_f (Datatypes.S (fuel - n - 1)) lra t).
  { rewrite <- (process_f_after_turns lra n _ s0 t Hturns). f_equal. lia. }
  unfold process_f_and_tighten_terms.
  rewrite Hpf. cbn [process_f]. rewrite Hf.
  destruct (pre ++ i :: post) eqn:Hne; [by destruct pre|].
  rewrite Hnorm. cbn [negb].
  destruct (cut_is_due lra ti i).
  - cbn [prepare_lia_branch_report m_report_branch set_m_conflict_index
         set_m_report_branch].
    eexists. split; [reflexivity|].
    split; [reflexivity|]. split; [by rewrite Hstats|].
    cbn [lia set_m_report_branch set_stats set_m_conflict_index set_lia].
    unfold prepare_lia_branch_report.
    cbn [lia set_m_report_branch set_lia].
    unfold cut_term, term_of_row. rewrite Hlia.
    unfold set_lia_is_upper, set_lia_offset, set_lia_term.
    cbn [lia_term lia_offset lia_is_upper]. f_equal.
    apply (term_of_row_fold
             (λ p : nat * mpq, (local_to_lar_solver ti p.1, (p.2 / g)%Qc))).
  - cbn [m_report_branch set_m_conflict_index]. rewrite Hrep.
    eexists. split; [reflexivity|].
    split; [reflexivity|]. split; [by rewrite Hstats|].
    cbn. by rewrite Hlia.
Qed.

Lemma cut_from_proof_witness :
  ∃ s', check 1 cut_host cut_example = Some (lia_move.branch, cut_host, s') ∧
        m_conflict_index s' = Some 0 ∧
        lia_is_upper (lia s') = true ∧
        lia_offset (lia s') = z 1 ∧
        lia_term (lia s') = cut_term cut_start 0 (z 2).
Proof.
  assert (Hdue : cut_is_due cut_host cut_start 0 = true)
    by (vm_compute; reflexivity).
  assert (Hg : gcd_of_coeffs (row_at (m_e_matrix cut_start) 0) = z 2)
    by by_compute.
  destruct (cut_from_proof 1 0 cut_host cut_example cut_start cut_start
              [] [] 0) as (s' & Hcheck & Hi & _ & Hlia).
  - vm_compute. lia.
  - vm_compute. reflexivity.
  - constructor.
  - lia.
  - vm_compute. reflexivity.
  - reflexivity.
  - vm_compute. reflexivity.
  - vm_compute. reflexivity.
  - vm_compute. reflexivity.
  - rewrite Hdue in Hcheck, Hlia. exists s'.
    split; [exact Hcheck|]. split; [exact Hi|].
    rewrite Hlia, Hg. cbn [lia_is_upper lia_offset lia_term].
    split; [reflexivity|]. split; [by_compute|reflexivity].
Defined.

(** ** The conflict of the normalization leaves the rows alone *)

Section rows_of.
Context (s s' : imp) (Hrows : rows_of s' = rows_of s).

Lemma rows_of_e_matrix : m_e_matrix s' = m_e_matrix s.
Proof using Hrows. unfold rows_of in Hrows. congruence. Qed.

Lemma rows_of_l_matrix : m_l_matrix s' = m_l_matrix s.
Proof using Hrows. unfold rows_of in Hrows. congruence. Qed.

Lemma rows_of_entries : m_entries s' = m_entries s.
Proof using Hrows. unfold rows_of in Hrows. congruence. Qed.

Lemma rows_of_var_register : m_var_register s' = m_var_register s.
Proof using Hrows. unfold rows_of in Hrows. congruence. Qed.

Lemma rows_of_fresh_definitions :
  m_fresh_definitions s' = m_fresh_definitions s.
Proof using Hrows. unfold rows_of in Hrows. congruence. Qed.

Lemma rows_of_get_term_from_entry i :
  get_term_from_entry s' i = get_term_from_entry s i.
Proof using Hrows.
  unfold get_term_from_entry, entry_at.
  by rewrite rows_of_e_matrix, rows_of_entries.
Qed.

Lemma rows_of_local_to_lar_solver j :
  local_to_lar_solver s' j = local_to_lar_solver s j.
Proof using Hrows. unfold local_to_lar_solver. by rewrite rows_of_var_register. Qed.

Lemma rows_of_is_fresh_var j : is_fresh_var s' j = is_fresh_var s j.
Proof using Hrows. unfold is_fresh_var. by rewrite rows_of_local_to_lar_solver. Qed.

Lemma rows_of_fresh_term xt : fresh_term s' xt = fresh_term s xt.
Proof using Hrows.
  unfold fresh_term, fresh_definition_at.
  rewrite rows_of_fresh_definitions.
  destruct (m_ei _); [|done]. by rewrite rows_of_get_term_from_entry.
Qed.

Lemma rows_of_fresh_vars_of t : fresh_vars_of s' t = fresh_vars_of s t.
Proof using Hrows.
  unfold fresh_vars_of, is_fresh_var, local_to_lar_solver.
  by rewrite rows_of_var_register.
Qed.

Lemma rows_of_remove_fresh_vars_loop fuel q t :
  remove_fresh_vars_loop fuel s' q t = remove_fresh_vars_loop fuel s q t.
Proof using Hrows.
  revert q t. induction fuel as [|fuel IH]; intros [|xt q] t; simpl; try done.
  rewrite rows_of_fresh_term. destruct (negb _); [apply IH|].
  rewrite rows_of_fresh_vars_of. apply IH.
Qed.

Lemma rows_of_term_to_lar_solver t :
  term_to_lar_solver s' t = term_to_lar_solver s t.
Proof using Hrows.
  unfold term_to_lar_solver, local_to_lar_solver.
  by rewrite rows_of_var_register.
Qed.

Lemma rows_of_entry_invariant `{LarSolver H} (fuel : nat) (lra : H) (i : nat) :
  entry_invariant fuel lra s' i = entry_invariant fuel lra s i.
Proof using Hrows.
  unfold entry_invariant, remove_fresh_vars.
  rewrite rows_of_e_matrix, rows_of_l_matrix, rows_of_get_term_from_entry,
    rows_of_fresh_vars_of, rows_of_remove_fresh_vars_loop.
  destruct (remove_fresh_vars_loop _ _ _ _); [|done].
  by rewrite rows_of_term_to_lar_solver.
Qed.

End rows_of.

(** A conflict of the normalization of a row leaves the rows, the constants,
    the register and the fresh definitions alone. *)
Lemma rows_of_normalize_e_by_gcd_conflict `{LarSolver H} (lra : H) (i : nat)
    (s : imp) :
  (normalize_e_by_gcd lra i s).1 = false →
  rows_of (normalize_e_by_gcd lra i s).2 = rows_of s.
Proof.
  unfold normalize_e_by_gcd.
  destruct (_ || _); [done|]. destruct (is_int _); [done|].
  by destruct (_ && _).
Qed.

Lemma normalize_e_by_gcd_conflict_inv `{LarSolver H} (lra : H) (i : nat)
    (s : imp) :
  let g := gcd_of_coeffs (row_at (m_e_matrix s) i) in
  (normalize_e_by_gcd lra i s).1 = false →
  is_zero g = false ∧ is_one g = false
  ∧ is_int (m_c (entry_at s i) / g)%Qc = false.
Proof.
  intros g. unfold normalize_e_by_gcd. fold g.
  destruct (is_zero g); [done|]. destruct (is_one g); [done|]. cbn [orb].
  by destruct (is_int _).
Qed.

(** X3.  Let [normalize_e_by_gcd] find a conflict on the row [i] of the state [s]
    and [u] be the state [normalize_by_gcd] returns then.  The gcd [g] of the
    row is neither 0 nor 1 and [c_i / g] is not an integer; the matrices E and
    L and the entries of [u] are those of [s]: nothing was divided; every row
    satisfies the entry invariant in [u] exactly when it does in [s]; the row
    [i] is the recorded row of the conflict, and [explain] adds the
    constraints that fix the columns of the opened row [i] of L as it was
    before the call. *)
Theorem normalize_conflict_keeps_rows `{LarSolver H} (lra : H) (i : nat)
    (s : imp) :
  let g := gcd_of_coeffs (row_at (m_e_matrix s) i) in
  let u := set_m_conflict_index (Some i) (normalize_e_by_gcd lra i s).2 in
  (normalize_e_by_gcd lra i s).1 = false →
  (is_zero g = false ∧ is_one g = false
   ∧ is_int (m_c (entry_at s i) / g)%Qc = false) ∧
  (m_e_matrix u = m_e_matrix s ∧ m_l_matrix u = m_l_matrix s
   ∧ m_entries u = m_entries s) ∧
  (∀ fuel k, entry_invariant fuel lra u k = entry_invariant fuel lra s k) ∧
  (∀ pre post t,
     normalize_by_gcd_loop lra pre t = (true, s) →
     normalize_by_gcd_loop lra (pre ++ i :: post) t = (false, u)) ∧
  ∀ ex, explain lra u ex
        = ex ++ flatten (explain_fixed_in_meta_term lra
                           (row_at (m_l_matrix s) i)).
Proof.
  intros g u Hc.
  pose proof (rows_of_normalize_e_by_gcd_conflict lra i s Hc) as Hrows.
  assert (Hu : rows_of u = rows_of s) by exact Hrows.
  split; [exact (normalize_e_by_gcd_conflict_inv lra i s Hc)|].
  split.
  { pose proof (rows_of_e_matrix _ _ Hu). pose proof (rows_of_l_matrix _ _ Hu).
    pose proof (rows_of_entries _ _ Hu). done. }
  split; [intros fuel k; apply (rows_of_entry_invariant _ _ Hu)|].
  split.
  - intros pre post t Hpre.
    rewrite (normalize_by_gcd_loop_app lra pre (i :: post) t s Hpre).
    cbn [normalize_by_gcd_loop].
    destruct (normalize_e_by_gcd lra i s) as [ok s1]. simpl in Hc. by subst ok.
  - intros ex. unfold explain.
    change (m_conflict_index u) with (Some i).
    by rewrite (rows_of_l_matrix _ _ Hu).
Qed.

Lemma normalize_conflict_keeps_rows_witness :
  let u := (normalize_by_gcd cut_host cut_start).2 in
  m_conflict_index u = Some 0 ∧ entry_invariant 5 cut_host u 0 = true.
Proof.
  assert (Hc : (normalize_e_by_gcd cut_host 0 cut_start).1 = false)
    by (vm_compute; reflexivity).
  destruct (normalize_conflict_keeps_rows cut_host 0 cut_start Hc)
    as (_ & _ & Hinv & Hloop & _).
  assert (Hf : m_f cut_start = [] ++ [0]) by (vm_compute; reflexivity).
  unfold normalize_by_gcd. rewrite Hf.
  rewrite (Hloop [] [] cut_start eq_refl). cbn [snd].
  split; [reflexivity|]. rewrite Hinv. vm_compute. reflexivity.
Defined.

(** ** The normalization keeps the solutions *)

Lemma row_value_app {V} (x : V → mpq) (r1 r2 : list (V * mpq)) :
  (row_value x (r1 ++ r2) = row_value x r1 + row_value x r2)%Qc.
Proof.
  induction r1 as [|p r1 IH]; simpl; [ring|]. rewrite IH. ring.
Qed.

Lemma row_value_divide {V} (x : V → mpq) (g : mpq) (r : list (V * mpq)) :
  (row_value x (map (λ p, (p.1, (p.2 / g)%Qc)) r) = row_value x r / g)%Qc.
Proof.
  induction r as [|p r IH]; simpl.
  - unfold Qcdiv. ring.
  - rewrite IH. unfold Qcdiv. ring.
Qed.

(** The value of a row of integers under integers is a multiple of every
    common divisor of the coefficients. *)
Lemma row_value_multiple {V} (x : V → mpq) (r : list (V * mpq)) (G : Z) :
  integral x →
  Forall (λ p : V * mpq, is_int p.2 = true) r →
  (∀ p : V * mpq, p ∈ r → (G | Qnum p.2)%Z) →
  ∃ m : Z, row_value x r = Qc_of_Z (G * m).
Proof.
  intros Hx. induction r as [|p r IH]; intros Hr HG; simpl.
  - exists 0%Z. by rewrite Z.mul_0_r, Qc_of_Z_0.
  - apply Forall_cons in Hr as [Hp Hr].
    destruct IH as [m Hm]; [done|intros q Hq; apply HG; by right|].
    destruct (HG p) as [k Hk]; [by left|].
    exists (k * Qnum (x p.1) + m)%Z.
    rewrite Hm. apply is_int_spec in Hp. rewrite Hp at 1.
    rewrite (proj1 (is_int_spec _) (Hx p.1)) at 1.
    rewrite Hk, <- Qc_of_Z_mult, <- Qc_of_Z_plus. f_equal. lia.
Qed.

Lemma row_at_divide_row {V} (m : list (list (V * mpq))) (i k : nat) (g : mpq) :
  row_at (divide_row i g m) k
  = if decide (k = i) then map (λ p, (p.1, (p.2 / g)%Qc)) (row_at m i)
    else row_at m k.
Proof.
  unfold divide_row. destruct (decide (k = i)) as [->|Hne].
  - destruct (decide (i < length m)) as [Hi|Hi].
    + by rewrite row_at_alter_eq.
    + unfold row_at. rewrite list_lookup_alter_eq.
      by rewrite lookup_ge_None_2 by lia.
  - by rewrite row_at_alter_ne.
Qed.

Lemma m_c_alter_set_entry_c (l : list entry) (i k : nat) (g : mpq) :
  m_c (default default_entry
         (alter (set_entry_c (m_c (default default_entry (l !! i)) / g)%Qc) i l
          !! k))
  = if decide (k = i) then (m_c (default default_entry (l !! i)) / g)%Qc
    else m_c (default default_entry (l !! k)).
Proof.
  destruct (decide (k = i)) as [->|Hne].
  - rewrite list_lookup_alter_eq. destruct (l !! i); simpl; [done|].
    unfold Qcdiv. ring.
  - by rewrite list_lookup_alter_ne.
Qed.

(** A row of integers whose gcd does not divide the constant has no
    solution in the integers. *)
Lemma normalize_conflict_unsat `{LarSolver H} (lra : H) (i : nat) (s : imp) :
  (normalize_e_by_gcd lra i s).1 = false →
  Forall (λ p : nat * mpq, is_int p.2 = true) (row_at (m_e_matrix s) i) →
  ∀ x, integral x → ¬ row_holds x s i.
Proof.
  intros Hc Hint x Hx Hrow.
  destruct (normalize_e_by_gcd_conflict_inv lra i s Hc) as (Hz & _ & Hq).
  rewrite (gcd_of_coeffs_correct _ Hint) in Hz, Hq.
  apply is_zero_false in Hz.
  destruct (row_value_multiple x (row_at (m_e_matrix s) i)
              (row_gcd (row_at (m_e_matrix s) i)) Hx Hint) as [m Hm].
  { intros p Hp. by apply row_gcd_divides. }
  unfold row_holds in Hrow. rewrite Hm in Hrow.
  assert (Hcq : (m_c (entry_at s i)
                 / Qc_of_Z (row_gcd (row_at (m_e_matrix s) i)))%Qc
                = Qc_of_Z (- m)).
  { apply (f_equal (λ q, (q - Qc_of_Z (row_gcd (row_at (m_e_matrix s) i) * m))%Qc))
      in Hrow.
    ring_simplify in Hrow. rewrite Hrow, Qc_of_Z_mult, Qc_of_Z_opp.
    field. done. }
  rewrite Hcq, is_int_Qc_of_Z in Hq. done.
Qed.

(** X4.  [normalize_e_by_gcd] is sound.  When it succeeds, every row of E has
    the same solutions after the call as before it, over the rationals and so
    over the integers.  When it reports a conflict on a row of integer
    coefficients, no assignment of integers satisfies the equation of the
    row. *)
Theorem normalize_e_by_gcd_sound `{LarSolver H} (lra : H) (i : nat) (s : imp) :
  let r := normalize_e_by_gcd lra i s in
  (r.1 = true → ∀ x k, row_holds x r.2 k ↔ row_holds x s k) ∧
  (r.1 = false →
   Forall (λ p : nat * mpq, is_int p.2 = true) (row_at (m_e_matrix s) i) →
   ∀ x, integral x → ¬ row_holds x s i).
Proof.
  intros r. split.
  - subst r. unfold normalize_e_by_gcd.
    destruct (is_zero _ || is_one _) eqn:Hg; [done|].
    apply orb_false_iff in Hg as [Hz%is_zero_false _].
    destruct (is_int _); [|by destruct (_ && _)].
    intros _ x k. unfold row_holds, entry_at. cbn.
    rewrite row_at_divide_row, m_c_alter_set_entry_c.
    destruct (decide (k = i)) as [->|Hne]; [|done].
    rewrite row_value_divide.
    set (g := gcd_of_coeffs _) in *. set (v := row_value x _).
    set (c := m_c _).
    replace (v / g + c / g)%Qc with ((v + c) / g)%Qc
      by (unfold Qcdiv; ring).
    split.
    + intros Hd.
      assert (Heq : (v + c = (v + c) / g * g)%Qc) by (field; done).
      rewrite Heq, Hd. ring.
    + intros ->. unfold Qcdiv. ring.
  - intros Hc Hint x Hx. by eapply normalize_conflict_unsat.
Qed.

Lemma normalize_e_by_gcd_sound_witness :
  (normalize_e_by_gcd cut_host 0 cut_start).1 = false ∧
  ¬ row_holds (λ _, z 0) cut_start 0.
Proof.
  assert (Hr : (normalize_e_by_gcd cut_host 0 cut_start).1 = false)
    by (vm_compute; reflexivity).
  split; [exact Hr|].
  apply (proj2 (normalize_e_by_gcd_sound cut_host 0 cut_start) Hr).
  - by_compute.
  - intros j. reflexivity.
Defined.

(** ** The elimination keeps the solutions *)

Section row_values.
Context {V : Type} `{EqDecision V}.
Implicit Types (r src dst : list (V * mpq)) (x : V → mpq).

Lemma row_value_add_value x j w r :
  (row_value x (row_add_value j w r) = row_value x r + w * x j)%Qc.
Proof.
  induction r as [|p r IH]; simpl; [ring|].
  destruct (decide (p.1 = j)) as [<-|Hne]; simpl; [ring|].
  rewrite IH. ring.
Qed.

Lemma row_value_fold_add_value x alpha src dst :
  (row_value x (fold_left (λ r p, row_add_value p.1 (alpha * p.2)%Qc r) src dst)
   = row_value x dst + alpha * row_value x src)%Qc.
Proof.
  revert dst. induction src as [|p src IH]; intros dst; simpl; [ring|].
  rewrite IH, row_value_add_value. ring.
Qed.

Lemma row_value_drop_zeros x r : row_value x (drop_zeros r) = row_value x r.
Proof.
  unfold drop_zeros. induction r as [|p r IH]; [done|].
  rewrite filter_cons. destruct (decide (p.2 ≠ 0%Qc)) as [Hp|Hp]; simpl.
  - by rewrite IH.
  - rewrite IH. apply dec_stable in Hp. rewrite Hp. ring.
Qed.

Lemma row_value_add_scaled x alpha src dst :
  (row_value x (row_add_scaled alpha src dst)
   = row_value x dst + alpha * row_value x src)%Qc.
Proof.
  unfold row_add_scaled.
  by rewrite row_value_drop_zeros, row_value_fold_add_value.
Qed.

Lemma row_coeff_absent j r : (∀ p, p ∈ r → p.1 ≠ j) → row_coeff j r = 0%Qc.
Proof.
  intros Hr. unfold row_coeff. by rewrite (proj2 (find_cell_None j r)).
Qed.

Lemma row_coeff_cons j p r :
  row_coeff j (p :: r) = if decide (p.1 = j) then p.2 else row_coeff j r.
Proof.
  unfold row_coeff, find_cell. simpl.
  destruct (decide (p.1 = j)); [done|].
  by destruct (list_find _ r) as [[]|].
Qed.

(** A row with one cell a column, without the cell of the column [j]. *)
Lemma row_value_without x j r :
  NoDup r.*1 →
  (row_value x (filter (λ p, p.1 ≠ j) r)
   = row_value x r - row_coeff j r * x j)%Qc.
Proof.
  induction r as [|p r IH]; intros Hnd; simpl.
  - unfold row_coeff. simpl. ring.
  - apply NoDup_cons in Hnd as [Hp Hnd].
    rewrite filter_cons, row_coeff_cons.
    destruct (decide (p.1 ≠ j)) as [Hne|Heq]; simpl.
    + rewrite IH by done. rewrite decide_False by done. ring.
    + apply dec_stable in Heq. rewrite decide_True by done.
      rewrite IH by done. rewrite row_coeff_absent; [subst j; ring|].
      intros q Hq Hqj. apply Hp. rewrite Heq, <- Hqj.
      by apply list_elem_of_fmap_2.
Qed.

End row_values.

(** The equation of an eliminated row is the equation of the row minus a
    multiple of the equation of the pivot row. *)
Lemma row_value_eliminated (x : nat → mpq) (piv r : list (nat * mpq))
    (j : nat) (sign : Z) :
  (sign = 1 ∨ sign = -1)%Z →
  NoDup piv.*1 → NoDup r.*1 →
  row_coeff j piv = of_Z sign →
  (row_value x (eliminated_row piv j (of_Z sign) r)
   = row_value x r - of_Z sign * row_coeff j r * row_value x piv)%Qc.
Proof.
  intros Hsign Hpiv Hr Hc. unfold eliminated_row.
  rewrite row_value_add_scaled, !row_value_without by done.
  rewrite Hc.
  assert (Hsq : (of_Z sign * of_Z sign = 1)%Qc).
  { unfold of_Z. rewrite <- Qc_of_Z_mult.
    destruct Hsign as [-> | ->]; apply Qc_of_Z_1. }
  transitivity
    (row_value x r - of_Z sign * row_coeff j r * row_value x piv
     + (of_Z sign * of_Z sign - 1) * row_coeff j r * x j)%Qc; [ring|].
  rewrite Hsq. ring.
Qed.

(** X5.  [eliminate_var_in_f] is sound.  Let the rows have one cell a column
    and the pivot row [ei] hold [j] with the coefficient [j_sign], which is 1
    or -1.  After the elimination no row of F other than [ei] has a cell of
    [j], and an assignment that satisfies the equation of the pivot row
    satisfies the equation of a row after the elimination exactly when it
    satisfies it before: the system has the same solutions. *)
Theorem eliminate_var_in_f_sound (ei j : nat) (j_sign : Z) (s : imp) :
  let s' := eliminate_var_in_f ei j j_sign s in
  rows_aligned s →
  (j_sign = 1 ∨ j_sign = -1)%Z →
  row_coeff j (row_at (m_e_matrix s) ei) = of_Z j_sign →
  (∀ k, NoDup (row_at (m_e_matrix s) k).*1) →
  (∀ k, k ≠ ei → status_at s' k = entry_status.F →
        row_has j (row_at (m_e_matrix s') k) = false) ∧
  ∀ x, row_holds x s ei → ∀ k, row_holds x s' k ↔ row_holds x s k.
Proof.
  intros s' Hal Hsign Hc Hnd. split.
  { intros k Hk HF. by apply eliminate_var_in_f_no_var. }
  intros x Hpiv k.
  destruct (eliminate_var_in_f_spec ei j j_sign s Hal)
    as (_ & _ & _ & Hst & Hkeep & Helim).
  fold s' in Hst, Hkeep, Helim.
  set (l := filter (λ i, i ≠ ei) (column j (m_e_matrix s))) in *.
  destruct (decide (k ∈ l ∧ status_at s k = entry_status.F)) as [[Hk HF]|Hno].
  - destruct (Helim k Hk HF) as (HE & _ & Hck).
    unfold row_holds in *. rewrite HE, Hck.
    rewrite row_value_eliminated by done.
    set (a := (of_Z j_sign * row_coeff j (row_at (m_e_matrix s) k))%Qc).
    set (vk := row_value x (row_at (m_e_matrix s) k)).
    set (ck := m_c (entry_at s k)).
    replace (vk - a * row_value x (row_at (m_e_matrix s) ei)
             + (ck - a * m_c (entry_at s ei)))%Qc
      with (vk + ck
            - a * (row_value x (row_at (m_e_matrix s) ei)
                   + m_c (entry_at s ei)))%Qc by ring.
    rewrite Hpiv. by replace (vk + ck - a * 0)%Qc with (vk + ck)%Qc by ring.
  - destruct (Hkeep k) as (HE & _ & He).
    { apply not_and_l in Hno as [?|?]; [by left|by right]. }
    unfold row_holds. by rewrite HE, He.
Qed.

Lemma eliminate_var_in_f_sound_witness :
  let s := uniqueness_start in
  let s' := eliminate_var_in_f 1 1 1 s in
  row_has 1 (row_at (m_e_matrix s') 0) = false ∧
  ∀ x, row_holds x s 1 → ∀ k, row_holds x s' k ↔ row_holds x s k.
Proof.
  intros s s'.
  destruct (eliminate_var_in_f_sound 1 1 1 s) as [Hno Hsol].
  - split; reflexivity.
  - by left.
  - by_compute.
  - intros [|[|k]]; [by_compute|by_compute|].
    rewrite row_at_ge; [constructor|]. vm_compute. lia.
  - split; [|exact Hsol]. apply Hno; [done|]. vm_compute. reflexivity.
Defined.

(** ** The tightened bound keeps the integer points *)

Lemma Qc_of_Z_le_iff (a b : Z) : (Qc_of_Z a ≤ Qc_of_Z b)%Qc ↔ (a ≤ b)%Z.
Proof. unfold Qcle, Qle. simpl. lia. Qed.

Lemma this_Qc_of_Z (k : Z) : (this (Qc_of_Z k) == inject_Z k)%Q.
Proof. unfold Qc_of_Z, Q2Qc. cbn [this]. reflexivity. Qed.

Lemma floor_le (q : mpq) : (floor q ≤ q)%Qc.
Proof.
  unfold floor, Qcle. rewrite this_Qc_of_Z. apply Qfloor_le.
Qed.

Lemma le_ceil (q : mpq) : (q ≤ ceil q)%Qc.
Proof.
  unfold ceil, Qcle. rewrite this_Qc_of_Z. apply Qle_ceiling.
Qed.

Lemma floor_greatest (k : Z) (q : mpq) :
  (Qc_of_Z k ≤ q)%Qc → (Qc_of_Z k ≤ floor q)%Qc.
Proof.
  unfold floor. rewrite Qc_of_Z_le_iff. unfold Qcle.
  rewrite this_Qc_of_Z. intros Hk.
  rewrite <- (Qfloor_Z k). by apply Qfloor_resp_le.
Qed.

Lemma ceil_least (k : Z) (q : mpq) :
  (q ≤ Qc_of_Z k)%Qc → (ceil q ≤ Qc_of_Z k)%Qc.
Proof.
  unfold ceil. rewrite Qc_of_Z_le_iff. unfold Qcle.
  rewrite this_Qc_of_Z. intros Hk.
  rewrite <- (Qceiling_Z k). by apply Qceiling_resp_le.
Qed.

Lemma floor_lt (q : mpq) : is_int q = false → (floor q < q)%Qc.
Proof.
  intros Hq.
  destruct (Qcle_lt_or_eq _ _ (floor_le q)) as [?|Heq]; [done|].
  unfold floor in Heq. rewrite <- Heq in Hq. by rewrite is_int_Qc_of_Z in Hq.
Qed.

Lemma lt_ceil (q : mpq) : is_int q = false → (q < ceil q)%Qc.
Proof.
  intros Hq.
  destruct (Qcle_lt_or_eq _ _ (le_ceil q)) as [?|Heq]; [done|].
  unfold ceil in Heq. rewrite Heq in Hq. by rewrite is_int_Qc_of_Z in Hq.
Qed.

Section affine.
Local Open Scope Qc_scope.
Context (g c : mpq) (Hg : 0 < g).

Lemma affine_nonzero : g ≠ 0.
Proof using Hg. intros ->. by apply Qclt_not_eq in Hg. Qed.

Lemma affine_le (x y : mpq) : x ≤ y → g * x + c ≤ g * y + c.
Proof using Hg.
  intros Hxy. apply Qcplus_le_compat; [|apply Qcle_refl].
  rewrite !(Qcmult_comm g). apply Qcmult_le_compat_r; [done|].
  by apply Qclt_le_weak.
Qed.

Lemma affine_lt (x y : mpq) : x < y → g * x + c < g * y + c.
Proof using Hg.
  intros Hxy. apply (proj2 (Qclt_minus_iff _ _)).
  replace (g * y + c + - (g * x + c)) with (y * g + - (x * g)) by ring.
  apply (proj1 (Qclt_minus_iff _ _)). by apply Qcmult_lt_compat_r.
Qed.

Lemma affine_inv (r : mpq) : g * ((r - c) / g) + c = r.
Proof using Hg.
  field. apply affine_nonzero.
Qed.

Lemma affine_le_inv (x r : mpq) : g * x + c ≤ r → x ≤ (r - c) / g.
Proof using Hg.
  intros Hle. apply (Qcmult_lt_0_le_reg_r _ _ g Hg).
  replace ((r - c) / g * g) with (r - c)
    by (field; apply affine_nonzero).
  apply (proj2 (Qcle_minus_iff _ _)).
  apply (proj1 (Qcle_minus_iff _ _)) in Hle.
  by replace (r - c + - (x * g)) with (r + - (g * x + c)) by ring.
Qed.

Lemma affine_ge_inv (x r : mpq) : r ≤ g * x + c → (r - c) / g ≤ x.
Proof using Hg.
  intros Hle. apply (Qcmult_lt_0_le_reg_r _ _ g Hg).
  replace ((r - c) / g * g) with (r - c)
    by (field; apply affine_nonzero).
  apply (proj2 (Qcle_minus_iff _ _)).
  apply (proj1 (Qcle_minus_iff _ _)) in Hle.
  by replace (x * g + - (r - c)) with (g * x + c + - r) by ring.
Qed.

End affine.

(** X6.  The bound the tightener gives the host is sound and strictly
    tighter.  Let the host have a bound [rs] of the kind [is_upper] on the
    column [j], let [g] be positive and [(rs - m_c) / g] not an integer.
    Then [tighten_bounds_for_non_trivial_gcd] gives the host a bound [b] of
    that kind on [j] such that every value [g * k + m_c], [k] an integer,
    that meets the bound [rs] meets the bound [b], and [b] is strictly below
    an upper bound [rs], strictly above a lower bound [rs]. *)
Theorem tightened_bound_sound `{LarSolver H} (g : mpq) (j : N)
    (is_upper : bool) (lra : H) (s : imp) (b_dep : u_dependency) (rs : mpq)
    (is_strict : bool) :
  has_bound_of_type lra j is_upper = Some (b_dep, rs, is_strict) →
  (0 < g)%Qc →
  is_int ((rs - imp_m_c s) / g)%Qc = false →
  ∃ b dep,
    (tighten_bounds_for_non_trivial_gcd g j is_upper lra s).1.2
    = (find_feasible_solution
         (update_column_type_and_bound j
            (if is_upper then lconstraint_kind.LE else lconstraint_kind.GE)
            b dep lra)).2 ∧
    (∀ k : Z,
       let v := (g * Qc_of_Z k + imp_m_c s)%Qc in
       if is_upper then (v ≤ rs → v ≤ b)%Qc else (rs ≤ v → b ≤ v)%Qc) ∧
    if is_upper then (b < rs)%Qc else (rs < b)%Qc.
Proof.
  intros Hb Hg Hint.
  set (q := ((rs - imp_m_c s) / g)%Qc) in *.
  exists (g * (if is_upper then floor q else ceil q) + imp_m_c s)%Qc,
    (tightening_dependency lra s j is_upper b_dep).
  split; [|split].
  - unfold tighten_bounds_for_non_trivial_gcd. rewrite Hb. fold q.
    rewrite Hint. cbn [negb]. unfold tighten_bound_kind.
    change (mk_join _ (get_bound_constraint_witnesses_for_column lra j))
      with (tightening_dependency lra s j is_upper b_dep).
    destruct (find_feasible_solution _) as [st lra']. cbn [fst snd].
    destruct (bool_decide _); [done|]. by destruct (decide _).
  - intros k v. destruct is_upper.
    + intros Hv. apply affine_le; [done|]. apply floor_greatest.
      by apply affine_le_inv.
    + intros Hv. apply affine_le; [done|]. apply ceil_least.
      by apply affine_ge_inv.
  - pose proof (affine_inv g (imp_m_c s) Hg rs) as Hrs. fold q in Hrs.
    destruct is_upper.
    + rewrite <- Hrs. apply affine_lt; [done|]. by apply floor_lt.
    + rewrite <- Hrs. apply affine_lt; [done|]. by apply lt_ceil.
Qed.

Lemma tightened_bound_sound_witness :
  let s := set_imp_m_c (z 0) new_imp in
  ∃ b dep,
    th_log (tighten_bounds_for_non_trivial_gcd (z 5) 4%N true tighten_host s).1.2
    = [call_update_bound 4%N lconstraint_kind.LE b dep] ∧
    (∀ k : Z, (z 5 * Qc_of_Z k + z 0 ≤ z 9 → z 5 * Qc_of_Z k + z 0 ≤ b)%Qc) ∧
    (b < z 9)%Qc.
Proof.
  intros s.
  destruct (tightened_bound_sound (z 5) 4%N true tighten_host s
              (dep_leaf 4%N) (z 9) false) as (b & dep & Hlra & Hk & Hlt).
  - reflexivity.
  - reflexivity.
  - reflexivity.
  - exists b, dep. split; [by rewrite Hlra|]. split; [exact Hk|exact Hlt].
Defined.

(** ** The check of a fixed variable *)

(** The loop of [check_fixing] reports a conflict only when the gcd of the
    coefficients of the other variables does not divide the constant with
    the value of the fixed variable added. *)
Lemma check_fixing_loop_conflict (j : nat) (val : mpq)
    (row : list (nat * mpq)) (G : Z) (c : mpq) :
  (0 ≤ G)%Z →
  Forall (λ p : nat * mpq, is_int p.2 = true) row →
  check_fixing_loop j val row (Qc_of_Z G) c = lia_move.conflict →
  is_int ((c + row_value (λ _, val) (filter (λ p, p.1 = j) row))
          / Qc_of_Z (Z.gcd G (row_gcd (filter (λ p, p.1 ≠ j) row))))%Qc
  = false.
Proof.
  intros HG Hr. revert G c HG.
  induction Hr as [|p r Hp Hr IH]; intros G c HG; simpl.
  - rewrite Z.gcd_0_r, Z.abs_eq by done.
    destruct (is_int _) eqn:Hi; [done|]. intros _.
    by replace (c + 0)%Qc with c by ring.
  - rewrite !filter_cons.
    destruct (decide (p.1 = j)) as [Hj|Hj].
    + rewrite decide_False by (intros ?; done). intros Hl.
      apply IH in Hl; [|done]. simpl.
      by replace (c + (p.2 * val + row_value (λ _, val)
                                     (filter (λ p0, p0.1 = j) r)))%Qc
        with (c + p.2 * val
              + row_value (λ _, val) (filter (λ p0, p0.1 = j) r))%Qc by ring.
    + rewrite decide_True by done.
      assert (Hstep :
        (if is_zero (Qc_of_Z G) then abs p.2 else gcd (Qc_of_Z G) p.2)
        = Qc_of_Z (Z.gcd G (Qnum p.2))).
      { destruct (is_zero (Qc_of_Z G)) eqn:Hz.
        - apply is_zero_true in Hz. apply (proj1 (Qc_of_Z_eq_0 _)) in Hz.
          subst G. rewrite abs_of_int by done. reflexivity.
        - reflexivity. }
      rewrite Hstep. destruct (is_one _); [done|].
      intros Hl. apply IH in Hl; [|apply Z.gcd_nonneg].
      simpl. by rewrite Z.gcd_assoc.
Qed.

Lemma row_value_split (x : nat → mpq) (j : nat) (r : list (nat * mpq)) :
  (row_value x r
   = row_value x (filter (λ p, p.1 = j) r)
     + row_value x (filter (λ p, p.1 ≠ j) r))%Qc.
Proof.
  induction r as [|p r IH]; simpl; [ring|].
  rewrite !filter_cons. destruct (decide (p.1 = j)) as [Hj|Hj].
  - rewrite decide_False by (intros ?; done). simpl. rewrite IH. ring.
  - rewrite decide_True by done. simpl. rewrite IH. ring.
Qed.

Lemma row_value_fixed (x : nat → mpq) (j : nat) (r : list (nat * mpq)) :
  row_value x (filter (λ p, p.1 = j) r)
  = row_value (λ _, x j) (filter (λ p, p.1 = j) r).
Proof.
  induction r as [|p r IH]; simpl; [done|].
  rewrite !filter_cons. destruct (decide (p.1 = j)) as [Hj|Hj]; [|done].
  simpl. by rewrite IH, Hj.
Qed.

(** X7.  [check_fixing] is sound.  Let [j] be a variable that a row
    substitutes, with integer coefficients and a cell of another variable.
    If [check_fixing(j)] reports a conflict, no assignment of integers that
    gives [j] the value at which the host fixes its column satisfies the
    equation of the row. *)
Theorem check_fixing_sound `{LarSolver H} (lra : H) (s : imp) (j : nat) :
  let ei := sub_index s j in
  Forall (λ p : nat * mpq, is_int p.2 = true) (row_at (m_e_matrix s) ei) →
  (∃ p, p ∈ row_at (m_e_matrix s) ei ∧ p.1 ≠ j ∧ p.2 ≠ 0%Qc) →
  check_fixing lra s j = lia_move.conflict →
  ∀ x, integral x →
       x j = get_lower_bound lra (local_to_lar_solver s j) →
       ¬ row_holds x s ei.
Proof.
  intros ei Hint (p0 & Hp0 & Hp0j & Hp0nz) Hc x Hx Hxj Hrow.
  unfold check_fixing in Hc. fold ei in Hc. rewrite <- Qc_of_Z_0 in Hc.
  apply check_fixing_loop_conflict in Hc; [|done|done].
  rewrite <- Hxj in Hc. rewrite <- row_value_fixed in Hc.
  set (row := row_at (m_e_matrix s) ei) in *.
  set (others := filter (λ p, p.1 ≠ j) row) in *.
  rewrite Z.gcd_0_l_nonneg in Hc by apply row_gcd_nonneg.
  assert (Hoint : Forall (λ p : nat * mpq, is_int p.2 = true) others).
  { apply Forall_forall. intros p [_ Hp]%list_elem_of_filter.
    by apply (proj1 (Forall_forall _ _) Hint). }
  destruct (row_value_multiple x others (row_gcd others) Hx Hoint) as [m Hm].
  { intros p Hp. by apply row_gcd_divides. }
  assert (Hnz : Qc_of_Z (row_gcd others) ≠ 0%Qc).
  { intros Hz%Qc_of_Z_eq_0.
    assert (Hd : (row_gcd others | Qnum p0.2)%Z).
    { apply row_gcd_divides. by apply list_elem_of_filter. }
    rewrite Hz in Hd. apply Z.divide_0_l in Hd.
    apply Hp0nz. apply (proj1 (Forall_forall _ _) Hint) in Hp0.
    apply is_int_spec in Hp0. rewrite Hp0, Hd. apply Qc_of_Z_0. }
  unfold row_holds in Hrow. fold ei row in Hrow.
  rewrite (row_value_split x j row) in Hrow. fold others in Hrow.
  rewrite Hm in Hrow.
  assert (Hq : ((m_c (entry_at s ei)
                 + row_value x (filter (λ p, p.1 = j) row))
                / Qc_of_Z (row_gcd others))%Qc = Qc_of_Z (- m)).
  { set (v := row_value x (filter (λ p, p.1 = j) row)) in *.
    set (c := m_c (entry_at s ei)) in *.
    assert (Hcv : (c + v = - Qc_of_Z (row_gcd others * m))%Qc).
    { apply (f_equal (λ q, (q - Qc_of_Z (row_gcd others * m))%Qc)) in Hrow.
      ring_simplify in Hrow. rewrite <- Hrow. ring. }
    rewrite Hcv, Qc_of_Z_mult, Qc_of_Z_opp. field. done. }
  rewrite Hq, is_int_Qc_of_Z in Hc. done.
Qed.

Lemma check_fixing_sound_witness :
  check_fixing fixing_host fixing_example 0 = lia_move.conflict ∧
  ¬ row_holds (λ _, z 1) fixing_example 0.
Proof.
  assert (Hc : check_fixing fixing_host fixing_example 0 = lia_move.conflict)
    by (vm_compute; reflexivity).
  split; [exact Hc|].
  apply (check_fixing_sound fixing_host fixing_example 0).
  - by_compute.
  - exists (1, z 2). split; [|split].
    + right. left.
    + done.
    + by_compute.
  - exact Hc.
  - intros j. reflexivity.
  - by_compute.
Defined.

(** ** The stack of the brancher and the level of the host *)

Lemma stack_get_branch_score j s :
  m_branch_stack (get_branch_score j s).2 = m_branch_stack s ∧
  m_lra_level (get_branch_score j s).2 = m_lra_level s.
Proof. unfold get_branch_score. by destruct (decide _). Qed.

Lemma stack_create_branch_loop `{LarSolver H} basis bj sc n (lra : H) s :
  m_branch_stack (create_branch_loop basis bj sc n lra s).2 = m_branch_stack s ∧
  m_lra_level (create_branch_loop basis bj sc n lra s).2 = m_lra_level s.
Proof.
  revert bj sc n lra s.
  induction basis as [|j basis IH]; intros bj sc n lra s;
    cbn [create_branch_loop]; [done|].
  destruct (negb _); [apply IH|].
  pose proof (stack_get_branch_score j s) as [Hs Hl].
  destruct (get_branch_score j s) as [sc1 s1]. simpl in Hs, Hl.
  rewrite <- Hs, <- Hl.
  destruct (score_lt _ _); [apply IH|].
  destruct (bool_decide _); [|apply IH].
  destruct (random_next lra) as [r lra1].
  destruct (bool_decide _); apply IH.
Qed.

Lemma stack_create_branch `{LarSolver H} (lra : H) s :
  m_branch_stack (create_branch lra s).2 = m_branch_stack s ∧
  m_lra_level (create_branch lra s).2 = m_lra_level s ∧
  m_fully_explored (create_branch lra s).1.1 = false.
Proof.
  unfold create_branch.
  pose proof (stack_create_branch_loop (r_basis lra) UINT_MAX None 0 lra s)
    as [Hs Hl].
  destruct (create_branch_loop _ _ _ _ _ _) as [[bj lra1] s1].
  simpl in Hs, Hl. destruct (decide _); [done|].
  by destruct (random_next lra1).
Qed.

(** [push_branch] leaves the level of the host alone and puts at most one
    branch on the stack. *)
Lemma push_branch_stack `{LarSolver H} (lra : H) s :
  m_lra_level (push_branch lra s).2 = m_lra_level s ∧
  if (push_branch lra s).1.1
  then ∃ br, m_branch_stack (push_branch lra s).2 = m_branch_stack s ++ [br]
             ∧ m_fully_explored br = false ∧ m_j br ≠ UINT_MAX
  else m_branch_stack (push_branch lra s).2 = m_branch_stack s.
Proof.
  unfold push_branch.
  pose proof (stack_create_branch lra s) as (Hs & Hl & Hf).
  destruct (create_branch lra s) as [[br lra1] s1]. simpl in Hs, Hl, Hf.
  destruct (decide _) as [Hj|Hj]; simpl; [done|].
  split; [done|]. exists br. by rewrite Hs.
Qed.

(** The loop of [undo_explored_branches] over the stack from its top. *)
Lemma undo_explored_loop_spec `{LarSolver H} (rstack : list branch) (lra : H)
    (s : imp) :
  ∃ dropped,
    rstack = dropped ++ (undo_explored_loop rstack lra s).1.1 ∧
    Forall (λ b, m_fully_explored b = true) dropped ∧
    (∀ b, head (undo_explored_loop rstack lra s).1.1 = Some b →
          m_fully_explored b = false) ∧
    (undo_explored_loop rstack lra s).1.2
    = Nat.iter (length dropped) pop_and_solve lra ∧
    m_lra_level (undo_explored_loop rstack lra s).2
    = Nat.iter (length dropped) N.pred (m_lra_level s) ∧
    m_branch_stack (undo_explored_loop rstack lra s).2 = m_branch_stack s.
Proof.
  revert lra s. induction rstack as [|b rstack IH]; intros lra s.
  - exists []. by repeat split.
  - cbn [undo_explored_loop]. destruct (m_fully_explored b) eqn:Hb.
    + unfold lra_pop.
      destruct (IH (find_feasible_solution (pop lra)).2
                   (set_m_lra_level (N.pred (m_lra_level s)) s))
        as (dropped & Hr & Hd & Hh & Hlra & Hlev & Hst).
      exists (b :: dropped). split; [by rewrite Hr at 1|].
      split; [by constructor|]. split; [done|].
      split; [|split; [|done]].
      * rewrite Hlra. cbn [length]. by rewrite Nat.iter_succ_r.
      * rewrite Hlev. cbn [length]. by rewrite Nat.iter_succ_r.
    + exists []. repeat split; try done.
      intros b' [= <-]. done.
Qed.

Lemma iter_pred (n : nat) (l : N) :
  (N.of_nat n ≤ l)%N → Nat.iter n N.pred l = (l - N.of_nat n)%N.
Proof.
  revert l. induction n as [|n IH]; intros l Hl.
  - simpl. lia.
  - rewrite Nat.iter_succ_r, IH by lia. lia.
Qed.

(** What the loop of the brancher needs of [undo_explored_branches]: the
    level follows the length of the stack, and a stack that is left has a top
    that is not fully explored. *)
Lemma undo_explored_branches_level `{LarSolver H} (lra : H) (s : imp) :
  let r := undo_explored_branches lra s in
  m_lra_level s = N.of_nat (length (m_branch_stack s)) →
  m_lra_level r.2 = N.of_nat (length (m_branch_stack r.2)).
Proof.
  intros r Hl. subst r. unfold undo_explored_branches.
  destruct (undo_explored_loop_spec (reverse (m_branch_stack s)) lra s)
    as (dropped & Hr & _ & _ & _ & Hlev & _).
  destruct (undo_explored_loop _ _ _) as [[rstack lra1] s1].
  cbn [fst snd] in *. cbn [m_branch_stack set_m_branch_stack m_lra_level].
  apply (f_equal length) in Hr.
  rewrite length_reverse, length_app in Hr.
  rewrite Hlev, length_reverse, iter_pred by lia. lia.
Qed.

(** X8.  [undo_explored_branches] drops from the top of the stack exactly the
    branches that are fully explored: the stack that is left is a prefix of
    the stack, its top, if it has one, is not fully explored, and all the
    branches that were dropped are; the host is popped, and asked for a
    feasible solution, once for each branch that was dropped, and the level
    goes down by their number. *)
Theorem undo_explored_branches_spec `{LarSolver H} (lra : H) (s : imp) :
  let r := undo_explored_branches lra s in
  ∃ dropped,
    m_branch_stack s = m_branch_stack r.2 ++ dropped ∧
    Forall (λ b, m_fully_explored b = true) dropped ∧
    (∀ b, last (m_branch_stack r.2) = Some b → m_fully_explored b = false) ∧
    r.1 = Nat.iter (length dropped) pop_and_solve lra ∧
    ((N.of_nat (length dropped) ≤ m_lra_level s)%N →
     m_lra_level r.2 = (m_lra_level s - N.of_nat (length dropped))%N).
Proof.
  intros r. subst r. unfold undo_explored_branches.
  destruct (undo_explored_loop_spec (reverse (m_branch_stack s)) lra s)
    as (dropped & Hr & Hd & Hh & Hlra & Hlev & Hst).
  destruct (undo_explored_loop _ _ _) as [[rstack lra1] s1].
  cbn [fst snd] in *.
  exists (reverse dropped). cbn [m_branch_stack set_m_branch_stack m_lra_level].
  split; [|split; [|split; [|split]]].
  - apply (f_equal reverse) in Hr.
    by rewrite reverse_involutive, reverse_app in Hr.
  - by apply Forall_reverse.
  - intros b Hb. apply Hh. by rewrite last_reverse in Hb.
  - by rewrite length_reverse.
  - intros Hle. rewrite length_reverse in *. rewrite Hlev. by apply iter_pred.
Qed.

Lemma undo_explored_branches_spec_witness :
  let r := undo_explored_branches budget_host explored_example in
  ∃ dropped,
    m_branch_stack explored_example = m_branch_stack r.2 ++ dropped ∧
    m_lra_level r.2 = (3 - N.of_nat (length dropped))%N.
Proof.
  intros r.
  destruct (undo_explored_branches_spec budget_host explored_example)
    as (dropped & Hst & _ & _ & _ & Hlev).
  exists dropped. split; [exact Hst|]. apply Hlev.
  apply (f_equal length) in Hst. rewrite length_app in Hst.
  change (length (m_branch_stack explored_example)) with 3 in Hst.
  change (m_lra_level explored_example) with 3%N. lia.
Defined.

(** ** The brancher closes its branches on a conflict *)

Lemma stack_fix_var `{LarSolver H} (lra : H) j s :
  m_branch_stack (fix_var lra j s).2 = m_branch_stack s ∧
  m_lra_level (fix_var lra j s).2 = m_lra_level s.
Proof.
  unfold fix_var. destruct (can_substitute s j); [|done].
  by destruct (decide _).
Qed.

Lemma stack_add_var_bound_for_branch `{LarSolver H} b (lra : H) s :
  m_branch_stack (add_var_bound_for_branch b lra s).2 = m_branch_stack s ∧
  m_lra_level (add_var_bound_for_branch b lra s).2 = m_lra_level s.
Proof.
  unfold add_var_bound_for_branch.
  destruct (column_is_fixed _ _); [|done].
  destruct (VarRegister.external_is_used _ _) as [j|]; [|done].
  match goal with
  | |- context [fix_var ?l j s] =>
      pose proof (stack_fix_var l j s) as Hf;
      destruct (fix_var l j s) as [r s1]
  end.
  by destruct (decide _).
Qed.

Lemma stack_update_branch_stats b n s :
  m_branch_stack (update_branch_stats b n s) = m_branch_stack s ∧
  m_lra_level (update_branch_stats b n s) = m_lra_level s.
Proof. unfold update_branch_stats. by destruct (decide _). Qed.

(** The calls of the brancher in the goal are named, with what they do to
    the stack and to the level. *)
Ltac stack_call :=
  match goal with
  | |- context [push_branch ?l ?s] =>
      let Hc := fresh "Hc" in
      pose proof (push_branch_stack l s) as Hc;
      destruct (push_branch l s) as [[[] ?] ?]
  | |- context [add_var_bound_for_branch ?b ?l ?s] =>
      let Hc := fresh "Hc" in
      pose proof (stack_add_var_bound_for_branch b l s) as Hc;
      destruct (add_var_bound_for_branch b l s) as [[? ?] ?]
  | |- context [undo_explored_branches ?l ?s] =>
      let Hc := fresh "Hc" in
      pose proof (undo_explored_branches_level l s) as Hc;
      destruct (undo_explored_branches l s) as [? ?]
  | |- context [update_branch_stats ?b ?n ?s] =>
      let Hc := fresh "Hc" in
      let u := fresh "u" in
      pose proof (stack_update_branch_stats b n s) as Hc;
      set (u := update_branch_stats b n s) in *; clearbody u
  | |- context [find_feasible_solution ?l] =>
      destruct (find_feasible_solution l) as [? ?]
  | |- context [if bool_decide ?P then _ else _] =>
      let Hd := fresh "Hd" in
      destruct (bool_decide P) eqn:Hd
  | |- context [if decide ?P then _ else _] =>
      destruct (decide P)
  end.

Ltac stack_facts :=
  unfold level_agrees, flip_top, collect_evidence, lra_pop, lra_push,
    undo_branching, transfer_explanations_from_closed_branches in *;
  cbn [fst snd m_branch_stack m_lra_level set_m_branch_stack set_m_lra_level
       set_stats set_m_infeas_explanation set_m_explanation_of_branches
       set_m_number_of_iterations] in *;
  repeat match goal with
  | Hc : _ ∧ _ |- _ => destruct Hc
  | Hc : ∃ _, _ |- _ => destruct Hc
  | Hd : bool_decide _ = true |- _ => apply bool_decide_eq_true in Hd
  | Hd : bool_decide _ = false |- _ => apply bool_decide_eq_false in Hd
  | Hs : m_branch_stack _ = _ |- _ =>
      apply (f_equal length) in Hs; rewrite ?length_app, ?length_alter in Hs;
      cbn [length] in Hs
  end;
  rewrite ?length_alter in *.

Lemma branching_loop_closes `{LarSolver H} (fuel : nat) (b : bool) (lra : H)
    (s : imp) (ret : lia_move.t) (lra' : H) (s' : imp) :
  level_agrees b s →
  branching_loop fuel b lra s = Some (ret, lra', s') →
  ret ≠ lia_move.branch ∧
  (ret = lia_move.conflict →
   length (m_branch_stack s') = 0 ∧ m_lra_level s' = 0%N).
Proof.
  revert b lra s. induction fuel as [|fuel IH]; intros b lra s Hinv.
  - cbn [branching_loop]. destruct (bool_decide _); [done|].
    intros [= <- _ _]. done.
  - cbn [branching_loop]. destruct (bool_decide _).
    2:{ intros [= <- _ _]. done. }
    destruct b;
      repeat (unfold lra_push, lra_pop, undo_branching; cbv beta iota;
              stack_call).
    all: first
      [ intros [= <- _ <-]; split; [done|]; intros; try done;
        stack_facts; split; lia
      | intros Hl; apply IH in Hl; [exact Hl|]; stack_facts; lia ].
Qed.

(** X9.  The brancher closes its branches before it reports a conflict.  Let
    the host have been pushed once for each branch of the stack when
    [branching_on_undef] starts, as [init] leaves it.  Then
    [branching_on_undef] never returns [branch], and when it returns
    [conflict] the stack of the branches is empty and the level of the host
    is 0: every push of the host was popped. *)
Theorem branching_conflict_closes `{LarSolver H} (lra : H) (s : imp)
    (ret : lia_move.t) (lra' : H) (s' : imp) :
  m_lra_level s = N.of_nat (length (m_branch_stack s)) →
  branching_on_undef lra s = Some (ret, lra', s') →
  ret ≠ lia_move.branch ∧
  (ret = lia_move.conflict → m_branch_stack s' = [] ∧ m_lra_level s' = 0%N).
Proof.
  intros Hl Hb. unfold branching_on_undef in Hb.
  apply branching_loop_closes in Hb as [Hnb Hc]; [|exact Hl].
  split; [done|]. intros Hret. destruct (Hc Hret) as [Hlen Hlev].
  split; [by apply nil_length_inv|done].
Qed.

Lemma branching_conflict_closes_witness :
  ∃ r, branching_on_undef closing_host new_imp = Some r ∧
       r.1.1 = lia_move.conflict ∧
       m_branch_stack r.2 = [] ∧ m_lra_level r.2 = 0%N.
Proof.
  assert (Hr : (λ r : lia_move.t * toy_host * imp, r.1.1)
               <$> branching_on_undef closing_host new_imp
               = Some lia_move.conflict) by (vm_compute; reflexivity).
  destruct (branching_on_undef closing_host new_imp)
    as [[[ret lra'] s']|] eqn:Hb; [|done].
  injection Hr as ->.
  exists (lia_move.conflict, lra', s'). split; [done|]. split; [done|].
  eapply (branching_conflict_closes closing_host new_imp); [|exact Hb|done].
  reflexivity.
Defined.

(** ** The column of a new branch *)

Section create_branch.
Context `{LarSolver H} (lra0 : H).
Context (Hrandom : ∀ (h : H) j,
           column_is_int_inf (random_next h).2 j = column_is_int_inf h j).

Lemma same_int_inf_random_next h :
  same_int_inf lra0 h → same_int_inf lra0 (random_next h).2.
Proof using Hrandom. intros Hh j. by rewrite Hrandom. Qed.

Lemma create_branch_loop_picks basis bj sc n lra s :
  same_int_inf lra0 lra →
  let r := create_branch_loop basis bj sc n lra s in
  same_int_inf lra0 r.1.2 ∧
  (r.1.1 = bj ∨ (r.1.1 ∈ basis ∧ column_is_int_inf lra0 r.1.1 = true)) ∧
  (sc = None → n = 0 →
   (∃ j, j ∈ basis ∧ column_is_int_inf lra0 j = true) →
   r.1.1 ∈ basis ∧ column_is_int_inf lra0 r.1.1 = true).
Proof using Hrandom.
  revert bj sc n lra s.
  induction basis as [|j basis IH]; intros bj sc n lra s Hlra;
    cbn [create_branch_loop].
  - split; [done|]. split; [by left|].
    intros _ _ (j & Hj & _). by apply elem_of_nil in Hj.
  - assert (Htail : ∀ bj' sc' n' lra' s',
      same_int_inf lra0 lra' →
      let r := create_branch_loop basis bj' sc' n' lra' s' in
      same_int_inf lra0 r.1.2 ∧
      (r.1.1 = bj' ∨ (r.1.1 ∈ j :: basis ∧ column_is_int_inf lra0 r.1.1 = true))).
    { intros bj' sc' n' lra' s' Hl'.
      destruct (IH bj' sc' n' lra' s' Hl') as (Hs & [Hb|[Hb Hi]] & _).
      - split; [done|]. by left.
      - split; [done|]. right. split; [by right|done]. }
    assert (Hpick : ∀ sc' n' lra' s',
      same_int_inf lra0 lra' → column_is_int_inf lra0 j = true →
      let r := create_branch_loop basis j sc' n' lra' s' in
      same_int_inf lra0 r.1.2 ∧
      r.1.1 ∈ j :: basis ∧ column_is_int_inf lra0 r.1.1 = true).
    { intros sc' n' lra' s' Hl' Hj.
      destruct (Htail j sc' n' lra' s' Hl') as (Hs & [Hb|[Hb Hi]]).
      - cbv zeta. rewrite Hb. split; [done|]. split; [by left|done].
      - done. }
    destruct (column_is_int_inf lra j) eqn:Hj; cbn [negb].
    + rewrite Hlra in Hj.
      destruct (get_branch_score j s) as [sc1 s1].
      destruct (score_lt sc1 sc) eqn:Hlt.
      { destruct (Hpick sc1 n lra s1 Hlra Hj) as (Hs & Hb & Hi).
        split; [done|]. split; [by right|done]. }
      destruct (bool_decide (sc1 = sc)) eqn:Heq.
      * pose proof (same_int_inf_random_next lra Hlra) as Hlra1.
        destruct (random_next lra) as [r lra1]. cbn [snd] in Hlra1.
        destruct (bool_decide (r mod Datatypes.S n = 0)) eqn:Hmod.
        { destruct (Hpick sc1 (Datatypes.S n) lra1 s1 Hlra1 Hj)
            as (Hs & Hb & Hi).
          split; [done|]. split; [by right|done]. }
        destruct (Htail bj sc (Datatypes.S n) lra1 s1 Hlra1) as (Hs & Hb).
        split; [done|]. split; [done|].
        intros -> -> _. apply bool_decide_eq_false in Hmod.
        exfalso. apply Hmod. apply Nat.mod_1_r.
      * destruct (Htail bj sc n lra s1 Hlra) as (Hs & Hb).
        split; [done|]. split; [done|].
        intros -> _ _. destruct sc1; [done|].
        by apply bool_decide_eq_false in Heq.
    + rewrite Hlra in Hj.
      destruct (IH bj sc n lra s Hlra) as (Hs & Hb & Hfirst).
      split; [done|]. split.
      * destruct Hb as [?|[? ?]]; [by left|right; split; [by right|done]].
      * intros Hsc Hn (j' & [->|Hj']%elem_of_cons & Hi'); [congruence|].
        destruct (Hfirst Hsc Hn) as [? ?]; [by exists j'|].
        split; [by right|done].
Qed.

End create_branch.

(** X10.  Let drawing a random number leave the integer-infeasible columns
    of the host as they are, and [UINT_MAX] be no basic column.  Then
    [create_branch] returns a branch on a basic column that is
    integer-infeasible, and returns the column [UINT_MAX], "no branch", only
    when no basic column is integer-infeasible; [push_branch] returns [true]
    exactly when a basic column is integer-infeasible. *)
Theorem create_branch_picks `{LarSolver H} (lra : H) (s : imp) :
  (∀ (h : H) j,
     column_is_int_inf (random_next h).2 j = column_is_int_inf h j) →
  UINT_MAX ∉ r_basis lra →
  let br := (create_branch lra s).1.1 in
  (m_j br = UINT_MAX ↔
   ∀ j, j ∈ r_basis lra → column_is_int_inf lra j = false) ∧
  (m_j br ≠ UINT_MAX →
   m_j br ∈ r_basis lra ∧ column_is_int_inf lra (m_j br) = true) ∧
  ((push_branch lra s).1.1 = true ↔
   ∃ j, j ∈ r_basis lra ∧ column_is_int_inf lra j = true).
Proof.
  intros Hrandom Hmax br.
  assert (Hloop := create_branch_loop_picks lra Hrandom (r_basis lra)
                     UINT_MAX None 0 lra s (λ _, eq_refl)).
  cbv zeta in Hloop. destruct Hloop as (_ & Hb & Hfirst).
  assert (Hbr : m_j br = (create_branch_loop (r_basis lra) UINT_MAX None 0
                            lra s).1.1).
  { subst br. unfold create_branch.
    destruct (create_branch_loop _ _ _ _ _ _) as [[bj lra1] s1].
    cbn [fst snd]. destruct (decide (bj = UINT_MAX)) as [->|Hne]; [done|].
    by destruct (random_next lra1). }
  assert (Hiff : m_j br = UINT_MAX ↔
                 ∀ j, j ∈ r_basis lra → column_is_int_inf lra j = false).
  { rewrite Hbr. split.
    - intros Hu j Hj. destruct (column_is_int_inf lra j) eqn:Hi; [|done].
      destruct Hfirst as [Hin _]; [done|done|by exists j|].
      rewrite Hu in Hin. done.
    - intros Hnone. destruct Hb as [?|[Hin Hi]]; [done|].
      by rewrite (Hnone _ Hin) in Hi. }
  split; [exact Hiff|]. split.
  - rewrite Hbr. intros Hne. by destruct Hb as [?|[? ?]].
  - assert (Hpush : (push_branch lra s).1.1 = true ↔ m_j br ≠ UINT_MAX).
    { subst br. unfold push_branch.
      destruct (create_branch lra s) as [[br lra1] s1]. cbn [fst snd].
      by destruct (decide (m_j br = UINT_MAX)). }
    rewrite Hpush. split.
    + intros Hne. exists (m_j br). rewrite Hbr in *.
      by destruct Hb as [?|[? ?]].
    + intros (j & Hj & Hi) Hu.
      by rewrite (proj1 Hiff Hu j Hj) in Hi.
Qed.

Lemma create_branch_picks_witness :
  m_j (create_branch budget_host new_imp).1.1 ≠ UINT_MAX ∧
  (push_branch budget_host new_imp).1.1 = true.
Proof.
  destruct (create_branch_picks budget_host new_imp) as (Hiff & _ & Hpush).
  - intros h j. reflexivity.
  - vm_compute. intros Hin. inversion Hin as [|? ? ? Hin']. inversion Hin'.
  - split.
    + intros Hu.
      assert (Hi : column_is_int_inf budget_host 0%N = true) by reflexivity.
      rewrite (proj1 Hiff Hu 0%N) in Hi; [done|]. by left.
    + apply Hpush. exists 0%N. split; [by left|reflexivity].
Defined.

(** ** What [process_f] returns *)

Lemma normalize_by_gcd_loop_false `{LarSolver H} (lra : H) (f : list nat)
    (s s' : imp) :
  normalize_by_gcd_loop lra f s = (false, s') →
  ∃ pre i post ti,
    f = pre ++ i :: post ∧
    normalize_by_gcd_loop lra pre s = (true, ti) ∧
    (normalize_e_by_gcd lra i ti).1 = false ∧
    s' = set_m_conflict_index (Some i) (normalize_e_by_gcd lra i ti).2.
Proof.
  revert s. induction f as [|l f IH]; intros s; cbn [normalize_by_gcd_loop].
  - done.
  - destruct (normalize_e_by_gcd lra l s) as [[] s1] eqn:Hn.
    + intros (pre & i & post & ti & -> & Hpre & Hc & ->)%IH.
      exists (l :: pre), i, post, ti. split; [done|].
      split; [|done]. cbn [normalize_by_gcd_loop]. by rewrite Hn.
    + intros [= <-]. exists [], l, f, s. rewrite Hn. done.
Qed.

(** A conflict of the normalization either prepares the cut, which is an
    upper bound, or leaves the state as it is. *)
Lemma normalize_e_by_gcd_report `{LarSolver H} (lra : H) (i : nat) (s : imp) :
  (normalize_e_by_gcd lra i s).1 = false →
  let u := (normalize_e_by_gcd lra i s).2 in
  (m_report_branch u = true ∧ lia_is_upper (lia u) = true) ∨ u = s.
Proof.
  unfold normalize_e_by_gcd.
  destruct (_ || _); [done|]. destruct (is_int _); [done|].
  destruct (_ && _); intros _; [by left|by right].
Qed.

Lemma rewrite_eqs_scan_conflict (s : imp) (f : list nat) (i : nat) :
  (rewrite_eqs_scan s f).2.1 = Some i →
  row_at (m_e_matrix s) i = [] ∧ m_c (entry_at s i) ≠ 0%Qc.
Proof.
  induction f as [|l f IH]; simpl; [done|].
  destruct (bool_decide (length (row_at (m_e_matrix s) l) = 0)) eqn:Hlen.
  - destruct (is_zero (m_c (entry_at s l))) eqn:Hz; [done|].
    simpl. intros [= <-]. apply bool_decide_eq_true in Hlen.
    split; [by apply nil_length_inv|by apply is_zero_false].
  - done.
Qed.

(** A rewrite step either finds the conflict of an empty row whose constant
    is not zero, and leaves the rows alone, or leaves the index of the
    conflict alone. *)
Lemma rewrite_eqs_conflict_index (s : imp) :
  (∃ i f, (rewrite_eqs_scan s (m_f s)).2.1 = Some i ∧
          rewrite_eqs s = set_m_conflict_index (Some i) (set_m_f f s)) ∨
  m_conflict_index (rewrite_eqs s) = m_conflict_index s.
Proof.
  unfold rewrite_eqs.
  destruct (rewrite_eqs_scan s (m_f s)) as [f [[i|] [h|]]];
    [left; by exists i, f|left; by exists i, f| |by right].
  right. destruct (find_minimal_abs_coeff _ h) as [[ahk k] k_sign].
  destruct (is_one ahk).
  - match goal with
    | |- m_conflict_index ?t = _ =>
        assert (Hr : report_of t = report_of s) by by autorewrite with frame
    end.
    unfold report_of in Hr. congruence.
  - match goal with
    | |- m_conflict_index ?t = _ =>
        assert (Hr : report_of t = report_of s) by by autorewrite with frame
    end.
    unfold report_of in Hr. congruence.
Qed.

(** X11.  What [process_f] returns, from a state without a recorded conflict
    and without a pending branch report, as [init] leaves it.  It never
    returns [sat].  When it returns [undef] the list F is empty and no
    conflict is recorded.  When it returns [conflict] or [branch] a row is
    recorded as the row of the conflict, and no assignment of integers
    satisfies the equation of that row if its coefficients are integers;
    with [branch] the pending cut is an upper bound and the flag of the
    branch report is reset. *)
Theorem process_f_outcome `{LarSolver H} (fuel : nat) (lra : H) (s : imp)
    (ret : lia_move.t) (s' : imp) :
  m_conflict_index s = None →
  m_report_branch s = false →
  process_f fuel lra s = Some (ret, s') →
  match ret with
  | lia_move.undef => m_f s' = [] ∧ m_conflict_index s' = None
  | lia_move.conflict => ∃ i, conflict_row_unsat s' i
  | lia_move.branch =>
      (∃ i, conflict_row_unsat s' i) ∧
      lia_is_upper (lia s') = true ∧ m_report_branch s' = false
  | lia_move.sat => False
  end.
Proof.
  revert s. induction fuel as [|fuel IH]; intros s Hci Hrb;
    cbn [process_f].
  { destruct (m_f s) eqn:Hf; [|done]. by intros [= <- <-]. }
  destruct (m_f s) as [|l f] eqn:Hf; [by intros [= <- <-]|].
  destruct (normalize_by_gcd lra s) as [[] s1] eqn:Hn; cbn [negb].
  - (* the rows are normalized *)
    unfold normalize_by_gcd in Hn.
    apply report_of_normalize_by_gcd_loop in Hn.
    assert (Hci1 : m_conflict_index s1 = None)
      by (unfold report_of in Hn; congruence).
    assert (Hrb1 : m_report_branch s1 = false)
      by (unfold report_of in Hn; congruence).
    pose proof (cut_of_rewrite_eqs s1) as Hcut.
    assert (Hrb2 : m_report_branch (rewrite_eqs s1) = false)
      by (unfold cut_of in Hcut; congruence).
    destruct (rewrite_eqs_conflict_index s1)
      as [(i & f' & Hscan & Hre)|Hsame].
    + rewrite Hre. cbn [m_conflict_index set_m_conflict_index].
      intros [= <- <-]. exists i. split; [done|].
      intros _ x _.
      apply rewrite_eqs_scan_conflict in Hscan as [Hrow Hc].
      unfold row_holds, entry_at in *. cbn. rewrite Hrow. simpl.
      intros Hx. apply Hc. rewrite <- Hx. ring.
    + rewrite Hsame, Hci1. apply IH; [congruence|done].
  - (* a conflict of the normalization *)
    unfold normalize_by_gcd in Hn.
    apply normalize_by_gcd_loop_false in Hn
      as (pre & i & post & ti & _ & Hpre & Hc & ->).
    apply report_of_normalize_by_gcd_loop in Hpre.
    assert (Hrbt : m_report_branch ti = false)
      by (unfold report_of in Hpre; congruence).
    pose proof (rows_of_normalize_e_by_gcd_conflict lra i ti Hc) as Hrows.
    set (u := (normalize_e_by_gcd lra i ti).2) in *.
    assert (Hunsat : ∀ v, rows_of v = rows_of u →
              Forall (λ p : nat * mpq, is_int p.2 = true)
                (row_at (m_e_matrix v) i) →
              ∀ x, integral x → ¬ row_holds x v i).
    { intros v Hv Hint x Hx Hrow.
      assert (Hvt : rows_of v = rows_of ti) by congruence.
      apply (normalize_conflict_unsat lra i ti Hc) with x; [|done|].
      - by rewrite <- (rows_of_e_matrix _ _ Hvt).
      - unfold row_holds, entry_at in *.
        by rewrite <- (rows_of_e_matrix _ _ Hvt), <- (rows_of_entries _ _ Hvt). }
    cbn [m_report_branch set_m_conflict_index].
    destruct (m_report_branch u) eqn:Hru.
    + intros [= <- <-]. split; [|split; [|done]].
      * exists i. split; [done|]. by apply Hunsat.
      * destruct (normalize_e_by_gcd_report lra i ti Hc) as [[_ Hup]|Heq].
        -- exact Hup.
        -- fold u in Heq. rewrite Heq in Hru. congruence.
    + intros [= <- <-]. exists i. split; [done|]. by apply Hunsat.
Qed.

Lemma process_f_outcome_witness :
  ∃ r, process_f 1 cut_host cut_start = Some r ∧
       r.1 = lia_move.branch ∧ lia_is_upper (lia r.2) = true.
Proof.
  assert (Hr : fst <$> process_f 1 cut_host cut_start = Some lia_move.branch)
    by (vm_compute; reflexivity).
  destruct (process_f 1 cut_host cut_start) as [[ret s']|] eqn:Hp; [|done].
  injection Hr as ->.
  exists (lia_move.branch, s'). split; [done|]. split; [done|].
  destruct (process_f_outcome 1 cut_host cut_start lia_move.branch s')
    as (_ & Hup & _); [reflexivity|reflexivity|exact Hp|exact Hup].
Defined.

(** ** The removal of the fresh variables *)

Lemma elem_of_monomials `{Countable K} (t : gmap K mpq) (j : K) :
  j ∈ (monomials t).*1 ↔ is_Some (t !! j).
Proof.
  unfold monomials. rewrite list_elem_of_fmap. split.
  - intros ([j' a] & -> & Hja). apply elem_of_map_to_list in Hja. by exists a.
  - intros [a Ha]. exists (j, a). split; [done|].
    by apply elem_of_map_to_list.
Qed.

Lemma elem_of_fresh_vars_of (s : imp) (t : term_o nat) (j : nat) :
  j ∈ fresh_vars_of s t ↔
  is_Some (t_coeffs t !! j) ∧ is_fresh_var s j = true.
Proof.
  unfold fresh_vars_of. rewrite list_elem_of_filter, elem_of_monomials.
  tauto.
Qed.

(** The queue of the loop holds the fresh variables of the term. *)
Lemma remove_fresh_vars_loop_no_fresh (fuel : nat) (s : imp) (q : list nat)
    (t t' : term_o nat) :
  (∀ j, j ∈ fresh_vars_of s t → j ∈ q) →
  remove_fresh_vars_loop fuel s q t = Some t' →
  fresh_vars_of s t' = [].
Proof.
  revert q t. induction fuel as [|fuel IH]; intros [|xt q] t Hq; simpl.
  - intros [= <-]. apply elem_of_nil_inv. intros j Hj.
    by apply Hq, elem_of_nil in Hj.
  - done.
  - intros [= <-]. apply elem_of_nil_inv. intros j Hj.
    by apply Hq, elem_of_nil in Hj.
  - destruct (negb (contains (t_coeffs t) xt)) eqn:Hc.
    + apply IH. intros j Hj.
      pose proof (Hq j Hj) as Hjq.
      apply elem_of_cons in Hjq as [->|?]; [|done].
      apply elem_of_fresh_vars_of in Hj as [Hin _].
      apply negb_true_iff, bool_decide_eq_false in Hc. done.
    + apply IH. intros j Hj. apply elem_of_app. by right.
Qed.

(** X12.  When [remove_fresh_vars] returns, the term it returns has no fresh
    variable. *)
Theorem remove_fresh_vars_no_fresh (fuel : nat) (s : imp) (tt t : term_o nat) :
  remove_fresh_vars fuel s tt = Some t →
  ∀ j, contains (t_coeffs t) j = true → is_fresh_var s j = false.
Proof.
  intros Hr j Hj. unfold remove_fresh_vars in Hr.
  apply remove_fresh_vars_loop_no_fresh in Hr; [|done].
  destruct (is_fresh_var s j) eqn:Hf; [|done].
  assert (Hin : j ∈ fresh_vars_of s t).
  { apply elem_of_fresh_vars_of. split; [|done].
    by apply bool_decide_eq_true in Hj. }
  rewrite Hr in Hin. by apply elem_of_nil in Hin.
Qed.

Lemma remove_fresh_vars_no_fresh_witness :
  has_fresh_var fresh_step_example 0 = true ∧
  ∃ t, remove_fresh_vars 5 fresh_step_example
         (get_term_from_entry fresh_step_example 0) = Some t ∧
       ∀ j, contains (t_coeffs t) j = true →
            is_fresh_var fresh_step_example j = false.
Proof.
  split; [vm_compute; reflexivity|].
  assert (Hs : bool_decide
                 (is_Some (remove_fresh_vars 5 fresh_step_example
                             (get_term_from_entry fresh_step_example 0)))
               = true) by (vm_compute; reflexivity).
  apply bool_decide_eq_true in Hs as [t Ht].
  exists t. split; [exact Ht|].
  exact (remove_fresh_vars_no_fresh 5 fresh_step_example _ t Ht).
Defined.

(** ** The fresh-variable step keeps the solutions *)

(** The cells of a row other than the cell of [k], split by the machine
    division by [a]. *)
Lemma row_value_split_division (x : nat → mpq) (k : nat) (a : mpq)
    (row : list (nat * mpq)) :
  is_int a = true → a ≠ 0%Qc →
  Forall (λ p : nat * mpq, is_int p.2 = true) row →
  (row_value x (filter (λ p, p.1 ≠ k) row)
   = row_value x (residual_cells k a row)
     + a * row_value x (quotient_cells k a row))%Qc.
Proof.
  intros Ha Hnz Hrow. unfold residual_cells, quotient_cells.
  induction Hrow as [|p row Hp Hrow IH]; csimpl; [ring|].
  rewrite filter_cons. destruct (decide (p.1 = k)) as [Hk|Hk].
  - rewrite decide_False by (intros ?; done). exact IH.
  - rewrite decide_True by done. simpl. rewrite IH.
    pose proof (machine_div_rem_split p.2 a Hp Ha Hnz) as Hsplit.
    cbn [fst snd machine_div_rem] in *.
    destruct (is_zero (machine_rem p.2 a)) eqn:Hr;
      destruct (is_zero (machine_div p.2 a)) eqn:Hq; simpl;
      try apply is_zero_true in Hr; try apply is_zero_true in Hq;
      rewrite Hsplit at 1; rewrite ?Hr, ?Hq; ring.
Qed.

Lemma residual_cells_vars (k : nat) (a : mpq) (row : list (nat * mpq))
    (p : nat * mpq) :
  p ∈ residual_cells k a row → p.1 ∈ row.*1.
Proof.
  unfold residual_cells. intros (q & Hq & Hp)%list_elem_of_omap.
  destruct (decide (q.1 = k)); [done|].
  destruct (is_zero _); [done|]. injection Hp as <-.
  cbn [fst]. by apply list_elem_of_fmap_2.
Qed.

Lemma quotient_cells_vars (k : nat) (a : mpq) (row : list (nat * mpq))
    (p : nat * mpq) :
  p ∈ quotient_cells k a row → p.1 ∈ row.*1 ∧ is_int p.2 = true.
Proof.
  unfold quotient_cells. intros (q & Hq & Hp)%list_elem_of_omap.
  destruct (decide (q.1 = k)); [done|].
  destruct (is_zero _); [done|]. injection Hp as <-.
  cbn [fst snd]. split; [by apply list_elem_of_fmap_2|reflexivity].
Qed.

(** The value of a row does not depend on the variables it does not hold. *)
Lemma row_value_ext {V} (x y : V → mpq) (r : list (V * mpq)) :
  (∀ p, p ∈ r → x p.1 = y p.1) → row_value x r = row_value y r.
Proof.
  induction r as [|p r IH]; intros Hxy; simpl; [done|].
  rewrite (Hxy p) by by left. rewrite IH; [done|].
  intros q Hq. apply Hxy. by right.
Qed.

(** The value of a row of integers under integers is an integer. *)
Lemma row_value_int {V} (x : V → mpq) (r : list (V * mpq)) :
  integral x → Forall (λ p : V * mpq, is_int p.2 = true) r →
  is_int (row_value x r) = true.
Proof.
  intros Hx Hr.
  destruct (row_value_multiple x r 1 Hx Hr) as [m Hm].
  { intros p _. apply Z.divide_1_l. }
  rewrite Hm. apply is_int_Qc_of_Z.
Qed.

Lemma row_value_cons {V} (x : V → mpq) (p : V * mpq) (r : list (V * mpq)) :
  row_value x (p :: r) = (p.2 * x p.1 + row_value x r)%Qc.
Proof. reflexivity. Qed.

Lemma row_coeff_NoDup (k : nat) (a : mpq) (r : list (nat * mpq)) :
  NoDup r.*1 → (k, a) ∈ r → row_coeff k r = a.
Proof.
  induction r as [|p r IH]; intros Hnd Hin; [by apply elem_of_nil in Hin|].
  apply NoDup_cons in Hnd as [Hp Hnd]. rewrite row_coeff_cons.
  apply elem_of_cons in Hin as [<-|Hin].
  - by rewrite decide_True.
  - rewrite decide_False; [by apply IH|].
    intros Hpk. apply Hp. rewrite Hpk.
    by apply (list_elem_of_fmap_2 fst) in Hin.
Qed.

(** X13.  The definition of a fresh variable keeps the solutions.  Let the
    row [h] have one cell a column, integer coefficients over registered
    variables and an integer constant, and hold [k] with the integer
    coefficient [a], not zero.  After the body of [fresh_var_step] up to the
    elimination, with the fresh variable [xt] and the row [fr] of its
    definition: an assignment that satisfies the equations of the rows [h]
    and [fr] satisfies the former equation of the row [h]; an assignment of
    integers that satisfies the former equation of the row [h] satisfies
    both equations once [xt] is given a suitable integer; and the other rows
    have the equations they had. *)
Theorem fresh_var_step_define_sound (h k : nat) (a : mpq) (s : imp) :
  let xt := length (m_var_register s) in
  let row := row_at (m_e_matrix s) h in
  let fr := (fresh_var_step_define h k a s).1 in
  let s1 := (fresh_var_step_define h k a s).2 in
  rows_aligned s → h < length (m_entries s) →
  NoDup row.*1 →
  Forall (λ p : nat * mpq, is_int p.2 = true ∧ p.1 < xt) row →
  is_int (m_c (entry_at s h)) = true →
  is_int a = true → a ≠ 0%Qc →
  (k, a) ∈ row →
  (∀ x, row_holds x s1 h → row_holds x s1 fr → row_holds x s h) ∧
  (∀ x, integral x → row_holds x s h →
     ∃ v, is_int v = true ∧
          let x' := λ j, if decide (j = xt) then v else x j in
          row_holds x' s1 h ∧ row_holds x' s1 fr) ∧
  (∀ i, i ≠ h → i ≠ fr → ∀ x, row_holds x s1 i ↔ row_holds x s i).
Proof.
  intros xt row fr s1 Hal Hh Hnd Hrow Hc Ha Hnz Hk.
  destruct (fresh_var_step_define_spec h k a s Hal Hh)
    as (res & quo & Hdef).
  fold fr s1 in Hdef. unfold fresh_defined in Hdef. fold xt row in Hdef.
  destruct Hdef as (_ & _ & _ & _ & Hcells & _ & HEh & HEfr & HEoth & _ & _
                    & Heh & Hefr & Heoth & _).
  destruct (Hcells Hnd) as [-> ->]. clear Hcells.
  assert (Hint : Forall (λ p : nat * mpq, is_int p.2 = true) row).
  { eapply Forall_impl; [exact Hrow|]. by intros p [? _]. }
  assert (Hlt : ∀ p, p ∈ row → p.1 < xt).
  { intros p Hp. by apply (proj1 (Forall_forall _ _) Hrow p Hp). }
  set (c := m_c (entry_at s h)) in *.
  assert (Hcsplit : (c = machine_div c a * a + machine_rem c a)%Qc)
    by exact (machine_div_rem_split c a Hc Ha Hnz).
  (* the equation of the row is the sum of the two new equations *)
  assert (Hsum : ∀ x,
    (row_value x (row_at (m_e_matrix s1) h) + m_c (entry_at s1 h)
     + a * (row_value x (row_at (m_e_matrix s1) fr) + m_c (entry_at s1 fr))
     = row_value x row + c)%Qc).
  { intros x. rewrite HEh, HEfr, Heh, Hefr. rewrite !row_value_cons.
    cbn [m_c fst snd].
    rewrite (row_value_split x k row).
    assert (Hkv : (row_value x (filter (λ p, p.1 = k) row) = a * x k)%Qc).
    { pose proof (row_value_without x k row Hnd) as Hw.
      rewrite (row_coeff_NoDup k a row Hnd Hk) in Hw.
      rewrite (row_value_split x k row) in Hw.
      set (u := row_value x (filter (λ p, p.1 = k) row)) in *.
      set (w := row_value x (filter (λ p, p.1 ≠ k) row)) in *.
      apply (f_equal (λ q, (u + w - q)%Qc)) in Hw. ring_simplify in Hw.
      rewrite <- Hw. ring. }
    rewrite Hkv, (row_value_split_division x k a row Ha Hnz Hint).
    set (qc := machine_div c a) in *. set (rc := machine_rem c a) in *.
    rewrite Hcsplit. change (-1)%Qc with (- (1))%Qc. ring. }
  split; [|split].
  - intros x Hxh Hxfr. unfold row_holds in *. fold row c.
    rewrite <- Hsum. rewrite Hxh, Hxfr. ring.
  - intros x Hx Hold.
    set (v := (x k + row_value x (quotient_cells k a row)
               + machine_div c a)%Qc).
    exists v.
    assert (Hv : is_int v = true).
    { unfold v.
      assert (Hq : is_int (row_value x (quotient_cells k a row)) = true).
      { apply row_value_int; [done|]. apply Forall_forall.
        intros p Hp. by apply quotient_cells_vars in Hp as [_ ?]. }
      apply is_int_spec in Hq. rewrite Hq.
      rewrite (proj1 (is_int_spec _) (Hx k)).
      unfold machine_div. rewrite <- !Qc_of_Z_plus. apply is_int_Qc_of_Z. }
    split; [exact Hv|]. intros x'.
    assert (Hx'k : x' k = x k).
    { unfold x'. rewrite decide_False; [done|].
      specialize (Hlt _ Hk). simpl in Hlt. lia. }
    assert (Hx'xt : x' xt = v) by (unfold x'; by rewrite decide_True).
    assert (Hres : row_value x' (residual_cells k a row)
                   = row_value x (residual_cells k a row)).
    { apply row_value_ext. intros p Hp%residual_cells_vars.
      apply list_elem_of_fmap in Hp as (q & -> & Hq). unfold x'.
      rewrite decide_False; [done|]. specialize (Hlt _ Hq). lia. }
    assert (Hquo : row_value x' (quotient_cells k a row)
                   = row_value x (quotient_cells k a row)).
    { apply row_value_ext. intros p [Hp _]%quotient_cells_vars.
      apply list_elem_of_fmap in Hp as (q & -> & Hq). unfold x'.
      rewrite decide_False; [done|]. specialize (Hlt _ Hq). lia. }
    assert (Hfr : row_holds x' s1 fr).
    { unfold row_holds. rewrite HEfr, Hefr. rewrite !row_value_cons.
      cbn [m_c fst snd]. rewrite Hx'xt, Hx'k, Hquo. unfold v.
      change (-1)%Qc with (- (1))%Qc. ring. }
    split; [|exact Hfr].
    unfold row_holds in *. fold row c in Hold.
    pose proof (Hsum x') as Hs. rewrite Hfr in Hs.
    assert (Hrowx : row_value x' row = row_value x row).
    { apply row_value_ext. intros p Hp. unfold x'.
      rewrite decide_False; [done|]. specialize (Hlt _ Hp). lia. }
    rewrite Hrowx, Hold in Hs.
    set (A := (row_value x' (row_at (m_e_matrix s1) h)
               + m_c (entry_at s1 h))%Qc) in *.
    clearbody A. clear -Hs.
    transitivity (A + a * 0)%Qc; [ring|exact Hs].
  - intros i Hih Hifr x. unfold row_holds.
    by rewrite (HEoth i Hih Hifr), (Heoth i Hih Hifr).
Qed.

Lemma fresh_var_step_define_sound_witness :
  let r := fresh_var_step_define 0 1 (z 3) fresh_example in
  (∀ x, row_holds x r.2 0 → row_holds x r.2 r.1 →
        row_holds x fresh_example 0) ∧
  (∀ x, integral x → row_holds x fresh_example 0 →
        ∃ v, is_int v = true ∧
             let x' := λ j, if decide (j = 2) then v else x j in
             row_holds x' r.2 0 ∧ row_holds x' r.2 r.1).
Proof.
  intros r.
  destruct (fresh_var_step_define_sound 0 1 (z 3) fresh_example)
    as (Ha & Hb & _).
  - split; reflexivity.
  - vm_compute. lia.
  - by_compute.
  - by_compute.
  - vm_compute. reflexivity.
  - vm_compute. reflexivity.
  - by_compute.
  - by_compute.
  - split; [exact Ha|exact Hb].
Defined.

(** ** Moving a row between F and S *)

Lemma list_remove_app_not_in (h : nat) (l : list nat) :
  h ∉ l → list_remove h (l ++ [h]) = l.
Proof.
  intros Hh. unfold list_remove. rewrite filter_app.
  rewrite filter_cons_False by (intros ?; done).
  rewrite filter_nil, app_nil_r.
  induction l as [|x l IH]; [done|].
  apply not_elem_of_cons in Hh as [Hx Hl].
  rewrite filter_cons_True by done. by rewrite IH.
Qed.

Lemma list_remove_Permutation (h : nat) (l : list nat) :
  NoDup l → h ∈ l → list_remove h l ++ [h] ≡ₚ l.
Proof.
  intros Hnd Hh. unfold list_remove.
  induction l as [|x l IH]; [by apply elem_of_nil in Hh|].
  apply NoDup_cons in Hnd as [Hx Hnd].
  apply elem_of_cons in Hh as [->|Hh].
  - rewrite filter_cons_False by (intros ?; done).
    assert (Hf : filter (λ i, i ≠ x) l = l).
    { clear IH Hnd. induction l as [|y l IH]; [done|].
      apply not_elem_of_cons in Hx as [Hy Hl].
      rewrite filter_cons_True by done. by rewrite IH. }
    rewrite Hf. by rewrite Permutation_app_comm.
  - rewrite filter_cons_True by (intros ->; done).
    simpl. by rewrite IH.
Qed.

(** X14.  Moving a row to S and back.  Let [h] be a row of F, listed once in
    F and not in S, that substitutes no variable, and [k] a variable that no
    row substitutes.  After [move_entry_from_f_to_s(k, h)] and then
    [move_entry_from_s_to_f(h)] the matrices, the entries and the list S are
    as before, F has the same rows with [h] moved to its end, and again no
    row substitutes [k] and every other variable is substituted as
    before. *)
Theorem move_entry_round_trip (k h : nat) (s : imp) :
  let s' := move_entry_from_s_to_f h (move_entry_from_f_to_s k h s) in
  h < length (m_entries s) →
  status_at s h = entry_status.F →
  NoDup (m_f s) → h ∈ m_f s → h ∉ m_s s →
  (∀ j, m_k2s s !! j ≠ Some (Some h)) →
  can_substitute s k = false →
  m_e_matrix s' = m_e_matrix s ∧ m_l_matrix s' = m_l_matrix s ∧
  m_entries s' = m_entries s ∧ m_s s' = m_s s ∧
  m_f s' ≡ₚ m_f s ∧ last (m_f s') = Some h ∧
  ∀ j, mjoin (m_k2s s' !! j) = mjoin (m_k2s s !! j).
Proof.
  intros s' Hh HF Hnd Hf Hs Hk2s Hk. subst s'.
  unfold move_entry_from_s_to_f.
  destruct (move_entry_from_f_to_s_spec k h s Hh)
    as (HE & HL & Hlen & Hst & Hmf & Hkk & Hoth).
  set (s1 := move_entry_from_f_to_s k h s) in *.
  assert (Hs1 : status_at s1 h = entry_status.S)
    by (rewrite Hst; by rewrite decide_True).
  unfold status_at in Hs1. rewrite decide_False by (rewrite Hs1; done).
  cbn [m_e_matrix m_l_matrix m_entries m_s m_f m_k2s set_m_f set_m_s
       set_m_k2s set_m_entries].
  assert (Hent : m_entries s1 = alter (set_entry_status entry_status.S) h
                                  (m_entries s)).
  { unfold s1, move_entry_from_f_to_s. by destruct (decide _). }
  assert (Hms : m_s s1 = m_s s ++ [h]).
  { unfold s1, move_entry_from_f_to_s. by destruct (decide _). }
  split; [done|]. split; [done|]. split; [|split; [|split; [|split]]].
  - rewrite Hent. apply list_eq. intros i.
    destruct (decide (i = h)) as [->|Hne].
    + rewrite !list_lookup_alter_eq.
      unfold status_at, entry_at in HF.
      destruct (m_entries s !! h) as [e|] eqn:He; [|done]. simpl in *.
      destruct e as [c st]. simpl in *. by subst st.
    + by rewrite !list_lookup_alter_ne.
  - rewrite Hms. by apply list_remove_app_not_in.
  - rewrite Hmf. by apply list_remove_Permutation.
  - by rewrite last_snoc.
  - intros j. rewrite list_lookup_fmap.
    destruct (m_k2s s1 !! j) as [[x|]|] eqn:Hj; simpl.
    + destruct (Hoth j x Hj) as [[-> ->]|[Hne Hjs]].
      * rewrite decide_True by done. simpl.
        unfold can_substitute in Hk.
        apply andb_false_iff in Hk as [Hk|Hk].
        -- apply bool_decide_eq_false in Hk.
           by rewrite lookup_ge_None_2 by lia.
        -- apply bool_decide_eq_false in Hk.
           destruct (mjoin (m_k2s s !! k)) eqn:Hm; [|done].
           exfalso. apply Hk. by eexists.
      * rewrite decide_False; [by rewrite Hjs|].
        intros [= ->]. by apply (Hk2s j).
    + rewrite ?decide_False by done. simpl.
      destruct (m_k2s s !! j) as [[y|]|] eqn:Hjs; [|done|done].
      exfalso.
      assert (Hj1 : m_k2s s1 !! j = Some (Some y) ∨ j = k).
      { unfold s1, move_entry_from_f_to_s.
        cbn [m_k2s set_m_f set_m_k2s set_m_s set_m_entries].
        destruct (decide (j = k)) as [?|Hne]; [by right|left].
        rewrite list_lookup_insert_ne by done.
        destruct (decide _); cbn [m_k2s set_m_k2s set_m_entries]; [|done].
        unfold resize. rewrite lookup_app_l.
        - rewrite lookup_take_lt; [done|].
          apply lookup_lt_Some in Hjs. lia.
        - rewrite length_take. apply lookup_lt_Some in Hjs. lia. }
      destruct Hj1 as [Hj1| ->]; [congruence|]. congruence.
    + destruct (m_k2s s !! j) as [[y|]|] eqn:Hjs; [|done|done].
      exfalso.
      assert (Hlt : j < length (m_k2s s1)).
      { unfold s1, move_entry_from_f_to_s.
        cbn [m_k2s set_m_f set_m_k2s set_m_s set_m_entries].
        rewrite length_insert. apply lookup_lt_Some in Hjs.
        destruct (decide _); cbn [m_k2s set_m_k2s set_m_entries]; [|done].
        rewrite length_resize. lia. }
      apply lookup_ge_None in Hj. lia.
Qed.

Lemma move_entry_round_trip_witness :
  let s := uniqueness_start in
  let s' := move_entry_from_s_to_f 1 (move_entry_from_f_to_s 1 1 s) in
  m_entries s' = m_entries s ∧ m_s s' = m_s s ∧ m_f s' ≡ₚ m_f s ∧
  ∀ j, mjoin (m_k2s s' !! j) = mjoin (m_k2s s !! j).
Proof.
  intros s s'.
  destruct (move_entry_round_trip 1 1 s)
    as (_ & _ & Hent & Hs & Hf & _ & Hk).
  - vm_compute. lia.
  - reflexivity.
  - by_compute.
  - by_compute.
  - by_compute.
  - intros j. change (m_k2s s) with (@nil (option nat)).
    by rewrite lookup_nil.
  - reflexivity.
  - done.
Defined.

(** ** The sign [eliminate_var_in_f] is given *)

Lemma find_cell_cons (j : nat) (p : nat * mpq) (r : list (nat * mpq)) :
  find_cell j (p :: r) = if decide (p.1 = j) then Some p else find_cell j r.
Proof.
  unfold find_cell. simpl. destruct (decide (p.1 = j)); [done|].
  by destruct (list_find _ r) as [[]|].
Qed.

Lemma find_cell_NoDup (k : nat) (a : mpq) (r : list (nat * mpq)) :
  NoDup r.*1 → (k, a) ∈ r → find_cell k r = Some (k, a).
Proof.
  induction r as [|p r IH]; intros Hnd Hin; [by apply elem_of_nil in Hin|].
  apply NoDup_cons in Hnd as [Hp Hnd]. rewrite find_cell_cons.
  apply elem_of_cons in Hin as [<-|Hin].
  - by rewrite decide_True.
  - rewrite decide_False; [by apply IH|].
    intros Hpk. apply Hp. rewrite Hpk.
    by apply (list_elem_of_fmap_2 fst) in Hin.
Qed.

(** X15.  The assertion of [eliminate_var_in_f] holds where [rewrite_eqs]
    calls it.  Let the row [h] be not empty, with one cell a column, and
    [find_minimal_abs_coeff] return [(ahk, k, k_sign)] for it.  When [ahk]
    is one, the row [h], moved to S, holds [k] with the coefficient
    [k_sign], that is [j_sign_is_correct(h, k, k_sign)]; otherwise, with [k]
    a registered variable, the row of the definition of the fresh variable
    holds [k] with the coefficient 1, the sign [fresh_var_step] passes. *)
Theorem j_sign_is_correct_in_rewrite_eqs (s : imp) (h : nat) (ahk : mpq)
    (k : nat) (k_sign : Z) :
  rows_aligned s → h < length (m_entries s) →
  row_at (m_e_matrix s) h ≠ [] →
  NoDup (row_at (m_e_matrix s) h).*1 →
  find_minimal_abs_coeff s h = (ahk, k, k_sign) →
  (is_one ahk = true →
   j_sign_is_correct (move_entry_from_f_to_s k h s) h k k_sign = true) ∧
  (is_one ahk = false → k < length (m_var_register s) →
   let r := fresh_var_step_define h k (ahk * of_Z k_sign)%Qc s in
   j_sign_is_correct r.2 r.1 k 1 = true).
Proof.
  intros Hal Hh Hne Hnd Hmin. split.
  - intros Hone%is_one_true.
    destruct (find_minimal_abs_coeff_cell s h Hne) as (a & Ha & Habs & Hsign).
    rewrite Hmin in Ha, Habs, Hsign. cbn [fst snd] in *.
    destruct (move_entry_from_f_to_s_spec k h s Hh) as (HE & _).
    unfold j_sign_is_correct. rewrite HE.
    rewrite (find_cell_NoDup k a _ Hnd Ha). cbn [snd].
    rewrite Hone in Habs. apply abs_one_cases in Habs as [-> | ->].
    + rewrite Hsign. reflexivity.
    + rewrite Hsign. reflexivity.
  - intros _ Hk r. subst r.
    destruct (fresh_var_step_define_spec h k (ahk * of_Z k_sign)%Qc s Hal Hh)
      as (res & quo & Hdef).
    unfold fresh_defined in Hdef.
    destruct Hdef as (_ & _ & _ & _ & _ & _ & _ & HEfr & _).
    unfold j_sign_is_correct. rewrite HEfr.
    rewrite find_cell_cons. cbn [fst].
    rewrite decide_False by lia.
    rewrite find_cell_cons. cbn [fst]. rewrite decide_True by done.
    reflexivity.
Qed.

Lemma j_sign_is_correct_in_rewrite_eqs_witness :
  j_sign_is_correct (move_entry_from_f_to_s 0 0 uniqueness_start) 0 0 1
  = true.
Proof.
  destruct (j_sign_is_correct_in_rewrite_eqs uniqueness_start 0 (z 1) 0 1)
    as [Hone _].
  - split; reflexivity.
  - vm_compute. lia.
  - by_compute.
  - by_compute.
  - by_compute.
  - apply Hone. reflexivity.
Defined.

(** ** The creation of a row *)

Lemma add_var_spec (j : N) (r : list N) :
  j ≠ UINT_MAX →
  (∃ ext, (VarRegister.add_var j r).2 = r ++ ext) ∧
  (VarRegister.add_var j r).2 !! (VarRegister.add_var j r).1 = Some j.
Proof.
  intros Hj. unfold VarRegister.add_var. rewrite decide_False by done.
  unfold VarRegister.external_is_used.
  destruct (list_find _ r) as [[l e]|] eqn:Hf; cbn [fst snd fmap option_fmap option_map].
  - apply list_find_Some in Hf as (Hl & -> & _).
    split; [exists []; by rewrite app_nil_r|done].
  - split; [by exists [j]|].
    rewrite lookup_app_r by lia. by rewrite Nat.sub_diag.
Qed.

Lemma row_value_fmap {V W} (y : W → mpq) (f : V → W) (r : list (V * mpq)) :
  row_value y ((λ p : V * mpq, (f p.1, p.2)) <$> r)
  = row_value (λ l, y (f l)) r.
Proof. induction r as [|p r IH]; csimpl; [done|]. by rewrite IH. Qed.

Lemma local_to_external_app (r ext : list N) (l : nat) :
  VarRegister.local_to_external r l ≠ UINT_MAX →
  VarRegister.local_to_external (r ++ ext) l
  = VarRegister.local_to_external r l.
Proof.
  unfold VarRegister.local_to_external. intros Hl.
  destruct (r !! l) as [e|] eqn:Hr; [|done].
  by rewrite (lookup_app_l_Some _ _ _ _ Hr).
Qed.

Lemma fill_entry_cell_inv `{LarSolver H} (lra : H) (s0 : imp) (ei : nat)
    (pre : list (N * mpq)) (p : N * mpq) (st : imp) :
  ei < length (m_entries s0) → ei < length (m_e_matrix s0) →
  p.1 ≠ UINT_MAX →
  (∀ q, q ∈ pre → q.1 ≠ UINT_MAX) →
  fill_entry_inv lra s0 ei pre st →
  fill_entry_inv lra s0 ei (pre ++ [p]) (fill_entry_cell lra ei st p).
Proof.
  intros HiE HiM Hp Hpre (Hlen & HlenE & HL & Hf & [ext Hreg] & Hrow & Hc
                          & Hst & Hoth).
  unfold fill_entry_inv, fill_entry_cell. rewrite !filter_app, !filter_cons,
    !filter_nil.
  destruct (is_fixed lra p.1) eqn:Hfix.
  - rewrite decide_False by done. rewrite decide_True by done.
    rewrite app_nil_r, row_value_app.
    cbn [m_entries m_e_matrix m_l_matrix m_f m_var_register set_m_entries].
    rewrite length_alter.
    split; [done|]. split; [done|]. split; [done|]. split; [done|].
    split; [by exists ext|]. split; [exact Hrow|].
    unfold entry_at in *.
    cbn [m_entries set_m_entries]. rewrite list_lookup_alter_eq.
    destruct (m_entries st !! ei) as [e|] eqn:He.
    2:{ apply lookup_ge_None in He. lia. }
    cbn in *. split; [rewrite Hc; ring|]. split; [done|].
    intros i Hi. rewrite list_lookup_alter_ne by done. by apply Hoth.
  - rewrite decide_True by done. rewrite decide_False by done.
    rewrite app_nil_r.
    unfold add_var.
    destruct (add_var_spec p.1 (m_var_register st) Hp) as [[ext' Hext] Hlj].
    destruct (VarRegister.add_var p.1 (m_var_register st)) as [lj reg'].
    cbn [fst snd] in Hext, Hlj.
    cbn [m_entries m_e_matrix m_l_matrix m_f m_var_register set_m_e_matrix
         set_m_e_columns set_m_var_register].
    unfold add_new_element. rewrite length_alter.
    split; [done|]. split; [done|]. split; [done|]. split; [done|].
    split; [exists (ext ++ ext'); by rewrite Hext, Hreg, app_assoc|].
    split; [|split; [|split]].
    + rewrite row_at_alter_eq by lia. rewrite fmap_app. f_equal.
      * rewrite <- Hrow. apply list_fmap_ext. intros i q Hq. f_equal.
        unfold local_to_lar_solver.
        cbn [m_var_register set_m_e_matrix set_m_e_columns
             set_m_var_register].
        rewrite Hext. apply local_to_external_app.
        assert (Hin : (local_to_lar_solver st q.1, q.2)
                      ∈ filter (λ p0 : N * mpq, is_fixed lra p0.1 = false) pre).
        { rewrite <- Hrow.
          apply (list_elem_of_fmap_2
                   (λ p0 : nat * mpq, (local_to_lar_solver st p0.1, p0.2))).
          by eapply list_elem_of_lookup_2. }
        apply list_elem_of_filter in Hin as [_ Hin].
        by apply (Hpre _ Hin).
      * csimpl. unfold local_to_lar_solver, VarRegister.local_to_external.
        cbn [m_var_register set_m_e_matrix set_m_e_columns
             set_m_var_register].
        rewrite Hlj. by destruct p.
    + unfold entry_at in *. cbn [m_entries set_m_e_matrix set_m_e_columns
                                 set_m_var_register].
      rewrite Hc. ring.
    + done.
    + intros i Hi. rewrite row_at_alter_ne by done. by apply Hoth.
Qed.

Lemma fill_entry_loop_inv `{LarSolver H} (lra : H) (s0 : imp) (ei : nat)
    (rest pre : list (N * mpq)) (st : imp) :
  ei < length (m_entries s0) → ei < length (m_e_matrix s0) →
  (∀ q, q ∈ pre ++ rest → q.1 ≠ UINT_MAX) →
  fill_entry_inv lra s0 ei pre st →
  fill_entry_inv lra s0 ei (pre ++ rest)
    (fold_left (fill_entry_cell lra ei) rest st).
Proof.
  intros HiE HiM. revert pre st.
  induction rest as [|p rest IH]; intros pre st Hall Hinv.
  - by rewrite app_nil_r.
  - cbn [fold_left]. rewrite (cons_middle p pre rest), app_assoc.
    apply IH.
    + intros q Hq. apply Hall. by rewrite (cons_middle p pre rest), app_assoc.
    + apply fill_entry_cell_inv; [done|done| |  |done].
      * apply Hall. apply elem_of_app. right. by left.
      * intros q Hq. apply Hall. apply elem_of_app. by left.
Qed.

Lemma row_value_by_fixed `{LarSolver H} (lra : H) (y : N → mpq)
    (r : list (N * mpq)) :
  (∀ j, is_fixed lra j = true → y j = get_lower_bound lra j) →
  (row_value y r
   = row_value y (filter (λ p : N * mpq, is_fixed lra p.1 = false) r)
     + row_value (get_lower_bound lra)
         (filter (λ p : N * mpq, is_fixed lra p.1 = true) r))%Qc.
Proof.
  intros Hy. induction r as [|p r IH]; [cbn; ring|].
  rewrite !filter_cons, row_value_cons, IH.
  destruct (is_fixed lra p.1) eqn:Hfix.
  - rewrite decide_False by done. rewrite decide_True by done.
    rewrite row_value_cons, (Hy _ Hfix). ring.
  - rewrite decide_True by done. rewrite decide_False by done.
    rewrite row_value_cons. ring.
Qed.

Lemma fill_entry_builds `{LarSolver H} (lra : H) (tj : N) (s : imp) :
  rows_aligned s →
  (∀ q, q ∈ ext_coeffs lra tj → q.1 ≠ UINT_MAX) →
  let ei := length (m_entries s) in
  let s' := fill_entry lra tj s in
  rows_aligned s' ∧ length (m_entries s') = Datatypes.S ei ∧
  m_f s' = m_f s ++ [ei] ∧
  (∃ ext, m_var_register s' = m_var_register s ++ ext) ∧
  row_of_term lra s' ei tj ∧
  (∀ i, i < ei →
        row_at (m_e_matrix s') i = row_at (m_e_matrix s) i ∧
        row_at (m_l_matrix s') i = row_at (m_l_matrix s) i ∧
        entry_at s' i = entry_at s i).
Proof.
  intros [HE HL] Hall ei s'.
  set (s0 :=
         set_m_e_matrix (add_row (m_e_matrix s))
           (set_m_l_matrix
              (add_new_element ei tj 1%Qc (add_row (m_l_matrix s)))
              (set_m_l_columns
                 (add_columns_up_to (N.to_nat tj) (m_l_columns s))
                 (set_m_entries
                    (m_entries s ++
                       [{| m_c := 0%Qc; m_entry_status := entry_status.F |}])
                    (set_m_f (m_f s ++ [ei]) s))))).
  assert (Hs' : s' = fold_left (fill_entry_cell lra ei) (ext_coeffs lra tj) s0)
    by reflexivity.
  assert (Hent : m_entries s0
                 = m_entries s ++
                     [{| m_c := 0%Qc; m_entry_status := entry_status.F |}])
    by reflexivity.
  assert (HmE : m_e_matrix s0 = m_e_matrix s ++ [[]]) by reflexivity.
  assert (HmL : m_l_matrix s0
                = add_new_element ei tj 1%Qc (m_l_matrix s ++ [[]]))
    by reflexivity.
  assert (Hreg0 : m_var_register s0 = m_var_register s) by reflexivity.
  assert (Hf0 : m_f s0 = m_f s ++ [ei]) by reflexivity.
  assert (He0 : entry_at s0 ei
                = {| m_c := 0%Qc; m_entry_status := entry_status.F |}).
  { unfold entry_at. rewrite Hent, lookup_app_r by (unfold ei; lia).
    by rewrite Nat.sub_diag. }
  assert (Hr0 : row_at (m_e_matrix s0) ei = []).
  { unfold row_at. rewrite HmE, lookup_app_r by (unfold ei; lia).
    replace (ei - length (m_e_matrix s)) with 0 by (unfold ei; lia). done. }
  assert (Hinv0 : fill_entry_inv lra s0 ei [] s0).
  { unfold fill_entry_inv. rewrite Hr0.
    repeat split; try done; [by exists []; rewrite app_nil_r|].
    rewrite filter_nil. cbn. ring. }
  assert (HiE : ei < length (m_entries s0))
    by (rewrite Hent, length_app; cbn; unfold ei; lia).
  assert (HiM : ei < length (m_e_matrix s0))
    by (rewrite HmE, length_app; cbn; unfold ei; lia).
  pose proof (fill_entry_loop_inv lra s0 ei (ext_coeffs lra tj) [] s0
                HiE HiM Hall Hinv0) as Hinv.
  rewrite app_nil_l, <- Hs' in Hinv. clearbody s0 s'.
  destruct Hinv as (Hlen & HlenE & HL' & Hf & [ext Hreg] & Hrow & Hc & Hst
                    & Hoth).
  rewrite He0 in Hc, Hst. cbn [m_c m_entry_status] in Hc, Hst.
  assert (Hc' : m_c (entry_at s' ei)
                = row_value (get_lower_bound lra)
                    (filter (λ p : N * mpq, is_fixed lra p.1 = true)
                       (ext_coeffs lra tj))).
  { rewrite Hc. ring. }
  assert (HlenL : length (m_l_matrix s') = Datatypes.S ei).
  { rewrite HL', HmL. unfold add_new_element.
    rewrite length_alter, length_app. cbn. unfold ei. lia. }
  split; [|split; [|split; [|split; [|split]]]].
  - split; [rewrite HlenE, Hlen | rewrite HlenL, Hlen];
      rewrite ?HmE, Hent, !length_app; cbn; unfold ei; lia.
  - rewrite Hlen, Hent, length_app. cbn. unfold ei. lia.
  - by rewrite Hf, Hf0.
  - exists ext. by rewrite Hreg, Hreg0.
  - split; [|split; [exact Hst|split; [exact Hrow|exact Hc']]].
    rewrite HL', HmL. unfold add_new_element.
    rewrite row_at_alter_eq by (rewrite length_app; cbn; unfold ei; lia).
    unfold row_at. rewrite lookup_app_r by (unfold ei; lia).
    replace (ei - length (m_l_matrix s)) with 0 by (unfold ei; lia). done.
  - intros i Hi. destruct (Hoth i ltac:(lia)) as [HrE Hen].
    split; [|split].
    + rewrite HrE, HmE. unfold row_at.
      by rewrite lookup_app_l by (unfold ei in Hi; lia).
    + rewrite HL', HmL. unfold add_new_element.
      rewrite row_at_alter_ne by lia. unfold row_at.
      by rewrite lookup_app_l by (unfold ei in Hi; lia).
    + rewrite Hen. unfold entry_at. rewrite Hent.
      by rewrite lookup_app_l by (unfold ei in Hi; lia).
Qed.

(** X16.  [fill_entry] appends one row for the term of the column [tj]: the
    row is put on F, its row of L is the single cell [(tj, 1)], the cells of
    its row of E are, through the register, the monomials of the extended term
    whose columns are not fixed, in their order, and its constant is the value
    of the monomials of the fixed columns at their bounds; so the equation of
    the row is that of the term whenever the fixed columns have their values.
    The register is only extended and the rows before stay as they are. *)
Theorem fill_entry_row `{LarSolver H} (lra : H) (tj : N) (s : imp) :
  rows_aligned s →
  (∀ q, q ∈ ext_coeffs lra tj → q.1 ≠ UINT_MAX) →
  let ei := length (m_entries s) in
  let s' := fill_entry lra tj s in
  rows_aligned s' ∧ length (m_entries s') = Datatypes.S ei ∧
  m_f s' = m_f s ++ [ei] ∧
  status_at s' ei = entry_status.F ∧
  row_at (m_l_matrix s') ei = [(tj, 1%Qc)] ∧
  (∃ ext, m_var_register s' = m_var_register s ++ ext) ∧
  (λ p : nat * mpq, (local_to_lar_solver s' p.1, p.2))
    <$> row_at (m_e_matrix s') ei
  = filter (λ p : N * mpq, is_fixed lra p.1 = false) (ext_coeffs lra tj) ∧
  m_c (entry_at s' ei)
  = row_value (get_lower_bound lra)
      (filter (λ p : N * mpq, is_fixed lra p.1 = true) (ext_coeffs lra tj)) ∧
  (∀ y : N → mpq,
     (∀ j, is_fixed lra j = true → y j = get_lower_bound lra j) →
     (row_value (λ l, y (local_to_lar_solver s' l)) (row_at (m_e_matrix s') ei)
      + m_c (entry_at s' ei)
      = row_value y (ext_coeffs lra tj))%Qc) ∧
  (∀ i, i < ei →
        row_at (m_e_matrix s') i = row_at (m_e_matrix s) i ∧
        row_at (m_l_matrix s') i = row_at (m_l_matrix s) i ∧
        entry_at s' i = entry_at s i).
Proof.
  intros Hal Hall ei s'.
  destruct (fill_entry_builds lra tj s Hal Hall)
    as (Hal' & Hlen & Hf & Hreg & (HL & Hst & Hrow & Hc) & Hbefore).
  fold ei s' in Hal', Hlen, Hf, Hreg, HL, Hst, Hrow, Hc, Hbefore.
  repeat (split; [done|]). split; [|done].
  intros y Hy. rewrite (row_value_by_fixed lra y _ Hy), <- Hrow, <- Hc.
  by rewrite row_value_fmap.
Qed.

Lemma fill_entry_row_witness :
  m_c (entry_at (fill_entry fill_host 3%N new_imp) 0) = z 15 ∧
  (λ p : nat * mpq,
     (local_to_lar_solver (fill_entry fill_host 3%N new_imp) p.1, p.2))
    <$> row_at (m_e_matrix (fill_entry fill_host 3%N new_imp)) 0
  = [(0%N, z 2); (3%N, z (-1))].
Proof.
  destruct (fill_entry_row fill_host 3%N new_imp)
    as (_ & _ & _ & _ & _ & _ & Hrow & Hc & _).
  - split; reflexivity.
  - apply Forall_forall. by_compute.
  - split.
    + etransitivity; [exact Hc|]. by_compute.
    + etransitivity; [exact Hrow|]. by_compute.
Defined.

(** ** The operators of [term_o] *)

Section term_coeffs.
Context `{Countable K}.
Implicit Types t l : gmap K mpq.

Lemma get_coeff_add_monomial (c : mpq) (j : K) t (i : K) :
  get_coeff (add_monomial c j t) i
  = if decide (i = j) then (get_coeff t j + c)%Qc else get_coeff t i.
Proof.
  unfold add_monomial, get_coeff.
  destruct (is_zero c) eqn:Hc.
  - apply is_zero_true in Hc as ->.
    destruct (decide (i = j)) as [->|]; [ring|done].
  - destruct (t !! j) as [v|] eqn:Hj.
    + destruct (is_zero (v + c)) eqn:Hz.
      * apply is_zero_true in Hz.
        destruct (decide (i = j)) as [->|Hij].
        -- rewrite lookup_delete_eq. symmetry. exact Hz.
        -- by rewrite lookup_delete_ne.
      * destruct (decide (i = j)) as [->|Hij].
        -- by rewrite lookup_insert_eq.
        -- by rewrite lookup_insert_ne.
    + destruct (decide (i = j)) as [->|Hij].
      * rewrite lookup_insert_eq. cbn. ring.
      * by rewrite lookup_insert_ne.
Qed.

Lemma no_zero_add_monomial (c : mpq) (j : K) t :
  no_zero t → no_zero (add_monomial c j t).
Proof.
  intros Ht i v. unfold add_monomial.
  destruct (is_zero c) eqn:Hc; [apply Ht|].
  apply is_zero_false in Hc.
  destruct (t !! j) as [w|] eqn:Hj.
  - destruct (is_zero (w + c)) eqn:Hz.
    + destruct (decide (i = j)) as [->|Hij].
      * by rewrite lookup_delete_eq.
      * rewrite lookup_delete_ne by done. apply Ht.
    + apply is_zero_false in Hz.
      destruct (decide (i = j)) as [->|Hij].
      * rewrite lookup_insert_eq. by intros [= <-].
      * rewrite lookup_insert_ne by done. apply Ht.
  - destruct (decide (i = j)) as [->|Hij].
    + rewrite lookup_insert_eq. by intros [= <-].
    + rewrite lookup_insert_ne by done. apply Ht.
Qed.

Lemma no_zero_empty : no_zero (∅ : gmap K mpq).
Proof. intros j v. by rewrite lookup_empty. Qed.

(** The loop [for (p : l) t.add_monomial(g(p.coeff()), p.j())]. *)
Lemma get_coeff_fold_add (g : mpq → mpq) t l (i : K) :
  g 0%Qc = 0%Qc →
  (get_coeff (map_fold (λ j a acc, add_monomial (g a) j acc) t l) i
   = get_coeff t i + g (get_coeff l i))%Qc.
Proof.
  intros Hg. revert i.
  apply (map_fold_weak_ind
           (λ r m, ∀ i, get_coeff r i = get_coeff t i + g (get_coeff m i))%Qc).
  - intros i. unfold get_coeff at 3. rewrite lookup_empty. cbn.
    rewrite Hg. ring.
  - intros j x m r Hm IH i. rewrite get_coeff_add_monomial.
    destruct (decide (i = j)) as [->|Hij].
    + replace (get_coeff (<[j:=x]> m) j) with x
        by (unfold get_coeff; by rewrite lookup_insert_eq).
      rewrite IH. replace (get_coeff m j) with 0%Qc
        by (unfold get_coeff; by rewrite Hm).
      rewrite Hg. ring.
    + replace (get_coeff (<[j:=x]> m) i) with (get_coeff m i)
        by (unfold get_coeff; by rewrite lookup_insert_ne).
      apply IH.
Qed.

Lemma no_zero_fold_add (g : mpq → mpq) t l :
  no_zero t →
  no_zero (map_fold (λ j a acc, add_monomial (g a) j acc) t l).
Proof.
  intros Ht.
  apply (map_fold_weak_ind (λ r (_ : gmap K mpq), no_zero r)); [done|].
  intros j x m r _ Hr. by apply no_zero_add_monomial.
Qed.

Lemma no_zero_ext t l :
  no_zero t → no_zero l → (∀ i, get_coeff t i = get_coeff l i) → t = l.
Proof.
  intros Ht Hl Heq. apply map_eq. intros i. specialize (Heq i).
  unfold get_coeff in Heq.
  destruct (t !! i) as [v|] eqn:Hti, (l !! i) as [w|] eqn:Hli; cbn in Heq.
  - by rewrite Heq.
  - by destruct (Ht i v Hti).
  - by destruct (Hl i w Hli).
  - done.
Qed.

Lemma no_zero_coeffs_empty t :
  no_zero t → t = ∅ ↔ ∀ i, get_coeff t i = 0%Qc.
Proof.
  intros Ht. split.
  - intros -> i. unfold get_coeff. by rewrite lookup_empty.
  - intros Hz. apply (no_zero_ext _ _ Ht no_zero_empty). intros i.
    rewrite Hz. unfold get_coeff. by rewrite lookup_empty.
Qed.

Lemma get_coeff_clone (a : term_o K) (i : K) :
  get_coeff (t_coeffs (term_o_clone a)) i = get_coeff (t_coeffs a) i.
Proof.
  unfold term_o_clone, add_monomials. cbn [t_coeffs].
  rewrite (get_coeff_fold_add (λ a, a)) by done.
  unfold get_coeff at 1. rewrite lookup_empty. cbn. ring.
Qed.

Lemma get_coeff_add (a b : term_o K) (i : K) :
  (get_coeff (t_coeffs (term_o_add a b)) i
   = get_coeff (t_coeffs a) i + get_coeff (t_coeffs b) i)%Qc.
Proof.
  unfold term_o_add, add_monomials. cbn [t_coeffs].
  by rewrite (get_coeff_fold_add (λ a, a)).
Qed.

Lemma get_coeff_scale (k : mpq) (a : term_o K) (i : K) :
  (get_coeff (t_coeffs (term_o_scale k a)) i
   = k * get_coeff (t_coeffs a) i)%Qc.
Proof.
  unfold term_o_scale. cbn [t_coeffs].
  rewrite (get_coeff_fold_add (λ a, a * k)%Qc) by ring.
  unfold get_coeff at 1. rewrite lookup_empty. cbn. ring.
Qed.

Lemma get_coeff_sub (a b : term_o K) (i : K) :
  (get_coeff (t_coeffs (term_o_sub a b)) i
   = get_coeff (t_coeffs a) i - get_coeff (t_coeffs b) i)%Qc.
Proof.
  unfold term_o_sub, sub_monomial. cbn [t_coeffs].
  rewrite (get_coeff_fold_add (λ a, - a)%Qc) by ring.
  rewrite get_coeff_clone. ring.
Qed.

Lemma no_zero_clone (a : term_o K) : no_zero (t_coeffs (term_o_clone a)).
Proof.
  unfold term_o_clone, add_monomials. cbn [t_coeffs].
  apply (no_zero_fold_add (λ a, a)), no_zero_empty.
Qed.

Lemma no_zero_scale (k : mpq) (a : term_o K) :
  no_zero (t_coeffs (term_o_scale k a)).
Proof.
  unfold term_o_scale. cbn [t_coeffs].
  apply (no_zero_fold_add (λ a, a * k)%Qc), no_zero_empty.
Qed.

Lemma no_zero_add (a b : term_o K) :
  no_zero (t_coeffs a) → no_zero (t_coeffs (term_o_add a b)).
Proof.
  unfold term_o_add, add_monomials. cbn [t_coeffs].
  apply (no_zero_fold_add (λ a, a)).
Qed.

(** X17.  The operators of [term_o] work coefficient by coefficient, a
    variable that a term does not hold counting as zero: [clone] keeps the
    coefficients, [+=] adds them, [k *] multiplies them, [-] subtracts them,
    with the same operation on the constants; and the results hold no zero
    coefficient (for [+=], when the left operand held none). *)
Theorem term_o_operators (k : mpq) (a b : term_o K) :
  (∀ i, get_coeff (t_coeffs (term_o_clone a)) i = get_coeff (t_coeffs a) i) ∧
  (∀ i, get_coeff (t_coeffs (term_o_add a b)) i
        = get_coeff (t_coeffs a) i + get_coeff (t_coeffs b) i)%Qc ∧
  (∀ i, get_coeff (t_coeffs (term_o_scale k a)) i
        = k * get_coeff (t_coeffs a) i)%Qc ∧
  (∀ i, get_coeff (t_coeffs (term_o_sub a b)) i
        = get_coeff (t_coeffs a) i - get_coeff (t_coeffs b) i)%Qc ∧
  (t_c (term_o_clone a) = t_c a ∧
   t_c (term_o_add a b) = t_c a + t_c b ∧
   t_c (term_o_scale k a) = k * t_c a ∧
   t_c (term_o_sub a b) = t_c a - t_c b)%Qc ∧
  no_zero (t_coeffs (term_o_clone a)) ∧
  no_zero (t_coeffs (term_o_scale k a)) ∧
  no_zero (t_coeffs (term_o_sub a b)) ∧
  (no_zero (t_coeffs a) → no_zero (t_coeffs (term_o_add a b))).
Proof.
  split; [intros i; apply get_coeff_clone|].
  split; [intros i; apply get_coeff_add|].
  split; [intros i; apply get_coeff_scale|].
  split; [intros i; apply get_coeff_sub|].
  split; [done|].
  split; [apply no_zero_clone|].
  split; [apply no_zero_scale|].
  split; [|apply no_zero_add].
  unfold term_o_sub, sub_monomial. cbn [t_coeffs].
  apply (no_zero_fold_add (λ a, - a)%Qc), no_zero_clone.
Qed.

(** X18.  [operator==] of [term_o] tells whether the two terms have the same
    constant and the same coefficient for every variable, a variable that a
    term does not hold counting as zero. *)
Theorem term_o_eq_spec (a b : term_o K) :
  term_o_eq a b = true
  ↔ t_c a = t_c b ∧ ∀ i, get_coeff (t_coeffs a) i = get_coeff (t_coeffs b) i.
Proof.
  unfold term_o_eq. cbv zeta.
  set (t := term_o_add (term_o_clone a) (term_o_scale (-1) b)).
  assert (Hnz : no_zero (t_coeffs t))
    by (apply no_zero_add, no_zero_clone).
  assert (Hcf : ∀ i, (get_coeff (t_coeffs t) i
                      = get_coeff (t_coeffs a) i - get_coeff (t_coeffs b) i)%Qc).
  { intros i. unfold t.
    rewrite get_coeff_add, get_coeff_clone, get_coeff_scale.
    change (-1)%Qc with (- (1))%Qc. ring. }
  assert (Hc : (t_c t = t_c a - t_c b)%Qc).
  { cbn. change (-1)%Qc with (- (1))%Qc. ring. }
  rewrite andb_true_iff, is_zero_true, bool_decide_eq_true,
    map_size_empty_iff, (no_zero_coeffs_empty _ Hnz), Hc.
  split; intros [H1 H2]; split.
  - transitivity (t_c a - t_c b + t_c b)%Qc; [ring|]. rewrite H1. ring.
  - intros i. specialize (H2 i). rewrite Hcf in H2.
    transitivity (get_coeff (t_coeffs a) i - get_coeff (t_coeffs b) i
                  + get_coeff (t_coeffs b) i)%Qc; [ring|].
    rewrite H2. ring.
  - rewrite H1. ring.
  - intros i. rewrite Hcf, H2. ring.
Qed.

End term_coeffs.

(** ** The start of a check *)

Lemma filter_none {A} (P : A → Prop) `{∀ x, Decision (P x)} (l : list A) :
  (∀ x, ¬ P x) → filter P l = [].
Proof.
  intros HP. induction l as [|x l IH]; [done|].
  rewrite filter_cons, decide_False by apply HP. exact IH.
Qed.

Lemma process_changed_columns_none `{LarSolver H} (lra : H) (s : imp) :
  m_changed_columns s = ∅ →
  process_changed_columns lra s = set_m_changed_columns ∅ s.
Proof.
  intros Hch. unfold process_changed_columns. rewrite Hch, elements_empty.
  cbn [map union_list foldr]. rewrite elements_empty.
  cbn [map union_list foldr]. rewrite (left_id_L ∅ (∪)).
  rewrite filter_none; [done|].
  intros j.
  destruct (m_ei (fresh_definition_at s j)),
    (m_origin (fresh_definition_at s j)); done.
Qed.

Lemma row_of_term_mono `{LarSolver H} (lra : H) (s s' : imp) (i : nat)
    (t : N) :
  (∀ q, q ∈ ext_coeffs lra t → q.1 ≠ UINT_MAX) →
  row_of_term lra s i t →
  row_at (m_e_matrix s') i = row_at (m_e_matrix s) i →
  row_at (m_l_matrix s') i = row_at (m_l_matrix s) i →
  entry_at s' i = entry_at s i →
  (∃ ext, m_var_register s' = m_var_register s ++ ext) →
  row_of_term lra s' i t.
Proof.
  intros Hall (HL & Hst & Hrow & Hc) HE HL' Hen [ext Hreg].
  unfold row_of_term, status_at in *. rewrite HE, HL', Hen.
  split; [done|]. split; [done|]. split; [|done].
  rewrite <- Hrow. apply list_fmap_ext. intros k q Hq. f_equal.
  unfold local_to_lar_solver. rewrite Hreg. apply local_to_external_app.
  assert (Hin : (local_to_lar_solver s q.1, q.2)
                ∈ filter (λ p0 : N * mpq, is_fixed lra p0.1 = false)
                    (ext_coeffs lra t)).
  { rewrite <- Hrow.
    apply (list_elem_of_fmap_2
             (λ p0 : nat * mpq, (local_to_lar_solver s p0.1, p0.2))).
    by eapply list_elem_of_lookup_2. }
  apply list_elem_of_filter in Hin as [_ Hin].
  by apply (Hall _ Hin).
Qed.

Lemma row_of_term_holds `{LarSolver H} (lra : H) (s : imp) (i : nat) (t : N)
    (y : N → mpq) :
  row_of_term lra s i t →
  (∀ j, is_fixed lra j = true → y j = get_lower_bound lra j) →
  row_holds (λ l, y (local_to_lar_solver s l)) s i
  ↔ row_value y (ext_coeffs lra t) = 0%Qc.
Proof.
  intros (_ & _ & Hrow & Hc) Hy. unfold row_holds.
  rewrite (row_value_by_fixed lra y _ Hy), <- Hrow, <- Hc.
  by rewrite row_value_fmap.
Qed.

Lemma lifecycle_of_fill_entry `{LarSolver H} (lra : H) (t : N) (s : imp) :
  lifecycle_of (fill_entry lra t s) = lifecycle_of s ∧
  m_active_terms (fill_entry lra t s) = m_active_terms s.
Proof.
  unfold fill_entry. cbv zeta.
  match goal with
  | |- context [fold_left ?f ?l ?s0] =>
      pose proof (fold_left_frame (λ s, (lifecycle_of s, m_active_terms s))
                    f l s0) as Hobs;
      generalize dependent (fold_left f l s0)
  end.
  intros s' Hobs.
  assert (Hs' : (lifecycle_of s', m_active_terms s')
                = (lifecycle_of s, m_active_terms s)).
  { rewrite Hobs; [done|]. intros s0 p. unfold fill_entry_cell, add_var.
    destruct (is_fixed lra p.1); [done|].
    by destruct (VarRegister.add_var p.1 (m_var_register s0)). }
  split; [exact (f_equal fst Hs') | exact (f_equal snd Hs')].
Qed.

Lemma init_step_rows `{LarSolver H} (lra : H) (t : N) (st : imp) :
  rows_aligned st →
  (∀ q, q ∈ ext_coeffs lra t → q.1 ≠ UINT_MAX) →
  let n0 := length (m_entries st) in
  let s1 := register_columns_to_term lra t
              (fill_entry lra t
                 (set_m_active_terms ({[t]} ∪ m_active_terms st) st)) in
  rows_aligned s1 ∧ length (m_entries s1) = Datatypes.S n0 ∧
  m_f s1 = m_f st ++ [n0] ∧
  (∃ ext, m_var_register s1 = m_var_register st ++ ext) ∧
  row_of_term lra s1 n0 t ∧
  (∀ i, i < n0 →
        row_at (m_e_matrix s1) i = row_at (m_e_matrix st) i ∧
        row_at (m_l_matrix s1) i = row_at (m_l_matrix st) i ∧
        entry_at s1 i = entry_at st i) ∧
  m_active_terms s1 = {[t]} ∪ m_active_terms st ∧
  lifecycle_of s1 = lifecycle_of st.
Proof.
  intros Hal Hall n0 s1.
  set (sa := set_m_active_terms ({[t]} ∪ m_active_terms st) st).
  destruct (fill_entry_builds lra t sa Hal Hall)
    as (Hal' & Hlen & Hf & Hreg & Hrow & Hbefore).
  destruct (lifecycle_of_fill_entry lra t sa) as [Hlife Hact].
  change (length (m_entries sa)) with n0 in *.
  unfold s1. fold sa. generalize dependent (fill_entry lra t sa).
  intros s2 Hal' Hlen Hf Hreg Hrow Hbefore Hlife Hact.
  repeat split; try done; try apply Hbefore; try done;
    try apply Hal'; apply Hrow.
Qed.

Lemma init_loop_rows `{LarSolver H} (lra : H) (ts : list N) (st : imp) :
  rows_aligned st →
  (∀ t, t ∈ ts → ∀ q, q ∈ ext_coeffs lra t → q.1 ≠ UINT_MAX) →
  let n0 := length (m_entries st) in
  let s' := fold_left
              (λ s t, register_columns_to_term lra t
                        (fill_entry lra t
                           (set_m_active_terms ({[t]} ∪ m_active_terms s) s)))
              ts st in
  rows_aligned s' ∧ length (m_entries s') = n0 + length ts ∧
  m_f s' = m_f st ++ seq n0 (length ts) ∧
  (∃ ext, m_var_register s' = m_var_register st ++ ext) ∧
  (∀ k t, ts !! k = Some t →
          t ∈ m_active_terms s' ∧ row_of_term lra s' (n0 + k) t) ∧
  (∀ i, i < n0 →
        row_at (m_e_matrix s') i = row_at (m_e_matrix st) i ∧
        row_at (m_l_matrix s') i = row_at (m_l_matrix st) i ∧
        entry_at s' i = entry_at st i) ∧
  m_active_terms st ⊆ m_active_terms s' ∧
  lifecycle_of s' = lifecycle_of st.
Proof.
  revert st. induction ts as [|t ts IH]; intros st Hal Hall n0 s'.
  - unfold s'. cbn [fold_left length seq]. rewrite app_nil_r, Nat.add_0_r.
    repeat split; try done; try apply Hal. by exists []; rewrite app_nil_r.
  - destruct (init_step_rows lra t st Hal) as
      (Hal1 & Hlen1 & Hf1 & [ext1 Hreg1] & Hrow1 & Hbefore1 & Hact1 & Hlife1).
    { apply Hall. by left. }
    unfold s'. cbn [fold_left].
    set (s1 := register_columns_to_term lra t
                 (fill_entry lra t
                    (set_m_active_terms ({[t]} ∪ m_active_terms st) st))) in *.
    destruct (IH s1 Hal1) as
      (Hal2 & Hlen2 & Hf2 & [ext2 Hreg2] & Hrows2 & Hbefore2 & Hact2 & Hlife2).
    { intros t' Ht'. apply Hall. by right. }
    clearbody s1.
    match goal with
    | |- context [fold_left ?f ts s1] =>
        generalize dependent (fold_left f ts s1)
    end.
    intros s2 Hal2 Hlen2 Hf2 Hreg2 Hrows2 Hbefore2 Hact2 Hlife2.
    fold n0 in Hlen1, Hf1, Hrow1, Hbefore1.
    rewrite Hlen1 in Hlen2, Hf2, Hrows2, Hbefore2.
    split; [exact Hal2|]. split; [cbn [length]; lia|].
    split; [by rewrite Hf2, Hf1, <- app_assoc|].
    split; [exists (ext1 ++ ext2); by rewrite Hreg2, Hreg1, app_assoc|].
    split; [|split; [|split]].
    + intros [|k] t' Hk.
      * injection Hk as <-. rewrite Nat.add_0_r. split.
        -- apply Hact2. rewrite Hact1. apply elem_of_union. left.
           by apply elem_of_singleton.
        -- destruct (Hbefore2 n0 ltac:(lia)) as (HE & HL & Hen).
           apply (row_of_term_mono lra s1 s2 n0 t); try done.
           ++ apply Hall. by left.
           ++ by exists ext2.
      * destruct (Hrows2 k t' Hk) as [Hin Hrow].
        split; [exact Hin|].
        by replace (n0 + Datatypes.S k) with (Datatypes.S n0 + k) by lia.
    + intros i Hi. destruct (Hbefore2 i ltac:(lia)) as (HE & HL & Hen).
      destruct (Hbefore1 i Hi) as (HE1 & HL1 & Hen1).
      by rewrite HE, HL, Hen.
    + rewrite Hact1 in Hact2. intros x Hx. apply Hact2, elem_of_union.
      by right.
    + by rewrite Hlife2.
Qed.

Lemma init_builds `{LarSolver H} (lra : H) (s : imp) :
  rows_aligned s →
  m_changed_columns s = ∅ →
  (∀ t, t ∈ m_added_terms s →
        ∀ q, q ∈ ext_coeffs lra t → q.1 ≠ UINT_MAX) →
  let n0 := length (m_entries s) in
  let s' := init lra s in
  rows_aligned s' ∧
  length (m_entries s') = n0 + length (m_added_terms s) ∧
  m_f s' = m_f s ++ seq n0 (length (m_added_terms s)) ∧
  m_s s' = m_s s ∧
  m_added_terms s' = [] ∧ m_branch_stack s' = [] ∧ m_lra_level s' = 0%N ∧
  m_infeas_explanation s' = [] ∧
  (∀ k t, m_added_terms s !! k = Some t →
          t ∈ m_active_terms s' ∧ row_of_term lra s' (n0 + k) t) ∧
  (∀ i, i < n0 →
        row_at (m_e_matrix s') i = row_at (m_e_matrix s) i ∧
        row_at (m_l_matrix s') i = row_at (m_l_matrix s) i ∧
        entry_at s' i = entry_at s i).
Proof.
  intros Hal Hch Hall n0 s'.
  set (s0 := set_m_changed_columns ∅
               (set_m_lra_level 0%N
                  (set_m_branch_stack []
                     (set_m_number_of_iterations 0
                        (set_lia (set_lia_term ∅ (lia s))
                           (set_m_infeas_explanation []
                              (set_m_conflict_index None
                                 (set_m_report_branch false s)))))))).
  assert (Hs' : s' = set_m_added_terms []
                       (fold_left
                          (λ s t, register_columns_to_term lra t
                                    (fill_entry lra t
                                       (set_m_active_terms
                                          ({[t]} ∪ m_active_terms s) s)))
                          (m_added_terms s) s0)).
  { unfold s', init. cbv zeta.
    by rewrite process_changed_columns_none. }
  destruct (init_loop_rows lra (m_added_terms s) s0 Hal Hall)
    as (Hal2 & Hlen & Hf & _ & Hrows & Hbefore & _ & Hlife).
  clearbody s'. subst s'.
  match goal with
  | |- context [fold_left ?f (m_added_terms s) s0] =>
      generalize dependent (fold_left f (m_added_terms s) s0)
  end.
  intros s2 Hal2 Hlen Hf Hrows Hbefore Hlife.
  change (length (m_entries s0)) with n0 in *.
  unfold lifecycle_of in Hlife. cbn in Hlife.
  injection Hlife as Hst Hlvl Hex _ Hms.
  split; [exact Hal2|]. split; [exact Hlen|]. split; [exact Hf|].
  split; [exact Hms|]. split; [done|]. split; [exact Hst|].
  split; [exact Hlvl|]. split; [exact Hex|]. split; [exact Hrows|exact Hbefore].
Qed.

(** X19.  With no changed column pending, [init] appends one row per added
    term, in the order of the additions, and leaves the rows before as they
    are: the row of the term [t] is put on F, its row of L is the cell
    [(t, 1)], and under an assignment of the host columns that gives the
    fixed columns their values its equation is that of the term,
    [sum a_i * x_i - x_t = 0].  The term becomes active, the list of the
    added terms is emptied, and the branch stack, the level of the host and
    the explanation are reset. *)
Theorem init_adds_rows `{LarSolver H} (lra : H) (s : imp) :
  rows_aligned s →
  m_changed_columns s = ∅ →
  (∀ t, t ∈ m_added_terms s →
        ∀ q, q ∈ ext_coeffs lra t → q.1 ≠ UINT_MAX) →
  let n0 := length (m_entries s) in
  let s' := init lra s in
  rows_aligned s' ∧
  length (m_entries s') = n0 + length (m_added_terms s) ∧
  m_f s' = m_f s ++ seq n0 (length (m_added_terms s)) ∧
  m_s s' = m_s s ∧
  m_added_terms s' = [] ∧ m_branch_stack s' = [] ∧ m_lra_level s' = 0%N ∧
  m_infeas_explanation s' = [] ∧
  (∀ k t, m_added_terms s !! k = Some t →
          t ∈ m_active_terms s' ∧ row_of_term lra s' (n0 + k) t ∧
          ∀ y : N → mpq,
            (∀ j, is_fixed lra j = true → y j = get_lower_bound lra j) →
            row_holds (λ l, y (local_to_lar_solver s' l)) s' (n0 + k)
            ↔ row_value y (ext_coeffs lra t) = 0%Qc) ∧
  (∀ i, i < n0 →
        row_at (m_e_matrix s') i = row_at (m_e_matrix s) i ∧
        row_at (m_l_matrix s') i = row_at (m_l_matrix s) i ∧
        entry_at s' i = entry_at s i).
Proof.
  intros Hal Hch Hall n0 s'.
  destruct (init_builds lra s Hal Hch Hall)
    as (Hal' & Hlen & Hf & Hms & Hadd & Hst & Hlvl & Hex & Hrows & Hbefore).
  fold n0 s' in Hal', Hlen, Hf, Hms, Hadd, Hst, Hlvl, Hex, Hrows, Hbefore.
  repeat (split; [done|]). split; [|done].
  intros k t Hk. destruct (Hrows k t Hk) as [Hin Hrow].
  split; [exact Hin|]. split; [exact Hrow|].
  intros y Hy. by apply (row_of_term_holds lra _ _ t y).
Qed.

Lemma init_adds_rows_witness :
  m_f (init fill_host fill_example) = [0] ∧
  3%N ∈ m_active_terms (init fill_host fill_example) ∧
  row_of_term fill_host (init fill_host fill_example) 0 3%N.
Proof.
  destruct (init_adds_rows fill_host fill_example)
    as (_ & _ & Hf & _ & _ & _ & _ & _ & Hrows & _).
  - split; reflexivity.
  - reflexivity.
  - intros t Ht. apply list_elem_of_singleton in Ht as ->.
    apply Forall_forall. by_compute.
  - split; [exact Hf|].
    destruct (Hrows 0 3%N eq_refl) as (Hin & Hrow & _).
    split; [exact Hin|exact Hrow].
Defined.

(** ** The substitution of the tightener *)

Section work_vector.
Implicit Types v : indexed_vector.

Lemma get_erase (k i : nat) v :
  IndexedVector.get (IndexedVector.erase k v) i
  = if decide (i = k) then 0%Qc else IndexedVector.get v i.
Proof.
  unfold IndexedVector.get, IndexedVector.erase. cbn [m_data].
  destruct (decide (i = k)) as [->|Hik].
  - by rewrite lookup_delete_eq.
  - by rewrite lookup_delete_ne.
Qed.

Lemma get_set_value (val : mpq) (j i : nat) v :
  IndexedVector.get (IndexedVector.set_value val j v) i
  = if decide (i = j) then val else IndexedVector.get v i.
Proof.
  unfold IndexedVector.get, IndexedVector.set_value. cbn [m_data].
  destruct (decide (i = j)) as [->|Hij].
  - by rewrite lookup_insert_eq.
  - by rewrite lookup_insert_ne.
Qed.

Lemma get_add_value_at_index (j : nat) (val : mpq) (i : nat) v :
  IndexedVector.get (IndexedVector.add_value_at_index j val v) i
  = if decide (i = j) then (IndexedVector.get v j + val)%Qc
    else IndexedVector.get v i.
Proof.
  unfold IndexedVector.add_value_at_index. cbv zeta.
  destruct (is_zero (IndexedVector.get v j + val)) eqn:Hnew.
  - apply is_zero_true in Hnew.
    destruct (is_zero (IndexedVector.get v j)) eqn:Hold.
    + apply is_zero_true in Hold.
      destruct (decide (i = j)) as [->|]; [|done].
      rewrite Hnew. exact Hold.
    + rewrite get_erase. destruct (decide (i = j)); [by rewrite Hnew|done].
  - unfold IndexedVector.get at 1. cbn [m_data].
    destruct (decide (i = j)) as [->|Hij].
    + by rewrite lookup_insert_eq.
    + by rewrite lookup_insert_ne.
Qed.

Lemma dense_value_S (n : nat) (x : nat → mpq) v :
  (dense_value (Datatypes.S n) x v
   = dense_value n x v + IndexedVector.get v n * x n)%Qc.
Proof.
  unfold dense_value. rewrite seq_S, foldr_app. cbn [foldr Nat.add].
  generalize (seq 0 n). intros l.
  induction l as [|i l IH]; cbn [foldr]; [ring|]. rewrite IH. ring.
Qed.

Lemma dense_value_same (n : nat) (x : nat → mpq) v v' :
  (∀ i, i < n → IndexedVector.get v' i = IndexedVector.get v i) →
  dense_value n x v' = dense_value n x v.
Proof.
  induction n as [|n IH]; intros Hget; [done|].
  rewrite !dense_value_S, IH, Hget; [done|lia|]. intros i Hi. apply Hget. lia.
Qed.

(** One coefficient changes by [d]. *)
Lemma dense_value_update (n : nat) (x : nat → mpq) (j : nat) (d : mpq) v v' :
  j < n →
  (∀ i, i ≠ j → IndexedVector.get v' i = IndexedVector.get v i) →
  (IndexedVector.get v' j = IndexedVector.get v j + d)%Qc →
  (dense_value n x v' = dense_value n x v + d * x j)%Qc.
Proof.
  intros Hj Hoth Hat. induction n as [|n IH]; [lia|].
  rewrite !dense_value_S. destruct (decide (j = n)) as [->|Hjn].
  - rewrite Hat, (dense_value_same n x v v'); [ring|].
    intros i Hi. apply Hoth. lia.
  - rewrite IH by lia. rewrite (Hoth n) by done. ring.
Qed.

Lemma dense_value_add_value (n : nat) (x : nat → mpq) (j : nat) (val : mpq) v :
  j < n →
  (dense_value n x (IndexedVector.add_value_at_index j val v)
   = dense_value n x v + val * x j)%Qc.
Proof.
  intros Hj. apply dense_value_update; [done| |].
  - intros i Hi. rewrite get_add_value_at_index. by rewrite decide_False.
  - rewrite get_add_value_at_index. by rewrite decide_True.
Qed.

Lemma dense_value_erase (n : nat) (x : nat → mpq) (k : nat) v :
  k < n →
  (dense_value n x (IndexedVector.erase k v)
   = dense_value n x v + - IndexedVector.get v k * x k)%Qc.
Proof.
  intros Hk. apply dense_value_update; [done| |].
  - intros i Hi. rewrite get_erase. by rewrite decide_False.
  - rewrite get_erase. rewrite decide_True by done. ring.
Qed.

Lemma dense_value_set_value (n : nat) (x : nat → mpq) (j : nat) (val : mpq) v :
  j < n → IndexedVector.get v j = 0%Qc →
  (dense_value n x (IndexedVector.set_value val j v)
   = dense_value n x v + val * x j)%Qc.
Proof.
  intros Hj Hz. apply dense_value_update; [done| |].
  - intros i Hi. rewrite get_set_value. by rewrite decide_False.
  - rewrite get_set_value. rewrite decide_True by done. rewrite Hz. ring.
Qed.

End work_vector.

Lemma subst_frame_facts (s s' : imp) :
  subst_frame s' = subst_frame s →
  m_e_matrix s' = m_e_matrix s ∧ m_entries s' = m_entries s ∧
  m_k2s s' = m_k2s s ∧ m_var_register s' = m_var_register s.
Proof. unfold subst_frame. intros [= -> -> -> ->]. done. Qed.

Lemma subst_frame_can_substitute (s s' : imp) (k : nat) :
  subst_frame s' = subst_frame s → can_substitute s' k = can_substitute s k.
Proof.
  intros (_ & _ & Hk & _)%subst_frame_facts. unfold can_substitute.
  by rewrite Hk.
Qed.

Lemma subst_frame_ready (n : nat) (x : nat → mpq) (s s' : imp) (k : nat) :
  subst_frame s' = subst_frame s →
  substitution_ready n x s k → substitution_ready n x s' k.
Proof.
  intros (HE & Hen & Hk & _)%subst_frame_facts.
  unfold substitution_ready, row_holds, sub_index, entry_at.
  by rewrite HE, Hen, Hk.
Qed.

(** The loop of [subs_front_in_indexed_vector] over the cells of the row. *)
Lemma subs_front_cells (n : nat) (x : nat → mpq) (k : nat) (coeff : mpq)
    (row : list (nat * mpq)) (sq : imp * list nat) :
  (∀ p : nat * mpq, p ∈ row → p.1 < n) →
  let sq' :=
    fold_left
      (λ (sq : imp * list nat) (p : nat * mpq),
         let (s, pushed) := sq in
         let j := p.1 in
         if decide (j = k) then (s, pushed)
         else
           let s := set_m_indexed_work_vector
                      (IndexedVector.add_value_at_index j (p.2 * coeff)%Qc
                         (m_indexed_work_vector s)) s in
           if negb (is_fresh_var s j)
              && negb (is_zero (IndexedVector.get (m_indexed_work_vector s) j))
              && can_substitute s j
           then (s, pushed ++ [j]) else (s, pushed))
      row sq in
  (dense_value n x (m_indexed_work_vector sq'.1)
   = dense_value n x (m_indexed_work_vector sq.1)
     + coeff * row_value x (filter (λ p, p.1 ≠ k) row))%Qc ∧
  subst_frame sq'.1 = subst_frame sq.1 ∧
  imp_m_c sq'.1 = imp_m_c sq.1 ∧ m_tmp_l sq'.1 = m_tmp_l sq.1 ∧
  (Forall (λ j, can_substitute sq.1 j = true) sq.2 →
   Forall (λ j, can_substitute sq.1 j = true) sq'.2).
Proof.
  revert sq. induction row as [|p row IH]; intros [s pushed] Hn sq'.
  - unfold sq'. cbn. repeat split; try done. ring.
  - unfold sq'. cbn [fold_left].
    assert (Hn' : ∀ q : nat * mpq, q ∈ row → q.1 < n)
      by (intros q Hq; apply Hn; by right).
    rewrite filter_cons.
    destruct (decide (p.1 = k)) as [Hpk|Hpk].
    + rewrite decide_False by (intros ?; done). apply (IH (s, pushed) Hn').
    + rewrite decide_True by done. rewrite row_value_cons.
      set (s1 := set_m_indexed_work_vector
                   (IndexedVector.add_value_at_index p.1 (p.2 * coeff)%Qc
                      (m_indexed_work_vector s)) s).
      assert (Hd : (dense_value n x (m_indexed_work_vector s1)
                    = dense_value n x (m_indexed_work_vector s)
                      + p.2 * coeff * x p.1)%Qc).
      { unfold s1. cbn [m_indexed_work_vector set_m_indexed_work_vector].
        apply dense_value_add_value, Hn. by left. }
      assert (Hfr : subst_frame s1 = subst_frame s) by reflexivity.
      destruct (negb (is_fresh_var s1 p.1)
                && negb (is_zero
                           (IndexedVector.get (m_indexed_work_vector s1) p.1))
                && can_substitute s1 p.1) eqn:Hpush.
      * destruct (IH (s1, pushed ++ [p.1]) Hn') as (H1 & H2 & H3 & H4 & H5).
        cbn [fst snd] in *.
        split; [rewrite H1, Hd; ring|]. split; [by rewrite H2|].
        split; [by rewrite H3|]. split; [by rewrite H4|].
        intros Hall.
        assert (Hall1 : Forall (λ j, can_substitute s1 j = true)
                          (pushed ++ [p.1])).
        { apply Forall_app. split.
          - eapply Forall_impl; [exact Hall|]. intros j Hj.
            by rewrite (subst_frame_can_substitute s s1).
          - apply Forall_singleton.
            by apply andb_true_iff in Hpush as [_ Hs]. }
        eapply Forall_impl; [exact (H5 Hall1)|]. intros j Hj.
        by rewrite <- (subst_frame_can_substitute s s1).
      * destruct (IH (s1, pushed) Hn') as (H1 & H2 & H3 & H4 & H5).
        cbn [fst snd] in *.
        split; [rewrite H1, Hd; ring|]. split; [by rewrite H2|].
        split; [by rewrite H3|]. split; [by rewrite H4|].
        intros Hall.
        assert (Hall1 : Forall (λ j, can_substitute s1 j = true) pushed).
        { eapply Forall_impl; [exact Hall|]. intros j Hj.
          by rewrite (subst_frame_can_substitute s s1). }
        eapply Forall_impl; [exact (H5 Hall1)|]. intros j Hj.
        by rewrite <- (subst_frame_can_substitute s s1).
Qed.

(** One substitution keeps the value of the work vector with its constant. *)
Lemma subs_front_value (n : nat) (x : nat → mpq) (k : nat) (s : imp) :
  substitution_ready n x s k →
  let sq := subs_front_in_indexed_vector k s in
  (dense_value n x (m_indexed_work_vector sq.1) + imp_m_c sq.1
   = dense_value n x (m_indexed_work_vector s) + imp_m_c s)%Qc ∧
  subst_frame sq.1 = subst_frame s ∧
  Forall (λ j, can_substitute s j = true) sq.2.
Proof.
  intros (Hnd & Hkc & Hn & Hk & Hrow) sq. unfold sq.
  unfold subs_front_in_indexed_vector.
  destruct (is_zero (IndexedVector.get (m_indexed_work_vector s) k)) eqn:Hz;
    [done|].
  cbv zeta.
  set (c := IndexedVector.get (m_indexed_work_vector s) k).
  set (s0 := set_m_indexed_work_vector
               (IndexedVector.erase k (m_indexed_work_vector s)) s).
  change (m_e_matrix s0) with (m_e_matrix s).
  change (sub_index s0 k) with (sub_index s k).
  set (r := row_at (m_e_matrix s) (sub_index s k)) in *.
  set (lam := if is_one (row_coeff k r) then (- c)%Qc else c).
  pose proof (subs_front_cells n x k lam r (s0, []) Hn)
    as (Hd & Hfr & Hc & _ & Hpush).
  cbn [fst snd] in Hd, Hfr, Hc, Hpush.
  match goal with
  | |- context [fold_left ?f r (s0, [])] =>
      generalize dependent (fold_left f r (s0, []))
  end.
  intros [s1 pushed] Hd Hfr Hc Hpush. cbn [fst snd] in *.
  cbn [m_indexed_work_vector imp_m_c set_imp_m_c set_m_tmp_l].
  split; [|split].
  - rewrite Hd, Hc. unfold s0.
    cbn [m_indexed_work_vector set_m_indexed_work_vector imp_m_c].
    rewrite dense_value_erase by done. fold c.
    rewrite (row_value_without x k r Hnd).
    unfold row_holds in Hrow. fold r in Hrow.
    set (A := row_value x r) in *. set (ce := m_c (entry_at s (sub_index s k))) in *.
    set (D := dense_value n x (m_indexed_work_vector s)).
    assert (HA : A = (- ce)%Qc).
    { transitivity (A + ce - ce)%Qc; [ring|]. rewrite Hrow. ring. }
    unfold lam. destruct Hkc as [Hkc|Hkc]; rewrite Hkc.
    + rewrite (proj2 (is_one_true 1%Qc) eq_refl). rewrite HA. ring.
    + replace (is_one (-1)%Qc) with false by (symmetry; by_compute).
      rewrite HA. change (-1)%Qc with (- (1))%Qc. ring.
  - transitivity (subst_frame s1); [reflexivity|]. by rewrite Hfr.
  - apply Hpush. constructor.
Qed.

Lemma subs_indexed_vector_with_S_value (n : nat) (x : nat → mpq)
    (fuel : nat) (q : list nat) (s s' : imp) :
  (∀ k, can_substitute s k = true → substitution_ready n x s k) →
  Forall (λ j, can_substitute s j = true) q →
  subs_indexed_vector_with_S fuel q s = Some s' →
  (dense_value n x (m_indexed_work_vector s') + imp_m_c s'
   = dense_value n x (m_indexed_work_vector s) + imp_m_c s)%Qc ∧
  subst_frame s' = subst_frame s.
Proof.
  revert q s. induction fuel as [|fuel IH]; intros q s Hready Hq Hrun.
  - destruct q; [|done]. by injection Hrun as <-.
  - destruct q as [|k q]; [by injection Hrun as <-|].
    cbn [subs_indexed_vector_with_S] in Hrun.
    apply Forall_cons in Hq as [Hk Hq].
    destruct (subs_front_value n x k s (Hready k Hk)) as (Hv & Hfr & Hpush).
    destruct (subs_front_in_indexed_vector k s) as [s1 pushed].
    cbn [fst snd] in *.
    destruct (IH (q ++ pushed) s1) as [Hv' Hfr']; [| |exact Hrun|].
    + intros k' Hk'. apply (subst_frame_ready n x s s1 k' Hfr).
      apply Hready. by rewrite <- (subst_frame_can_substitute s s1).
    + apply Forall_app. split.
      * eapply Forall_impl; [exact Hq|]. intros j Hj.
        by rewrite (subst_frame_can_substitute s s1).
      * eapply Forall_impl; [exact Hpush|]. intros j Hj.
        by rewrite (subst_frame_can_substitute s s1).
    + split; [by rewrite Hv', Hv|by rewrite Hfr', Hfr].
Qed.

Lemma external_is_used_lookup (r : list N) (j : N) (l : nat) :
  VarRegister.external_is_used r j = Some l → r !! l = Some j.
Proof.
  unfold VarRegister.external_is_used.
  destruct (list_find _ r) as [[l' e]|] eqn:Hf; [|done].
  intros [= <-]. by apply list_find_Some in Hf as (Hl & -> & _).
Qed.

(** The loop of [fill_indexed_work_vector_from_term]. *)
Lemma fill_indexed_work_vector_loop `{LarSolver H} (lra : H) (n : nat)
    (x : nat → mpq) (s : imp) (rest pre : list (N * mpq)) (st : imp) :
  NoDup (pre ++ rest).*1 →
  (∀ p : N * mpq, p ∈ pre ++ rest → is_fixed lra p.1 = false →
     ∃ l, VarRegister.external_is_used (m_var_register s) p.1 = Some l ∧
          l < n) →
  subst_frame st = subst_frame s →
  (∀ l, (∀ p : N * mpq, p ∈ pre → is_fixed lra p.1 = false →
           lar_solver_to_local s p.1 ≠ l) →
        IndexedVector.get (m_indexed_work_vector st) l = 0%Qc) →
  let st' :=
    fold_left
      (λ s p,
         if is_fixed lra p.1
         then set_imp_m_c (imp_m_c s + p.2 * get_lower_bound lra p.1)%Qc s
         else set_m_indexed_work_vector
                (IndexedVector.set_value p.2 (lar_solver_to_local s p.1)
                   (m_indexed_work_vector s)) s)
      rest st in
  (dense_value n x (m_indexed_work_vector st') + imp_m_c st'
   = dense_value n x (m_indexed_work_vector st) + imp_m_c st
     + row_value (host_assignment lra s x) rest)%Qc ∧
  subst_frame st' = subst_frame s.
Proof.
  revert pre st. induction rest as [|p rest IH];
    intros pre st Hnd Hreg Hfr Hzero st'.
  - unfold st'. cbn. split; [ring|done].
  - unfold st'. cbn [fold_left]. rewrite row_value_cons.
    assert (Hnd' : NoDup ((pre ++ [p]) ++ rest).*1)
      by (by rewrite <- app_assoc).
    assert (Hreg' : ∀ q : N * mpq, q ∈ (pre ++ [p]) ++ rest →
              is_fixed lra q.1 = false →
              ∃ l, VarRegister.external_is_used (m_var_register s) q.1
                   = Some l ∧ l < n)
      by (intros q Hq; apply Hreg; by rewrite <- app_assoc in Hq).
    destruct (is_fixed lra p.1) eqn:Hfix.
    + assert (Hy : host_assignment lra s x p.1 = get_lower_bound lra p.1)
        by (unfold host_assignment; by rewrite Hfix).
      rewrite Hy.
      destruct (IH (pre ++ [p])
                  (set_imp_m_c (imp_m_c st + p.2 * get_lower_bound lra p.1)%Qc
                     st) Hnd' Hreg') as [Hv Hfr'].
      * exact Hfr.
      * intros l Hl. apply Hzero. intros q Hq. apply Hl.
        apply elem_of_app. by left.
      * split; [|exact Hfr']. rewrite Hv.
        cbn [m_indexed_work_vector imp_m_c set_imp_m_c]. ring.
    + destruct (Hreg p) as (lp & Hlp & Hlpn); [|done|].
      { apply elem_of_app. right. by left. }
      assert (Hst : lar_solver_to_local st p.1 = lar_solver_to_local s p.1).
      { apply subst_frame_facts in Hfr as (_ & _ & _ & Hr).
        unfold lar_solver_to_local. by rewrite Hr. }
      assert (Hloc : lar_solver_to_local s p.1 = lp).
      { unfold lar_solver_to_local, VarRegister.external_to_local.
        by rewrite Hlp. }
      assert (Hy : host_assignment lra s x p.1 = x lp)
        by (unfold host_assignment; by rewrite Hfix, Hloc).
      rewrite Hst, Hloc, Hy.
      assert (Hfree : IndexedVector.get (m_indexed_work_vector st) lp = 0%Qc).
      { apply Hzero. intros q Hq Hqfix Hql.
        destruct (Hreg q) as (lq & Hlq & _); [|done|].
        { apply elem_of_app. by left. }
        assert (Hq' : lar_solver_to_local s q.1 = lq).
        { unfold lar_solver_to_local, VarRegister.external_to_local.
          by rewrite Hlq. }
        rewrite Hq' in Hql. subst lq.
        apply external_is_used_lookup in Hlq, Hlp.
        assert (Hqp : q.1 = p.1) by congruence.
        rewrite fmap_app in Hnd. apply NoDup_app in Hnd as (_ & Hdis & _).
        apply (Hdis q.1).
        - by apply (list_elem_of_fmap_2 fst).
        - rewrite Hqp. csimpl. by left. }
      destruct (IH (pre ++ [p])
                  (set_m_indexed_work_vector
                     (IndexedVector.set_value p.2 lp
                        (m_indexed_work_vector st)) st) Hnd' Hreg')
        as [Hv Hfr'].
      * exact Hfr.
      * intros l Hl. cbn [m_indexed_work_vector set_m_indexed_work_vector].
        rewrite get_set_value. destruct (decide (l = lp)) as [->|Hne].
        -- exfalso. apply (Hl p); [|done|exact Hloc].
           apply elem_of_app. right. by left.
        -- apply Hzero. intros q Hq. apply Hl. apply elem_of_app. by left.
      * split; [|exact Hfr']. rewrite Hv.
        cbn [m_indexed_work_vector imp_m_c set_m_indexed_work_vector].
        rewrite dense_value_set_value by done. ring.
Qed.

Lemma fill_indexed_work_vector_from_term_value `{LarSolver H} (lra : H)
    (n : nat) (x : nat → mpq) (t : gmap N mpq) (s : imp) :
  (∀ p : N * mpq, p ∈ monomials t → is_fixed lra p.1 = false →
     ∃ l, VarRegister.external_is_used (m_var_register s) p.1 = Some l ∧
          l < n) →
  let s' := fill_indexed_work_vector_from_term lra t s in
  (dense_value n x (m_indexed_work_vector s') + imp_m_c s'
   = row_value (host_assignment lra s x) (monomials t))%Qc ∧
  subst_frame s' = subst_frame s.
Proof.
  intros Hreg s'.
  set (s0 := set_m_tmp_l ∅
               (set_imp_m_c 0%Qc
                  (set_m_indexed_work_vector
                     (IndexedVector.resize (m_e_columns s)
                        (IndexedVector.clear (m_indexed_work_vector s))) s))).
  destruct (fill_indexed_work_vector_loop lra n x s (monomials t) [] s0)
    as [Hv Hfr].
  - cbn [app]. apply NoDup_fst_map_to_list.
  - exact Hreg.
  - reflexivity.
  - intros l _. unfold s0, IndexedVector.get, IndexedVector.resize.
    cbn [m_indexed_work_vector set_m_tmp_l set_imp_m_c
         set_m_indexed_work_vector m_data]. by rewrite lookup_empty.
  - split; [|exact Hfr]. unfold s', fill_indexed_work_vector_from_term.
    cbv zeta. fold s0. rewrite Hv.
    assert (Hd0 : dense_value n x (m_indexed_work_vector s0) = 0%Qc).
    { transitivity (dense_value 0 x (m_indexed_work_vector s0)); [|done].
      clear. induction n as [|n IH]; [done|].
      rewrite dense_value_S, IH. unfold s0, IndexedVector.get.
      cbn [m_indexed_work_vector set_m_tmp_l set_imp_m_c
           set_m_indexed_work_vector m_data IndexedVector.resize].
      rewrite lookup_empty. cbn. ring. }
    rewrite Hd0. unfold s0. cbn [imp_m_c set_m_tmp_l set_imp_m_c]. ring.
Qed.

Lemma work_of_handle_constant_term `{LarSolver H} (lra : H) (j : N)
    (s : imp) :
  work_of (handle_constant_term lra j s) = work_of s ∧
  subst_frame (handle_constant_term lra j s) = subst_frame s.
Proof.
  unfold handle_constant_term.
  destruct (is_zero (imp_m_c s)); [done|].
  destruct (has_bound_of_type lra j true) as [[[? ?] ?]|];
    destruct (has_bound_of_type lra j false) as [[[? ?] ?]|];
    repeat match goal with
           | |- context [if ?b then _ else _] => destruct b
           end; done.
Qed.

Lemma work_of_tighten_bounds_for_non_trivial_gcd `{LarSolver H} (g : mpq)
    (j : N) (is_upper : bool) (lra : H) (s : imp) :
  work_of (tighten_bounds_for_non_trivial_gcd g j is_upper lra s).2
  = work_of s ∧
  subst_frame (tighten_bounds_for_non_trivial_gcd g j is_upper lra s).2
  = subst_frame s.
Proof.
  unfold tighten_bounds_for_non_trivial_gcd.
  destruct (has_bound_of_type lra j is_upper) as [[[b_dep rs] strict]|];
    [|done].
  destruct (negb (is_int ((rs - imp_m_c s) / g))); [|done].
  unfold tighten_bound_kind. cbv zeta.
  destruct (find_feasible_solution _) as [st lra1].
  destruct (bool_decide _); [done|].
  destruct (decide (st = lp_status.CANCELLED)); done.
Qed.

Lemma substitution_queue_ready `{LarSolver H} (lra : H) (s : imp)
    (t : gmap N mpq) :
  Forall (λ j, can_substitute s j = true) (substitution_queue lra s t).
Proof.
  unfold substitution_queue. apply Forall_forall. intros l Hl.
  apply list_elem_of_fmap in Hl as (c & -> & Hc).
  apply list_elem_of_fmap in Hc as (p & -> & Hp).
  apply list_elem_of_filter in Hp as [Hp _].
  by apply andb_true_iff in Hp as [_ Hp].
Qed.

(** What [tighten_bounds_for_term_column] does to the work vector: past its
    two early exits it fills the vector from the term and substitutes; the
    rest of the call leaves the vector and its constant alone. *)
Lemma tighten_bounds_for_term_column_work `{LarSolver H} (lra lra' : H)
    (fuel : nat) (j : N) (s s' : imp) (r : bool) :
  let t := get_term lra j in
  tighten_bounds_for_term_column fuel j lra s = Some (r, lra', s') →
  all_vars_are_int lra t = true → substitution_queue lra s t ≠ [] →
  ∃ s1,
    subs_indexed_vector_with_S fuel (substitution_queue lra s t)
      (fill_indexed_work_vector_from_term lra t s) = Some s1 ∧
    work_of s' = work_of s1 ∧ subst_frame s' = subst_frame s1.
Proof.
  intros t. unfold tighten_bounds_for_term_column. cbv zeta.
  fold t. change (map (lar_solver_to_local s) _)
    with (substitution_queue lra s t).
  intros Hrun Hint Hq. rewrite Hint in Hrun. cbn [negb] in Hrun.
  destruct (substitution_queue lra s t) as [|k q]; [done|].
  set (s0 := fill_indexed_work_vector_from_term lra t s) in *.
  clearbody s0.
  destruct (subs_indexed_vector_with_S fuel (k :: q) s0) as [s1|]; [|done].
  exists s1. split; [done|].
  destruct (is_one _); [by injection Hrun as <- <- <-|].
  destruct (is_zero _).
  { injection Hrun as <- <- <-. apply work_of_handle_constant_term. }
  match type of Hrun with
  | context [tighten_bounds_for_non_trivial_gcd ?g j true lra s1] =>
      pose proof (work_of_tighten_bounds_for_non_trivial_gcd g j true lra s1)
        as [Hw1 Hf1];
      destruct (tighten_bounds_for_non_trivial_gcd g j true lra s1)
        as [[r1 lra1] s2] eqn:Hup
  end.
  cbn [snd] in Hw1, Hf1. destruct r1.
  - by injection Hrun as <- <- <-.
  - match type of Hrun with
    | context [tighten_bounds_for_non_trivial_gcd ?g j false lra1 s2] =>
        pose proof (work_of_tighten_bounds_for_non_trivial_gcd g j false
                      lra1 s2) as [Hw2 Hf2];
        destruct (tighten_bounds_for_non_trivial_gcd g j false lra1 s2)
          as [[r2 lra2] s3] eqn:Hlow
    end.
    cbn [snd] in Hw2, Hf2. injection Hrun as <- <- <-.
    split; [by rewrite Hw2|by rewrite Hf2].
Qed.

(** X20.  The substitution of [tighten_bounds_for_term_column] is sound.
    Let the columns of the term of [j] that are not fixed be registered, with
    local variables below [n], and let every row that substitutes a variable
    hold it with the coefficient 1 or -1, have one cell a column and be
    satisfied by the assignment [x].  When the call returns, either nothing
    was done (a column of the term is not an integer column, or no variable
    of the term can be substituted) and the state is unchanged, or the work
    vector with the constant [m_c] has, under [x], the value of the term
    under the assignment that [x] gives the columns of the host, the fixed
    columns having their values; the matrix, the entries, the table of the
    substitutions and the register are unchanged. *)
Theorem tighten_bounds_for_term_column_value `{LarSolver H} (lra lra' : H)
    (fuel : nat) (j : N) (s s' : imp) (r : bool) (n : nat) (x : nat → mpq) :
  let t := get_term lra j in
  (∀ p : N * mpq, p ∈ monomials t → is_fixed lra p.1 = false →
     ∃ l, VarRegister.external_is_used (m_var_register s) p.1 = Some l ∧
          l < n) →
  (∀ k, can_substitute s k = true → substitution_ready n x s k) →
  tighten_bounds_for_term_column fuel j lra s = Some (r, lra', s') →
  (all_vars_are_int lra t = false ∨ substitution_queue lra s t = [] →
   r = false ∧ lra' = lra ∧ s' = s) ∧
  (all_vars_are_int lra t = true → substitution_queue lra s t ≠ [] →
   (dense_value n x (m_indexed_work_vector s') + imp_m_c s'
    = row_value (host_assignment lra s x) (monomials t))%Qc ∧
   subst_frame s' = subst_frame s).
Proof.
  intros t Hreg Hready Hrun. split.
  - revert Hrun. unfold tighten_bounds_for_term_column. cbv zeta.
    fold t. change (map (lar_solver_to_local s) _)
      with (substitution_queue lra s t).
    intros Hrun [Hint|Hq].
    + rewrite Hint in Hrun. by injection Hrun as <- <- <-.
    + rewrite Hq in Hrun. destruct (negb _); by injection Hrun as <- <- <-.
  - intros Hint Hq.
    destruct (tighten_bounds_for_term_column_work lra lra' fuel j s s' r
                Hrun Hint Hq) as (s1 & Hsub & Hw & Hfr).
    destruct (fill_indexed_work_vector_from_term_value lra n x t s Hreg)
      as [Hfill Hfr0].
    fold t in Hsub.
    set (s0 := fill_indexed_work_vector_from_term lra t s) in *.
    apply (subs_indexed_vector_with_S_value n x) in Hsub as [Hv Hfr1].
    + injection Hw as Hw Hc. rewrite Hw, Hc, Hv, Hfill.
      by rewrite Hfr, Hfr1, Hfr0.
    + intros k' Hk'. apply (subst_frame_ready n x s s0 k' Hfr0).
      apply Hready. by rewrite <- (subst_frame_can_substitute s s0).
    + eapply Forall_impl; [apply substitution_queue_ready|].
      intros k Hk. by rewrite (subst_frame_can_substitute s s0).
Qed.

Lemma tighten_bounds_for_term_column_value_witness :
  ∃ r lra' s',
    tighten_bounds_for_term_column 5 4%N tighten_host fixing_example
    = Some (r, lra', s') ∧
    (dense_value 2 fixing_solution (m_indexed_work_vector s') + imp_m_c s'
     = z (-10))%Qc.
Proof.
  assert (Hs : bool_decide
                 (is_Some (tighten_bounds_for_term_column 5 4%N tighten_host
                             fixing_example)) = true)
    by (vm_compute; reflexivity).
  apply bool_decide_eq_true in Hs as [[[r lra'] s'] Hrun].
  exists r, lra', s'. split; [exact Hrun|].
  assert (Hm : monomials (get_term tighten_host 4%N) = [(0%N, z 5)])
    by by_compute.
  destruct (tighten_bounds_for_term_column_value tighten_host lra' 5 4%N
              fixing_example s' r 2 fixing_solution) as [_ Hval].
  - intros p Hp _. rewrite Hm in Hp.
    apply list_elem_of_singleton in Hp as ->. exists 0. split; [reflexivity|lia].
  - intros k Hk. assert (k = 0) as ->.
    { unfold can_substitute in Hk. apply andb_true_iff in Hk as [Hk _].
      apply bool_decide_eq_true in Hk. cbn in Hk. lia. }
    split; [by_compute|]. split; [left; by_compute|].
    split; [apply Forall_forall; by_compute|]. split; [lia|].
    unfold row_holds. by_compute.
  - exact Hrun.
  - destruct Hval as [Hval _]; [reflexivity|by_compute|].
    etransitivity; [exact Hval|]. by_compute.
Defined.

(** ** The residue of a term modulo the gcd of the work vector *)

Lemma is_int_plus (a b : mpq) :
  is_int a = true → is_int b = true → is_int (a + b)%Qc = true.
Proof.
  intros Ha%is_int_spec Hb%is_int_spec. rewrite Ha, Hb, <- Qc_of_Z_plus.
  apply is_int_Qc_of_Z.
Qed.

Lemma is_int_mult (a b : mpq) :
  is_int a = true → is_int b = true → is_int (a * b)%Qc = true.
Proof.
  intros Ha%is_int_spec Hb%is_int_spec. rewrite Ha, Hb, <- Qc_of_Z_mult.
  apply is_int_Qc_of_Z.
Qed.

Lemma is_int_opp (a : mpq) : is_int a = true → is_int (- a)%Qc = true.
Proof.
  intros Ha%is_int_spec. rewrite Ha, <- Qc_of_Z_opp. apply is_int_Qc_of_Z.
Qed.

Lemma is_int_zero : is_int 0%Qc = true.
Proof. reflexivity. Qed.

Section vector_ok.
Implicit Types v : indexed_vector.

Lemma vector_ok_resize n v : vector_ok (IndexedVector.resize n v).
Proof.
  split; intros j; unfold IndexedVector.get, IndexedVector.resize;
    cbn [m_data]; rewrite lookup_empty; done.
Qed.

Lemma vector_ok_erase (k : nat) v :
  vector_ok v → vector_ok (IndexedVector.erase k v).
Proof.
  intros [Hidx Hint]. split; intros j; rewrite get_erase;
    destruct (decide (j = k)) as [->|Hjk]; try done; try apply Hint.
  intros Hj. unfold IndexedVector.erase. cbn [m_index].
  apply list_elem_of_filter. split; [done|by apply Hidx].
Qed.

Lemma vector_ok_set_value (val : mpq) (j : nat) v :
  is_int val = true → vector_ok v →
  vector_ok (IndexedVector.set_value val j v).
Proof.
  intros Hval [Hidx Hint]. split; intros i; rewrite get_set_value;
    destruct (decide (i = j)) as [->|Hij]; try done; try apply Hint.
  - intros _. unfold IndexedVector.set_value. cbn [m_index].
    apply elem_of_app. right. by left.
  - intros Hi. unfold IndexedVector.set_value. cbn [m_index].
    apply elem_of_app. left. by apply Hidx.
Qed.

Lemma vector_ok_add_value (j : nat) (val : mpq) v :
  is_int val = true → vector_ok v →
  vector_ok (IndexedVector.add_value_at_index j val v).
Proof.
  intros Hval Hv. pose proof Hv as [Hidx Hint]. split.
  - intros i. rewrite get_add_value_at_index.
    unfold IndexedVector.add_value_at_index. cbv zeta.
    destruct (is_zero (IndexedVector.get v j + val)) eqn:Hnew.
    + apply is_zero_true in Hnew.
      destruct (decide (i = j)) as [->|Hij]; [by rewrite Hnew|].
      intros Hi. destruct (is_zero (IndexedVector.get v j)); [by apply Hidx|].
      unfold IndexedVector.erase. cbn [m_index].
      apply list_elem_of_filter. split; [done|by apply Hidx].
    + cbn [m_index].
      destruct (is_zero (IndexedVector.get v j)) eqn:Hold.
      * destruct (decide (i = j)) as [->|Hij].
        -- intros _. apply elem_of_app. right. by left.
        -- intros Hi. apply elem_of_app. left. by apply Hidx.
      * apply is_zero_false in Hold.
        destruct (decide (i = j)) as [->|Hij]; intros Hi; by apply Hidx.
  - intros i. rewrite get_add_value_at_index.
    destruct (decide (i = j)); [by apply is_int_plus|apply Hint].
Qed.

(** The value of the vector at integers is a multiple of the gcd of its
    cells. *)
Lemma dense_value_multiple (n : nat) (x : nat → mpq) v :
  vector_ok v → integral x →
  ∃ m : Z, (dense_value n x v
            = gcd_of_coeffs (IndexedVector.cells v) * of_Z m)%Qc.
Proof.
  intros [Hidx Hint] Hx.
  assert (Hcells : Forall (λ p : nat * mpq, is_int p.2 = true)
                     (IndexedVector.cells v)).
  { unfold IndexedVector.cells. apply Forall_forall. intros p Hp.
    apply list_elem_of_fmap in Hp as (j & -> & _). apply Hint. }
  rewrite (gcd_of_coeffs_correct _ Hcells).
  set (G := row_gcd (IndexedVector.cells v)).
  assert (Hdiv : ∀ j, ∃ k : Z, IndexedVector.get v j = Qc_of_Z (G * k)).
  { intros j. destruct (decide (IndexedVector.get v j = 0%Qc)) as [Hz|Hnz].
    - exists 0%Z. by rewrite Hz, Z.mul_0_r, Qc_of_Z_0.
    - destruct (row_gcd_divides (IndexedVector.cells v)
                  (j, IndexedVector.get v j)) as [k Hk].
      + unfold IndexedVector.cells.
        apply (list_elem_of_fmap_2 (λ j, (j, IndexedVector.get v j))).
        by apply Hidx.
      + exists k. cbn [snd] in Hk.
        rewrite (proj1 (is_int_spec _) (Hint j)), Hk. f_equal.
        apply Z.mul_comm. }
  induction n as [|n IH].
  - exists 0%Z. unfold dense_value, of_Z. cbn [seq foldr].
    rewrite Qc_of_Z_0. ring.
  - destruct IH as [m Hm]. destruct (Hdiv n) as [k Hk].
    exists (m + k * Qnum (x n))%Z.
    rewrite dense_value_S, Hm, Hk.
    rewrite (proj1 (is_int_spec (x n)) (Hx n)) at 1.
    unfold of_Z. rewrite Qc_of_Z_plus, !Qc_of_Z_mult. ring.
Qed.

End vector_ok.

Lemma subs_front_cells_ok (k : nat) (coeff : mpq)
    (row : list (nat * mpq)) (sq : imp * list nat) :
  is_int coeff = true →
  Forall (λ p : nat * mpq, is_int p.2 = true) row →
  vector_ok (m_indexed_work_vector sq.1) →
  vector_ok
    (m_indexed_work_vector
       (fold_left
          (λ (sq : imp * list nat) (p : nat * mpq),
             let (s, pushed) := sq in
             let j := p.1 in
             if decide (j = k) then (s, pushed)
             else
               let s := set_m_indexed_work_vector
                          (IndexedVector.add_value_at_index j (p.2 * coeff)%Qc
                             (m_indexed_work_vector s)) s in
               if negb (is_fresh_var s j)
                  && negb (is_zero
                             (IndexedVector.get (m_indexed_work_vector s) j))
                  && can_substitute s j
               then (s, pushed ++ [j]) else (s, pushed))
          row sq).1).
Proof.
  intros Hc Hrow. revert sq.
  induction Hrow as [|p row Hp Hrow IH]; intros [s pushed] Hok; [done|].
  cbn [fold_left]. destruct (decide (p.1 = k)); [by apply IH|].
  cbv zeta.
  match goal with
  | |- context [if ?b then _ else _] => destruct b
  end; apply IH; cbn [fst m_indexed_work_vector set_m_indexed_work_vector];
    apply vector_ok_add_value; try done; by apply is_int_mult.
Qed.

Lemma subs_front_ok (k : nat) (s : imp) :
  substitution_int s k →
  vector_ok (m_indexed_work_vector s) →
  vector_ok (m_indexed_work_vector (subs_front_in_indexed_vector k s).1).
Proof.
  intros Hrow Hok. unfold subs_front_in_indexed_vector.
  destruct (is_zero (IndexedVector.get (m_indexed_work_vector s) k));
    [done|].
  cbv zeta.
  set (s0 := set_m_indexed_work_vector
               (IndexedVector.erase k (m_indexed_work_vector s)) s).
  change (m_e_matrix s0) with (m_e_matrix s).
  change (sub_index s0 k) with (sub_index s k).
  set (r := row_at (m_e_matrix s) (sub_index s k)) in *.
  set (lam := if is_one (row_coeff k r)
              then (- IndexedVector.get (m_indexed_work_vector s) k)%Qc
              else IndexedVector.get (m_indexed_work_vector s) k).
  assert (Hlam : is_int lam = true).
  { unfold lam. destruct (is_one _); [apply is_int_opp|]; apply Hok. }
  pose proof (subs_front_cells_ok k lam r (s0, []) Hlam Hrow) as Hfold.
  cbv zeta in Hfold.
  match goal with
  | |- context [fold_left ?f r (s0, [])] =>
      generalize dependent (fold_left f r (s0, []))
  end.
  intros [s1 pushed] Hfold. cbn [fst snd] in *. apply Hfold.
  unfold s0. cbn [m_indexed_work_vector set_m_indexed_work_vector].
  by apply vector_ok_erase.
Qed.

Lemma subs_indexed_vector_with_S_ok (n : nat) (x : nat → mpq) (fuel : nat)
    (q : list nat) (s s' : imp) :
  (∀ k, can_substitute s k = true →
        substitution_ready n x s k ∧ substitution_int s k) →
  Forall (λ j, can_substitute s j = true) q →
  subs_indexed_vector_with_S fuel q s = Some s' →
  vector_ok (m_indexed_work_vector s) →
  vector_ok (m_indexed_work_vector s').
Proof.
  revert q s. induction fuel as [|fuel IH]; intros q s Hready Hq Hrun Hok.
  - destruct q; [|done]. by injection Hrun as <-.
  - destruct q as [|k q]; [by injection Hrun as <-|].
    cbn [subs_indexed_vector_with_S] in Hrun.
    apply Forall_cons in Hq as [Hk Hq].
    destruct (Hready k Hk) as [Hrk Hik].
    destruct (subs_front_value n x k s Hrk) as (_ & Hfr & Hpush).
    pose proof (subs_front_ok k s Hik Hok) as Hok1.
    destruct (subs_front_in_indexed_vector k s) as [s1 pushed].
    cbn [fst snd] in *.
    apply (IH (q ++ pushed) s1); [| |exact Hrun|exact Hok1].
    + intros k' Hk'.
      rewrite (subst_frame_can_substitute s s1) in Hk' by done.
      destruct (Hready k' Hk') as [Hr Hi]. split.
      * by apply (subst_frame_ready n x s s1 k' Hfr).
      * apply subst_frame_facts in Hfr as (HE & _ & Hk2s & _).
        unfold substitution_int, sub_index in *. by rewrite HE, Hk2s.
    + apply Forall_app. split.
      * eapply Forall_impl; [exact Hq|]. intros j Hj.
        by rewrite (subst_frame_can_substitute s s1).
      * eapply Forall_impl; [exact Hpush|]. intros j Hj.
        by rewrite (subst_frame_can_substitute s s1).
Qed.

Lemma fill_indexed_work_vector_from_term_ok `{LarSolver H} (lra : H)
    (t : gmap N mpq) (s : imp) :
  (∀ p : N * mpq, p ∈ monomials t → is_int p.2 = true) →
  vector_ok (m_indexed_work_vector (fill_indexed_work_vector_from_term lra t s)).
Proof.
  intros Hint. unfold fill_indexed_work_vector_from_term. cbv zeta.
  set (s0 := set_m_tmp_l ∅
               (set_imp_m_c 0%Qc
                  (set_m_indexed_work_vector
                     (IndexedVector.resize (m_e_columns s)
                        (IndexedVector.clear (m_indexed_work_vector s))) s))).
  assert (Hok : vector_ok (m_indexed_work_vector s0))
    by apply vector_ok_resize.
  clearbody s0. revert s0 Hok.
  induction (monomials t) as [|p ms IH]; intros s0 Hok; [done|].
  cbn [fold_left]. apply IH.
  - intros q Hq. apply Hint. by right.
  - destruct (is_fixed lra p.1); [done|].
    cbn [m_indexed_work_vector set_m_indexed_work_vector].
    apply vector_ok_set_value; [|done]. apply Hint. by left.
Qed.

(** X21.  The value of a term is its constant modulo the gcd of the work
    vector.  Under the conditions of the substitution (the columns of the
    term that are not fixed are registered, every row that substitutes a
    variable holds it with the coefficient 1 or -1, has one cell a column and
    integer coefficients), let the coefficients of the term of [j] be
    integers and let [x] be an assignment of integers that satisfies the
    rows that substitute.  When [tighten_bounds_for_term_column] returns
    past its early exits, the value of the term under [x] is [g * m + m_c]
    for an integer [m], where [g] is the gcd of the cells of the work vector
    and [m_c] the constant the call has computed: the values that the bound
    of the tightener is computed for. *)
Theorem tighten_bounds_for_term_column_residue `{LarSolver H} (lra lra' : H)
    (fuel : nat) (j : N) (s s' : imp) (r : bool) (n : nat) (x : nat → mpq) :
  let t := get_term lra j in
  (∀ p : N * mpq, p ∈ monomials t → is_fixed lra p.1 = false →
     ∃ l, VarRegister.external_is_used (m_var_register s) p.1 = Some l ∧
          l < n) →
  (∀ p : N * mpq, p ∈ monomials t → is_int p.2 = true) →
  (∀ k, can_substitute s k = true →
        substitution_ready n x s k ∧ substitution_int s k) →
  integral x →
  tighten_bounds_for_term_column fuel j lra s = Some (r, lra', s') →
  all_vars_are_int lra t = true → substitution_queue lra s t ≠ [] →
  ∃ m : Z,
    (row_value (host_assignment lra s x) (monomials t)
     = gcd_of_coeffs (IndexedVector.cells (m_indexed_work_vector s')) * of_Z m
       + imp_m_c s')%Qc.
Proof.
  intros t Hreg Hint Hready Hx Hrun Hall Hq.
  destruct (tighten_bounds_for_term_column_work lra lra' fuel j s s' r
              Hrun Hall Hq) as (s1 & Hsub & Hw & _).
  destruct (fill_indexed_work_vector_from_term_value lra n x t s Hreg)
    as [Hfill Hfr0].
  pose proof (fill_indexed_work_vector_from_term_ok lra t s Hint) as Hok0.
  fold t in Hsub.
  set (s0 := fill_indexed_work_vector_from_term lra t s) in *.
  assert (Hready0 : ∀ k, can_substitute s0 k = true →
                         substitution_ready n x s0 k ∧ substitution_int s0 k).
  { intros k Hk. rewrite (subst_frame_can_substitute s s0) in Hk by done.
    destruct (Hready k Hk) as [Hr Hi]. split.
    - by apply (subst_frame_ready n x s s0 k Hfr0).
    - apply subst_frame_facts in Hfr0 as (HE & _ & Hk2s & _).
      unfold substitution_int, sub_index in *. by rewrite HE, Hk2s. }
  assert (Hq0 : Forall (λ k, can_substitute s0 k = true)
                  (substitution_queue lra s t)).
  { eapply Forall_impl; [apply substitution_queue_ready|].
    intros k Hk. by rewrite (subst_frame_can_substitute s s0). }
  pose proof (subs_indexed_vector_with_S_ok n x fuel _ s0 s1 Hready0 Hq0
                Hsub Hok0) as Hok1.
  apply (subs_indexed_vector_with_S_value n x) in Hsub as [Hv _];
    [|intros k Hk; by apply Hready0|exact Hq0].
  injection Hw as Hw Hc. rewrite Hw, Hc.
  destruct (dense_value_multiple n x _ Hok1 Hx) as [m Hm].
  exists m. by rewrite <- Hfill, <- Hv, Hm.
Qed.

Lemma tighten_bounds_for_term_column_residue_witness :
  ∃ r lra' s' (m : Z),
    tighten_bounds_for_term_column 5 4%N tighten_host fixing_example
    = Some (r, lra', s') ∧
    (row_value (host_assignment tighten_host fixing_example fixing_solution)
       (monomials (get_term tighten_host 4%N))
     = gcd_of_coeffs (IndexedVector.cells (m_indexed_work_vector s')) * of_Z m
       + imp_m_c s')%Qc.
Proof.
  assert (Hs : bool_decide
                 (is_Some (tighten_bounds_for_term_column 5 4%N tighten_host
                             fixing_example)) = true)
    by (vm_compute; reflexivity).
  apply bool_decide_eq_true in Hs as [[[r lra'] s'] Hrun].
  exists r, lra', s'.
  assert (Hm : monomials (get_term tighten_host 4%N) = [(0%N, z 5)])
    by by_compute.
  destruct (tighten_bounds_for_term_column_residue tighten_host lra' 5 4%N
              fixing_example s' r 2 fixing_solution) as [m Hval].
  - intros p Hp _. rewrite Hm in Hp.
    apply list_elem_of_singleton in Hp as ->. exists 0. split; [reflexivity|lia].
  - intros p Hp. rewrite Hm in Hp.
    by apply list_elem_of_singleton in Hp as ->.
  - intros k Hk. assert (k = 0) as ->.
    { unfold can_substitute in Hk. apply andb_true_iff in Hk as [Hk _].
      apply bool_decide_eq_true in Hk. cbn in Hk. lia. }
    split; [|unfold substitution_int; by_compute].
    split; [by_compute|]. split; [left; by_compute|].
    split; [apply Forall_forall; by_compute|]. split; [lia|].
    unfold row_holds. by_compute.
  - intros [|[|k]]; reflexivity.
  - exact Hrun.
  - reflexivity.
  - by_compute.
  - exists m. split; [exact Hrun|exact Hval].
Defined.

(** ** The values of terms *)

Section term_values.
Context `{Countable K}.
Implicit Types (t m : gmap K mpq) (y : K → mpq).

Lemma row_value_Permutation y (r r' : list (K * mpq)) :
  r ≡ₚ r' → row_value y r = row_value y r'.
Proof.
  induction 1 as [|p r r' _ IH|p q r|r r' r'' _ IH1 _ IH2].
  - done.
  - by rewrite !row_value_cons, IH.
  - rewrite !row_value_cons. ring.
  - by rewrite IH1.
Qed.

Lemma row_value_monomials_insert y m (i : K) (a : mpq) :
  m !! i = None →
  (row_value y (monomials (<[i := a]> m))
   = a * y i + row_value y (monomials m))%Qc.
Proof.
  intros Hi. unfold monomials.
  by rewrite (row_value_Permutation _ _ _ (map_to_list_insert m i a Hi)).
Qed.

Lemma row_value_monomials_delete y m (i : K) (a : mpq) :
  m !! i = Some a →
  (row_value y (monomials m)
   = a * y i + row_value y (monomials (delete i m)))%Qc.
Proof.
  intros Hi. unfold monomials.
  by rewrite <- (row_value_Permutation _ _ _ (map_to_list_delete m i a Hi)).
Qed.

(** [add_monomial] adds [a * y j] to the value. *)
Lemma row_value_add_monomial y (a : mpq) (j : K) t :
  (row_value y (monomials (add_monomial a j t))
   = row_value y (monomials t) + a * y j)%Qc.
Proof.
  unfold add_monomial. destruct (is_zero a) eqn:Ha.
  - apply is_zero_true in Ha as ->. ring.
  - destruct (t !! j) as [v|] eqn:Hj.
    + rewrite (row_value_monomials_delete y t j v Hj).
      destruct (is_zero (v + a)) eqn:Hz.
      * apply is_zero_true in Hz.
        transitivity (row_value y (monomials (delete j t))
                      + (v + a) * y j)%Qc; [rewrite Hz|]; ring.
      * rewrite <- insert_delete_eq.
        rewrite row_value_monomials_insert by apply lookup_delete_eq. ring.
    + rewrite row_value_monomials_insert by done. ring.
Qed.

Lemma row_value_monomials_empty y :
  row_value y (monomials (∅ : gmap K mpq)) = 0%Qc.
Proof. unfold monomials. by rewrite map_to_list_empty. Qed.

(** The coefficient of [c] is the value under the indicator of [c]. *)
Lemma row_value_indicator m (c : K) :
  row_value (indicator c) (monomials m) = get_coeff m c.
Proof.
  induction m as [|i a m Hi IH] using map_ind.
  - rewrite row_value_monomials_empty. unfold get_coeff.
    by rewrite lookup_empty.
  - rewrite row_value_monomials_insert, IH by done.
    unfold get_coeff, indicator. destruct (decide (i = c)) as [->|Hic].
    + rewrite lookup_insert_eq, Hi. cbn. ring.
    + rewrite lookup_insert_ne by done. ring.
Qed.

Lemma row_value_indicator_absent (c : K) (r : list (K * mpq)) :
  (∀ p : K * mpq, p ∈ r → p.1 ≠ c) → row_value (indicator c) r = 0%Qc.
Proof.
  induction r as [|p r IH]; intros Hr; [done|].
  rewrite row_value_cons, IH by (intros q Hq; apply Hr; by right).
  unfold indicator. rewrite decide_False by (apply Hr; by left). ring.
Qed.

(** Two terms with the same values have the same coefficients. *)
Lemma term_value_coeffs (a b : term_o K) :
  (∀ y, term_value y a = term_value y b) →
  t_c a = t_c b ∧
  ∀ i, get_coeff (t_coeffs a) i = get_coeff (t_coeffs b) i.
Proof.
  intros Hv.
  assert (Hzero : ∀ m, row_value (λ _, 0%Qc) (monomials m) = 0%Qc).
  { intros m. generalize (monomials m). intros r.
    induction r as [|p r IH]; [done|]. rewrite row_value_cons, IH. ring. }
  assert (Hc : t_c a = t_c b).
  { specialize (Hv (λ _, 0%Qc)). unfold term_value in Hv.
    rewrite !Hzero in Hv.
    transitivity (0 + t_c a)%Qc; [ring|]. rewrite Hv. ring. }
  split; [exact Hc|]. intros i. specialize (Hv (indicator i)).
  unfold term_value in Hv. rewrite !row_value_indicator, Hc in Hv.
  transitivity (get_coeff (t_coeffs a) i + t_c b - t_c b)%Qc; [ring|].
  rewrite Hv. ring.
Qed.

(** The loop [for (p : l) t.add_monomial(g(p), f(p))] over a list. *)
Lemma row_value_fold_left_add {A} y (f : A → K) (g : A → mpq)
    (l : list A) t :
  (row_value y (monomials (fold_left (λ t p, add_monomial (g p) (f p) t) l t))
   = row_value y (monomials t)
     + row_value y ((λ p, (f p, g p)) <$> l))%Qc.
Proof.
  revert t. induction l as [|p l IH]; intros t; csimpl; [ring|].
  rewrite IH, row_value_add_monomial. ring.
Qed.

End term_values.

(** The same loop over the monomials of a term, into a term over other
    variables. *)
Lemma row_value_map_fold_add `{Countable K} `{Countable K'} (y : K' → mpq)
    (f : K → K') (g : K → mpq → mpq) (m : gmap K mpq) (t : gmap K' mpq) :
  (row_value y
     (monomials (map_fold (λ j a acc, add_monomial (g j a) (f j) acc) t m))
   = row_value y (monomials t)
     + row_value y ((λ p : K * mpq, (f p.1, g p.1 p.2)) <$> monomials m))%Qc.
Proof.
  apply (map_fold_weak_ind
           (λ r m', (row_value y (monomials r)
                     = row_value y (monomials t)
                       + row_value y ((λ p : K * mpq, (f p.1, g p.1 p.2))
                                        <$> monomials m'))%Qc)).
  - unfold monomials at 3. rewrite map_to_list_empty. csimpl. ring.
  - intros i a m' r Hi IH. rewrite row_value_add_monomial, IH.
    unfold monomials at 4.
    rewrite (row_value_Permutation y _ _
               (fmap_Permutation _ _ _ (map_to_list_insert m' i a Hi))).
    csimpl. unfold monomials. ring.
Qed.

Lemma term_of_row_value `{Countable V} (y : V → mpq) (r : list (V * mpq)) :
  row_value y (monomials (term_of_row r)) = row_value y r.
Proof.
  unfold term_of_row.
  rewrite (row_value_fold_left_add y (λ p : V * mpq, p.1) (λ p, p.2)).
  rewrite row_value_monomials_empty.
  replace ((λ p : V * mpq, (p.1, p.2)) <$> r) with r; [ring|].
  induction r as [|[] r IH]; csimpl; [done|]. by rewrite <- IH.
Qed.

(** ** The invariant of a new row *)

Section term_o_values.
Context `{Countable K}.

Lemma row_value_scaled (y : K → mpq) (k : mpq) (r : list (K * mpq)) :
  (row_value y ((λ p : K * mpq, (p.1, p.2 * k)) <$> r)
   = k * row_value y r)%Qc.
Proof.
  induction r as [|p r IH]; csimpl; [ring|]. rewrite IH. ring.
Qed.

Lemma row_value_negated (y : K → mpq) (r : list (K * mpq)) :
  (row_value y ((λ p : K * mpq, (p.1, - p.2)) <$> r)
   = - row_value y r)%Qc.
Proof.
  induction r as [|p r IH]; csimpl; [ring|]. rewrite IH. ring.
Qed.

Lemma row_value_same_cells (y : K → mpq) (r : list (K * mpq)) :
  row_value y ((λ p : K * mpq, (p.1, p.2)) <$> r) = row_value y r.
Proof.
  induction r as [|p r IH]; csimpl; [done|]. by rewrite IH.
Qed.

Lemma term_value_add (y : K → mpq) (a b : term_o K) :
  (term_value y (term_o_add a b) = term_value y a + term_value y b)%Qc.
Proof.
  unfold term_value, term_o_add, add_monomials. cbn [t_coeffs t_c].
  rewrite (row_value_map_fold_add y (λ j, j) (λ _ a, a)).
  rewrite row_value_same_cells. ring.
Qed.

Lemma term_value_scale (y : K → mpq) (k : mpq) (a : term_o K) :
  (term_value y (term_o_scale k a) = k * term_value y a)%Qc.
Proof.
  unfold term_value, term_o_scale. cbn [t_coeffs t_c].
  rewrite (row_value_map_fold_add y (λ j, j) (λ _ a, a * k)%Qc).
  rewrite row_value_monomials_empty, row_value_scaled. ring.
Qed.

Lemma term_value_clone (y : K → mpq) (a : term_o K) :
  term_value y (term_o_clone a) = term_value y a.
Proof.
  unfold term_value, term_o_clone, add_monomials. cbn [t_coeffs t_c].
  rewrite (row_value_map_fold_add y (λ j, j) (λ _ a, a)).
  rewrite row_value_monomials_empty, row_value_same_cells. ring.
Qed.

(** Terms with the same values are equal for [operator==]. *)
Lemma term_o_eq_values (a b : term_o K) :
  (∀ y, term_value y a = term_value y b) → term_o_eq a b = true.
Proof.
  intros Hv. unfold term_o_eq. cbv zeta.
  set (t := term_o_add (term_o_clone a) (term_o_scale (-1) b)).
  assert (Ht : ∀ y, term_value y t = 0%Qc).
  { intros y. unfold t.
    rewrite term_value_add, term_value_clone, term_value_scale, Hv.
    change (-1)%Qc with (- (1))%Qc. ring. }
  destruct (term_value_coeffs t term_o_zero) as [Hc Hcf].
  { intros y. rewrite Ht. unfold term_value, term_o_zero.
    cbn [t_coeffs t_c]. rewrite row_value_monomials_empty. ring. }
  apply andb_true_iff. split.
  - apply is_zero_true. exact Hc.
  - apply bool_decide_eq_true, map_size_empty_iff.
    apply no_zero_coeffs_empty; [apply no_zero_add, no_zero_clone|].
    intros i. rewrite Hcf. unfold get_coeff, term_o_zero. cbn [t_coeffs].
    by rewrite lookup_empty.
Qed.

End term_o_values.

Lemma term_value_term_to_lar_solver (s : imp) (y : N → mpq) (t : term_o nat) :
  term_value y (term_to_lar_solver s t)
  = term_value (λ j, y (local_to_lar_solver s j)) t.
Proof.
  unfold term_value, term_to_lar_solver. cbn [t_coeffs t_c].
  rewrite (row_value_map_fold_add y (local_to_lar_solver s) (λ _ a, a)).
  rewrite row_value_monomials_empty, row_value_fmap. ring.
Qed.

Lemma row_value_term_minus_column `{LarSolver H} (lra : H) (j : N)
    (y : N → mpq) :
  (row_value y (monomials (term_minus_column lra j))
   = row_value y (monomials (get_term lra j)) - y j)%Qc.
Proof.
  unfold term_minus_column, sub_monomial.
  rewrite (row_value_map_fold_add y (λ k, k) (λ _ v, - v)%Qc).
  rewrite row_value_negated. unfold lar_term_of_var.
  rewrite row_value_add_monomial, row_value_monomials_empty. ring.
Qed.

(** The value of [open_ml]: the combination of the terms of the columns,
    each without its column. *)
Lemma term_value_open_ml `{LarSolver H} (lra : H) (ml : list (N * mpq))
    (y : N → mpq) :
  term_value y (open_ml lra ml)
  = row_value
      (λ c, (row_value y (monomials (get_term lra c)) - y c)%Qc) ml.
Proof.
  unfold open_ml.
  assert (Hgen : ∀ r,
            (term_value y
               (fold_left
                  (λ r p, term_o_add r
                            (term_o_scale p.2
                               (term_o_of (term_minus_column lra p.1))))
                  ml r)
             = term_value y r
               + row_value
                   (λ c, (row_value y (monomials (get_term lra c)) - y c)%Qc)
                   ml)%Qc).
  { induction ml as [|p ml IH]; intros r; cbn [fold_left]; [cbn; ring|].
    rewrite IH, term_value_add, term_value_scale, row_value_cons.
    unfold term_value at 2, term_o_of. cbn [t_coeffs t_c].
    rewrite row_value_term_minus_column. ring. }
  rewrite Hgen. unfold term_value, term_o_zero. cbn [t_coeffs t_c].
  rewrite row_value_monomials_empty. ring.
Qed.

(** The value of [fix_vars]: the value of the monomials with the fixed
    columns at their values; the constant of the argument is dropped. *)
Lemma term_value_fix_vars `{LarSolver H} (lra : H) (t : term_o N)
    (y : N → mpq) :
  term_value y (fix_vars lra t)
  = row_value (fixed_at_bounds lra y) (monomials (t_coeffs t)).
Proof.
  unfold fix_vars.
  apply (map_fold_weak_ind
           (λ (r : term_o N) (m : gmap N mpq),
              term_value y r
              = row_value (fixed_at_bounds lra y) (monomials m))).
  - unfold term_value, term_o_zero. cbn [t_coeffs t_c].
    rewrite !row_value_monomials_empty. ring.
  - intros i a m r Hi IH.
    rewrite row_value_monomials_insert by done. rewrite <- IH.
    unfold fixed_at_bounds, term_value.
    destruct (is_fixed lra i); cbn [t_coeffs t_c].
    + ring.
    + rewrite row_value_add_monomial. ring.
Qed.

Lemma t_c_open_ml `{LarSolver H} (lra : H) (ml : list (N * mpq)) :
  t_c (open_ml lra ml) = 0%Qc.
Proof.
  unfold open_ml.
  assert (Hgen : ∀ r : term_o N, t_c r = 0%Qc →
            t_c (fold_left
                   (λ r p, term_o_add r
                             (term_o_scale p.2
                                (term_o_of (term_minus_column lra p.1))))
                   ml r) = 0%Qc).
  { induction ml as [|p ml IH]; intros r Hr; cbn [fold_left]; [done|].
    apply IH. cbn [t_c term_o_add term_o_scale term_o_of]. rewrite Hr. ring. }
  by apply Hgen.
Qed.

Lemma no_zero_term_of_row `{Countable V} (r : list (V * mpq)) :
  no_zero (term_of_row r).
Proof.
  unfold term_of_row.
  assert (Hgen : ∀ t : gmap V mpq, no_zero t →
            no_zero (fold_left (λ t p, add_monomial p.2 p.1 t) r t)).
  { induction r as [|p r IH]; intros t Ht; cbn [fold_left]; [done|].
    by apply IH, no_zero_add_monomial. }
  apply Hgen, no_zero_empty.
Qed.

(** A variable of the term of a row has a cell in the row. *)
Lemma term_of_row_cell `{Countable V} (r : list (V * mpq)) (j : V) :
  is_Some (term_of_row r !! j) → ∃ p : V * mpq, p ∈ r ∧ p.1 = j.
Proof.
  intros [a Ha].
  destruct (decide (Exists (λ p : V * mpq, p.1 = j) r)) as [Hex|Hno].
  - apply Exists_exists in Hex as (p & Hp & Hpj). by exists p.
  - exfalso. apply (no_zero_term_of_row r j a Ha).
    assert (Hc : get_coeff (term_of_row r) j = a)
      by (unfold get_coeff; by rewrite Ha).
    rewrite <- Hc, <- row_value_indicator, term_of_row_value.
    apply row_value_indicator_absent. intros p Hp Hpj. apply Hno.
    apply Exists_exists. by exists p.
Qed.

Lemma filter_none_in {A} (P : A → Prop) `{∀ x, Decision (P x)} (l : list A) :
  (∀ x, x ∈ l → ¬ P x) → filter P l = [].
Proof.
  induction l as [|x l IH]; intros HP; [done|].
  rewrite filter_cons, decide_False by (apply HP; by left).
  apply IH. intros y Hy. apply HP. by right.
Qed.

(** A row of a term, as [fill_entry] builds it, satisfies the invariant. *)
Lemma row_of_term_invariant `{LarSolver H} (lra : H) (fuel : nat) (tj : N)
    (s' : imp) (ei : nat) :
  row_of_term lra s' ei tj →
  (∀ q, q ∈ ext_coeffs lra tj → q.1 ≠ UINT_MAX) →
  (∀ p : N * mpq, p ∈ monomials (get_term lra tj) → is_int p.2 = true) →
  entry_invariant fuel lra s' ei = true.
Proof.
  intros (HL & _ & Hrow & Hc) Hall Hint.
  set (row := row_at (m_e_matrix s') ei) in *.
  assert (Hcell : ∀ p : nat * mpq, p ∈ row →
            (local_to_lar_solver s' p.1, p.2) ∈ ext_coeffs lra tj).
  { intros p Hp.
    assert (Hin : (local_to_lar_solver s' p.1, p.2)
                  ∈ filter (λ p0 : N * mpq, is_fixed lra p0.1 = false)
                      (ext_coeffs lra tj)).
    { rewrite <- Hrow.
      by apply (list_elem_of_fmap_2
                  (λ p0 : nat * mpq, (local_to_lar_solver s' p0.1, p0.2))). }
    by apply list_elem_of_filter in Hin as [_ Hin]. }
  unfold entry_invariant. fold row. apply andb_true_iff. split.
  - apply forallb_forall. intros p Hp%list_elem_of_In.
    apply Hcell in Hp. unfold ext_coeffs in Hp.
    apply elem_of_app in Hp as [Hp|Hp].
    + by apply (Hint _ Hp).
    + apply list_elem_of_singleton in Hp. cbn in Hp.
      injection Hp as _ ->. reflexivity.
  - assert (Hfresh : fresh_vars_of s' (get_term_from_entry s' ei) = []).
    { unfold fresh_vars_of. apply filter_none_in. intros j Hj.
      apply elem_of_monomials in Hj. cbn [get_term_from_entry t_coeffs] in Hj.
      fold row in Hj. apply term_of_row_cell in Hj as (p & Hp & <-).
      unfold is_fresh_var. rewrite bool_decide_eq_false_2; [done|].
      apply (Hall _ (Hcell p Hp)). }
    unfold remove_fresh_vars. rewrite Hfresh.
    assert (Hloop : ∀ t, remove_fresh_vars_loop fuel s' [] t = Some t)
      by (intros t; by destruct fuel).
    rewrite Hloop. apply term_o_eq_values. intros y.
    rewrite term_value_term_to_lar_solver, term_value_fix_vars.
    unfold term_value at 1. cbn [get_term_from_entry t_coeffs t_c].
    fold row. rewrite term_of_row_value, <- row_value_fmap, Hrow, Hc.
    transitivity (term_value (fixed_at_bounds lra y)
                    (open_ml lra (row_at (m_l_matrix s') ei))).
    2:{ unfold term_value. rewrite t_c_open_ml. ring. }
    rewrite term_value_open_ml, HL, row_value_cons.
    set (y' := fixed_at_bounds lra y).
    assert (Hext : (row_value y' (ext_coeffs lra tj)
                    = row_value y' (monomials (get_term lra tj)) - y' tj)%Qc).
    { unfold ext_coeffs. rewrite row_value_app, row_value_cons.
      cbn [fst snd row_value foldr]. change (-1)%Qc with (- (1))%Qc. ring. }
    cbn [fst snd row_value foldr].
    transitivity (row_value y' (ext_coeffs lra tj)); [|rewrite Hext; ring].
    rewrite (row_value_by_fixed lra y' (ext_coeffs lra tj)).
    + f_equal. apply row_value_ext. intros p Hp.
      apply list_elem_of_filter in Hp as [Hp _].
      unfold y', fixed_at_bounds. by rewrite Hp.
    + intros j Hj. unfold y', fixed_at_bounds. by rewrite Hj.
Qed.

(** X22.  [fill_entry] establishes the invariant of the row it creates, the
    assertion at its end: with integer coefficients in the term of the column
    [tj] and no column equal to UINT_MAX, [entry_invariant] holds for the new
    row, whatever the bound on the turns of [remove_fresh_vars]. *)
Theorem fill_entry_invariant `{LarSolver H} (lra : H) (fuel : nat) (tj : N)
    (s : imp) :
  rows_aligned s →
  (∀ q, q ∈ ext_coeffs lra tj → q.1 ≠ UINT_MAX) →
  (∀ p : N * mpq, p ∈ monomials (get_term lra tj) → is_int p.2 = true) →
  entry_invariant fuel lra (fill_entry lra tj s) (length (m_entries s)) = true.
Proof.
  intros Hal Hall Hint.
  destruct (fill_entry_builds lra tj s Hal Hall)
    as (_ & _ & _ & _ & Hrow & _).
  by apply (row_of_term_invariant lra fuel tj).
Qed.

Lemma fill_entry_invariant_witness :
  entry_invariant 0 fill_host (fill_entry fill_host 3%N new_imp) 0 = true.
Proof.
  apply (fill_entry_invariant fill_host 0 3%N new_imp).
  - split; reflexivity.
  - apply Forall_forall. by_compute.
  - apply Forall_forall. by_compute.
Defined.

(** X23.  [init] establishes the invariant of the rows it creates.  With no
    changed column pending, integer coefficients in the added terms and no
    column equal to UINT_MAX, every row that [init] appends satisfies
    [entry_invariant]; so, started without rows, [init] ends with
    [entries_are_ok], the assertion at its end. *)
Theorem init_entries_are_ok `{LarSolver H} (lra : H) (fuel : nat) (s : imp) :
  rows_aligned s →
  m_changed_columns s = ∅ →
  (∀ t, t ∈ m_added_terms s →
        (∀ q, q ∈ ext_coeffs lra t → q.1 ≠ UINT_MAX) ∧
        (∀ p : N * mpq, p ∈ monomials (get_term lra t) → is_int p.2 = true)) →
  (∀ k, k < length (m_added_terms s) →
        entry_invariant fuel lra (init lra s) (length (m_entries s) + k)
        = true) ∧
  (m_entries s = [] → entries_are_ok fuel lra (init lra s) = true).
Proof.
  intros Hal Hch Hall.
  destruct (init_builds lra s Hal Hch) as (_ & Hlen & _ & _ & _ & _ & _ & _
                                           & Hrows & _).
  { intros t Ht. by apply Hall. }
  assert (Hinv : ∀ k, k < length (m_added_terms s) →
            entry_invariant fuel lra (init lra s) (length (m_entries s) + k)
            = true).
  { intros k Hk. destruct (lookup_lt_is_Some_2 _ _ Hk) as [t Ht].
    destruct (Hrows k t Ht) as [_ Hrow].
    destruct (Hall t) as [Hcols Hint]; [by eapply list_elem_of_lookup_2|].
    by apply (row_of_term_invariant lra fuel t). }
  split; [exact Hinv|]. intros Hnil. unfold entries_are_ok.
  apply forallb_forall. intros i Hi%list_elem_of_In.
  apply elem_of_seq in Hi as [_ Hi]. rewrite Hlen, Hnil in Hi.
  cbn [length Nat.add] in Hi.
  specialize (Hinv i Hi). by rewrite Hnil in Hinv.
Qed.

Lemma init_entries_are_ok_witness :
  entries_are_ok 0 fill_host (init fill_host fill_example) = true.
Proof.
  destruct (init_entries_are_ok fill_host 0 fill_example) as [_ Hok].
  - split; reflexivity.
  - reflexivity.
  - intros t Ht. apply list_elem_of_singleton in Ht as ->.
    split; apply Forall_forall; by_compute.
  - by apply Hok.
Defined.

(** ** The recalculation of a row *)

Section sums.

Lemma sum_upto_ext (n : nat) (f g : nat → mpq) :
  (∀ j, j < n → f j = g j) →
  foldr (λ j acc, (f j + acc)%Qc) 0%Qc (seq 0 n)
  = foldr (λ j acc, (g j + acc)%Qc) 0%Qc (seq 0 n).
Proof.
  intros Hfg. assert (Hl : ∀ j, j ∈ seq 0 n → f j = g j).
  { intros j Hj%elem_of_seq. apply Hfg. lia. }
  revert Hl. generalize (seq 0 n). intros l Hl.
  induction l as [|j l IH]; [done|]. cbn [foldr].
  rewrite (Hl j) by (by left). rewrite IH; [done|].
  intros i Hi. apply Hl. by right.
Qed.

Lemma sum_upto_plus (n : nat) (f g : nat → mpq) :
  (foldr (λ j acc, (f j + g j + acc)%Qc) 0%Qc (seq 0 n)
   = foldr (λ j acc, (f j + acc)%Qc) 0%Qc (seq 0 n)
     + foldr (λ j acc, (g j + acc)%Qc) 0%Qc (seq 0 n))%Qc.
Proof.
  generalize (seq 0 n). intros l.
  induction l as [|j l IH]; cbn [foldr]; [ring|]. rewrite IH. ring.
Qed.

Lemma sum_upto_single (n a : nat) (c : mpq) :
  a < n →
  foldr (λ j acc, ((if decide (j = a) then c else 0) + acc)%Qc) 0%Qc
    (seq 0 n) = c.
Proof.
  intros Ha. induction n as [|n IH]; [lia|].
  rewrite seq_S, foldr_app. cbn [foldr Nat.add].
  destruct (decide (a = n)) as [->|Hne].
  - rewrite decide_True by done.
    assert (Hz : ∀ (l : list nat) (b : mpq), (∀ j, j ∈ l → j ≠ n) →
              foldr (λ j acc, ((if decide (j = n) then c else 0) + acc)%Qc)
                b l = b).
    { intros l b. induction l as [|j l IHl]; intros Hl; [done|].
      cbn [foldr]. rewrite decide_False by (apply Hl; by left).
      rewrite IHl by (intros i Hi; apply Hl; by right). ring. }
    rewrite Hz; [ring|]. intros j Hj%elem_of_seq. lia.
  - rewrite decide_False by done.
    transitivity
      (foldr (λ j acc, ((if decide (j = a) then c else 0) + acc)%Qc) 0%Qc
         (seq 0 n)); [|apply IH; lia].
    by f_equal.
Qed.

(** A sum over a list without repetitions, as a sum over the indices. *)
Lemma sum_list_upto (n : nat) (g : nat → mpq) (l : list nat) :
  NoDup l → (∀ j, j ∈ l → j < n) →
  foldr (λ j acc, (g j + acc)%Qc) 0%Qc l
  = foldr (λ j acc, ((if decide (j ∈ l) then g j else 0) + acc)%Qc) 0%Qc
      (seq 0 n).
Proof.
  induction l as [|a l IH]; intros Hnd Hn.
  - cbn [foldr]. symmetry.
    transitivity (foldr (λ j acc, (0 + acc)%Qc) 0%Qc (seq 0 n)).
    + apply sum_upto_ext. intros j _. rewrite decide_False; [done|].
      apply not_elem_of_nil.
    + generalize (seq 0 n). intros l'.
      induction l' as [|j l' IHl]; cbn [foldr]; [done|]. rewrite IHl. ring.
  - apply NoDup_cons in Hnd as [Ha Hnd]. cbn [foldr].
    rewrite IH by (done || (intros j Hj; apply Hn; by right)).
    rewrite <- (sum_upto_single n a (g a)) at 1 by (apply Hn; by left).
    rewrite <- sum_upto_plus. apply sum_upto_ext. intros j Hj.
    destruct (decide (j = a)) as [->|Hja].
    + rewrite decide_False by done. rewrite decide_True by (by left). ring.
    + destruct (decide (j ∈ l)) as [Hin|Hnin].
      * rewrite decide_True by (by right). ring.
      * rewrite decide_False; [ring|].
        intros [?|?]%elem_of_cons; done.
Qed.

End sums.

Section index_exact.
Implicit Types v : indexed_vector.

Lemma index_exact_clear v : index_exact (IndexedVector.clear v).
Proof.
  split; [constructor|]. intros j.
  unfold IndexedVector.get, IndexedVector.clear. cbn [m_data m_index].
  rewrite lookup_empty. cbn. split; [by intros ?%elem_of_nil|done].
Qed.

Lemma data_size_add_value (j : nat) (val : mpq) v :
  IndexedVector.data_size (IndexedVector.add_value_at_index j val v)
  = IndexedVector.data_size v.
Proof.
  unfold IndexedVector.add_value_at_index. cbv zeta.
  destruct (is_zero _); [|done]. by destruct (is_zero _).
Qed.

(** With room for the column [j] the work vector is left as it is. *)
Lemma make_space_in_work_vector_room (j : nat) v :
  j < IndexedVector.data_size v → make_space_in_work_vector j v = v.
Proof.
  intros Hj. unfold make_space_in_work_vector. rewrite decide_False; [done|lia].
Qed.

Lemma index_exact_add_value (j : nat) (val : mpq) v :
  index_exact v → index_exact (IndexedVector.add_value_at_index j val v).
Proof.
  intros [Hnd Hidx].
  unfold IndexedVector.add_value_at_index. cbv zeta.
  destruct (is_zero (IndexedVector.get v j + val)) eqn:Hnew.
  - apply is_zero_true in Hnew.
    destruct (is_zero (IndexedVector.get v j)) eqn:Hold; [done|].
    split.
    + unfold IndexedVector.erase. cbn [m_index]. by apply NoDup_filter.
    + intros i. rewrite get_erase. unfold IndexedVector.erase. cbn [m_index].
      rewrite list_elem_of_filter, Hidx.
      destruct (decide (i = j)) as [->|Hij]; tauto.
  - apply is_zero_false in Hnew.
    assert (Hg : ∀ l i,
              IndexedVector.get
                {| m_data := <[j:=(IndexedVector.get v j + val)%Qc]> (m_data v);
                   m_index := l; m_data_size := m_data_size v |} i
              = if decide (i = j) then (IndexedVector.get v j + val)%Qc
                else IndexedVector.get v i).
    { intros l i. unfold IndexedVector.get at 1. cbn [m_data].
      destruct (decide (i = j)) as [->|Hij].
      - by rewrite lookup_insert_eq.
      - by rewrite lookup_insert_ne. }
    destruct (is_zero (IndexedVector.get v j)) eqn:Hold.
    + apply is_zero_true in Hold. split.
      * cbn [m_index]. apply NoDup_app. split; [done|].
        split; [|apply NoDup_singleton].
        intros i Hi Hij%list_elem_of_singleton. subst i.
        by apply Hidx in Hi.
      * intros i. rewrite Hg. cbn [m_index].
        rewrite elem_of_app, list_elem_of_singleton, Hidx.
        destruct (decide (i = j)) as [->|Hij]; tauto.
    + apply is_zero_false in Hold. split; [done|].
      intros i. rewrite Hg. cbn [m_index]. rewrite Hidx.
      destruct (decide (i = j)) as [->|Hij]; tauto.
Qed.

Lemma index_add_value (j : nat) (val : mpq) v (i : nat) :
  i ∈ m_index (IndexedVector.add_value_at_index j val v) →
  i ∈ m_index v ∨ i = j.
Proof.
  unfold IndexedVector.add_value_at_index. cbv zeta.
  destruct (is_zero (IndexedVector.get v j + val)).
  - destruct (is_zero (IndexedVector.get v j)); [by left|].
    unfold IndexedVector.erase. cbn [m_index].
    intros [_ Hi]%list_elem_of_filter. by left.
  - cbn [m_index]. destruct (is_zero (IndexedVector.get v j)); [|by left].
    intros [Hi|Hi%list_elem_of_singleton]%elem_of_app; [by left|by right].
Qed.

(** The dense sum is the sum over the cells. *)
Lemma dense_value_cells (n : nat) (x : nat → mpq) v :
  index_exact v → (∀ j, j ∈ m_index v → j < n) →
  dense_value n x v = row_value x (IndexedVector.cells v).
Proof.
  intros [Hnd Hidx] Hn. unfold dense_value.
  transitivity
    (foldr (λ j acc, ((if decide (j ∈ m_index v)
                       then IndexedVector.get v j * x j else 0) + acc)%Qc)
       0%Qc (seq 0 n)).
  - apply (sum_upto_ext n (λ j, IndexedVector.get v j * x j)%Qc).
    intros j _. destruct (decide (j ∈ m_index v)) as [Hin|Hnin]; [done|].
    destruct (decide (IndexedVector.get v j = 0%Qc)) as [Hz|Hnz].
    + rewrite Hz. ring.
    + by apply Hidx in Hnz.
  - rewrite <- (sum_list_upto n (λ j, IndexedVector.get v j * x j)%Qc)
      by done.
    unfold IndexedVector.cells. generalize (m_index v). intros l.
    induction l as [|j l IH]; [done|]. csimpl. by rewrite IH.
Qed.

End index_exact.

(** The loops of [open_l_term_to_work_vector]. *)
Lemma open_l_term_cells `{LarSolver H} (lra : H) (n d : nat) (y : N → mpq)
    (a : mpq) (qs : list (N * mpq)) (cv : mpq * indexed_vector) :
  (∀ q : N * mpq, q ∈ qs → N.to_nat q.1 < n ∧ q.1 ≠ UINT_MAX) →
  (∀ q : N * mpq, q ∈ qs → is_fixed lra q.1 = false → N.to_nat q.1 < d) →
  IndexedVector.data_size cv.2 = d →
  index_exact cv.2 → index_columns lra n cv.2 →
  let cv' :=
    fold_left
      (λ (cv : mpq * indexed_vector) (q : N * mpq),
         if is_fixed lra q.1
         then ((cv.1 + a * q.2 * get_lower_bound lra q.1)%Qc, cv.2)
         else (cv.1,
               IndexedVector.add_value_at_index (N.to_nat q.1)
                 (a * q.2)%Qc
                 (make_space_in_work_vector (N.to_nat q.1) cv.2)))
      qs cv in
  (cv'.1 + dense_value n (λ j, fixed_at_bounds lra y (N.of_nat j)) cv'.2
   = cv.1 + dense_value n (λ j, fixed_at_bounds lra y (N.of_nat j)) cv.2
     + a * row_value (fixed_at_bounds lra y) qs)%Qc ∧
  IndexedVector.data_size cv'.2 = d ∧
  index_exact cv'.2 ∧ index_columns lra n cv'.2.
Proof.
  revert cv. induction qs as [|q qs IH]; intros [c v] Hqs Hroom Hd Hex Hcols cv'.
  - unfold cv'. cbn. split; [ring|done].
  - unfold cv'. cbn [fold_left fst snd].
    assert (Hqs' : ∀ q' : N * mpq, q' ∈ qs →
                     N.to_nat q'.1 < n ∧ q'.1 ≠ UINT_MAX)
      by (intros q' Hq'; apply Hqs; by right).
    assert (Hroom' : ∀ q' : N * mpq, q' ∈ qs → is_fixed lra q'.1 = false →
                       N.to_nat q'.1 < d)
      by (intros q' Hq'; apply Hroom; by right).
    destruct (Hqs q) as [Hqn Hqmax]; [by left|].
    rewrite row_value_cons.
    destruct (is_fixed lra q.1) eqn:Hfix.
    + destruct (IH (c + a * q.2 * get_lower_bound lra q.1, v)%Qc Hqs' Hroom'
                  Hd Hex Hcols) as (Hv & Hd' & Hex' & Hcols').
      split; [|done]. rewrite Hv. cbn [fst snd].
      assert (Hy : fixed_at_bounds lra y q.1 = get_lower_bound lra q.1)
        by (unfold fixed_at_bounds; by rewrite Hfix).
      rewrite Hy. ring.
    + cbn [fst snd] in Hd, Hex, Hcols.
      rewrite make_space_in_work_vector_room
        by (rewrite Hd; apply Hroom; [by left|done]).
      destruct (IH (c, IndexedVector.add_value_at_index (N.to_nat q.1)
                         (a * q.2)%Qc v) Hqs' Hroom')
        as (Hv & Hd' & Hex' & Hcols').
      * cbn [snd]. by rewrite data_size_add_value.
      * by apply index_exact_add_value.
      * intros j Hj. apply index_add_value in Hj as [Hj| ->];
          [by apply Hcols|].
        rewrite N2Nat.id. done.
      * split; [|done]. rewrite Hv. cbn [fst snd].
        rewrite dense_value_add_value by done. rewrite N2Nat.id. ring.
Qed.

Lemma open_l_term_to_work_vector_value `{LarSolver H} (lra : H) (n : nat)
    (y : N → mpq) (ei : nat) (c0 : mpq) (s : imp) :
  (∀ p : N * mpq, p ∈ row_at (m_l_matrix s) ei →
     ∀ q : N * mpq, q ∈ ext_coeffs lra p.1 →
       N.to_nat q.1 < n ∧ q.1 ≠ UINT_MAX) →
  (∀ p : N * mpq, p ∈ row_at (m_l_matrix s) ei →
     ∀ q : N * mpq, q ∈ ext_coeffs lra p.1 → is_fixed lra q.1 = false →
       N.to_nat q.1 < IndexedVector.data_size (m_indexed_work_vector s)) →
  let cv := open_l_term_to_work_vector lra ei c0 s in
  (cv.1 + dense_value n (λ j, fixed_at_bounds lra y (N.of_nat j)) cv.2
   = c0 + l_row_value lra (fixed_at_bounds lra y)
            (row_at (m_l_matrix s) ei))%Qc ∧
  index_exact cv.2 ∧ index_columns lra n cv.2.
Proof.
  intros Hrow Hroom cv. unfold cv, open_l_term_to_work_vector, l_row_value.
  set (d := IndexedVector.data_size (m_indexed_work_vector s)) in *.
  assert (Hgen : ∀ (r : list (N * mpq)) (cv0 : mpq * indexed_vector),
            (∀ p : N * mpq, p ∈ r →
               ∀ q : N * mpq, q ∈ ext_coeffs lra p.1 →
                 N.to_nat q.1 < n ∧ q.1 ≠ UINT_MAX) →
            (∀ p : N * mpq, p ∈ r →
               ∀ q : N * mpq, q ∈ ext_coeffs lra p.1 →
                 is_fixed lra q.1 = false → N.to_nat q.1 < d) →
            IndexedVector.data_size cv0.2 = d →
            index_exact cv0.2 → index_columns lra n cv0.2 →
            let cv' :=
              fold_left
                (λ cv p,
                   fold_left
                     (λ (cv : mpq * indexed_vector) (q : N * mpq),
                        if is_fixed lra q.1
                        then ((cv.1 + p.2 * q.2 * get_lower_bound lra q.1)%Qc,
                              cv.2)
                        else (cv.1,
                              IndexedVector.add_value_at_index (N.to_nat q.1)
                                (p.2 * q.2)%Qc
                                (make_space_in_work_vector (N.to_nat q.1)
                                   cv.2)))
                     (ext_coeffs lra p.1) cv)
                r cv0 in
            (cv'.1
             + dense_value n (λ j, fixed_at_bounds lra y (N.of_nat j)) cv'.2
             = cv0.1
               + dense_value n (λ j, fixed_at_bounds lra y (N.of_nat j)) cv0.2
               + row_value
                   (λ t, row_value (fixed_at_bounds lra y) (ext_coeffs lra t))
                   r)%Qc ∧
            IndexedVector.data_size cv'.2 = d ∧
            index_exact cv'.2 ∧ index_columns lra n cv'.2).
  { induction r as [|p r IH]; intros cv0 Hr Hrm Hd Hex Hcols cv'.
    - unfold cv'. cbn. split; [ring|done].
    - unfold cv'. cbn [fold_left].
      destruct (open_l_term_cells lra n d y p.2 (ext_coeffs lra p.1) cv0)
        as (Hv1 & Hd1 & Hex1 & Hcols1);
        [apply Hr; by left|apply Hrm; by left|done|done|done|].
      assert (Hr' : ∀ p' : N * mpq, p' ∈ r →
                ∀ q : N * mpq, q ∈ ext_coeffs lra p'.1 →
                  N.to_nat q.1 < n ∧ q.1 ≠ UINT_MAX)
        by (intros p' Hp'; apply Hr; by right).
      assert (Hrm' : ∀ p' : N * mpq, p' ∈ r →
                ∀ q : N * mpq, q ∈ ext_coeffs lra p'.1 →
                  is_fixed lra q.1 = false → N.to_nat q.1 < d)
        by (intros p' Hp'; apply Hrm; by right).
      destruct (IH _ Hr' Hrm' Hd1 Hex1 Hcols1) as (Hv2 & Hd2 & Hex2 & Hcols2).
      split; [|done]. rewrite Hv2, Hv1, row_value_cons. ring. }
  destruct (Hgen (row_at (m_l_matrix s) ei)
              (c0, IndexedVector.clear (m_indexed_work_vector s)) Hrow Hroom)
    as (Hv & _ & Hex & Hcols).
  - done.
  - apply index_exact_clear.
  - intros j Hj. by apply elem_of_nil in Hj.
  - split; [|done]. rewrite Hv. cbn [fst snd].
    assert (Hz : dense_value n (λ j, fixed_at_bounds lra y (N.of_nat j))
                   (IndexedVector.clear (m_indexed_work_vector s)) = 0%Qc).
    { clear. induction n as [|n IH]; [done|].
      rewrite dense_value_S, IH. unfold IndexedVector.get, IndexedVector.clear.
      cbn [m_data]. rewrite lookup_empty. cbn. ring. }
    rewrite Hz. ring.
Qed.

Lemma recalculate_entry_cell_inv (s0 : imp) (ei : nat)
    (pre : list (nat * mpq)) (p : nat * mpq) (st : imp) (denom : mpq) :
  ei < length (m_e_matrix s0) →
  N.of_nat p.1 ≠ UINT_MAX →
  (∀ q : nat * mpq, q ∈ pre → N.of_nat q.1 ≠ UINT_MAX) →
  recalculate_inv s0 ei pre st →
  recalculate_inv s0 ei (pre ++ [p])
    (recalculate_entry_cell ei (st, denom) p).1.
Proof.
  intros HiM Hp Hpre (Hen & HL & HlenE & [ext Hreg] & Hrow & Hoth).
  unfold recalculate_inv, recalculate_entry_cell, add_var.
  destruct (add_var_spec (N.of_nat p.1) (m_var_register st) Hp)
    as [[ext' Hext] Hlj].
  destruct (VarRegister.add_var (N.of_nat p.1) (m_var_register st))
    as [lj reg'].
  cbn [fst snd] in Hext, Hlj.
  cbn [fst m_entries m_e_matrix m_l_matrix m_var_register set_m_e_matrix
       set_m_e_columns set_m_var_register].
  unfold add_new_element. rewrite length_alter.
  split; [done|]. split; [done|]. split; [done|].
  split; [exists (ext ++ ext'); by rewrite Hext, Hreg, app_assoc|].
  split.
  - rewrite row_at_alter_eq by lia. rewrite !fmap_app. f_equal.
    + rewrite <- Hrow. apply list_fmap_ext. intros i q Hq. f_equal.
      unfold local_to_lar_solver.
      cbn [m_var_register set_m_e_matrix set_m_e_columns set_m_var_register].
      rewrite Hext. apply local_to_external_app.
      assert (Hin : (local_to_lar_solver st q.1, q.2)
                    ∈ (λ p0 : nat * mpq, (N.of_nat p0.1, p0.2)) <$> pre).
      { rewrite <- Hrow.
        apply (list_elem_of_fmap_2
                 (λ p0 : nat * mpq, (local_to_lar_solver st p0.1, p0.2))).
        by eapply list_elem_of_lookup_2. }
      apply list_elem_of_fmap in Hin as (q' & Heq & Hq').
      injection Heq as Heq _. unfold local_to_lar_solver in Heq.
      rewrite Heq. by apply Hpre.
    + csimpl. unfold local_to_lar_solver, VarRegister.local_to_external.
      cbn [m_var_register set_m_e_matrix set_m_e_columns set_m_var_register].
      by rewrite Hlj.
  - intros i Hi. rewrite row_at_alter_ne by done. by apply Hoth.
Qed.

Lemma recalculate_entry_loop_inv (s0 : imp) (ei : nat)
    (rest pre : list (nat * mpq)) (st : imp) (denom : mpq) :
  ei < length (m_e_matrix s0) →
  (∀ q : nat * mpq, q ∈ pre ++ rest → N.of_nat q.1 ≠ UINT_MAX) →
  recalculate_inv s0 ei pre st →
  recalculate_inv s0 ei (pre ++ rest)
    (fold_left (recalculate_entry_cell ei) rest (st, denom)).1.
Proof.
  intros HiM. revert pre st denom.
  induction rest as [|p rest IH]; intros pre st denom Hall Hinv.
  - by rewrite app_nil_r.
  - cbn [fold_left]. rewrite (cons_middle p pre rest), app_assoc.
    pose proof (recalculate_entry_cell_inv s0 ei pre p st denom HiM) as Hstep.
    destruct (recalculate_entry_cell ei (st, denom) p) as [st1 denom1].
    apply IH.
    + intros q Hq. apply Hall. by rewrite (cons_middle p pre rest), app_assoc.
    + apply Hstep; [| |done].
      * apply Hall. apply elem_of_app. right. by left.
      * intros q Hq. apply Hall. apply elem_of_app. by left.
Qed.

Lemma columns_bound `{LarSolver H} (lra : H) (r : list (N * mpq)) :
  ∃ n, ∀ p : N * mpq, p ∈ r →
         ∀ q : N * mpq, q ∈ ext_coeffs lra p.1 → N.to_nat q.1 < n.
Proof.
  assert (Hone : ∀ l : list (N * mpq),
            ∃ n, ∀ q : N * mpq, q ∈ l → N.to_nat q.1 < n).
  { intros l. exists (Datatypes.S (max_list ((λ q : N * mpq, N.to_nat q.1) <$> l))).
    intros q Hq. apply Nat.lt_succ_r, max_list_elem_of_le.
    by apply (list_elem_of_fmap_2 (λ q : N * mpq, N.to_nat q.1)). }
  induction r as [|p r [n Hn]].
  - exists 0. intros p Hp. by apply elem_of_nil in Hp.
  - destruct (Hone (ext_coeffs lra p.1)) as [m Hm]. exists (n `max` m).
    intros p' [->|Hp']%elem_of_cons q Hq.
    + specialize (Hm q Hq). lia.
    + specialize (Hn p' Hp' q Hq). lia.
Qed.

Lemma l_row_value_scaled `{LarSolver H} (lra : H) (y : N → mpq) (d : mpq)
    (r : list (N * mpq)) :
  (l_row_value lra y ((λ p : N * mpq, (p.1, p.2 * d)) <$> r)
   = d * l_row_value lra y r)%Qc.
Proof. unfold l_row_value. apply row_value_scaled. Qed.

Lemma fmap_scaled_one {V} (r : list (V * mpq)) :
  (λ p : V * mpq, (p.1, (p.2 * 1)%Qc)) <$> r = r.
Proof.
  induction r as [|[j a] r IH]; csimpl; [done|].
  rewrite IH. f_equal. f_equal. ring.
Qed.

(** X24.  [recalculate_entry] rebuilds the row [ei] from its row of L when
    the work vector has room.  Let no column of the terms of the row of L be
    UINT_MAX, and let every such column that is not fixed be below the size
    of the data of the work vector, so that [make_space_in_work_vector] never
    resizes, and so never clears, the vector.  After the call,
    under every assignment of the columns of the host that gives the fixed
    columns their values, the row of E with its constant has the value of the
    row of L, each cell of which stands for [sum a_i * x_i - x_t], the
    equation of the term of its column; the row of L is the one before,
    multiplied by the common denominator; the status of the row, the other
    rows and the entries of the other rows are unchanged, and the register is
    only extended. *)
Theorem recalculate_entry_sound `{LarSolver H} (lra : H) (ei : nat) (s : imp)
    (y : N → mpq) :
  ei < length (m_e_matrix s) → ei < length (m_entries s) →
  ei < length (m_l_matrix s) →
  (∀ p : N * mpq, p ∈ row_at (m_l_matrix s) ei →
     ∀ q : N * mpq, q ∈ ext_coeffs lra p.1 → q.1 ≠ UINT_MAX) →
  (∀ p : N * mpq, p ∈ row_at (m_l_matrix s) ei →
     ∀ q : N * mpq, q ∈ ext_coeffs lra p.1 → is_fixed lra q.1 = false →
       N.to_nat q.1 < IndexedVector.data_size (m_indexed_work_vector s)) →
  let s' := recalculate_entry lra ei s in
  (row_value (λ l, fixed_at_bounds lra y (local_to_lar_solver s' l))
     (row_at (m_e_matrix s') ei) + m_c (entry_at s' ei)
   = l_row_value lra (fixed_at_bounds lra y) (row_at (m_l_matrix s') ei))%Qc ∧
  (∃ d, row_at (m_l_matrix s') ei
        = (λ p : N * mpq, (p.1, (p.2 * d)%Qc)) <$> row_at (m_l_matrix s) ei) ∧
  m_entry_status (entry_at s' ei) = m_entry_status (entry_at s ei) ∧
  (∃ ext, m_var_register s' = m_var_register s ++ ext) ∧
  (∀ i, i ≠ ei →
        row_at (m_e_matrix s') i = row_at (m_e_matrix s) i ∧
        row_at (m_l_matrix s') i = row_at (m_l_matrix s) i ∧
        entry_at s' i = entry_at s i).
Proof.
  intros HiE Hien HiL Hmax Hroom s'.
  destruct (columns_bound lra (row_at (m_l_matrix s) ei)) as [n Hn].
  destruct (open_l_term_to_work_vector_value lra n y ei 0%Qc s)
    as (Hv & Hex & Hcols).
  { intros p Hp q Hq. split; [by apply (Hn p Hp)|by apply (Hmax p Hp)]. }
  { exact Hroom. }
  unfold s', recalculate_entry.
  destruct (open_l_term_to_work_vector lra ei 0%Qc s) as [c v].
  cbn [fst snd] in Hv, Hex, Hcols.
  set (s3 := set_m_e_matrix (clear_row ei (m_e_matrix s))
               (set_m_entries (alter (set_entry_c c) ei (m_entries s))
                  (set_m_indexed_work_vector v s))).
  assert (HiE3 : ei < length (m_e_matrix s3)).
  { unfold s3, clear_row. cbn [m_e_matrix set_m_e_matrix].
    by rewrite length_alter. }
  assert (Hinv0 : recalculate_inv s3 ei [] s3).
  { unfold recalculate_inv. repeat split; try done.
    - by exists []; rewrite app_nil_r.
    - unfold s3, clear_row. cbn [m_e_matrix set_m_e_matrix].
      by rewrite row_at_alter_eq. }
  pose proof (recalculate_entry_loop_inv s3 ei (IndexedVector.cells v) [] s3
                1%Qc HiE3) as Hloop.
  cbn [app] in Hloop.
  assert (Hcells : ∀ q : nat * mpq, q ∈ IndexedVector.cells v →
                     N.of_nat q.1 ≠ UINT_MAX).
  { intros q Hq. unfold IndexedVector.cells in Hq.
    apply list_elem_of_fmap in Hq as (j & -> & Hj). by apply Hcols. }
  specialize (Hloop Hcells Hinv0).
  change (set_m_e_matrix (clear_row ei (m_e_matrix _)) _) with s3.
  destruct (fold_left (recalculate_entry_cell ei) (IndexedVector.cells v)
              (s3, 1%Qc)) as [s4 denom].
  cbn [fst] in Hloop.
  destruct Hloop as (Hen & HL & HlenE & [ext Hreg] & Hrow & Hoth).
  assert (Hval : (row_value (λ l, fixed_at_bounds lra y
                                    (local_to_lar_solver s4 l))
                    (row_at (m_e_matrix s4) ei) + c
                  = l_row_value lra (fixed_at_bounds lra y)
                      (row_at (m_l_matrix s) ei))%Qc).
  { rewrite <- (row_value_fmap (fixed_at_bounds lra y)
                  (local_to_lar_solver s4)), Hrow.
    rewrite (row_value_fmap (fixed_at_bounds lra y) N.of_nat).
    rewrite <- (dense_value_cells n) by (done || (intros j Hj; by apply Hcols)).
    transitivity (c + dense_value n
                        (λ j, fixed_at_bounds lra y (N.of_nat j)) v)%Qc;
      [ring|]. rewrite Hv. ring. }
  assert (Hentry : entry_at s4 ei = set_entry_c c (entry_at s ei)).
  { unfold entry_at at 1. rewrite Hen. unfold s3.
    cbn [m_entries set_m_e_matrix set_m_entries set_m_indexed_work_vector].
    by apply entry_at_alter_eq. }
  assert (Hentry_ne : ∀ i, i ≠ ei → entry_at s4 i = entry_at s i).
  { intros i Hi. unfold entry_at at 1. rewrite Hen. unfold s3.
    cbn [m_entries set_m_e_matrix set_m_entries set_m_indexed_work_vector].
    by apply entry_at_alter_ne. }
  assert (Hrow_ne : ∀ i, i ≠ ei →
            row_at (m_e_matrix s4) i = row_at (m_e_matrix s) i).
  { intros i Hi. rewrite (Hoth i Hi). unfold s3, clear_row.
    cbn [m_e_matrix set_m_e_matrix]. by rewrite row_at_alter_ne. }
  assert (HL4 : m_l_matrix s4 = m_l_matrix s) by (by rewrite HL).
  assert (Hreg4 : m_var_register s4 = m_var_register s ++ ext)
    by (by rewrite Hreg).
  assert (HiE4 : ei < length (m_e_matrix s4)) by (by rewrite HlenE).
  assert (Hien4 : ei < length (m_entries s4)).
  { rewrite Hen. unfold s3.
    cbn [m_entries set_m_e_matrix set_m_entries set_m_indexed_work_vector].
    by rewrite length_alter. }
  assert (HiL4 : ei < length (m_l_matrix s4)) by (by rewrite HL4).
  clearbody s3. clear Hen HL Hreg Hoth Hinv0 HiE3 HlenE.
  destruct (is_one denom).
  - split; [by rewrite Hentry, HL4|].
    split; [exists 1%Qc; by rewrite HL4, fmap_scaled_one|].
    split; [by rewrite Hentry|]. split; [by exists ext|].
    intros i Hi. by rewrite Hrow_ne, HL4, Hentry_ne.
  - set (s5 := set_m_entries
                 (alter (λ e, set_entry_c (m_c e * denom)%Qc e) ei
                    (m_entries s4)) s4).
    assert (Hrows : ∀ i,
              row_at (m_e_matrix
                        (set_m_e_matrix
                           (multiply_row ei denom
                              (m_e_matrix (set_m_l_matrix
                                 (multiply_row ei denom (m_l_matrix s5)) s5)))
                           (set_m_l_matrix
                              (multiply_row ei denom (m_l_matrix s5)) s5))) i
              = if decide (i = ei)
                then (λ p : nat * mpq, (p.1, (p.2 * denom)%Qc))
                       <$> row_at (m_e_matrix s4) ei
                else row_at (m_e_matrix s4) i).
    { intros i. cbn [m_e_matrix set_m_e_matrix set_m_l_matrix set_m_entries s5].
      unfold multiply_row. destruct (decide (i = ei)) as [->|Hi].
      - by rewrite row_at_alter_eq.
      - by rewrite row_at_alter_ne. }
    assert (HrowsL : ∀ i,
              row_at (m_l_matrix
                        (set_m_e_matrix
                           (multiply_row ei denom
                              (m_e_matrix (set_m_l_matrix
                                 (multiply_row ei denom (m_l_matrix s5)) s5)))
                           (set_m_l_matrix
                              (multiply_row ei denom (m_l_matrix s5)) s5))) i
              = if decide (i = ei)
                then (λ p : N * mpq, (p.1, (p.2 * denom)%Qc))
                       <$> row_at (m_l_matrix s) ei
                else row_at (m_l_matrix s) i).
    { intros i. cbn [m_l_matrix set_m_e_matrix set_m_l_matrix set_m_entries s5].
      unfold multiply_row. rewrite HL4. destruct (decide (i = ei)) as [->|Hi].
      - by rewrite row_at_alter_eq.
      - by rewrite row_at_alter_ne. }
    assert (Hents : ∀ i,
              entry_at
                (set_m_e_matrix
                   (multiply_row ei denom
                      (m_e_matrix (set_m_l_matrix
                         (multiply_row ei denom (m_l_matrix s5)) s5)))
                   (set_m_l_matrix
                      (multiply_row ei denom (m_l_matrix s5)) s5)) i
              = if decide (i = ei)
                then set_entry_c (c * denom)%Qc (entry_at s ei)
                else entry_at s i).
    { intros i. unfold entry_at at 1.
      cbn [m_entries set_m_e_matrix set_m_l_matrix set_m_entries s5].
      destruct (decide (i = ei)) as [->|Hi].
      - rewrite entry_at_alter_eq by done. rewrite Hentry. reflexivity.
      - rewrite entry_at_alter_ne by done. by apply Hentry_ne. }
    assert (Hl2e : ∀ l,
              local_to_lar_solver
                (set_m_e_matrix
                   (multiply_row ei denom
                      (m_e_matrix (set_m_l_matrix
                         (multiply_row ei denom (m_l_matrix s5)) s5)))
                   (set_m_l_matrix
                      (multiply_row ei denom (m_l_matrix s5)) s5)) l
              = local_to_lar_solver s4 l) by reflexivity.
    assert (Hregs :
              m_var_register
                (set_m_e_matrix
                   (multiply_row ei denom
                      (m_e_matrix (set_m_l_matrix
                         (multiply_row ei denom (m_l_matrix s5)) s5)))
                   (set_m_l_matrix
                      (multiply_row ei denom (m_l_matrix s5)) s5))
              = m_var_register s4) by reflexivity.
    fold s5.
    generalize dependent
      (set_m_e_matrix
         (multiply_row ei denom
            (m_e_matrix (set_m_l_matrix
               (multiply_row ei denom (m_l_matrix s5)) s5)))
         (set_m_l_matrix (multiply_row ei denom (m_l_matrix s5)) s5)).
    intros s6 Hrows HrowsL Hents Hl2e Hregs.
    split; [|split; [|split; [|split]]].
    + rewrite Hrows, HrowsL, Hents, !decide_True by done.
      rewrite (l_row_value_scaled lra _ denom), <- Hval.
      rewrite (row_value_ext _ (λ l, fixed_at_bounds lra y
                                       (local_to_lar_solver s4 l)))
        by (intros p _; by rewrite Hl2e).
      rewrite (row_value_scaled _ denom). cbn [m_c set_entry_c]. ring.
    + exists denom. by rewrite HrowsL, decide_True.
    + by rewrite Hents, decide_True.
    + exists ext. by rewrite Hregs.
    + intros i Hi. rewrite Hrows, HrowsL, Hents, !decide_False by done.
      split; [by apply Hrow_ne|done].
Qed.

Lemma recalculate_entry_sound_witness :
  let s' := recalculate_entry fill_host 0 roomy_state in
  let y := fixed_at_bounds fill_host (λ _, z 1) in
  (row_value (λ l, y (local_to_lar_solver s' l)) (row_at (m_e_matrix s') 0)
   + m_c (entry_at s' 0)
   = l_row_value fill_host y (row_at (m_l_matrix s') 0))%Qc ∧
  m_c (entry_at s' 0) = z 15 ∧
  (row_at (m_e_matrix s') 0).*1 = [0; 1].
Proof.
  assert (Hrow : row_at (m_l_matrix roomy_state) 0 = [(3%N, z 1)])
    by by_compute.
  destruct (recalculate_entry_sound fill_host 0 roomy_state (λ _, z 1))
    as (Hval & _).
  - vm_compute. lia.
  - vm_compute. lia.
  - vm_compute. lia.
  - intros p Hp. rewrite Hrow in Hp.
    apply list_elem_of_singleton in Hp as ->. apply Forall_forall. by_compute.
  - intros p Hp. rewrite Hrow in Hp.
    apply list_elem_of_singleton in Hp as ->. intros q Hq _. revert q Hq.
    apply Forall_forall. by_compute.
  - split; [exact Hval|]. split; by_compute.
Defined.

(** Without room the recalculation loses cells: from the work vector as the
    constructor leaves it, the column 3 of the term [2 x0 + 3 x1 - x3] makes
    [make_space_in_work_vector] resize the vector after [2 x0] was added, the
    row that is rebuilt is [- x3 + 15], and the value of the row is no longer
    the value of its row of L. *)
Lemma recalculate_entry_loses_cells :
  let s' := recalculate_entry fill_host 0 fill_state in
  let y := fixed_at_bounds fill_host (λ _, z 1) in
  (λ p : nat * mpq, (local_to_lar_solver s' p.1, p.2))
    <$> row_at (m_e_matrix s') 0 = [(3%N, z (-1))] ∧
  m_c (entry_at s' 0) = z 15 ∧
  (row_value (λ l, y (local_to_lar_solver s' l)) (row_at (m_e_matrix s') 0)
   + m_c (entry_at s' 0)
   ≠ l_row_value fill_host y (row_at (m_l_matrix s') 0))%Qc.
Proof.
  split; [by_compute|]. split; [by_compute|].
  apply (bool_decide_eq_true_1 (_ ≠ _)). vm_compute. reflexivity.
Qed.

(** ** Rows of integers: the least coefficient and the gcd *)

Section row_arith.
Context {V : Type}.
Implicit Types r : list (V * mpq).

Lemma row_min_abs_cons (p : V * mpq) r :
  r ≠ [] → row_min_abs (p :: r) = Z.min (Z.abs (Qnum p.2)) (row_min_abs r).
Proof. by destruct r. Qed.

Lemma row_min_abs_nonneg r : (0 ≤ row_min_abs r)%Z.
Proof.
  induction r as [|p r IH]; [done|].
  destruct r as [|q r]; [cbn; lia|].
  rewrite row_min_abs_cons by done. lia.
Qed.

Lemma row_min_abs_le r (p : V * mpq) :
  p ∈ r → (row_min_abs r ≤ Z.abs (Qnum p.2))%Z.
Proof.
  induction r as [|q r IH]; [by intros ?%elem_of_nil|].
  intros Hp. destruct r as [|q' r].
  - apply list_elem_of_singleton in Hp as ->. cbn. lia.
  - rewrite row_min_abs_cons by done.
    apply elem_of_cons in Hp as [->|Hp]; [lia|].
    specialize (IH Hp). lia.
Qed.

Lemma row_min_abs_elem r :
  r ≠ [] → ∃ p : V * mpq, p ∈ r ∧ row_min_abs r = Z.abs (Qnum p.2).
Proof.
  induction r as [|q r IH]; [done|]. intros _.
  destruct r as [|q' r].
  - exists q. split; [by left|done].
  - rewrite row_min_abs_cons by done.
    destruct IH as (p & Hp & Hm); [done|].
    destruct (Z.min_spec (Z.abs (Qnum q.2)) (row_min_abs (q' :: r)))
      as [[_ ->]|[_ ->]].
    + exists q. split; [by left|done].
    + exists p. split; [by right|done].
Qed.

Lemma row_gcd_cons (p : V * mpq) r :
  row_gcd (p :: r) = Z.gcd (Qnum p.2) (row_gcd r).
Proof. reflexivity. Qed.

Lemma row_gcd_pos r (p : V * mpq) :
  p ∈ r → Qnum p.2 ≠ 0%Z → (0 < row_gcd r)%Z.
Proof.
  intros Hp Hnz. pose proof (row_gcd_nonneg r) as Hge.
  destruct (decide (row_gcd r = 0%Z)) as [Hz|]; [|lia].
  exfalso. destruct (row_gcd_divides r p Hp) as [k Hk].
  rewrite Hz in Hk. lia.
Qed.

(** The numerators of a row all divided by [G]. *)
Lemma row_scaled (G : Z) r r' :
  (0 < G)%Z →
  Forall2 (λ (p p' : V * mpq), Qnum p.2 = (G * Qnum p'.2)%Z) r r' →
  row_gcd r = (G * row_gcd r')%Z ∧ row_min_abs r = (G * row_min_abs r')%Z.
Proof.
  intros HG Hrr. induction Hrr as [|p p' r r' Hp Hrr [IHg IHm]]; [split; cbn; lia|].
  split.
  - rewrite !row_gcd_cons, Hp, IHg.
    by rewrite Z.gcd_mul_mono_l_nonneg by lia.
  - destruct Hrr as [|q q' r r' Hq Hrr]; [cbn; rewrite Hp, Z.abs_mul; lia|].
    rewrite !row_min_abs_cons, IHm, Hp by done.
    rewrite Z.abs_mul, (Z.abs_eq G) by lia.
    by rewrite Z.mul_min_distr_nonneg_l by lia.
Qed.

Lemma Qc_div_exact (a G : Z) :
  G ≠ 0%Z → (Qc_of_Z (G * a) / Qc_of_Z G)%Qc = Qc_of_Z a.
Proof.
  intros HG. rewrite Qc_of_Z_mult. field.
  intros Hz. by apply Qc_of_Z_eq_0 in Hz.
Qed.

(** A row of integers divided by a common divisor of its coefficients. *)
Lemma row_divided (G : Z) r :
  (0 < G)%Z →
  Forall (λ p : V * mpq, is_int p.2 = true) r →
  (∀ p : V * mpq, p ∈ r → (G | Qnum p.2)%Z) →
  let r' := map (λ p : V * mpq, (p.1, (p.2 / Qc_of_Z G)%Qc)) r in
  Forall (λ p : V * mpq, is_int p.2 = true) r' ∧
  Forall2 (λ (p p' : V * mpq), Qnum p.2 = (G * Qnum p'.2)%Z) r r' ∧
  r'.*1 = r.*1 ∧
  (Forall (λ p : V * mpq, p.2 ≠ 0%Qc) r →
   Forall (λ p : V * mpq, p.2 ≠ 0%Qc) r').
Proof.
  intros HG Hint Hdiv r'. unfold r'. clear r'.
  induction r as [|p r IH]; [by repeat split|].
  apply Forall_cons in Hint as [Hp Hint].
  destruct IH as (IH1 & IH2 & IH3 & IH4);
    [done|intros q Hq; apply Hdiv; by right|].
  destruct (Hdiv p) as [b Hb]; [by left|].
  assert (Hpq : (p.2 / Qc_of_Z G)%Qc = Qc_of_Z b).
  { rewrite (proj1 (is_int_spec _) Hp), Hb, Z.mul_comm.
    apply Qc_div_exact. lia. }
  cbn [map]. repeat split.
  - constructor; [|done]. cbn [snd]. rewrite Hpq. apply is_int_Qc_of_Z.
  - constructor; [|done]. cbn [snd]. rewrite Hpq, Hb.
    change (Qnum (Qc_of_Z b)) with b. lia.
  - cbn. by rewrite IH3.
  - intros [Hnz Hnzr]%Forall_cons. constructor; [|by apply IH4].
    cbn [snd]. rewrite Hpq. intros Hz%Qc_of_Z_eq_0. subst b.
    apply Hnz. rewrite (proj1 (is_int_spec _) Hp), Hb, Z.mul_0_l.
    apply Qc_of_Z_0.
Qed.

(** Dividing a row by its gcd keeps the normalized least coefficient and
    leaves a row of gcd 1. *)
Lemma row_normalized r :
  Forall (λ p : V * mpq, is_int p.2 = true) r →
  (0 < row_gcd r)%Z →
  let r' := map (λ p : V * mpq,
                   (p.1, (p.2 / Qc_of_Z (row_gcd r))%Qc)) r in
  row_gcd r' = 1%Z ∧ normalized_min r' = normalized_min r.
Proof.
  intros Hint HG r'.
  destruct (row_divided (row_gcd r) r HG Hint) as (_ & H2 & _).
  { intros p Hp. by apply row_gcd_divides. }
  destruct (row_scaled (row_gcd r) r r' HG H2) as [Hg Hm].
  assert (Hg1 : row_gcd r' = 1%Z) by nia.
  split; [exact Hg1|]. unfold normalized_min.
  rewrite Hg1, Hm, Z.div_1_r. f_equal.
  rewrite Z.mul_comm, Z.div_mul by lia. done.
Qed.

End row_arith.

(** ** The normalization keeps the rows of F in order *)

Lemma row_wf_register (s s' : imp) (r : list (nat * mpq)) :
  length (m_var_register s) ≤ length (m_var_register s') →
  row_wf s r → row_wf s' r.
Proof.
  intros Hreg [Hnd Hcells]. split; [done|].
  eapply Forall_impl; [exact Hcells|].
  intros p (Hi & Hnz & Hp). repeat split; [done|done|lia].
Qed.

Lemma row_wf_int (s : imp) (r : list (nat * mpq)) :
  row_wf s r → Forall (λ p : nat * mpq, is_int p.2 = true) r.
Proof.
  intros [_ Hcells]. eapply Forall_impl; [exact Hcells|]. by intros p (? & _).
Qed.

Lemma row_wf_gcd_pos (s : imp) (r : list (nat * mpq)) :
  row_wf s r → r ≠ [] → (0 < row_gcd r)%Z.
Proof.
  intros [_ Hcells] Hne. destruct r as [|p r]; [done|].
  apply Forall_cons in Hcells as [(Hi & Hnz & _) _].
  apply (row_gcd_pos _ p); [by left|].
  intros Hz. apply Hnz. rewrite (proj1 (is_int_spec _) Hi), Hz.
  apply Qc_of_Z_0.
Qed.

Lemma normalize_e_by_gcd_wf `{LarSolver H} (lra : H) (i : nat) (s s' : imp) :
  rows_aligned s → row_wf s (row_at (m_e_matrix s) i) →
  normalize_e_by_gcd lra i s = (true, s') →
  m_f s' = m_f s ∧ m_var_register s' = m_var_register s ∧
  rows_aligned s' ∧ length (m_entries s') = length (m_entries s) ∧
  (∀ k, k ≠ i → row_at (m_e_matrix s') k = row_at (m_e_matrix s) k) ∧
  row_wf s' (row_at (m_e_matrix s') i) ∧
  normalized_min (row_at (m_e_matrix s') i)
  = normalized_min (row_at (m_e_matrix s) i) ∧
  (row_at (m_e_matrix s') i = [] ↔ row_at (m_e_matrix s) i = []) ∧
  (row_gcd (row_at (m_e_matrix s') i) ≤ 1)%Z ∧
  ((row_gcd (row_at (m_e_matrix s) i) ≤ 1)%Z →
   row_at (m_e_matrix s') i = row_at (m_e_matrix s) i).
Proof.
  intros [HalE HalL] Hwf. pose proof (row_wf_int s _ Hwf) as Hint.
  unfold normalize_e_by_gcd. cbv zeta.
  rewrite (gcd_of_coeffs_correct _ Hint).
  set (row := row_at (m_e_matrix s) i) in *.
  set (G := row_gcd row). pose proof (row_gcd_nonneg row) as HG0. fold G in HG0.
  destruct (is_zero (Qc_of_Z G) || is_one (Qc_of_Z G)) eqn:Hg.
  - intros [= <-]. fold row.
    assert (HG1 : (G ≤ 1)%Z).
    { apply orb_true_iff in Hg as [Hz%is_zero_true|Ho%is_one_true].
      - apply Qc_of_Z_eq_0 in Hz. lia.
      - apply Qc_of_Z_eq_1 in Ho. lia. }
    repeat split; try done; apply Hwf.
  - apply orb_false_iff in Hg as [Hz%is_zero_false Ho%is_one_false].
    assert (HG1 : (1 < G)%Z).
    { destruct (Qc_of_Z_cases G HG0) as [->|[->|?]]; [| |done].
      - by rewrite Qc_of_Z_0 in Hz.
      - by rewrite Qc_of_Z_1 in Ho. }
    destruct (is_int _); [|by destruct (_ && _)].
    intros [= <-].
    cbn [m_f m_var_register m_e_matrix m_entries m_l_matrix set_m_e_matrix
         set_m_entries set_m_l_matrix].
    rewrite row_at_divide_row, decide_True by done. fold row.
    destruct (row_divided G row) as (Hint' & Hsc & Hvars & Hnz');
      [lia|done|intros p Hp; by apply row_gcd_divides|].
    destruct (row_normalized row Hint) as [Hg1 Hnm]; [fold G; lia|].
    fold G in Hg1, Hnm.
    split; [done|]. split; [done|].
    split.
    { unfold rows_aligned, divide_row.
      cbn [m_e_matrix m_entries m_l_matrix set_m_e_matrix set_m_entries
           set_m_l_matrix]. by rewrite !length_alter. }
    split; [by rewrite length_alter|].
    split.
    { intros k Hk. rewrite row_at_divide_row. by rewrite decide_False. }
    split.
    { destruct Hwf as [Hnd Hcells]. split; [by rewrite Hvars|].
      apply Forall_forall. intros p' Hp'.
      assert (Hnzall : Forall (λ p : nat * mpq, p.2 ≠ 0%Qc) row).
      { eapply Forall_impl; [exact Hcells|]. by intros p (_ & ? & _). }
      repeat split.
      - by apply (proj1 (Forall_forall _ _) Hint').
      - by apply (proj1 (Forall_forall _ _) (Hnz' Hnzall)).
      - apply list_elem_of_fmap in Hp' as (p & -> & Hp). cbn [fst].
        unfold cell_wf in Hcells.
        cbn [m_var_register set_m_e_matrix set_m_entries set_m_l_matrix].
        by apply (proj1 (Forall_forall _ _) Hcells p Hp). }
    split; [exact Hnm|].
    split.
    { split; intros Hnil.
      - by apply fmap_nil_inv in Hnil.
      - by rewrite Hnil. }
    split; [lia|]. intros ?. lia.
Qed.

Lemma normalize_by_gcd_loop_wf `{LarSolver H} (lra : H) (l : list nat)
    (s s1 : imp) :
  rows_aligned s →
  (∀ i, i ∈ l → row_wf s (row_at (m_e_matrix s) i)) →
  normalize_by_gcd_loop lra l s = (true, s1) →
  m_f s1 = m_f s ∧ m_var_register s1 = m_var_register s ∧
  rows_aligned s1 ∧ length (m_entries s1) = length (m_entries s) ∧
  (∀ k, row_wf s (row_at (m_e_matrix s) k) →
        row_wf s1 (row_at (m_e_matrix s1) k) ∧
        normalized_min (row_at (m_e_matrix s1) k)
        = normalized_min (row_at (m_e_matrix s) k) ∧
        (row_at (m_e_matrix s1) k = [] ↔ row_at (m_e_matrix s) k = []) ∧
        ((row_gcd (row_at (m_e_matrix s) k) ≤ 1)%Z →
         row_at (m_e_matrix s1) k = row_at (m_e_matrix s) k)) ∧
  (∀ i, i ∈ l → (row_gcd (row_at (m_e_matrix s1) i) ≤ 1)%Z).
Proof.
  revert s. induction l as [|i l IH]; intros s Hal Hl Hrun.
  - injection Hrun as <-. split; [done|]. split; [done|]. split; [done|].
    split; [done|]. split; [by intros k Hk|by intros i ?%elem_of_nil].
  - cbn [normalize_by_gcd_loop] in Hrun.
    destruct (normalize_e_by_gcd lra i s) as [ok s'] eqn:Hstep.
    destruct ok; [|done].
    destruct (normalize_e_by_gcd_wf lra i s s' Hal (Hl i ltac:(by left)) Hstep)
      as (Hf & Hreg & Hal' & Hlen & Hoth & Hwfi & Hnmi & Hemi & Hgi & Hsamei).
    assert (Hreg_le : length (m_var_register s) ≤ length (m_var_register s'))
      by (by rewrite Hreg).
    assert (Hwf' : ∀ k, row_wf s (row_at (m_e_matrix s) k) →
                        row_wf s' (row_at (m_e_matrix s') k)).
    { intros k Hk. destruct (decide (k = i)) as [->|Hki]; [done|].
      rewrite Hoth by done. by apply (row_wf_register s s'). }
    destruct (IH s' Hal') as (Hf1 & Hreg1 & Hal1 & Hlen1 & Hrows1 & Hg1);
      [|exact Hrun|].
    { intros j Hj. apply Hwf', Hl. by right. }
    split; [by rewrite Hf1|]. split; [by rewrite Hreg1|].
    split; [done|]. split; [by rewrite Hlen1|]. split.
    + intros k Hk. destruct (Hrows1 k (Hwf' k Hk)) as (Hw & Hnm & Hem & Hsame).
      split; [done|].
      destruct (decide (k = i)) as [->|Hki].
      * split; [by rewrite Hnm|]. split; [by rewrite Hem|].
        intros Hle. rewrite Hsame; [by apply Hsamei|].
        by rewrite Hsamei.
      * rewrite Hoth in Hnm, Hem, Hsame by done. done.
    + intros j [->|Hj]%elem_of_cons; [|by apply Hg1].
      destruct (Hrows1 i Hwfi) as (_ & _ & _ & Hsame).
      by rewrite Hsame.
Qed.

(** ** The rows that the rewrite step builds *)

Lemma find_minimal_abs_coeff_min (s : imp) (h : nat) :
  row_at (m_e_matrix s) h ≠ [] →
  Forall (λ p : nat * mpq, is_int p.2 = true ∧ p.2 ≠ 0%Qc)
    (row_at (m_e_matrix s) h) →
  let r := find_minimal_abs_coeff s h in
  r.1.1 = Qc_of_Z (row_min_abs (row_at (m_e_matrix s) h)) ∧
  ∃ a, (r.1.2, a) ∈ row_at (m_e_matrix s) h ∧ abs a = r.1.1 ∧
       r.2 = sign_of a.
Proof.
  intros Hne Hrow r.
  pose proof (find_minimal_abs_coeff_loop_spec (row_at (m_e_matrix s) h) []
                true 0%Qc 0 0%Z Hrow eq_refl (λ _, Hne)) as Hspec.
  cbn [app] in Hspec. fold (find_minimal_abs_coeff s h) in Hspec. fold r in Hspec.
  destruct Hspec as ((a & Ha & Habs & Hsign) & Hmin & _).
  split; [|by exists a].
  set (row := row_at (m_e_matrix s) h) in *.
  assert (Hia : is_int a = true)
    by (by apply (proj1 (Forall_forall _ _) Hrow (r.1.2, a) Ha)).
  rewrite <- Habs, (abs_of_int a Hia). f_equal.
  destruct (row_min_abs_elem row Hne) as (p0 & Hp0 & Hm0).
  pose proof (row_min_abs_le row (r.1.2, a) Ha) as Hle. cbn [snd] in Hle.
  specialize (Hmin p0 Hp0). rewrite <- Habs, (abs_of_int a Hia) in Hmin.
  rewrite (abs_of_int p0.2) in Hmin
    by (by apply (proj1 (Forall_forall _ _) Hrow p0 Hp0)).
  apply (proj1 (Qc_of_Z_le_iff _ _)) in Hmin. lia.
Qed.

Lemma NoDup_fst_filter {A B} (P : A * B → Prop) `{∀ x, Decision (P x)}
    (l : list (A * B)) :
  NoDup l.*1 → NoDup (filter P l).*1.
Proof.
  induction l as [|x l IH]; intros Hnd; [done|].
  apply NoDup_cons in Hnd as [Hx Hnd]. rewrite filter_cons.
  destruct (decide (P x)); [|by apply IH].
  csimpl. apply NoDup_cons. split; [|by apply IH].
  intros Hin. apply Hx. apply list_elem_of_fmap in Hin as (y & -> & Hy).
  apply list_elem_of_filter in Hy as [_ Hy].
  by apply (list_elem_of_fmap_2 fst).
Qed.

Section rows_wf.
Implicit Types r src dst : list (nat * mpq).

Lemma row_add_value_NoDup (j : nat) (w : mpq) r :
  NoDup r.*1 → NoDup (row_add_value j w r).*1.
Proof.
  induction r as [|p r IH]; intros Hnd; cbn [row_add_value].
  - cbn. apply NoDup_singleton.
  - apply NoDup_cons in Hnd as [Hp Hnd].
    destruct (decide (p.1 = j)) as [Hpj|Hpj]; cbn [fmap list_fmap fst].
    + by apply NoDup_cons.
    + csimpl. apply NoDup_cons. split; [|by apply IH].
      intros Hin. apply list_elem_of_fmap in Hin as (q & Hq1 & Hq).
      apply row_add_value_vars in Hq as [Hqj|(q' & Hq' & Hq'1)].
      * congruence.
      * apply Hp. rewrite Hq1, <- Hq'1.
        by apply (list_elem_of_fmap_2 fst).
Qed.

Lemma row_add_value_int (j : nat) (w : mpq) r :
  is_int w = true →
  Forall (λ p : nat * mpq, is_int p.2 = true) r →
  Forall (λ p : nat * mpq, is_int p.2 = true) (row_add_value j w r).
Proof.
  intros Hw Hr. induction Hr as [|p r Hp Hr IH]; cbn [row_add_value].
  - by constructor.
  - destruct (decide (p.1 = j)).
    + constructor; [|done]. cbn [snd]. by apply is_int_plus.
    + by constructor.
Qed.

Lemma row_add_scaled_wf (s : imp) (alpha : mpq) src dst :
  is_int alpha = true →
  row_wf s src → row_wf s dst → row_wf s (row_add_scaled alpha src dst).
Proof.
  intros Ha Hsrc Hdst. unfold row_add_scaled.
  assert (Hfold : NoDup (fold_left
                           (λ r p, row_add_value p.1 (alpha * p.2)%Qc r)
                           src dst).*1 ∧
                  Forall (λ p : nat * mpq, is_int p.2 = true)
                    (fold_left
                       (λ r p, row_add_value p.1 (alpha * p.2)%Qc r)
                       src dst)).
  { pose proof (row_wf_int s _ Hsrc) as Hsi.
    pose proof (row_wf_int s _ Hdst) as Hdi.
    destruct Hdst as [Hnd _]. clear Hsrc.
    revert dst Hnd Hdi. induction Hsi as [|p src Hp Hsi IH]; intros dst Hnd Hdi.
    - done.
    - cbn [fold_left]. apply IH.
      + by apply row_add_value_NoDup.
      + apply row_add_value_int; [by apply is_int_mult|done]. }
  destruct Hfold as [Hnd Hint]. split.
  - unfold drop_zeros. by apply NoDup_fst_filter.
  - apply Forall_forall. intros p Hp.
    pose proof Hp as Hp'. unfold drop_zeros in Hp'.
    apply list_elem_of_filter in Hp' as [Hnz Hin].
    repeat split.
    + by apply (proj1 (Forall_forall _ _) Hint).
    + done.
    + apply (fold_row_add_value_vars (λ x, (alpha * x.2)%Qc)) in Hin
        as [(p' & Hp' & <-)|(p' & Hp' & <-)].
      * destruct Hsrc as [_ Hc].
        by apply (proj1 (Forall_forall _ _) Hc p' Hp').
      * destruct Hdst as [_ Hc].
        by apply (proj1 (Forall_forall _ _) Hc p' Hp').
Qed.

End rows_wf.

Lemma row_wf_filter (s : imp) (P : nat * mpq → Prop) `{∀ x, Decision (P x)}
    (r : list (nat * mpq)) :
  row_wf s r → row_wf s (filter P r).
Proof.
  intros [Hnd Hc]. split; [by apply NoDup_fst_filter|].
  apply Forall_forall. intros p [_ Hp]%list_elem_of_filter.
  by apply (proj1 (Forall_forall _ _) Hc).
Qed.

Lemma row_coeff_int (s : imp) (j : nat) (r : list (nat * mpq)) :
  row_wf s r → is_int (row_coeff j r) = true.
Proof.
  intros [_ Hc]. unfold row_coeff.
  destruct (find_cell j r) as [p|] eqn:Hf; cbn; [|done].
  apply find_cell_Some in Hf as [Hp _].
  by apply (proj1 (Forall_forall _ _) Hc p Hp).
Qed.

Lemma eliminated_row_wf (s : imp) (piv r : list (nat * mpq)) (j : nat)
    (sign : mpq) :
  is_int sign = true → row_wf s piv → row_wf s r →
  row_wf s (eliminated_row piv j sign r).
Proof.
  intros Hs Hpiv Hr. unfold eliminated_row. apply row_add_scaled_wf.
  - apply is_int_mult; [|done]. apply is_int_opp. by apply (row_coeff_int s).
  - by apply row_wf_filter.
  - by apply row_wf_filter.
Qed.

Lemma residual_cells_wf (s : imp) (k : nat) (a : mpq)
    (row : list (nat * mpq)) :
  Qnum a ≠ 0%Z → row_wf s row →
  row_wf s (residual_cells k a row) ∧
  ∀ p : nat * mpq, p ∈ residual_cells k a row →
    p.1 ≠ k ∧ (Z.abs (Qnum p.2) < Z.abs (Qnum a))%Z.
Proof.
  intros Ha [Hnd Hc]. unfold residual_cells.
  induction row as [|q row IH].
  { csimpl. split; [split; constructor|]. by intros ? ?%elem_of_nil. }
  apply NoDup_cons in Hnd as [Hq Hnd]. apply Forall_cons in Hc as [Hqc Hc].
  destruct (IH Hnd Hc) as [[IHnd IHc] IHb]. clear IH.
  csimpl. destruct (decide (q.1 = k)) as [Hqk|Hqk]; [done|].
  cbn [machine_div_rem snd].
  destruct (is_zero (machine_rem q.2 a)) eqn:Hz; [done|].
  apply is_zero_false in Hz. csimpl. split; [split|].
  - apply NoDup_cons. split; [|done]. intros Hin.
    apply list_elem_of_fmap in Hin as (p & Hp1 & Hp).
    apply (residual_cells_vars k a row) in Hp. apply Hq.
    cbn [fst] in Hp1. by rewrite Hp1.
  - constructor; [|done]. destruct Hqc as (_ & _ & Hreg).
    split; [apply is_int_Qc_of_Z|]. split; [done|done].
  - intros p [->|Hp]%elem_of_cons; [|by apply IHb].
    split; [done|]. cbn [snd]. unfold machine_rem.
    change (Qnum (Qc_of_Z (Z.rem (Qnum q.2) (Qnum a))))
      with (Z.rem (Qnum q.2) (Qnum a)).
    by apply Z.rem_bound_abs.
Qed.

Lemma quotient_cells_wf (s : imp) (k : nat) (a : mpq)
    (row : list (nat * mpq)) :
  row_wf s row →
  row_wf s (quotient_cells k a row) ∧
  ∀ p : nat * mpq, p ∈ quotient_cells k a row → p.1 ≠ k.
Proof.
  intros [Hnd Hc]. unfold quotient_cells.
  induction row as [|q row IH].
  { csimpl. split; [split; constructor|]. by intros ? ?%elem_of_nil. }
  apply NoDup_cons in Hnd as [Hq Hnd]. apply Forall_cons in Hc as [Hqc Hc].
  destruct (IH Hnd Hc) as [[IHnd IHc] IHb]. clear IH.
  csimpl. destruct (decide (q.1 = k)) as [Hqk|Hqk]; [done|].
  cbn [machine_div_rem fst].
  destruct (is_zero (machine_div q.2 a)) eqn:Hz; [done|].
  apply is_zero_false in Hz. csimpl. split; [split|].
  - apply NoDup_cons. split; [|done]. intros Hin.
    apply list_elem_of_fmap in Hin as (p & Hp1 & Hp).
    apply (quotient_cells_vars k a row) in Hp as [Hp _].
    apply Hq. cbn [fst] in Hp1. by rewrite Hp1.
  - constructor; [|done]. destruct Hqc as (_ & _ & Hreg).
    split; [apply is_int_Qc_of_Z|]. split; [done|done].
  - intros p [->|Hp]%elem_of_cons; [done|by apply IHb].
Qed.

(** ** The rewrite step keeps the rows of F in order *)

Lemma rewrite_eqs_scan_suffix (s : imp) (f : list nat) :
  let r := rewrite_eqs_scan s f in
  ∃ pre, f = pre ++ r.1 ∧
         match r.2 with
         | (Some _, _) => True
         | (None, Some h) =>
             ∃ rest, r.1 = h :: rest ∧ row_at (m_e_matrix s) h ≠ []
         | (None, None) => r.1 = []
         end.
Proof.
  induction f as [|i f IH]; cbn [rewrite_eqs_scan].
  - by exists [].
  - destruct (bool_decide (length (row_at (m_e_matrix s) i) = 0)) eqn:Hlen.
    + destruct (is_zero (m_c (entry_at s i))).
      * destruct IH as (pre & Hpre & Hcase). exists (i :: pre).
        split; [by rewrite Hpre at 1|done].
      * by exists [].
    + exists []. split; [done|]. exists f. split; [done|].
      apply bool_decide_eq_false in Hlen. intros Hnil. apply Hlen.
      by rewrite Hnil.
Qed.

Lemma length_list_remove (h : nat) (l : list nat) :
  h ∈ l → length (list_remove h l) < length l.
Proof.
  unfold list_remove. induction l as [|x l IH]; [by intros ?%elem_of_nil|].
  rewrite filter_cons. intros Hin.
  destruct (decide (x ≠ h)) as [Hne|Heq].
  - apply elem_of_cons in Hin as [->|Hin]; [done|].
    cbn. specialize (IH Hin). lia.
  - pose proof (length_filter (λ i, i ≠ h) l). cbn. lia.
Qed.

Lemma is_int_of_Z (n : Z) : is_int (of_Z n) = true.
Proof. apply is_int_Qc_of_Z. Qed.

(** The row [h] is moved to S and its variable eliminated from F. *)
Lemma rewrite_unit_wf (s : imp) (h k : nat) (sign : Z) :
  f_rows_wf s → h ∈ m_f s →
  let s2 := eliminate_var_in_f h k sign (move_entry_from_f_to_s k h s) in
  f_rows_wf s2 ∧ length (m_f s2) < length (m_f s).
Proof.
  intros [Hal Hrows] Hh s2.
  destruct (Hrows h Hh) as [Hhlt Hhwf].
  destruct (move_entry_from_f_to_s_spec k h s Hhlt)
    as (HE & HL & Hlen & _ & Hf & _).
  set (sm := move_entry_from_f_to_s k h s) in *.
  assert (Hreg : m_var_register sm = m_var_register s).
  { unfold sm, move_entry_from_f_to_s. by destruct (decide _). }
  assert (Halm : rows_aligned sm).
  { destruct Hal as [H1 H2]. unfold rows_aligned. by rewrite HE, HL, Hlen. }
  destruct (eliminate_var_in_f_spec h k sign sm Halm)
    as (Hsame & Hal2 & Hlen2 & _ & Hkeep & Helim).
  fold s2 in Hsame, Hal2, Hlen2, Hkeep, Helim.
  destruct Hsame as (Hreg2 & _ & _ & Hf2 & _).
  split; [split; [done|]|].
  - intros i Hi. rewrite Hf2, Hf in Hi. unfold list_remove in Hi.
    apply list_elem_of_filter in Hi as [Hih Hi].
    destruct (Hrows i Hi) as [Hilt Hiwf].
    split; [by rewrite Hlen2, Hlen|].
    assert (Hreg' : length (m_var_register s) ≤ length (m_var_register s2))
      by (by rewrite Hreg2, Hreg).
    set (l := filter (λ i, i ≠ h) (column k (m_e_matrix sm))) in *.
    destruct (decide (i ∈ l ∧ status_at sm i = entry_status.F))
      as [[Hil HiF]|Hno].
    + destruct (Helim i Hil HiF) as (-> & _). rewrite HE.
      apply (row_wf_register s s2); [done|].
      apply eliminated_row_wf; [apply is_int_of_Z|done|done].
    + destruct (Hkeep i) as (-> & _).
      { destruct (decide (i ∈ l)); [right|by left]. tauto. }
      rewrite HE. by apply (row_wf_register s s2).
  - rewrite Hf2, Hf. by apply length_list_remove.
Qed.

(** The least coefficient of the row [x_t * a + residuals], over its gcd, is
    below [|a|]. *)
Lemma normalized_min_fresh (xt : nat) (a : mpq) (res : list (nat * mpq)) :
  (2 ≤ Z.abs (Qnum a))%Z →
  (∀ p : nat * mpq, p ∈ res → (Z.abs (Qnum p.2) < Z.abs (Qnum a))%Z) →
  normalized_min ((xt, a) :: res) < Z.to_nat (Z.abs (Qnum a)).
Proof.
  intros Ha Hres. unfold normalized_min.
  apply Nat2Z.inj_lt. rewrite !Z2Nat.id; [| lia |].
  2:{ apply Z.div_pos; [apply row_min_abs_nonneg|].
      apply (row_gcd_pos _ (xt, a)); [by left|cbn; lia]. }
  destruct res as [|p res].
  - cbn [row_min_abs row_gcd foldr fmap list_fmap snd]. unfold row_gcd. cbn.
    rewrite Z.gcd_0_r, Z.div_same by lia. lia.
  - assert (Hg : (0 < row_gcd ((xt, a) :: p :: res))%Z).
    { apply (row_gcd_pos _ (xt, a)); [by left|cbn; lia]. }
    assert (Hm : (row_min_abs ((xt, a) :: p :: res) ≤ Z.abs (Qnum p.2))%Z).
    { apply row_min_abs_le. right. by left. }
    pose proof (row_min_abs_nonneg ((xt, a) :: p :: res)) as Hge.
    specialize (Hres p ltac:(by left)).
    apply Z.le_lt_trans with (row_min_abs ((xt, a) :: p :: res)); [|lia].
    apply Z.div_le_upper_bound; [done|]. nia.
Qed.

(** The fresh variable step on the row [h], whose variable [k] has the
    coefficient [a] with [2 <= |a|]: F is kept and the row [h] gets a smaller
    least coefficient. *)
Lemma rewrite_fresh_wf (s : imp) (h k : nat) (a : mpq) :
  f_rows_wf s → h ∈ m_f s → (k, a) ∈ row_at (m_e_matrix s) h →
  (2 ≤ Z.abs (Qnum a))%Z →
  let s2 := fresh_var_step h k a s in
  f_rows_wf s2 ∧ m_f s2 = m_f s ∧
  normalized_min (row_at (m_e_matrix s2) h) < Z.to_nat (Z.abs (Qnum a)).
Proof.
  intros [Hal Hrows] Hh Hka Ha s2.
  destruct (Hrows h Hh) as [Hhlt Hhwf].
  destruct (fresh_var_step_define_spec h k a s Hal Hhlt) as (res & quo & Hdef).
  unfold s2, fresh_var_step.
  destruct (fresh_var_step_define h k a s) as [fr sd]. cbn [fst snd] in Hdef.
  clear s2. set (s2 := eliminate_var_in_f fr k 1 sd).
  unfold fresh_defined in Hdef.
  set (xt := length (m_var_register s)) in *.
  set (row := row_at (m_e_matrix s) h) in *.
  destruct Hdef as (Hfr & Hregd & Hald & Hlend & Hrq & _ & Hrowh & Hrowfr
                    & Hrowo & _ & _ & _ & _ & _ & _ & _ & Hfd & _).
  destruct Hhwf as [Hnd Hcells].
  destruct (Hrq Hnd) as [-> ->]. clear Hrq.
  pose proof (proj1 (Forall_forall _ _) Hcells _ Hka) as (Hai & Hanz & Hkreg).
  cbn [fst snd] in Hai, Hanz, Hkreg. fold xt in Hkreg.
  assert (Haq : Qnum a ≠ 0%Z) by lia.
  destruct (residual_cells_wf s k a row Haq (conj Hnd Hcells))
    as [[Hresnd Hresc] Hresb].
  destruct (quotient_cells_wf s k a row (conj Hnd Hcells))
    as [[Hquond Hquoc] Hquob].
  assert (Hregle : length (m_var_register s) ≤ length (m_var_register sd)).
  { rewrite Hregd, length_app. lia. }
  assert (Hxtd : xt < length (m_var_register sd)).
  { rewrite Hregd, length_app. cbn. unfold xt. lia. }
  assert (Hbelow : ∀ l : list (nat * mpq), Forall (cell_wf s) l → xt ∉ l.*1).
  { intros l Hl [p [Hp1 Hp]]%list_elem_of_fmap.
    pose proof (proj1 (Forall_forall _ _) Hl _ Hp) as (_ & _ & Hlt).
    rewrite <- Hp1 in Hlt. unfold xt in Hlt. lia. }
  assert (Hwfh : row_wf sd (row_at (m_e_matrix sd) h)).
  { rewrite Hrowh. split.
    - cbn. apply NoDup_cons. split; [by apply Hbelow|done].
    - apply Forall_cons. split; [done|].
      by apply (row_wf_register s sd _ Hregle (conj Hresnd Hresc)). }
  assert (Hwffr : row_wf sd (row_at (m_e_matrix sd) fr)).
  { rewrite Hrowfr. split.
    - cbn. apply NoDup_cons. split.
      + intros [Hxk|Hin]%elem_of_cons; [lia|]. by apply (Hbelow _ Hquoc).
      + apply NoDup_cons. split; [|done].
        intros [p [Hp1 Hp]]%list_elem_of_fmap. by apply (Hquob p Hp).
    - apply Forall_cons. split.
      { split; [by_compute|]. split; [by_compute|done]. }
      apply Forall_cons. split.
      { split; [by_compute|]. split; [by_compute|cbn; lia]. }
      by apply (row_wf_register s sd _ Hregle (conj Hquond Hquoc)). }
  destruct (eliminate_var_in_f_spec fr k 1 sd Hald)
    as (Hsame & Hal2 & Hlen2 & _ & Hkeep & Helim).
  fold s2 in Hsame, Hal2, Hlen2, Hkeep, Helim.
  destruct Hsame as (Hreg2 & _ & _ & Hf2 & _).
  set (l := filter (λ i, i ≠ fr) (column k (m_e_matrix sd))) in *.
  assert (Hhl : h ∉ l).
  { intros [_ [_ Hhas]%column_spec]%list_elem_of_filter.
    rewrite Hrowh in Hhas. apply row_has_true in Hhas as [b Hb].
    apply elem_of_cons in Hb as [[= Hxk _]|Hb]; [lia|].
    by apply (Hresb _ Hb). }
  assert (Hreg' : length (m_var_register sd) ≤ length (m_var_register s2))
    by (by rewrite Hreg2).
  split; [split; [done|]|split].
  - intros i Hi. rewrite Hf2, Hfd in Hi.
    destruct (Hrows i Hi) as [Hilt Hiwf].
    split; [rewrite Hlen2, Hlend; lia|].
    assert (Hwfi : row_wf sd (row_at (m_e_matrix sd) i)).
    { destruct (decide (i = h)) as [->|Hih]; [done|].
      rewrite Hrowo; [by apply (row_wf_register s sd)|done|].
      destruct Hal as [HE _]. lia. }
    destruct (decide (i ∈ l ∧ status_at sd i = entry_status.F))
      as [[Hil HiF]|Hno].
    + destruct (Helim i Hil HiF) as (-> & _).
      apply (row_wf_register sd s2); [done|].
      apply eliminated_row_wf; [apply is_int_of_Z|done|done].
    + destruct (Hkeep i) as (-> & _).
      { destruct (decide (i ∈ l)); [right|by left]. tauto. }
      by apply (row_wf_register sd s2).
  - by rewrite Hf2, Hfd.
  - destruct (Hkeep h (or_introl Hhl)) as (-> & _). rewrite Hrowh.
    apply normalized_min_fresh; [done|]. intros p Hp. by apply Hresb.
Qed.

(** ** One turn of the loop of [process_f] *)

Lemma f_rows_wf_set_m_f (s : imp) (f : list nat) :
  f_rows_wf s → (∀ i, i ∈ f → i ∈ m_f s) → f_rows_wf (set_m_f f s).
Proof.
  intros [Hal Hrows] Hsub. split; [done|].
  intros i Hi. by apply (Hrows i), (Hsub i).
Qed.

(** A turn that goes on either takes a row out of F, or keeps F and makes the
    least coefficient of its first row, over the gcd of the row, smaller. *)
Lemma rewrite_turn `{LarSolver H} (lra : H) (s s1 : imp) :
  f_rows_wf s → m_f s ≠ [] →
  normalize_by_gcd lra s = (true, s1) →
  m_conflict_index (rewrite_eqs s1) = None →
  f_rows_wf (rewrite_eqs s1) ∧
  (length (m_f (rewrite_eqs s1)) < length (m_f s) ∨
   (length (m_f (rewrite_eqs s1)) = length (m_f s) ∧
    f_head_measure (rewrite_eqs s1) < f_head_measure s)).
Proof.
  intros [Hal Hrows] Hne Hnorm Hnc.
  destruct (normalize_by_gcd_loop_wf lra (m_f s) s s1 Hal
              (λ i Hi, proj2 (Hrows i Hi)) Hnorm)
    as (Hf1 & Hreg1 & Hal1 & Hlen1 & Hrows1 & Hg1).
  assert (Hwf1 : f_rows_wf s1).
  { split; [done|]. intros i Hi. rewrite Hf1 in Hi.
    destruct (Hrows i Hi) as [Hilt Hiwf]. split; [by rewrite Hlen1|].
    by apply Hrows1. }
  unfold rewrite_eqs in *.
  destruct (rewrite_eqs_scan_suffix s1 (m_f s1)) as (pre & Hpre & Hcase).
  destruct (rewrite_eqs_scan s1 (m_f s1)) as [f [conflict h]].
  cbn [fst snd] in Hpre, Hcase.
  destruct conflict as [c|]; [done|].
  destruct h as [h|].
  - destruct Hcase as (rest & -> & Hrowne).
    assert (Hhf : h ∈ m_f s).
    { rewrite <- Hf1, Hpre. apply elem_of_app. right. by left. }
    assert (Hwf1' : f_rows_wf (set_m_f (h :: rest) s1)).
    { apply f_rows_wf_set_m_f; [done|]. intros i Hi. rewrite Hpre.
      apply elem_of_app. by right. }
    set (s1' := set_m_f (h :: rest) s1) in *.
    destruct (Hrows h Hhf) as [Hhlt Hhwf].
    destruct (Hrows1 h Hhwf) as (Hhwf1 & Hnm & _ & _).
    specialize (Hg1 h Hhf).
    set (row := row_at (m_e_matrix s1) h) in *.
    assert (Hcells : Forall (λ p : nat * mpq, is_int p.2 = true ∧ p.2 ≠ 0%Qc)
                       row).
    { destruct Hhwf1 as [_ Hc]. eapply Forall_impl; [exact Hc|].
      by intros p (? & ? & _). }
    pose proof (find_minimal_abs_coeff_min s1' h Hrowne Hcells) as Hmin.
    cbv zeta in Hmin.
    destruct (find_minimal_abs_coeff s1' h) as [[ahk k] k_sign].
    cbn [fst snd] in Hmin. change (row_at (m_e_matrix s1') h) with row in Hmin.
    destruct Hmin as (Hahk & a & Hka & Habs & Hsign).
    destruct (is_one ahk) eqn:Hone.
    + destruct (rewrite_unit_wf s1' h k k_sign Hwf1' ltac:(by left))
        as [Hwf2 Hlt].
      split; [done|]. left. revert Hlt. cbn [s1' m_f set_m_f].
      rewrite <- Hf1, Hpre, length_app. cbn. lia.
    + pose proof (proj1 (Forall_forall _ _) Hcells _ Hka) as [Hai Hanz].
      cbn [snd] in Hai, Hanz.
      assert (HA : Z.abs (Qnum a) = row_min_abs row).
      { apply Qc_of_Z_inj. rewrite <- Hahk, <- Habs. symmetry.
        by apply abs_of_int. }
      assert (Ha2 : (2 ≤ Z.abs (Qnum a))%Z).
      { assert (Z.abs (Qnum a) ≠ 1%Z).
        { intros H1. apply is_one_false in Hone. apply Hone.
          rewrite Hahk, <- HA, H1. apply Qc_of_Z_1. }
        assert (Qnum a ≠ 0%Z); [|lia].
        intros Hz. apply Hanz. rewrite (proj1 (is_int_spec _) Hai), Hz.
        apply Qc_of_Z_0. }
      assert (Hcell : (ahk * of_Z k_sign)%Qc = a).
      { rewrite <- Habs, Hsign. symmetry. apply abs_sign. }
      rewrite Hcell.
      destruct (rewrite_fresh_wf s1' h k a Hwf1' ltac:(by left) Hka Ha2)
        as (Hwf2 & Hf2 & Hlt).
      split; [done|]. rewrite Hf2. cbn [s1' m_f set_m_f].
      destruct pre as [|x pre].
      * right. cbn [app] in Hpre. split; [by rewrite <- Hf1, Hpre|].
        unfold f_head_measure. rewrite Hf2. cbn [s1' m_f set_m_f hd].
        rewrite <- Hf1, Hpre. cbn [hd].
        rewrite <- Hnm.
        replace (normalized_min row)
          with (Z.to_nat (Z.abs (Qnum a))); [done|].
        unfold normalized_min. rewrite HA.
        pose proof (row_wf_gcd_pos s1 row Hhwf1 Hrowne).
        replace (row_gcd row) with 1%Z by lia. by rewrite Z.div_1_r.
      * left. rewrite <- Hf1, Hpre. cbn. rewrite length_app. cbn. lia.
  - subst f. split.
    + apply f_rows_wf_set_m_f; [done|]. by intros i ?%elem_of_nil.
    + left. cbn. destruct (m_f s); [done|cbn; lia].
Qed.

(** ** [process_f] terminates *)

Lemma process_f_enough_fuel `{LarSolver H} (lra : H) (n m : nat) (s : imp) :
  f_rows_wf s → length (m_f s) = n → f_head_measure s = m →
  ∃ fuel r, ∀ fuel', fuel ≤ fuel' → process_f fuel' lra s = Some r.
Proof.
  revert m s. induction n as [n IHn] using lt_wf_ind.
  intros m. induction m as [m IHm] using lt_wf_ind.
  intros s Hwf Hn Hm.
  destruct (m_f s) as [|i f] eqn:Hf.
  { exists 0, (lia_move.undef, s). intros fuel' _.
    destruct fuel'; cbn [process_f]; by rewrite Hf. }
  destruct (normalize_by_gcd lra s) as [ok s1] eqn:Hnorm.
  destruct ok; cycle 1.
  { destruct (m_report_branch s1) eqn:Hrb.
    all: eexists 1, _; intros fuel' Hfuel.
    all: destruct fuel' as [|fuel']; [lia|]; cbn [process_f].
    all: rewrite Hf, Hnorm; cbn [negb]; rewrite Hrb; reflexivity. }
  destruct (m_conflict_index (rewrite_eqs s1)) as [c|] eqn:Hc.
  { eexists 1, _. intros fuel' Hfuel.
    destruct fuel' as [|fuel']; [lia|]. cbn [process_f].
    rewrite Hf, Hnorm. cbn [negb]. rewrite Hc. reflexivity. }
  assert (Hne : m_f s ≠ []) by (by rewrite Hf).
  destruct (rewrite_turn lra s s1 Hwf Hne Hnorm Hc) as [Hwf2 Hless].
  rewrite Hf in Hless.
  assert (Hrec : ∃ fuel r, ∀ fuel', fuel ≤ fuel' →
                   process_f fuel' lra (rewrite_eqs s1) = Some r).
  { destruct Hless as [Hlt|[Heq Hlt]].
    - apply (IHn (length (m_f (rewrite_eqs s1))) ltac:(lia)
               (f_head_measure (rewrite_eqs s1))); done.
    - apply (IHm (f_head_measure (rewrite_eqs s1)) ltac:(lia)); [done|lia|done]. }
  destruct Hrec as (fuel & r & Hrun).
  exists (Datatypes.S fuel), r. intros fuel' Hfuel.
  destruct fuel' as [|fuel']; [lia|]. cbn [process_f].
  rewrite Hf, Hnorm. cbn [negb]. rewrite Hc. apply Hrun. lia.
Qed.

(** X25.  [process_f] terminates on a state whose rows of F hold integer,
    non-zero coefficients of registered variables, each variable once, when
    the period of the cuts is not 0 (a conflict of the normalization takes
    the counter of the calls modulo the period): there is a number of turns
    from which on the loop returns, and the result is the same with any
    larger bound. *)
Theorem process_f_terminates `{LarSolver H} (lra : H) (s : imp) :
  dio_cut_from_proof_period lra ≠ 0 →
  f_rows_wf s →
  ∃ fuel r, ∀ fuel', fuel ≤ fuel' → process_f fuel' lra s = Some r.
Proof.
  intros _ Hwf.
  exact (process_f_enough_fuel lra (length (m_f s)) (f_head_measure s) s Hwf
           eq_refl eq_refl).
Qed.

Lemma fresh_example_wf : f_rows_wf fresh_example.
Proof.
  split; [by split|]. intros i Hi.
  change (m_f fresh_example) with [0] in Hi.
  apply list_elem_of_singleton in Hi as ->.
  split; [vm_compute; lia|]. split; [by_compute|].
  unfold cell_wf. by_compute.
Qed.

Lemma process_f_terminates_witness :
  dio_cut_from_proof_period fresh_host ≠ 0 ∧
  f_rows_wf fresh_example ∧
  ∃ fuel r, ∀ fuel', fuel ≤ fuel' →
    process_f fuel' fresh_host fresh_example = Some r.
Proof.
  assert (Hperiod : dio_cut_from_proof_period fresh_host ≠ 0)
    by (vm_compute; lia).
  split; [exact Hperiod|]. split; [exact fresh_example_wf|].
  exact (process_f_terminates fresh_host fresh_example Hperiod
           fresh_example_wf).
Defined.

(** ** What the loops leave behind *)

(** X26.  When [normalize_by_gcd] finds no conflict on a state whose rows of
    F are well formed, the rows of F stay well formed, F is the same list,
    and the coefficients of every row of F that is not empty have the
    gcd 1. *)
Theorem normalize_by_gcd_coprime `{LarSolver H} (lra : H) (s s1 : imp) :
  f_rows_wf s → normalize_by_gcd lra s = (true, s1) →
  f_rows_wf s1 ∧ m_f s1 = m_f s ∧
  ∀ i, i ∈ m_f s1 → row_at (m_e_matrix s1) i ≠ [] →
       row_gcd (row_at (m_e_matrix s1) i) = 1%Z.
Proof.
  intros [Hal Hrows] Hnorm.
  destruct (normalize_by_gcd_loop_wf lra (m_f s) s s1 Hal
              (λ i Hi, proj2 (Hrows i Hi)) Hnorm)
    as (Hf1 & Hreg1 & Hal1 & Hlen1 & Hrows1 & Hg1).
  assert (Hwf : ∀ i, i ∈ m_f s1 → row_wf s1 (row_at (m_e_matrix s1) i)).
  { intros i Hi. rewrite Hf1 in Hi. by apply Hrows1, Hrows. }
  split; [split; [done|]|split; [done|]].
  - intros i Hi. split; [|by apply Hwf].
    rewrite Hlen1. rewrite Hf1 in Hi. by apply Hrows.
  - intros i Hi Hne.
    pose proof (row_wf_gcd_pos s1 _ (Hwf i Hi) Hne).
    rewrite Hf1 in Hi. specialize (Hg1 i Hi). lia.
Qed.

Lemma normalize_example_wf : f_rows_wf normalize_example.
Proof.
  split; [by split|]. intros i Hi.
  change (m_f normalize_example) with [0] in Hi.
  apply list_elem_of_singleton in Hi as ->.
  split; [vm_compute; lia|]. split; [by_compute|].
  unfold cell_wf. by_compute.
Qed.

Lemma normalize_example_runs :
  normalize_by_gcd normalize_host normalize_example
  = (true, (normalize_by_gcd normalize_host normalize_example).2).
Proof.
  assert (E : (normalize_by_gcd normalize_host normalize_example).1 = true)
    by (vm_compute; reflexivity).
  destruct (normalize_by_gcd normalize_host normalize_example) as [ok s1].
  cbn [fst snd] in *. by subst ok.
Qed.

Lemma normalize_by_gcd_coprime_witness :
  f_rows_wf (normalize_by_gcd normalize_host normalize_example).2 ∧
  m_f (normalize_by_gcd normalize_host normalize_example).2
  = m_f normalize_example ∧
  ∀ i, i ∈ m_f (normalize_by_gcd normalize_host normalize_example).2 →
       row_at (m_e_matrix
                 (normalize_by_gcd normalize_host normalize_example).2) i
       ≠ [] →
       row_gcd (row_at (m_e_matrix
                          (normalize_by_gcd normalize_host
                             normalize_example).2) i) = 1%Z.
Proof.
  exact (normalize_by_gcd_coprime normalize_host normalize_example _
           normalize_example_wf normalize_example_runs).
Defined.
